(* ===== verification/_CoqProject ===== *)
-Q . S2P
Prelude.v
GoStd.v
GoTime.v
K8s.v
Config.v
State.v
Effects.v
Loops.v
Workload.v
Scaler.v
RestartDetect.v
NodeController.v
RolloutController.v
Wiring.v
NodeSpec.v
NodeSound.v
UndoPass.v
Cluster.v
Samples.v
LookupProps.v
NodeProps.v
RestartSpec.v
RestartSound.v
StoreSystem.v
Deadlines.v
Records.v
CrashSafety.v
Autoscaler.v
NodeLoops.v
NodeReconcile.v
NodeRequeue.v
NodeVisits.v
NodeProgress.v
RestartProps.v
RestartSafety.v
Counts.v
RestartProgress.v
Termination.v
CallBounds.v
Main.v
Watches.v
