(* ===== verification/Prelude.v ===== *)
(** * k8s-drain-surge: a verification development

    The program (Go, under src/) is a Kubernetes controller.  When a node is being
    drained it scales every opted-in single-replica workload with a pod on that
    node up to two replicas, waits for the new pod to be ready elsewhere and for
    the old one to be evicted, and scales back; a second, optional controller does
    the same for Argo Rollouts whose restart is blocked by a disruption budget.
    All progress is kept in annotations of the workload, so that a controller that
    crashes, or reads stale data, can resume or undo.

    ** Parts of the program and where they are modelled

    - The Go language and standard library parts used: [GoStd] (int32 and int64
      with their wrap-around, [strconv.Itoa] and [Atoi]) and [GoTime]
      (durations, saturating [Time.Sub], the civil calendar, RFC 3339 printing and
      parsing, with the round-trip theorems).
    - [K8s]: the Kubernetes and Argo objects as records, Go map reads and writes on
      a possibly nil annotation map, errors; the library code that is not part of
      the repository (label selectors, [metav1.Time.Equal]) is the parameter class
      [K8sLib], its documented behaviour the class [K8sLibLaws].
    - internal/config/config.go: [Config] ([Parse], [Validate]).
    - internal/controller/state.go: [State] (states, annotation keys, clearing
      functions, parsers of persisted values).
    - [Effects]: controller functions are [prog]s, finite trees of API calls with a
      continuation for every answer.  [runs p tr o] holds of every trace of calls
      and outcome in an arbitrary environment: any call may fail, any read may be
      stale, others may act between two calls, Go may range over a map in any
      order, and the process may crash before any call; [wp] is the predicate
      transformer used for proofs; [run] executes a program against a server.
      Every [prog] is a finite tree, so every run ends: no fuel is needed.
      [Loops] takes a run that returned apart and relates a loop to its iterations.
    - internal/controller/workload.go: [Workload] (the interface
      [DrainableWorkload] as the class [Drainable] with its laws, Rollout and
      Deployment as instances, the merge patch and its effect on the server).
    - internal/controller/scaler.go: [Scaler] (owner resolution, budget,
      autoscaler and pod lookups).
    - internal/controller/restart_detect.go: [RestartDetect].
    - internal/controller/node_controller.go: [NodeController] (Module [Node]:
      every handler of the drain state machine, generic in the workload type, and
      the node-level loops, orphan recovery, index and watch mappings).
    - internal/controller/rollout_controller.go: [RolloutController] (Module
      [Restart]: every handler of the restart-surge machine, orphan recovery, the
      watch predicate).
    - The two SetupWithManager functions and the index keys of logfields.go:
      [Wiring] (what the controllers hand to the manager, as logged calls that may
      fail; controller-runtime is an oracle and the class [ControllerRuntime]).
    - cmd/controller/main.go: [Main] (flags to configuration, the calls on the
      manager up to its start, the orphan recovery, the exit status).

    ** What is proved

    - [NodeSpec] specifies one reconcile of a workload as a relation on its writes
      ([drain_effect]); [NodeSound] proves it for every environment, one lemma per
      handler.  [NodeProps] reads theorems off it: refinement of an abstract state
      machine, no panic, when a surge starts, that timeouts abort, that replicas are
      not lowered before the eviction was seen, and what happens to autoscalers.
    - [StoreSystem]: a transition system over the versions of one object, in which
      reconciles start from any past version and patches arrive late, repeatedly or
      never; [KeepsRecords] is what it asks of a controller.  [Records] groups the
      owned annotations and says how every patch changes which groups are there.
      [CrashSafety] (the drain) and [RestartSafety] (the restart-surge, and both
      controllers together) are its clients: every reachable version carries no
      record or a whole one, up to the one interference between the two.
    - [Autoscaler]: the annotations together with the autoscaler's minimum: what a
      drain raised is recorded and given back, unless the restoring patch fails.
    - [UndoPass], [NodeLoops], [NodeReconcile], [NodeRequeue], [NodeVisits]: whole
      passes over a node: what they undo, what they may touch, and, call by call,
      which workloads a pass over a draining node visits (each one found, once) and
      when it runs again; and which workload a collision of names loses.
    - [Deadlines] states what a controller with timeouts promises ([TimedSurge]) and
      what follows; [Termination] discharges it for both controllers: every recorded
      operation ends after a bounded number of passes.  [CallBounds] bounds the calls
      of a reconcile and of a pass, [Counts] the values that are written.
    - [Main] proves start-up equal to the execution of a plan; [Watches] what a
      started manager gives: index lists equal scans, no lost wake-ups, no panics.
    - [NodeProgress]: each successful reconcile takes the next step, the persisted
      record reads back, and a whole drain runs end to end.
    - [RestartSpec], [RestartSound], [RestartProps], [RestartProgress]: the same for
      the restart-surge controller, and its interplay with drains.
    - [LookupProps]: what the lookups and the stuck-restart test mean; every answer
      of owner resolution with its calls.
    - [Cluster] is an in-memory API server and [Samples] holds concrete objects;
      the witnesses execute the controllers against them, and they show that the
      assumptions on the library parameter can be met.

    ** What is not modelled

    Log lines (no effect on the cluster); the text parsing of the flag package;
    controller-runtime itself (work queues, caches, leader election): that
    reconciles may start at any time from stale objects is part of [runs] and of
    [StoreSystem], and how it delivers events is the class [ControllerRuntime]; the
    logger, contexts and the type scheme; message texts of
    errors are abridged, whether an error occurs and what it wraps is kept.  Helm
    charts, manifests and CI contain no program logic.

    This file holds what the components share: tactics, hint databases, the
    notation scope and generic list lemmas. *)

From stdpp Require Export base tactics list gmap strings option.
From stdpp Require Export ssreflect.

#[global] Set Default Goal Selector "!".

(** ** The development's hint databases *)

Create HintDb surge discriminated.
Create HintDb surge_simpl.

(** ** Go results: [(T, error)] with [err != nil] on the left *)

Declare Scope surge_scope.
Delimit Scope surge_scope with surge.

(** ** Tactics *)

(** Split the conjunctions of the goal. *)
Ltac split_all := repeat match goal with |- _ ∧ _ => split end.

(** ** Lists *)

Lemma existsb_true_iff {A} (f : A → bool) (l : list A) :
  existsb f l = true ↔ ∃ x, x ∈ l ∧ f x = true.
Proof.
  rewrite existsb_exists. by setoid_rewrite list_elem_of_In.
Qed.

Lemma existsb_false_iff {A} (f : A → bool) (l : list A) :
  existsb f l = false ↔ ∀ x, x ∈ l → f x = false.
Proof.
  induction l as [|y l IH]; simpl.
  - split; [intros _ x Hx; set_solver | done].
  - rewrite orb_false_iff IH. set_solver.
Qed.

Lemma forallb_true_iff {A} (f : A → bool) (l : list A) :
  forallb f l = true ↔ ∀ x, x ∈ l → f x = true.
Proof.
  rewrite forallb_forall. by setoid_rewrite list_elem_of_In.
Qed.
