(* ===== verification/GoTime.v ===== *)
(** * Go's [time] package, as far as the controllers use it

    [Time] is an instant in nanoseconds since the Unix epoch and [Duration] a
    64-bit number of nanoseconds.  [Sub] saturates as [Time.Sub] does.
    [Format_RFC3339] prints a UTC time in the layout
    ["2006-01-02T15:04:05Z07:00"]; [Parse_RFC3339] reads that layout the way
    [time.Parse] does: two-digit month, day, minute and second, an hour of one
    or two digits, an optional fraction after a period or a comma, and ["Z"] or
    a numeric offset.  [Parse_Format] is the round trip: an instant comes back
    truncated to the second. *)

From stdpp Require Import pretty.
From Stdlib Require Import Ascii.
From S2P Require Import Prelude GoStd.

Local Open Scope Z_scope.

Abbreviation Time := Z (only parsing).
Abbreviation Duration := Z (only parsing).

Definition Nanosecond : Duration := 1.
Definition Millisecond : Duration := 1000000.
Definition Second : Duration := 1000000000.
Definition Minute : Duration := 60 * Second.

Definition minDuration : Duration := - 2 ^ 63.
Definition maxDuration : Duration := 2 ^ 63 - 1.

(** [t.Before(u)] *)
Definition Before (t u : Time) : bool := t <? u.

(** [t.Sub(u)]: saturates at the bounds of [Duration]. *)
Definition Sub (t u : Time) : Duration := Z.max minDuration (Z.min maxDuration (t - u)).

Lemma Sub_spec t u d : is_int64 d → (d < Sub t u ↔ d < t - u ∧ d < maxDuration).
Proof. unfold Sub, is_int64, minDuration, maxDuration. lia. Qed.

Lemma Sub_small t u : is_int64 (t - u) → Sub t u = t - u.
Proof. unfold Sub, is_int64, minDuration, maxDuration. lia. Qed.

(** ** The proleptic Gregorian calendar *)

Definition is_leap (y : Z) : bool :=
  (y mod 4 =? 0) && (negb (y mod 100 =? 0) || (y mod 400 =? 0)).

Definition daysIn (m y : Z) : Z :=
  if m =? 2 then (if is_leap y then 29 else 28)
  else if (m =? 4) || (m =? 6) || (m =? 9) || (m =? 11) then 30 else 31.

(** Days since 1970-01-01 of a civil date; years start in March inside. *)
Definition days_from_civil (y m d : Z) : Z :=
  let y' := if m <=? 2 then y - 1 else y in
  let era := y' / 400 in
  let yoe := y' - era * 400 in
  let mp := (m + 9) mod 12 in
  let doy := (153 * mp + 2) / 5 + d - 1 in
  era * 146097 + (yoe * 365 + yoe / 4 - yoe / 100 + doy) - 719468.

Definition yoe_of_doe (doe : Z) : Z :=
  (doe - doe / 1460 + doe / 36524 - doe / 146096) / 365.
Definition year_start (yoe : Z) : Z := 365 * yoe + yoe / 4 - yoe / 100.

Definition civil_from_days (z : Z) : Z * Z * Z :=
  let z' := z + 719468 in
  let era := z' / 146097 in
  let doe := z' - era * 146097 in
  let yoe := yoe_of_doe doe in
  let doy := doe - year_start yoe in
  let mp := (5 * doy + 2) / 153 in
  let d := doy - (153 * mp + 2) / 5 + 1 in
  let m := if mp <? 10 then mp + 3 else mp - 9 in
  let y := yoe + era * 400 in
  (if m <=? 2 then y + 1 else y, m, d).

Lemma yoe_bounds doe : 0 ≤ doe < 146097 → 0 ≤ yoe_of_doe doe ≤ 399.
Proof. unfold yoe_of_doe. intros H. Z.to_euclidean_division_equations. lia. Qed.

Lemma year_start_le doe : 0 ≤ doe < 146097 → year_start (yoe_of_doe doe) ≤ doe.
Proof. unfold year_start, yoe_of_doe. intros H. Z.to_euclidean_division_equations. lia. Qed.

Lemma year_start_next doe : 0 ≤ doe < 146097 →
  doe ≤ year_start (yoe_of_doe doe) + 364
  ∨ (doe = year_start (yoe_of_doe doe) + 365 ∧ is_leap (yoe_of_doe doe + 1) = true).
Proof.
  unfold year_start, yoe_of_doe, is_leap. intros H. Z.to_euclidean_division_equations. lia.
Qed.

Lemma leap_era y k : is_leap (y + k * 400) = is_leap y.
Proof.
  unfold is_leap. f_equal; [|f_equal; [f_equal|]]; f_equal; Z.to_euclidean_division_equations; lia.
Qed.

(** The date computed for a day is a valid civil date ... *)
Lemma civil_valid z y m d : civil_from_days z = (y, m, d) →
  1 ≤ m ≤ 12 ∧ 1 ≤ d ≤ daysIn m y.
Proof.
  unfold civil_from_days. intros [= <- <- <-].
  set (era := (z + 719468) / 146097).
  set (doe := z + 719468 - era * 146097).
  assert (0 ≤ doe < 146097) as Hdoe.
  { unfold doe, era. pose proof (Z.div_mod (z + 719468) 146097).
    pose proof (Z.mod_pos_bound (z + 719468) 146097). lia. }
  pose proof (year_start_le doe Hdoe). pose proof (year_start_next doe Hdoe) as Hnext.
  pose proof (yoe_bounds doe Hdoe).
  set (yoe := yoe_of_doe doe) in *. set (doy := doe - year_start yoe).
  assert (0 ≤ doy ≤ 365) as Hdoy by (unfold doy; lia).
  assert (doy = 365 → is_leap (yoe + era * 400 + 1) = true) as Hleap.
  { intros E. replace (yoe + era * 400 + 1) with ((yoe + 1) + era * 400) by lia.
    rewrite leap_era. destruct Hnext as [|[_ ?]]; [unfold doy in E; lia|done]. }
  clearbody doy. clear - Hdoy Hleap.
  set (mp := (5 * doy + 2) / 153).
  assert (0 ≤ mp ≤ 11) as Hmp by (unfold mp; Z.to_euclidean_division_equations; lia).
  assert (153 * mp ≤ 5 * doy + 2 < 153 * (mp + 1)) as Hdiv
    by (unfold mp; Z.to_euclidean_division_equations; lia).
  clearbody mp.
  assert (mp = 0 ∨ mp = 1 ∨ mp = 2 ∨ mp = 3 ∨ mp = 4 ∨ mp = 5 ∨ mp = 6 ∨ mp = 7 ∨ mp = 8
          ∨ mp = 9 ∨ mp = 10 ∨ mp = 11) as Hc by lia.
  unfold daysIn. destruct_or!; subst mp; simpl; split; try lia.
  all: match goal with |- context [?k / 5] => let v := eval vm_compute in (k / 5) in
         change (k / 5) with v end; simpl; try lia.
  change (11 - 9 <=? 2) with true. simpl.
  destruct (is_leap (yoe + era * 400 + 1)) ; lia.
Qed.

(** ... and denotes that day. *)
Lemma days_from_civil_from_days z y m d :
  civil_from_days z = (y, m, d) → days_from_civil y m d = z.
Proof.
  unfold civil_from_days. intros [= <- <- <-].
  set (era := (z + 719468) / 146097).
  set (doe := z + 719468 - era * 146097).
  assert (0 ≤ doe < 146097) as Hdoe.
  { unfold doe, era. pose proof (Z.div_mod (z + 719468) 146097).
    pose proof (Z.mod_pos_bound (z + 719468) 146097). lia. }
  pose proof (year_start_le doe Hdoe). pose proof (year_start_next doe Hdoe) as Hnext.
  pose proof (yoe_bounds doe Hdoe) as Hyoe.
  set (yoe := yoe_of_doe doe) in *. set (doy := doe - year_start yoe).
  assert (0 ≤ doy ≤ 365) by (unfold doy; lia).
  set (mp := (5 * doy + 2) / 153).
  assert (0 ≤ mp ≤ 11) as Hmp by (unfold mp; Z.to_euclidean_division_equations; lia).
  set (m := if mp <? 10 then mp + 3 else mp - 9).
  assert ((m + 9) mod 12 = mp) as Hm.
  { unfold m. destruct (Z.ltb_spec mp 10); Z.to_euclidean_division_equations; lia. }
  unfold days_from_civil. rewrite Hm.
  assert ((if m <=? 2 then (if m <=? 2 then yoe + era * 400 + 1 else yoe + era * 400) - 1
           else if m <=? 2 then yoe + era * 400 + 1 else yoe + era * 400)
          = yoe + era * 400) as -> by (destruct (m <=? 2); lia).
  assert ((yoe + era * 400) / 400 = era) as -> by (Z.to_euclidean_division_equations; lia).
  replace (yoe + era * 400 - era * 400) with yoe by lia.
  unfold doy, year_start in *. unfold doe in *. lia.
Qed.

(** ** RFC 3339 *)

Definition digit_char (d : Z) : ascii := pretty_N_char (Z.to_N d).
Definition pad2 (n : Z) (rest : string) : string :=
  String (digit_char (n / 10)) (String (digit_char (n mod 10)) rest).
Definition pad4 (n : Z) (rest : string) : string := pad2 (n / 100) (pad2 (n mod 100) rest).

(** [appendInt(b, year, 4)] *)
Definition append_year (y : Z) (rest : string) : string :=
  let a := Z.abs y in
  let body := if a <? 10000 then pad4 a rest else pretty a +:+ rest in
  if y <? 0 then String "-" body else body.

(** [t.UTC().Format(time.RFC3339)] *)
Definition Format_RFC3339 (t : Time) : string :=
  let secs := t / Second in
  let '(y, m, d) := civil_from_days (secs / 86400) in
  let sod := secs mod 86400 in
  append_year y (String "-" (pad2 m (String "-" (pad2 d (String "T"
    (pad2 (sod / 3600) (String ":" (pad2 (sod / 60 mod 60) (String ":"
    (pad2 (sod mod 60) (String "Z" EmptyString))))))))))).

(** [getnum(s, fixed)]: one or two digits, exactly two when [fixed]. *)
Definition getnum (fixed : bool) (s : string) : option (Z * string) :=
  match s with
  | EmptyString => None
  | String c s1 =>
      d1 ← digit_val c;
      match s1 with
      | String c2 s2 =>
          match digit_val c2 with
          | Some d2 => Some (d1 * 10 + d2, s2)
          | None => if fixed then None else Some (d1, s1)
          end
      | EmptyString => if fixed then None else Some (d1, s1)
      end
  end.

(** The literal byte [c] of the layout. *)
Definition skip_char (c : ascii) (s : string) : option string :=
  match s with
  | String c' s' => if Ascii.eqb c c' then Some s' else None
  | EmptyString => None
  end.

(** The four-digit year: [value[0:4]] through [atoi]. *)
Definition get_year (s : string) : option (Z * string) :=
  '(hi, s) ← getnum true s; '(lo, s) ← getnum true s; Some (hi * 100 + lo, s).

Definition in_range (lo hi n : Z) : option unit :=
  if (lo <=? n) && (n <=? hi) then Some tt else None.

(** The digits of a fraction: the first nine count, the rest is skipped. *)
Fixpoint read_frac (left : nat) (acc : Z) (s : string) : Z * string :=
  match s with
  | String c s' =>
      match digit_val c with
      | Some d => match left with
                  | O => read_frac O acc s'
                  | S left' => read_frac left' (acc * 10 + d) s'
                  end
      | None => (acc * 10 ^ Z.of_nat left, s)
      end
  | EmptyString => (acc * 10 ^ Z.of_nat left, s)
  end.

(** An optional fraction after a period or a comma, in nanoseconds. *)
Definition get_frac (s : string) : Z * string :=
  match s with
  | String c (String d s') =>
      if (Ascii.eqb c "." || Ascii.eqb c ",") && bool_decide (is_Some (digit_val d))
      then read_frac 9 0 (String d s') else (0, s)
  | _ => (0, s)
  end.

(** ["Z"] or a numeric offset, in seconds east of UTC. *)
Definition get_zone (s : string) : option (Z * string) :=
  match s with
  | String "Z" r => Some (0, r)
  | String sg r =>
      '(hr, r) ← getnum true r; r ← skip_char ":" r; '(mm, r) ← getnum true r;
      _ ← in_range 0 24 hr; _ ← in_range 0 60 mm;
      let off := (hr * 60 + mm) * 60 in
      if Ascii.eqb sg "+" then Some (off, r)
      else if Ascii.eqb sg "-" then Some (- off, r) else None
  | EmptyString => None
  end.

(** [time.Parse(time.RFC3339, s)]; [None] stands for a non-nil error. *)
Definition Parse_RFC3339 (s : string) : option Time :=
  '(y, s) ← get_year s; s ← skip_char "-" s;
  '(m, s) ← getnum true s; _ ← in_range 1 12 m; s ← skip_char "-" s;
  '(d, s) ← getnum true s; s ← skip_char "T" s;
  '(hh, s) ← getnum false s; _ ← in_range 0 23 hh; s ← skip_char ":" s;
  '(mi, s) ← getnum true s; _ ← in_range 0 59 mi; s ← skip_char ":" s;
  '(ss, s) ← getnum true s; _ ← in_range 0 59 ss;
  let '(ns, s) := get_frac s in
  '(off, s) ← get_zone s;
  _ ← in_range 1 (daysIn m y) d;
  if decide (s = "")
  then Some ((days_from_civil y m d * 86400 + hh * 3600 + mi * 60 + ss - off) * Second + ns)
  else None.

#[local] Arguments getnum : simpl never.
#[local] Arguments pad2 : simpl never.
#[local] Arguments in_range : simpl never.

Lemma digit_val_char d : 0 ≤ d < 10 → digit_val (digit_char d) = Some d.
Proof. intros H. unfold digit_char. rewrite digit_val_pretty; last lia. f_equal. lia. Qed.

Lemma getnum_pad2 fixed n rest : 0 ≤ n < 100 → getnum fixed (pad2 n rest) = Some (n, rest).
Proof.
  intros H. unfold getnum, pad2.
  rewrite digit_val_char; last by Z.to_euclidean_division_equations; lia. simpl.
  rewrite digit_val_char; last by Z.to_euclidean_division_equations; lia.
  simpl. repeat f_equal. Z.to_euclidean_division_equations. lia.
Qed.

Lemma get_year_pad4 n rest : 0 ≤ n < 10000 → get_year (pad4 n rest) = Some (n, rest).
Proof.
  intros H. unfold get_year, pad4. rewrite getnum_pad2 /=; last by Z.to_euclidean_division_equations; lia.
  rewrite getnum_pad2 /=; last by Z.to_euclidean_division_equations; lia.
  simpl. repeat f_equal. Z.to_euclidean_division_equations. lia.
Qed.

Lemma in_range_true lo hi n : lo ≤ n ≤ hi → in_range lo hi n = Some tt.
Proof. intros H. unfold in_range. destruct (_ && _) eqn:E; [done|lia]. Qed.

Lemma skip_char_eq c s : skip_char c (String c s) = Some s.
Proof. simpl. by rewrite Ascii.eqb_refl. Qed.

(** The calendar year of an instant. *)
Definition year_of (t : Time) : Z := (civil_from_days (t / Second / 86400)).1.1.

(** Formatting an instant of the years 0 to 9999 and parsing the text gives
    the instant back, truncated to the second. *)
Lemma Parse_Format t : 0 ≤ year_of t ≤ 9999 →
  Parse_RFC3339 (Format_RFC3339 t) = Some (t / Second * Second).
Proof.
  intros Hy. unfold Format_RFC3339, year_of in *. set (secs := t / Second) in *.
  destruct (civil_from_days (secs / 86400)) as [[y m] d] eqn:Hc. simpl in Hy.
  destruct (civil_valid _ _ _ _ Hc) as [Hm Hd].
  assert (daysIn m y ≤ 31) by (unfold daysIn; repeat case_match; lia).
  pose proof (days_from_civil_from_days _ _ _ _ Hc) as Hdays.
  set (sod := secs mod 86400).
  assert (0 ≤ sod < 86400) as Hsod by (apply Z.mod_pos_bound; lia).
  unfold append_year. rewrite (proj2 (Z.ltb_ge y 0)); last lia.
  rewrite Z.abs_eq; last lia. rewrite (proj2 (Z.ltb_lt y 10000)); last lia.
  assert (0 ≤ sod / 3600 ≤ 23 ∧ 0 ≤ sod / 60 mod 60 ≤ 59 ∧ 0 ≤ sod mod 60 ≤ 59) as (?&?&?)
    by (Z.to_euclidean_division_equations; lia).
  unfold Parse_RFC3339. rewrite get_year_pad4 /=; last lia.
  repeat first [rewrite getnum_pad2 /=; last lia | rewrite in_range_true /=; last lia].
  rewrite Hdays. f_equal.
  assert (secs = secs / 86400 * 86400 + sod) by (unfold sod; Z.to_euclidean_division_equations; lia).
  assert (sod / 3600 * 3600 + sod / 60 mod 60 * 60 + sod mod 60 = sod)
    by (Z.to_euclidean_division_equations; lia).
  lia.
Qed.

Example format_example : Format_RFC3339 (1700000000 * Second + 5) = "2023-11-14T22:13:20Z".
Proof. vm_compute. reflexivity. Qed.

Example parse_example_offset :
  Parse_RFC3339 "2023-11-15T0:13:20,5+02:00" = Some (1700000000 * Second + 500000000).
Proof. vm_compute. reflexivity. Qed.
