(* ===== verification/K8s.v ===== *)
(** * Kubernetes: the object types and library functions the code refers to

    Records hold the fields of the Kubernetes and Argo Rollouts API objects
    that the controllers read or write; a Go pointer is an [option], an absent
    map is [None], an [int32] a [Z].  Library code that is not part of the
    repository (label selectors, [metav1.Time.Equal]) is the class [K8sLib];
    [K8sLibLaws] states the documented behaviour the theorems rely on. *)

From S2P Require Import Prelude GoStd GoTime.

Local Open Scope Z_scope.

(** ** Errors *)

(** Errors returned by the API client carry what [apierrors.IsNotFound]
    reports of them; [fmt.Errorf] wraps with [%w]; [errors.Join] collects. *)
Inductive error : Type :=
| ApiError (notFound : bool) (msg : string)
| Errorf (msg : string) (wrapped : option error)
| JoinedErrors (errs : list error).

(** [apierrors.IsNotFound], which the code only applies to the client's errors. *)
Definition IsNotFound (e : error) : bool :=
  match e with ApiError nf _ => nf | _ => false end.

(** [errors.Join(errs...)]: nil when there is no error. *)
Definition errors_Join (errs : list error) : option error :=
  match errs with [] => None | _ => Some (JoinedErrors errs) end.

(** ** Library code the model takes as a parameter *)

Class K8sLib : Type := {
  LabelSelector : Type;                                    (* metav1.LabelSelector *)
  Selector : Type;                                         (* labels.Selector *)
  Requirement : Type;                                      (* labels.Requirement *)
  labels_Nothing : Selector;                               (* labels.Nothing() *)
  LabelSelectorAsSelector : LabelSelector → error + Selector;
  Requirements : Selector → list Requirement * bool;
  Requirement_String : Requirement → string;
  Requirement_Matches : Requirement → gmap string string → bool;
  Selector_Matches : Selector → gmap string string → bool;
  Time_Equal : option Time → option Time → bool            (* ( *metav1.Time).Equal *)
}.

Class K8sLibLaws (L : K8sLib) : Prop := {
  (** nil equals nil only; two times are equal when they are the same instant *)
  Time_Equal_spec : ∀ t u, Time_Equal t u = true ↔ t = u;
  (** [labels.Nothing()] selects nothing: [selectable] is false *)
  Nothing_Requirements : Requirements labels_Nothing = ([], false);
  Nothing_Matches : ∀ ls, Selector_Matches labels_Nothing ls = false;
  (** a selector matches when all of its requirements do *)
  Selector_Matches_spec : ∀ s rs ls, Requirements s = (rs, true) →
    Selector_Matches s ls = true ↔ ∀ r, r ∈ rs → Requirement_Matches r ls = true;
  (** a selector that is not selectable exposes no requirements *)
  Unselectable_spec : ∀ s rs, Requirements s = (rs, false) →
    rs = [] ∧ ∀ ls, Selector_Matches s ls = false;
  (** the printed form is the requirement: key, operator and values *)
  Requirement_String_spec : ∀ r1 r2 ls, Requirement_String r1 = Requirement_String r2 →
    Requirement_Matches r1 ls = Requirement_Matches r2 ls
}.

(** ** API objects *)

Abbreviation annotations := (gmap string string).

Record OwnerReference : Type := mkOwnerReference {
  ref_Kind : string;
  ref_APIVersion : string;
  ref_Name : string
}.

Record ObjectMeta : Type := mkObjectMeta {
  Name : string;
  Namespace : string;
  Annotations : option annotations;
  Labels : gmap string string;
  Generation : Z;
  OwnerReferences : list OwnerReference;
  CreationTimestamp : Time;
  DeletionTimestamp : option Time
}.

(** [meta.Annotations = a] *)
Definition with_Annotations (a : option annotations) (m : ObjectMeta) : ObjectMeta :=
  mkObjectMeta (Name m) (Namespace m) a (Labels m) (Generation m) (OwnerReferences m)
    (CreationTimestamp m) (DeletionTimestamp m).

Record PodCondition : Type := mkPodCondition { pc_Type : string; pc_Status : string }.

Record Pod : Type := mkPod {
  pod_meta : ObjectMeta;
  pod_NodeName : string;
  pod_Phase : string;
  pod_Conditions : list PodCondition
}.

Record Taint : Type := mkTaint { taint_Key : string; taint_Effect : string }.

Record Node : Type := mkNode { node_meta : ObjectMeta; node_Taints : list Taint }.

Record ReplicaSet : Type := mkReplicaSet { rs_meta : ObjectMeta }.

Record DeploymentCondition : Type := mkDeploymentCondition {
  dc_Type : string;
  dc_Reason : string
}.

Record HPA : Type := mkHPA {
  hpa_meta : ObjectMeta;
  hpa_MinReplicas : option Z;
  hpa_MaxReplicas : Z;
  hpa_TargetKind : string;
  hpa_TargetName : string
}.

Section objects.
Context {L : K8sLib}.

Record Rollout : Type := mkRollout {
  ro_meta : ObjectMeta;
  ro_Replicas : option Z;
  ro_Selector : option LabelSelector;
  ro_RestartAt : option Time;
  ro_Phase : string;
  ro_Message : string;
  ro_RestartedAt : option Time
}.

Record Deployment : Type := mkDeployment {
  dep_meta : ObjectMeta;
  dep_Replicas : option Z;
  dep_Selector : option LabelSelector;
  dep_StrategyType : string;
  dep_ObservedGeneration : Z;
  dep_Conditions : list DeploymentCondition
}.

Record PDB : Type := mkPDB { pdb_meta : ObjectMeta; pdb_Selector : option LabelSelector }.
End objects.

(** Constants of the API packages. *)
Definition PodSucceeded : string := "Succeeded".
Definition PodFailed : string := "Failed".
Definition PodReady : string := "Ready".
Definition ConditionTrue : string := "True".
Definition RolloutPhaseHealthy : string := "Healthy".
Definition RolloutPhaseProgressing : string := "Progressing".
Definition DeploymentProgressing : string := "Progressing".
Definition RecreateDeploymentStrategyType : string := "Recreate".

(** ** Go map reads and writes on an annotation map that may be nil *)

(** [annotations[key]]: the zero value [""] when absent. *)
Definition anno_get (a : option annotations) (key : string) : string :=
  default "" (a ≫= lookup key).

(** [v, ok := annotations[key]] *)
Definition anno_lookup (a : option annotations) (key : string) : option string :=
  a ≫= lookup key.

(** [delete(annotations, key)]: a no-op on a nil map. *)
Definition anno_delete (key : string) (a : option annotations) : option annotations :=
  delete key <$> a.

Lemma anno_get_lookup a k : anno_get a k = default "" (anno_lookup a k).
Proof. done. Qed.

Lemma anno_get_nonempty a k : anno_get a k ≠ "" → ∃ m, a = Some m ∧ m !! k = Some (anno_get a k).
Proof.
  unfold anno_get. destruct a as [m|]; simpl; [|done].
  destruct (m !! k) eqn:E; simpl; [|done]. intros _. eauto.
Qed.

Lemma anno_get_insert m k v j :
  anno_get (Some (<[k:=v]> m)) j = if decide (k = j) then v else anno_get (Some m) j.
Proof. unfold anno_get. simpl. rewrite lookup_insert. by case_decide. Qed.

Lemma anno_get_insert_eq m k v : anno_get (Some (<[k:=v]> m)) k = v.
Proof. rewrite anno_get_insert. by case_decide. Qed.

Lemma anno_get_insert_ne m k v j : k ≠ j → anno_get (Some (<[k:=v]> m)) j = anno_get (Some m) j.
Proof. intros H. rewrite anno_get_insert. by case_decide. Qed.

Lemma anno_lookup_insert m k v j :
  anno_lookup (Some (<[k:=v]> m)) j = if decide (k = j) then Some v else anno_lookup (Some m) j.
Proof. unfold anno_lookup. simpl. by rewrite lookup_insert. Qed.

Lemma anno_lookup_insert_eq m k v : anno_lookup (Some (<[k:=v]> m)) k = Some v.
Proof. rewrite anno_lookup_insert. by case_decide. Qed.

Lemma anno_lookup_insert_ne m k v j :
  k ≠ j → anno_lookup (Some (<[k:=v]> m)) j = anno_lookup (Some m) j.
Proof. intros H. rewrite anno_lookup_insert. by case_decide. Qed.

Lemma anno_lookup_delete a k j :
  anno_lookup (anno_delete k a) j = if decide (k = j) then None else anno_lookup a j.
Proof.
  unfold anno_lookup, anno_delete. destruct a as [m|]; simpl; [|by case_decide].
  rewrite lookup_delete. by case_decide.
Qed.
