(* ===== verification/Config.v ===== *)
(** * internal/config: flags, defaults and validation

    [Config] is the parsed configuration; [Parse] builds it from the values of
    the command-line flags (an unset flag is [None]) and runs [Validate].
    The flag package's text parsing is not modelled: a flag's value arrives
    typed.  [Validate_spec] characterises exactly the accepted configurations. *)

From S2P Require Import Prelude GoStd GoTime K8s.

Local Open Scope Z_scope.

Record DrainTaint : Type := mkDrainTaint { Key : string; Effect : string }.

Record Config : Type := mkConfig {
  DrainTaints : list DrainTaint;
  EnabledAnnotation : string;
  RequeueInterval : Duration;
  ReadinessTimeout : Duration;
  LeaderElect : bool;
  MetricsAddr : string;
  HealthAddr : string;
  RestartSurgeEnabled : bool;
  RestartSurgeGracePeriod : Duration;
  RestartSurgeTimeout : Duration
}.

Definition DefaultDrainTaints : list DrainTaint := [
  mkDrainTaint "karpenter.sh/disrupted" "NoSchedule";
  mkDrainTaint "ToBeDeletedByClusterAutoscaler" "NoSchedule";
  mkDrainTaint "node.kubernetes.io/unschedulable" "NoSchedule"
].

Inductive config_error : Type :=
| RequeueNotPositive (d : Duration)
| ReadinessNotPositive (d : Duration)
| ReadinessNotAboveRequeue (readiness requeue : Duration)
| NoDrainTaint
| EmptyEnabledAnnotation
| GraceNotPositive (d : Duration)
| TimeoutNotAboveGrace (timeout grace : Duration).

(** The checks in the order of the source; [None] is a nil error. *)
Definition Validate (c : Config) : option config_error :=
  if RequeueInterval c <=? 0 then Some (RequeueNotPositive (RequeueInterval c))
  else if ReadinessTimeout c <=? 0 then Some (ReadinessNotPositive (ReadinessTimeout c))
  else if ReadinessTimeout c <=? RequeueInterval c
  then Some (ReadinessNotAboveRequeue (ReadinessTimeout c) (RequeueInterval c))
  else if (length (DrainTaints c) =? 0)%nat then Some NoDrainTaint
  else if String.eqb (EnabledAnnotation c) "" then Some EmptyEnabledAnnotation
  else if RestartSurgeEnabled c then
    if RestartSurgeGracePeriod c <=? 0 then Some (GraceNotPositive (RestartSurgeGracePeriod c))
    else if RestartSurgeTimeout c <=? RestartSurgeGracePeriod c
    then Some (TimeoutNotAboveGrace (RestartSurgeTimeout c) (RestartSurgeGracePeriod c))
    else None
  else None.

(** The values given on the command line. *)
Record Flags : Type := mkFlags {
  f_enabled_annotation : option string;
  f_requeue_interval : option Duration;
  f_readiness_timeout : option Duration;
  f_leader_elect : option bool;
  f_metrics_addr : option string;
  f_health_addr : option string;
  f_restart_surge_enabled : option bool;
  f_restart_surge_grace_period : option Duration;
  f_restart_surge_timeout : option Duration
}.

Definition no_flags : Flags := mkFlags None None None None None None None None None.

(** The configuration the flags denote, before validation. *)
Definition flags_config (f : Flags) : Config :=
  mkConfig DefaultDrainTaints
    (default "k8s-drain-surge.io/enabled" (f_enabled_annotation f))
    (default (5 * Second) (f_requeue_interval f))
    (default (10 * Minute) (f_readiness_timeout f))
    (default true (f_leader_elect f))
    (default ":8080" (f_metrics_addr f))
    (default ":8081" (f_health_addr f))
    (default false (f_restart_surge_enabled f))
    (default (60 * Second) (f_restart_surge_grace_period f))
    (default (10 * Minute) (f_restart_surge_timeout f)).

Definition Parse (f : Flags) : config_error + Config :=
  let cfg := flags_config f in
  match Validate cfg with Some err => inl err | None => inr cfg end.

(** ** The accepted configurations *)

Definition valid_config (c : Config) : Prop :=
  0 < RequeueInterval c < ReadinessTimeout c ∧ DrainTaints c ≠ [] ∧ EnabledAnnotation c ≠ "" ∧
  (RestartSurgeEnabled c = true →
     0 < RestartSurgeGracePeriod c < RestartSurgeTimeout c).

Lemma Validate_spec c : Validate c = None ↔ valid_config c.
Proof.
  unfold Validate, valid_config.
  destruct (Z.leb_spec (RequeueInterval c) 0); [split; [done|lia]|].
  destruct (Z.leb_spec (ReadinessTimeout c) 0); [split; [done|lia]|].
  destruct (Z.leb_spec (ReadinessTimeout c) (RequeueInterval c)); [split; [done|lia]|].
  destruct (DrainTaints c) as [|t ts]; simpl; [naive_solver|].
  destruct (String.eqb_spec (EnabledAnnotation c) ""); [naive_solver|].
  destruct (RestartSurgeEnabled c); [|naive_solver].
  destruct (Z.leb_spec (RestartSurgeGracePeriod c) 0); [split; [done|naive_solver lia]|].
  destruct (Z.leb_spec (RestartSurgeTimeout c) (RestartSurgeGracePeriod c));
    [split; [done|naive_solver lia]|].
  naive_solver lia.
Qed.

(** [Parse] succeeds exactly on the flag values whose configuration has
    [0 < requeue-interval < readiness-timeout], a non-empty opt-in annotation key
    and, when restart-surge is on, [0 < grace-period < timeout]; it returns the
    configuration the flags denote, and no flags at all are accepted. *)
Lemma Parse_valid f cfg :
  (Parse f = inr cfg ↔ cfg = flags_config f ∧ valid_config cfg)
  ∧ Parse no_flags = inr (flags_config no_flags).
Proof.
  split; [|reflexivity]. unfold Parse. pose proof (Validate_spec (flags_config f)) as H.
  destruct (Validate _) eqn:E.
  - split; [done|]. intros [-> Hv]. apply H in Hv. done.
  - split; [intros [= <-]; split; [done|by apply H]|]. by intros [-> _].
Qed.
