(* ===== verification/State.v ===== *)
(** * internal/controller/state.go: states, annotation keys and their parsers

    The annotation keys the controllers own, the three clearing functions, and
    the readers of persisted numbers and timestamps.  The theorems show what
    each clearing function removes and keeps, and that what the handlers write
    with [strconv.Itoa] and [Time.Format] is what these readers give back. *)

From stdpp Require Import pretty.
From S2P Require Import Prelude GoStd GoTime K8s.

Local Open Scope Z_scope.

Definition ControllerName : string := "k8s-drain-surge".

(** The Go type [DrainState] is a string type; any string can be stored. *)
Abbreviation DrainState := string (only parsing).

Definition DrainStateNone : DrainState := "".
Definition DrainStatePending : DrainState := "pending".
Definition DrainStateScaledUp : DrainState := "scaled-up".
Definition DrainStateReady : DrainState := "ready".
Definition DrainStateDraining : DrainState := "draining".
Definition DrainStateDone : DrainState := "done".

Definition AnnotationEnabled : string := "k8s-drain-surge.io/enabled".
Definition AnnotationDrainState : string := "k8s-drain-surge.io/drain-state".
Definition AnnotationOriginalReplicas : string := "k8s-drain-surge.io/original-replicas".
Definition AnnotationDrainNode : string := "k8s-drain-surge.io/drain-node".
Definition AnnotationDrainStart : string := "k8s-drain-surge.io/drain-start".
Definition AnnotationHPAName : string := "k8s-drain-surge.io/hpa-name".
Definition AnnotationHPAOriginalMinReplicas : string :=
  "k8s-drain-surge.io/hpa-original-min-replicas".
Definition AnnotationRestartSurgeState : string := "k8s-drain-surge.io/restart-surge-state".
Definition AnnotationRestartSurgeStart : string := "k8s-drain-surge.io/restart-surge-start".

Definition reasonNewRSAvailable : string := "NewReplicaSetAvailable".

Definition drainAnnotationKeys : list string := [
  AnnotationDrainState; AnnotationOriginalReplicas; AnnotationDrainNode; AnnotationDrainStart;
  AnnotationHPAName; AnnotationHPAOriginalMinReplicas;
  AnnotationRestartSurgeState; AnnotationRestartSurgeStart
].

Definition restartSurgeFullKeys : list string := [
  AnnotationRestartSurgeState; AnnotationRestartSurgeStart; AnnotationOriginalReplicas;
  AnnotationHPAName; AnnotationHPAOriginalMinReplicas
].

Definition restartSurgeExclusiveKeys : list string := [
  AnnotationRestartSurgeState; AnnotationRestartSurgeStart
].

(** [for _, key := range keys { delete(annotations, key) }] *)
Definition delete_keys (keys : list string) (a : option annotations) : option annotations :=
  foldl (λ a key, anno_delete key a) a keys.

Definition clearDrainAnnotations : option annotations → option annotations :=
  delete_keys drainAnnotationKeys.
Definition clearRestartSurgeAnnotations : option annotations → option annotations :=
  delete_keys restartSurgeFullKeys.
Definition clearRestartSurgeExclusiveAnnotations : option annotations → option annotations :=
  delete_keys restartSurgeExclusiveKeys.

Definition parseRFC3339Annotation (a : option annotations) (key : string) : option Time :=
  match anno_lookup a key with
  | None => None
  | Some s => if String.eqb s "" then None else Parse_RFC3339 s
  end.

Definition parseDrainStart (a : option annotations) : option Time :=
  parseRFC3339Annotation a AnnotationDrainStart.
Definition parseRestartSurgeStart (a : option annotations) : option Time :=
  parseRFC3339Annotation a AnnotationRestartSurgeStart.

Definition getOriginalReplicas (a : option annotations) : error + Z :=
  match anno_lookup a AnnotationOriginalReplicas with
  | None => inl (Errorf "annotation not found" None)
  | Some s =>
      if String.eqb s "" then inl (Errorf "annotation not found" None)
      else match Atoi s with
           | None => inl (Errorf "invalid original-replicas value" None)
           | Some n => inr (int32_wrap n)
           end
  end.

Definition workloadKey (namespace name : string) : string := namespace +:+ "/" +:+ name.

(** ** Deleting keys *)

Lemma anno_lookup_delete_keys keys a k :
  anno_lookup (delete_keys keys a) k = if decide (k ∈ keys) then None else anno_lookup a k.
Proof.
  revert a. induction keys as [|j keys IH]; intros a.
  - case_decide; [set_solver|done].
  - simpl. rewrite IH anno_lookup_delete. repeat case_decide; try done; set_solver.
Qed.

Lemma anno_get_delete_keys keys a k :
  anno_get (delete_keys keys a) k = if decide (k ∈ keys) then "" else anno_get a k.
Proof. rewrite !anno_get_lookup anno_lookup_delete_keys. by case_decide. Qed.

Lemma anno_lookup_deleted keys a k : k ∈ keys → anno_lookup (delete_keys keys a) k = None.
Proof. intros H. rewrite anno_lookup_delete_keys. by case_decide. Qed.

Lemma anno_lookup_kept keys a k : k ∉ keys → anno_lookup (delete_keys keys a) k = anno_lookup a k.
Proof. intros H. rewrite anno_lookup_delete_keys. by case_decide. Qed.

Lemma anno_get_deleted keys a k : k ∈ keys → anno_get (delete_keys keys a) k = "".
Proof. intros H. by rewrite anno_get_lookup anno_lookup_deleted. Qed.

Lemma anno_get_kept keys a k : k ∉ keys → anno_get (delete_keys keys a) k = anno_get a k.
Proof. intros H. by rewrite !anno_get_lookup anno_lookup_kept. Qed.

(** Reading at a known key through insertions at known keys and clearings. *)
Ltac solve_key := first [done | by repeat constructor | set_solver].
Ltac anno_simpl :=
  unfold clearDrainAnnotations, clearRestartSurgeAnnotations,
    clearRestartSurgeExclusiveAnnotations;
  repeat first
    [ rewrite anno_get_insert_eq | rewrite anno_lookup_insert_eq
    | rewrite anno_get_insert_ne; [|by solve_key] | rewrite anno_lookup_insert_ne; [|by solve_key]
    | rewrite anno_get_deleted; [|by solve_key] | rewrite anno_get_kept; [|by solve_key]
    | rewrite anno_lookup_deleted; [|by solve_key] | rewrite anno_lookup_kept; [|by solve_key] ].

(** The two restart-surge clearing functions remove only keys the drain
    clearing function removes, and the exclusive one none that the drain
    machine reads. *)
Definition drainOwnKeys : list string := [
  AnnotationDrainState; AnnotationOriginalReplicas; AnnotationDrainNode; AnnotationDrainStart;
  AnnotationHPAName; AnnotationHPAOriginalMinReplicas
].

(** ** Persisted numbers and timestamps *)

Lemma getOriginalReplicas_range a n : getOriginalReplicas a = inr n → is_int32 n.
Proof.
  unfold getOriginalReplicas. repeat case_match; try done. intros [= <-]. auto with surge.
Qed.

Lemma getOriginalReplicas_some a n : getOriginalReplicas a = inr n → ∃ m, a = Some m.
Proof. unfold getOriginalReplicas. destruct a; [eauto|done]. Qed.

Lemma getOriginalReplicas_Itoa a n : is_int32 n →
  anno_lookup a AnnotationOriginalReplicas = Some (Itoa n) → getOriginalReplicas a = inr n.
Proof.
  intros Hn Ha. unfold getOriginalReplicas. rewrite Ha.
  rewrite (proj2 (String.eqb_neq (Itoa n) "") (Itoa_nonempty n)).
  rewrite Atoi_Itoa; last by auto with surge. by rewrite int32_wrap_id.
Qed.

Lemma Format_nonempty t : Format_RFC3339 t ≠ "".
Proof.
  unfold Format_RFC3339. destruct (civil_from_days _) as [[y m] d].
  unfold append_year, pad4, pad2. destruct (y <? 0); [done|]. destruct (_ <? _); [done|].
  by destruct (pretty (Z.abs y)).
Qed.

Lemma parse_Format_annotation a key t : 0 ≤ year_of t ≤ 9999 →
  anno_lookup a key = Some (Format_RFC3339 t) →
  parseRFC3339Annotation a key = Some (t / Second * Second).
Proof.
  intros Hy Ha. unfold parseRFC3339Annotation. rewrite Ha.
  rewrite (proj2 (String.eqb_neq (Format_RFC3339 t) "") (Format_nonempty t)).
  by apply Parse_Format.
Qed.
