(* ===== verification/Effects.v ===== *)
(** * Programs that talk to the API server

    A controller function is a [prog]: a finite tree of API calls ([apiE]) with
    a continuation for every answer, ending in a value or in a Go panic.  Calls
    cover the client's reads and patches, event recording, the clock, and the
    order in which Go ranges over a map, which the environment chooses.

    [runs p tr o] relates a program to every trace of calls it can make and its
    outcome, for an arbitrary environment: any answer may be an error, a read
    may be stale, other controllers may act between two calls, and the process
    may crash before any call.  [wp] is the corresponding predicate transformer,
    the proof method for all-environment theorems ([wp_runs]).  [run] executes a
    program against a server; its executions are instances of [runs] ([run_runs]). *)

From S2P Require Import Prelude GoStd GoTime K8s.

Local Open Scope Z_scope.

(** ** Patches *)

Inductive Kind : Set := KRollout | KDeployment.
#[global] Instance Kind_eq_dec : EqDecision Kind.
Proof. solve_decision. Defined.

(** The JSON merge patch of a workload:
    [{"spec":{"replicas":r},"metadata":{"annotations":{k:v,...}}}], where [None]
    is JSON null. *)
Record MergePatch : Type := mkMergePatch {
  patch_replicas : option Z;
  patch_annotations : gmap string (option string)
}.

(** ** Calls *)

Record EventRef : Type := mkEventRef {
  ev_kind : Kind;
  ev_namespace : string;
  ev_name : string
}.

Inductive EventType : Set := EventTypeNormal | EventTypeWarning.

Section effects.
Context {L : K8sLib}.

Inductive apiE : Type → Type :=
| GetNode (name : string) : apiE (error + Node)
| GetReplicaSet (namespace name : string) : apiE (error + ReplicaSet)
| GetRollout (namespace name : string) : apiE (error + Rollout)
| GetDeployment (namespace name : string) : apiE (error + Deployment)
| ListNodes : apiE (error + list Node)
| ListPodsOnNode (nodeName : string) : apiE (error + list Pod)
| ListPods (namespace : string) (sel : Selector) : apiE (error + list Pod)
| ListPDBs (namespace : string) : apiE (error + list PDB)
| ListHPAs (namespace : string) : apiE (error + list HPA)
| ListRollouts (drainNode : option string) : apiE (error + list Rollout)
| ListDeployments (drainNode : option string) : apiE (error + list Deployment)
| PatchWorkload (kind : Kind) (namespace name : string) (p : MergePatch) : apiE (error + unit)
| PatchHPA (namespace name : string) (minReplicas : Z) : apiE (error + unit)
| RecordEvent (obj : EventRef) (type : EventType) (reason msg : string) : apiE unit
| Now : apiE Time
| RangeOrder (keys : list string) : apiE (list string).

(** What the environment may answer: a map is ranged over in some order. *)
Definition legal {R} (e : apiE R) : R → Prop :=
  match e in apiE R return R → Prop with
  | RangeOrder keys => λ r, r ≡ₚ keys
  | _ => λ _, True
  end.

(** ** Programs *)

Inductive prog (A : Type) : Type :=
| Ret (a : A)
| Panic (msg : string)
| Do {R : Type} (e : apiE R) (k : R → prog A).
Arguments Ret {A} a.
Arguments Panic {A} msg.
Arguments Do {A R} e k.

Fixpoint bind {A B} (p : prog A) (f : A → prog B) : prog B :=
  match p with
  | Ret a => f a
  | Panic m => Panic m
  | Do e k => Do e (λ r, bind (k r) f)
  end.

Definition call {R} (e : apiE R) : prog R := Do e Ret.

(** [x, err := p; if err != nil { return err }; f x] *)
Definition bind_ok {A B} (p : prog (error + A)) (f : A → prog (error + B)) : prog (error + B) :=
  bind p (λ r, match r with inl e => Ret (inl e) | inr a => f a end).

(** [return fmt.Errorf(msg + ": %w", err)] on the error path *)
Definition wrap_err {A} (msg : string) (r : error + A) : error + A :=
  match r with inl e => inl (Errorf msg (Some e)) | inr a => inr a end.
Definition wrapf {A} (msg : string) (p : prog (error + A)) : prog (error + A) :=
  bind p (λ r, Ret (wrap_err msg r)).

(** A loop over a slice with a local state. *)
Fixpoint for_each {A S} (body : A → S → prog S) (l : list A) (s : S) : prog S :=
  match l with
  | [] => Ret s
  | x :: l => bind (body x s) (for_each body l)
  end.

(** [*p] on a pointer *)
Definition deref {A} (p : option A) : prog A :=
  match p with
  | Some a => Ret a
  | None => Panic "invalid memory address or nil pointer dereference"
  end.

(** [annotations[key] = v], which panics on a nil map *)
Definition map_assign (key v : string) (a : option annotations) : prog (option annotations) :=
  match a with
  | Some m => Ret (Some (<[key:=v]> m))
  | None => Panic "assignment to entry in nil map"
  end.

(** [for key, v := range m] over a Go map: the entries in some order *)
Definition map_range {A} (m : gmap string A) : prog (list (string * A)) :=
  bind (call (RangeOrder (map_to_list m).*1)) (λ ks,
    Ret (omap (λ k, (λ v, (k, v)) <$> m !! k) ks)).

(** ** Traces *)

Inductive called : Type :=
| Called {R : Type} (e : apiE R) (r : R).

Inductive outcome (A : Type) : Type :=
| Returned (a : A)
| Panicked (msg : string)
| Crashed.
Arguments Returned {A} a.
Arguments Panicked {A} msg.
Arguments Crashed {A}.

Fixpoint runs {A} (p : prog A) (tr : list called) (o : outcome A) : Prop :=
  match p with
  | Ret a => tr = [] ∧ o = Returned a
  | Panic m => tr = [] ∧ o = Panicked m
  | Do e k => (tr = [] ∧ o = Crashed)
              ∨ ∃ r tr', tr = Called e r :: tr' ∧ legal e r ∧ runs (k r) tr' o
  end.

(** The changes a call asks the server for, with whether it succeeded. *)
Inductive write : Type :=
| WWorkload (kind : Kind) (namespace name : string) (p : MergePatch) (ok : bool)
| WHPA (namespace name : string) (minReplicas : Z) (ok : bool).

Definition is_ok {A} (r : error + A) : bool := match r with inl _ => false | inr _ => true end.

Definition op_writes {R} (e : apiE R) : R → list write :=
  match e in apiE R return R → list write with
  | PatchWorkload k ns n p => λ r, [WWorkload k ns n p (is_ok r)]
  | PatchHPA ns n min => λ r, [WHPA ns n min (is_ok r)]
  | _ => λ _, []
  end.
Definition call_writes (c : called) : list write := match c with Called e r => op_writes e r end.
Definition writes (tr : list called) : list write := tr ≫= call_writes.

(** The events a run records. *)
Definition op_events {R} (e : apiE R) : list string :=
  match e with RecordEvent _ _ reason _ => [reason] | _ => [] end.
Definition events (tr : list called) : list string :=
  tr ≫= λ c, match c with Called e _ => op_events e end.

(** The clock readings of a run. *)
Definition op_times {R} (e : apiE R) : R → list Time :=
  match e in apiE R return R → list Time with Now => λ t, [t] | _ => λ _, [] end.
Definition clock_reads (tr : list called) : list Time :=
  tr ≫= λ c, match c with Called e r => op_times e r end.

(** ** The predicate transformer *)

Fixpoint wp {A} (p : prog A) (Q : list called → outcome A → Prop) : Prop :=
  match p with
  | Ret a => Q [] (Returned a)
  | Panic m => Q [] (Panicked m)
  | Do e k => Q [] Crashed ∧ ∀ r, legal e r → wp (k r) (λ tr o, Q (Called e r :: tr) o)
  end.

Lemma wp_mono {A} (p : prog A) (P Q : list called → outcome A → Prop) :
  (∀ tr o, P tr o → Q tr o) → wp p P → wp p Q.
Proof.
  revert P Q. induction p as [a|m|R e k IH]; simpl; intros P Q HPQ; [auto..|].
  intros [Hc Hk]. split; [auto|]. intros r Hr. eapply IH, Hk; [|done]. auto.
Qed.

(** [wp] is sound and complete for the runs. *)
Lemma wp_runs {A} (p : prog A) Q : wp p Q ↔ ∀ tr o, runs p tr o → Q tr o.
Proof.
  revert Q. induction p as [a|m|R e k IH]; simpl; intros Q; [naive_solver..|].
  setoid_rewrite IH. naive_solver.
Qed.

(** The continuation of a sequence, after the calls [tr] of its first part. *)
Definition bind_post {A B} (f : A → prog B) (Q : list called → outcome B → Prop)
    (tr : list called) (o : outcome A) : Prop :=
  match o with
  | Returned a => wp (f a) (λ tr' o', Q (tr ++ tr') o')
  | Panicked m => Q tr (Panicked m)
  | Crashed => Q tr Crashed
  end.

Lemma wp_bind {A B} (p : prog A) (f : A → prog B) Q :
  wp (bind p f) Q ↔ wp p (bind_post f Q).
Proof.
  revert Q. induction p as [a|m|R e k IH]; simpl; intros Q; [done..|].
  split; intros [Hc Hk]; (split; [done|]); intros r Hr.
  - specialize (Hk r Hr). apply IH in Hk. eapply wp_mono, Hk. by intros tr [].
  - apply IH. specialize (Hk r Hr). eapply wp_mono, Hk. by intros tr [].
Qed.

Lemma wp_conj {A} (p : prog A) P Q : wp p P → wp p Q → wp p (λ tr o, P tr o ∧ Q tr o).
Proof.
  rewrite !wp_runs. intros H1 H2 tr o Hr. split; [by apply H1|by apply H2].
Qed.

Lemma writes_app tr1 tr2 : writes (tr1 ++ tr2) = writes tr1 ++ writes tr2.
Proof. unfold writes. by rewrite bind_app. Qed.

Lemma clock_reads_app tr1 tr2 : clock_reads (tr1 ++ tr2) = clock_reads tr1 ++ clock_reads tr2.
Proof. unfold clock_reads. by rewrite bind_app. Qed.

Lemma writes_cons {R} (e : apiE R) r tr : writes (Called e r :: tr) = op_writes e r ++ writes tr.
Proof. done. Qed.

(** An invariant on the local state of a loop and a property of the calls that
    every iteration establishes and that is closed under concatenation. *)
Lemma wp_for_each {A S} (body : A → S → prog S) (I : S → Prop)
    (T : list called → Prop) (Hnil : T []) (Happ : ∀ t1 t2, T t1 → T t2 → T (t1 ++ t2)) l :
  (∀ x s, x ∈ l → I s →
     wp (body x s) (λ tr o, T tr ∧ match o with
                                   | Returned s' => I s' | Panicked _ => False | Crashed => True
                                   end)) →
  ∀ s, I s →
  wp (for_each body l s) (λ tr o, T tr ∧ match o with
                                         | Returned s' => I s' | Panicked _ => False
                                         | Crashed => True
                                         end).
Proof.
  induction l as [|x l IH]; intros Hbody s Hs; simpl; [done|].
  apply wp_bind. eapply wp_mono; [|apply (Hbody x s); [set_solver|done]].
  intros tr [s'|m|]; simpl; [|tauto..]. intros [HT HI].
  eapply wp_mono; [|apply IH; [|exact HI]].
  - intros tr' o [HT' Ho]. split; [by apply Happ|done].
  - intros y s0 Hy. apply Hbody. set_solver.
Qed.

(** ** Executing a program against a server *)

Record server (W : Type) : Type := mkServer {
  serve : ∀ {R}, apiE R → W → R * W;
  serve_legal : ∀ R (e : apiE R) w, legal e (serve e w).1
}.

Fixpoint run {W A} (S : server W) (p : prog A) (w : W) : list called * outcome A * W :=
  match p with
  | Ret a => ([], Returned a, w)
  | Panic m => ([], Panicked m, w)
  | Do e k =>
      let '(r, w') := serve W S e w in
      let '(tr, o, w'') := run S (k r) w' in
      (Called e r :: tr, o, w'')
  end.

Lemma run_runs {W A} (S : server W) (p : prog A) w tr o w' :
  run S p w = (tr, o, w') → runs p tr o.
Proof.
  revert w tr o w'. induction p as [a|m|R e k IH]; simpl; intros w tr o w' H.
  - by simplify_eq.
  - by simplify_eq.
  - pose proof (serve_legal W S R e w) as Hl.
    destruct (serve W S e w) as [r w1]. destruct (run S (k r) w1) as [[tr1 o1] w2] eqn:E.
    simplify_eq. right. exists r, tr1. split; [done|]. split; [done|]. eauto.
Qed.

Lemma run_bind {W A B} (S : server W) (p : prog A) (f : A → prog B) w :
  run S (bind p f) w =
    match run S p w with
    | (tr, Returned a, w') => let '(tr', o, w'') := run S (f a) w' in (tr ++ tr', o, w'')
    | (tr, Panicked m, w') => (tr, Panicked m, w')
    | (tr, Crashed, w') => (tr, Crashed, w')
    end.
Proof.
  revert w. induction p as [a|m|R e k IH]; simpl; intros w.
  - by destruct (run S (f a) w) as [[??]?].
  - done.
  - destruct (serve W S e w) as [r w1]. rewrite IH.
    destruct (run S (k r) w1) as [[tr []] w2]; try done.
    by destruct (run S (f a) w2) as [[??]?].
Qed.
End effects.

Arguments Ret {L A} a.
Arguments Panic {L A} msg.
Arguments Do {L A R} e k.
Arguments Returned {A} a.
Arguments Panicked {A} msg.
Arguments Crashed {A}.
Arguments serve {L W} _ {R} _ _.
Arguments mkServer {L W} _ _.

(** A run that panicked. *)
Definition panicked {A} (o : outcome A) : Prop :=
  match o with Panicked _ => True | _ => False end.

(** A handler that returned without an error. *)
Definition succeeded {A} (o : outcome (error + A)) : Prop :=
  match o with Returned (inr _) => True | _ => False end.

Notation "'let*' x ':=' p 'in' q" := (bind p (λ x, q))
  (at level 200, x pattern, p at level 100, q at level 200, right associativity) : surge_scope.
Notation "'let?' x ':=' p 'in' q" := (bind_ok p (λ x, q))
  (at level 200, x pattern, p at level 100, q at level 200, right associativity) : surge_scope.
Notation "p ;; q" := (bind p (λ _, q))
  (at level 100, q at level 200, right associativity) : surge_scope.

(** Reduce [wp] of a concrete program: one goal per answer and outcome. *)
Ltac wp_split :=
  repeat first
    [ progress cbn [wp bind bind_ok wrapf wrap_err call deref map_assign legal]
    | match goal with
      | |- _ ∧ _ => split
      | |- ∀ _, _ => intro
      end ].
