(* ===== verification/Loops.v ===== *)
(** * Loops over slices, iteration by iteration

    [chain P l tr s s'] says that the calls [tr] of a loop over [l] are the
    concatenation of one group per element, in order, each related by [P] to the
    local state before and after it.  [wp_for_each_chain] establishes it for every
    loop that returns; it is how the theorems about whole passes (abort all
    workloads of a node, recover orphans, collect the workloads of a node) follow
    from the effect of one iteration. *)

From S2P Require Import Prelude GoStd GoTime K8s Effects.

(** ** The parts of a run that returns *)

Section parts.
Context {L : K8sLib}.

Lemma runs_bind {A B} (p : prog A) (f : A → prog B) tr b :
  runs (bind p f) tr (Returned b) →
  ∃ a tr1 tr2, tr = tr1 ++ tr2 ∧ runs p tr1 (Returned a) ∧ runs (f a) tr2 (Returned b).
Proof.
  revert tr. induction p as [a|m|R e k IH]; intros tr; cbn.
  - intros H. by exists a, [], tr.
  - by intros [_ [=]].
  - intros [[_ [=]]|(r & tr' & -> & Hl & (a & tr1 & tr2 & -> & H1 & H2)%IH)].
    exists a, (Called e r :: tr1), tr2. split; [done|]. split; [|done].
    right. by exists r, tr1.
Qed.

Lemma runs_call {R} (e : apiE R) tr r :
  runs (call e) tr (Returned r) → tr = [Called e r] ∧ legal e r.
Proof. cbn. intros [[_ [=]]|(r' & tr' & -> & Hl & -> & [= <-])]. done. Qed.

Lemma runs_ret {A} (a b : A) tr : runs (Ret a) tr (Returned b) → tr = [] ∧ b = a.
Proof. cbn. by intros [-> [= <-]]. Qed.

(** A map is ranged over entry by entry, in the order the environment chose. *)
Lemma runs_map_range {A} (m : gmap string A) tr es :
  runs (map_range m) tr (Returned es) →
  tr = [Called (RangeOrder (map_to_list m).*1) es.*1] ∧ es ≡ₚ map_to_list m.
Proof.
  intros (ks & tr1 & tr2 & -> & [-> Hks]%runs_call & [-> ->]%runs_ret)%runs_bind. cbn in Hks.
  set (g := λ k, (λ v, (k, v)) <$> m !! k).
  assert (∀ l, (∀ kv, kv ∈ l → m !! kv.1 = Some kv.2) → omap g l.*1 = l) as Hg.
  { induction l as [|[k v] l IH]; intros Hl; [done|]. simpl. unfold g at 1.
    rewrite (Hl (k, v)); [|set_solver]. simpl. f_equal. apply IH. set_solver. }
  assert (∀ l, (∀ k, k ∈ l → is_Some (m !! k)) → (omap g l).*1 = l) as Hk.
  { induction l as [|k l IH]; intros Hl; [done|]. simpl. unfold g at 1.
    destruct (Hl k) as [v ->]; [set_solver|]. simpl. f_equal. apply IH. set_solver. }
  split.
  - rewrite Hk; [done|]. intros k. rewrite Hks.
    intros ([k' v] & -> & Hin%elem_of_map_to_list)%list_elem_of_fmap. eauto.
  - rewrite Hks. apply reflexive_eq, Hg. intros [k v]. apply elem_of_map_to_list.
Qed.
End parts.

Section loops.
Context {L : K8sLib} {A S : Type}.

Inductive chain (P : A → list called → S → S → Prop) : list A → list called → S → S → Prop :=
| chain_nil s : chain P [] [] s s
| chain_cons x l tr1 tr2 s s1 s2 :
    P x tr1 s s1 → chain P l tr2 s1 s2 → chain P (x :: l) (tr1 ++ tr2) s s2.

Lemma wp_for_each_chain (P : A → list called → S → S → Prop) (body : A → S → prog S) l :
  (∀ x s, x ∈ l → wp (body x s) (λ tr o, ¬ panicked o ∧ ∀ s', o = Returned s' → P x tr s s')) →
  ∀ s, wp (for_each body l s) (λ tr o, ¬ panicked o ∧ ∀ s', o = Returned s' → chain P l tr s s').
Proof.
  induction l as [|x l IH]; intros Hbody s; simpl.
  - split; [by intros []|]. intros s' [= <-]. constructor.
  - apply wp_bind. eapply wp_mono; [|apply Hbody; set_solver].
    intros tr [s1|m|] [Hp HP]; simpl; [|by destruct Hp|by split; [intros []|]].
    eapply wp_mono; [|apply IH; intros y s0 Hy; apply Hbody; set_solver].
    intros tr' o [Hp' Hc]. split; [done|]. intros s' Ho.
    eapply chain_cons; [by apply HP|by apply Hc].
Qed.

(** A loop that returned is the sequence of its iterations. *)
Lemma runs_for_each (body : A → S → prog S) l s tr s' :
  runs (for_each body l s) tr (Returned s') →
  chain (λ x tr s s', runs (body x s) tr (Returned s')) l tr s s'.
Proof.
  revert s tr. induction l as [|x l IH]; intros s tr; cbn [for_each].
  - intros [-> ->]%runs_ret. constructor.
  - intros (s1 & tr1 & tr2 & -> & H1 & H2)%runs_bind. by eapply chain_cons, IH.
Qed.

(** Every element had its iteration. *)
Lemma chain_elem P l tr s s' x : chain P l tr s s' → x ∈ l →
  ∃ tr1 s1 s2, P x tr1 s1 s2 ∧ ∀ c, c ∈ tr1 → c ∈ tr.
Proof.
  induction 1 as [|y l tr1 tr2 s s1 s2 HP _ IH]; [set_solver|].
  intros [->|Hx]%elem_of_cons; [exists tr1, s, s1; set_solver|].
  destruct (IH Hx) as (tr' & t1 & t2 & HP' & Hin). exists tr', t1, t2. set_solver.
Qed.

(** An invariant of the local state that may speak about the calls made. *)
Lemma chain_invariant P (I : list called → S → Prop) l tr s s' :
  (∀ x pre tr s s', I pre s → P x tr s s' → I (pre ++ tr) s') →
  chain P l tr s s' → ∀ pre, I pre s → I (pre ++ tr) s'.
Proof.
  intros Hstep. induction 1 as [s|x l tr1 tr2 s s1 s2 HP _ IH]; intros pre Hs.
  - by rewrite app_nil_r.
  - rewrite app_assoc. apply IH. by eapply Hstep.
Qed.
End loops.
