(* ===== verification/Workload.v ===== *)
(** * internal/controller/workload.go: the [DrainableWorkload] interface

    The Go interface is the class [Drainable]; [RolloutWorkload] and
    [DeploymentWorkload] are its two instances, and [DrainableWorkload], the
    interface value the node controller stores in maps, dispatches to them.
    A method that hands out a pointer ([GetObjectMeta]) becomes a reader and an
    updater ([set_annotations], the only field changed through it).
    [DrainableLaws] says that the methods behave like independent fields; the
    controllers' theorems use only these laws.

    [patchReplicasAndAnnotations] builds the merge patch; [merge_annotations] is
    what RFC 7386 prescribes for its annotation part. *)

From S2P Require Import Prelude GoStd GoTime K8s Effects State.

Local Open Scope Z_scope.
Local Open Scope surge_scope.

Class Drainable {L : K8sLib} (T : Type) : Type := {
  GetReplicas : T → Z;
  SetReplicas : Z → T → T;
  IsStable : T → bool;
  CanSurge : T → bool;
  GetPodSelector : T → Selector;
  GetObjectMeta : T → ObjectMeta;
  set_annotations : option annotations → T → T;
  spec_Replicas : T → option Z;
  workload_kind : T → Kind
}.

(** The strings of [GetObjectKind]. *)
Definition kind_string (k : Kind) : string :=
  match k with KRollout => "Rollout" | KDeployment => "Deployment" end.

Class DrainableLaws {L : K8sLib} (T : Type) {D : Drainable T} : Prop := {
  GetReplicas_spec : ∀ w : T, GetReplicas w = default 1 (spec_Replicas w);
  spec_SetReplicas : ∀ n (w : T), spec_Replicas (SetReplicas n w) = Some n;
  meta_SetReplicas : ∀ n (w : T), GetObjectMeta (SetReplicas n w) = GetObjectMeta w;
  kind_SetReplicas : ∀ n (w : T), workload_kind (SetReplicas n w) = workload_kind w;
  meta_set_annotations : ∀ a (w : T),
    GetObjectMeta (set_annotations a w) = with_Annotations a (GetObjectMeta w);
  spec_set_annotations : ∀ a (w : T), spec_Replicas (set_annotations a w) = spec_Replicas w;
  kind_set_annotations : ∀ a (w : T), workload_kind (set_annotations a w) = workload_kind w
}.

(** ** Patching *)

(** The annotation part of the patch: every local annotation is set; every
    owned key that is absent locally is null. *)
Definition anno_patch (a : option annotations) : gmap string (option string) :=
  foldl (λ p key, match anno_lookup a key with Some _ => p | None => <[key := None]> p end)
    (Some <$> default ∅ a) drainAnnotationKeys.

Definition patchReplicasAndAnnotations {L : K8sLib} (kind : Kind) (namespace name : string)
    (replicas : option Z) (a : option annotations) : prog (error + unit) :=
  call (PatchWorkload kind namespace name (mkMergePatch replicas (anno_patch a))).

Definition patch_of {L : K8sLib} `{Drainable T} (w : T) : MergePatch :=
  mkMergePatch (spec_Replicas w) (anno_patch (Annotations (GetObjectMeta w))).

(** [wl.Patch(ctx, c)] *)
Definition Patch {L : K8sLib} `{Drainable T} (w : T) : prog (error + unit) :=
  patchReplicasAndAnnotations (workload_kind w) (Namespace (GetObjectMeta w))
    (Name (GetObjectMeta w)) (spec_Replicas w) (Annotations (GetObjectMeta w)).

(** [wl.Object()], as the recorder refers to it *)
Definition object_ref {L : K8sLib} `{Drainable T} (w : T) : EventRef :=
  mkEventRef (workload_kind w) (Namespace (GetObjectMeta w)) (Name (GetObjectMeta w)).

(** RFC 7386 on the annotation map: null deletes, a string sets, the rest stays. *)
Definition merge_annotations (p : gmap string (option string)) (a : annotations) : annotations :=
  merge (λ po ao, match po with Some v => v | None => ao end) p a.

Lemma lookup_merge_annotations p a k :
  merge_annotations p a !! k = match p !! k with Some v => v | None => a !! k end.
Proof. unfold merge_annotations. rewrite lookup_merge. by destruct (p !! k), (a !! k). Qed.

Lemma anno_patch_lookup a k :
  anno_patch a !! k = match anno_lookup a k with
                      | Some v => Some (Some v)
                      | None => if decide (k ∈ drainAnnotationKeys) then Some None else None
                      end.
Proof.
  unfold anno_patch.
  assert (∀ keys (p : gmap string (option string)), foldl (λ p key, match anno_lookup a key with
                                    | Some _ => p | None => <[key := None]> p end) p keys !! k
    = match anno_lookup a k with
      | Some v => p !! k
      | None => if decide (k ∈ keys) then Some None else p !! k
      end) as Hf.
  { induction keys as [|j keys IH]; intros p.
    - case_decide; [set_solver|]. simpl. by destruct (anno_lookup a k).
    - simpl. rewrite IH. destruct (anno_lookup a j) eqn:Ej, (anno_lookup a k) eqn:Ek; try done.
      + repeat case_decide; try done; set_solver.
      + rewrite lookup_insert_ne //. congruence.
      + rewrite lookup_insert. repeat case_decide; try done; set_solver. }
  rewrite Hf lookup_fmap. unfold anno_lookup. destruct a as [m|]; simpl.
  - by destruct (m !! k).
  - rewrite lookup_empty. done.
Qed.

(** ** Selectors *)

Definition selectorFromLabelSelector {L : K8sLib} (ls : option LabelSelector) : Selector :=
  match ls with
  | None => labels_Nothing
  | Some ls => match LabelSelectorAsSelector ls with
               | inl _ => labels_Nothing
               | inr sel => sel
               end
  end.

(** ** Rollouts *)

Definition argoRestartingMessage : string := "rollout is restarting".

Section rollout.
Context {L : K8sLib}.

Definition Rollout_GetReplicas (r : Rollout) : Z :=
  match ro_Replicas r with None => 1 | Some n => n end.
Definition Rollout_SetReplicas (n : Z) (r : Rollout) : Rollout :=
  mkRollout (ro_meta r) (Some n) (ro_Selector r) (ro_RestartAt r) (ro_Phase r) (ro_Message r)
    (ro_RestartedAt r).
Definition Rollout_IsStable (r : Rollout) : bool :=
  String.eqb (ro_Phase r) RolloutPhaseHealthy.
Definition IsStableForRestart (r : Rollout) : bool :=
  if String.eqb (ro_Phase r) RolloutPhaseHealthy then true
  else String.eqb (ro_Phase r) RolloutPhaseProgressing
       && String.eqb (ro_Message r) argoRestartingMessage.
Definition Rollout_set_annotations (a : option annotations) (r : Rollout) : Rollout :=
  mkRollout (with_Annotations a (ro_meta r)) (ro_Replicas r) (ro_Selector r) (ro_RestartAt r)
    (ro_Phase r) (ro_Message r) (ro_RestartedAt r).

#[global] Instance RolloutWorkload : Drainable Rollout := {
  GetReplicas := Rollout_GetReplicas;
  SetReplicas := Rollout_SetReplicas;
  IsStable := Rollout_IsStable;
  CanSurge := λ _, true;
  GetPodSelector := λ r, selectorFromLabelSelector (ro_Selector r);
  GetObjectMeta := ro_meta;
  set_annotations := Rollout_set_annotations;
  spec_Replicas := ro_Replicas;
  workload_kind := λ _, KRollout
}.

#[global] Instance RolloutWorkload_laws : DrainableLaws Rollout.
Proof. by split. Qed.
End rollout.

(** ** Deployments *)

Section deployment.
Context {L : K8sLib}.

Definition Deployment_GetReplicas (d : Deployment) : Z :=
  match dep_Replicas d with None => 1 | Some n => n end.
Definition Deployment_SetReplicas (n : Z) (d : Deployment) : Deployment :=
  mkDeployment (dep_meta d) (Some n) (dep_Selector d) (dep_StrategyType d)
    (dep_ObservedGeneration d) (dep_Conditions d).
Definition Deployment_IsStable (d : Deployment) : bool :=
  if existsb (λ cond, String.eqb (dc_Type cond) DeploymentProgressing
                      && String.eqb (dc_Reason cond) reasonNewRSAvailable) (dep_Conditions d)
  then true
  else dep_ObservedGeneration d =? Generation (dep_meta d).
Definition Deployment_CanSurge (d : Deployment) : bool :=
  negb (String.eqb (dep_StrategyType d) RecreateDeploymentStrategyType).
Definition Deployment_set_annotations (a : option annotations) (d : Deployment) : Deployment :=
  mkDeployment (with_Annotations a (dep_meta d)) (dep_Replicas d) (dep_Selector d)
    (dep_StrategyType d) (dep_ObservedGeneration d) (dep_Conditions d).

#[global] Instance DeploymentWorkload : Drainable Deployment := {
  GetReplicas := Deployment_GetReplicas;
  SetReplicas := Deployment_SetReplicas;
  IsStable := Deployment_IsStable;
  CanSurge := Deployment_CanSurge;
  GetPodSelector := λ d, selectorFromLabelSelector (dep_Selector d);
  GetObjectMeta := dep_meta;
  set_annotations := Deployment_set_annotations;
  spec_Replicas := dep_Replicas;
  workload_kind := λ _, KDeployment
}.

#[global] Instance DeploymentWorkload_laws : DrainableLaws Deployment.
Proof. by split. Qed.
End deployment.

(** ** Interface values *)

Section dispatch.
Context {L : K8sLib}.

Inductive DrainableWorkload : Type :=
| WRollout (r : Rollout)
| WDeployment (d : Deployment).

#[global] Instance DrainableWorkload_dispatch : Drainable DrainableWorkload := {
  GetReplicas w := match w with WRollout r => GetReplicas r | WDeployment d => GetReplicas d end;
  SetReplicas n w := match w with
                     | WRollout r => WRollout (SetReplicas n r)
                     | WDeployment d => WDeployment (SetReplicas n d)
                     end;
  IsStable w := match w with WRollout r => IsStable r | WDeployment d => IsStable d end;
  CanSurge w := match w with WRollout r => CanSurge r | WDeployment d => CanSurge d end;
  GetPodSelector w := match w with
                      | WRollout r => GetPodSelector r
                      | WDeployment d => GetPodSelector d
                      end;
  GetObjectMeta w := match w with
                     | WRollout r => GetObjectMeta r
                     | WDeployment d => GetObjectMeta d
                     end;
  set_annotations a w := match w with
                         | WRollout r => WRollout (set_annotations a r)
                         | WDeployment d => WDeployment (set_annotations a d)
                         end;
  spec_Replicas w := match w with
                     | WRollout r => spec_Replicas r
                     | WDeployment d => spec_Replicas d
                     end;
  workload_kind w := match w with
                     | WRollout r => workload_kind r
                     | WDeployment d => workload_kind d
                     end
}.

#[global] Instance DrainableWorkload_laws : DrainableLaws DrainableWorkload.
Proof. split; by intros; destruct w. Qed.
End dispatch.

(** ** Derived facts about any drainable workload *)

Section derived.
Context {L : K8sLib} {T : Type} `{DrainableLaws T}.

Lemma GetReplicas_SetReplicas n (w : T) : GetReplicas (SetReplicas n w) = n.
Proof. by rewrite GetReplicas_spec spec_SetReplicas. Qed.

Lemma GetReplicas_set_annotations a (w : T) : GetReplicas (set_annotations a w) = GetReplicas w.
Proof. by rewrite !GetReplicas_spec spec_set_annotations. Qed.

Lemma Annotations_set_annotations a (w : T) :
  Annotations (GetObjectMeta (set_annotations a w)) = a.
Proof. by rewrite meta_set_annotations. Qed.

Lemma Name_set_annotations a (w : T) :
  Name (GetObjectMeta (set_annotations a w)) = Name (GetObjectMeta w).
Proof. by rewrite meta_set_annotations. Qed.

Lemma Namespace_set_annotations a (w : T) :
  Namespace (GetObjectMeta (set_annotations a w)) = Namespace (GetObjectMeta w).
Proof. by rewrite meta_set_annotations. Qed.
End derived.

#[export] Hint Rewrite @GetReplicas_SetReplicas @GetReplicas_set_annotations
  @Annotations_set_annotations @Name_set_annotations @Namespace_set_annotations
  @spec_SetReplicas @meta_SetReplicas @kind_SetReplicas
  @spec_set_annotations @kind_set_annotations using typeclasses eauto : surge_simpl.

(** ** Effect of a patch on the stored annotations *)

Lemma merge_anno_patch_lookup a stored k :
  merge_annotations (anno_patch a) stored !! k =
    match anno_lookup a k with
    | Some v => Some v
    | None => if decide (k ∈ drainAnnotationKeys) then None else stored !! k
    end.
Proof.
  rewrite lookup_merge_annotations anno_patch_lookup.
  destruct (anno_lookup a k); [done|]. by case_decide.
Qed.

Lemma merge_anno_patch_owned a stored k : k ∈ drainAnnotationKeys →
  merge_annotations (anno_patch a) stored !! k = anno_lookup a k.
Proof.
  intros Hk. rewrite merge_anno_patch_lookup. destruct (anno_lookup a k); [done|]. by case_decide.
Qed.

(** C34. Merging the patch built by [patchReplicasAndAnnotations] into any stored
    object makes every owned annotation equal to the local copy, absent ones
    included, so that deletions are not lost; any other annotation is overwritten
    by the local copy's value when the local copy has one, however old that copy
    is, and keeps the stored value only when the local copy has none; applying the
    patch twice is the same as applying it once. *)
Theorem patch_merge_spec a (stored : annotations) k :
  (k ∈ drainAnnotationKeys →
     merge_annotations (anno_patch a) stored !! k = anno_lookup a k)
  ∧ (k ∉ drainAnnotationKeys →
     merge_annotations (anno_patch a) stored !! k
     = match anno_lookup a k with Some v => Some v | None => stored !! k end)
  ∧ merge_annotations (anno_patch a) (merge_annotations (anno_patch a) stored)
    = merge_annotations (anno_patch a) stored.
Proof.
  split; [apply merge_anno_patch_owned|]. split.
  - intros Hk. rewrite merge_anno_patch_lookup. destruct (anno_lookup a k); [done|].
    by case_decide.
  - apply map_eq. intros j. rewrite !merge_anno_patch_lookup.
    destruct (anno_lookup a j); [done|]. by case_decide.
Qed.

Lemma patch_merge_spec_witness :
  merge_annotations (anno_patch None) {[AnnotationDrainState := "ready"]} !! AnnotationDrainState
  = anno_lookup None AnnotationDrainState
  ∧ merge_annotations (anno_patch (Some {["owner" := "stale"]})) {["owner" := "new"]} !! "owner"
    = Some "stale".
Proof.
  split.
  - apply (proj1 (patch_merge_spec None {[AnnotationDrainState := "ready"]} AnnotationDrainState)).
    solve_key.
  - etransitivity;
      [apply (proj1 (proj2 (patch_merge_spec (Some {["owner" := "stale"]})
                              {["owner" := "new"]} "owner")))|reflexivity].
    solve_key.
Defined.
