(* ===== verification/Scaler.v ===== *)
(** * internal/controller/scaler.go: owner resolution and cluster lookups

    Each function is one read (two or three for owner resolution) followed by a
    pure decision; the pure parts are separate definitions so that the theorems
    can speak about them.  Error wrapping follows the source. *)

From stdpp Require Import pretty.
From S2P Require Import Prelude GoStd GoTime K8s Effects State Workload.

Local Open Scope Z_scope.
Local Open Scope surge_scope.

Section scaler.
Context {L : K8sLib}.

(** ** Pod → ReplicaSet → Rollout or Deployment *)

(** The first loop: the name of the owning ReplicaSet, [""] when there is none. *)
Definition owner_replicaset (refs : list OwnerReference) : string :=
  match List.find (λ ref, String.eqb (ref_Kind ref) "ReplicaSet"
                          && String.eqb (ref_APIVersion ref) "apps/v1") refs with
  | Some ref => ref_Name ref
  | None => ""
  end.

(** The second loop. *)
Fixpoint resolve_owner (namespace : string) (refs : list OwnerReference) :
    prog (error + option DrainableWorkload) :=
  match refs with
  | [] => Ret (inr None)
  | ref :: refs =>
      if String.eqb (ref_Kind ref) "Rollout" && String.eqb (ref_APIVersion ref) "argoproj.io/v1alpha1"
      then let? rollout := wrapf "get Rollout" (call (GetRollout namespace (ref_Name ref))) in
           Ret (inr (Some (WRollout rollout)))
      else if String.eqb (ref_Kind ref) "Deployment" && String.eqb (ref_APIVersion ref) "apps/v1"
      then let? dep := wrapf "get Deployment" (call (GetDeployment namespace (ref_Name ref))) in
           Ret (inr (Some (WDeployment dep)))
      else resolve_owner namespace refs
  end.

Definition ResolveWorkloadFromPod (pod : Pod) : prog (error + option DrainableWorkload) :=
  let rsName := owner_replicaset (OwnerReferences (pod_meta pod)) in
  if String.eqb rsName "" then Ret (inr None)
  else
    let? rs := wrapf "get ReplicaSet"
                 (call (GetReplicaSet (Namespace (pod_meta pod)) rsName)) in
    resolve_owner (Namespace (pod_meta pod)) (OwnerReferences (rs_meta rs)).

(** ** Disruption budgets *)

Definition requirementsMatch (pdbReqs workloadReqs : list Requirement) : bool :=
  if (length pdbReqs =? 0)%nat then false
  else forallb (λ pr, existsb (λ wr, String.eqb (Requirement_String pr) (Requirement_String wr))
                        workloadReqs) pdbReqs.

Definition pdb_matches (workloadReqs : list Requirement) (pdb : PDB) : bool :=
  match pdb_Selector pdb with
  | None => false
  | Some ls =>
      match LabelSelectorAsSelector ls with
      | inl _ => false
      | inr pdbSelector => requirementsMatch (Requirements pdbSelector).1 workloadReqs
      end
  end.

Definition FindMatchingPDB (namespace : string) (podSelector : Selector) : prog (error + bool) :=
  let? pdbs := wrapf "list PDBs" (call (ListPDBs namespace)) in
  Ret (inr (existsb (pdb_matches (Requirements podSelector).1) pdbs)).

(** ** Autoscalers *)

Definition hpa_targets (workloadName workloadKind : string) (hpa : HPA) : bool :=
  String.eqb (hpa_TargetName hpa) workloadName && String.eqb (hpa_TargetKind hpa) workloadKind.

Definition FindMatchingHPA (namespace workloadName workloadKind : string) :
    prog (error + option HPA) :=
  let? hpas := wrapf "list HPAs" (call (ListHPAs namespace)) in
  Ret (inr (List.find (hpa_targets workloadName workloadKind) hpas)).

Definition PatchHPAMinReplicas (namespace hpaName : string) (minReplicas : Z) :
    prog (error + unit) :=
  call (PatchHPA namespace hpaName minReplicas).

Definition HPAMinReplicasOrDefault (hpa : HPA) : Z :=
  match hpa_MinReplicas hpa with Some n => n | None => 1 end.

Definition IsHPAAtMinReplicas (hpa : HPA) (target : Z) : bool :=
  match hpa_MinReplicas hpa with Some n => target <=? n | None => false end.

(** ** Pods *)

Definition listMatchingPods (namespace : string) (podSelector : Selector) :
    prog (error + list Pod) :=
  wrapf "list pods" (call (ListPods namespace podSelector)).

Definition isPodReady (pod : Pod) : bool :=
  existsb (λ cond, String.eqb (pc_Type cond) PodReady
                   && String.eqb (pc_Status cond) ConditionTrue) (pod_Conditions pod).

Definition isPodTerminating (pod : Pod) : bool :=
  match DeletionTimestamp (pod_meta pod) with Some _ => true | None => false end.

Definition ready_elsewhere (drainNode : string) (pod : Pod) : bool :=
  negb (String.eqb (pod_NodeName pod) drainNode) && isPodReady pod && negb (isPodTerminating pod).

Definition FindReadyPodOnOtherNode (namespace : string) (podSelector : Selector)
    (drainNode : string) : prog (error + bool) :=
  let? pods := listMatchingPods namespace podSelector in
  Ret (inr (existsb (ready_elsewhere drainNode) pods)).

Definition alive_on (nodeName : string) (pod : Pod) : bool :=
  String.eqb (pod_NodeName pod) nodeName && negb (isPodTerminating pod)
  && negb (String.eqb (pod_Phase pod) PodSucceeded)
  && negb (String.eqb (pod_Phase pod) PodFailed).

Definition FindPodOnNode (namespace : string) (podSelector : Selector) (nodeName : string) :
    prog (error + bool) :=
  let? pods := listMatchingPods namespace podSelector in
  Ret (inr (existsb (alive_on nodeName) pods)).

(** ** What the budget check means *)

Lemma requirementsMatch_spec pdbReqs workloadReqs :
  requirementsMatch pdbReqs workloadReqs = true ↔
  pdbReqs ≠ [] ∧ ∀ pr, pr ∈ pdbReqs →
    ∃ wr, wr ∈ workloadReqs ∧ Requirement_String pr = Requirement_String wr.
Proof.
  unfold requirementsMatch. destruct pdbReqs as [|p ps]; [naive_solver|].
  cbn [length Nat.eqb]. rewrite forallb_true_iff. setoid_rewrite existsb_true_iff.
  setoid_rewrite String.eqb_eq. naive_solver.
Qed.

(** Resolution is read-only and returns what the last read answered. *)
Lemma resolve_owner_reads ns refs :
  wp (resolve_owner ns refs) (λ tr o, writes tr = [] ∧ ∀ m, o ≠ Panicked m).
Proof.
  induction refs as [|ref refs IH]; simpl; [done|].
  repeat case_match; [wp_split; repeat case_match; done..|done].
Qed.

Lemma ResolveWorkloadFromPod_reads pod :
  wp (ResolveWorkloadFromPod pod) (λ tr o, writes tr = [] ∧ ∀ m, o ≠ Panicked m).
Proof.
  unfold ResolveWorkloadFromPod. case_match; [done|].
  unfold bind_ok, wrapf. simpl. split; [done|]. intros [e|rs] _; simpl; [done|].
  apply resolve_owner_reads.
Qed.
End scaler.
