(* ===== verification/RestartDetect.v ===== *)
(** * internal/controller/restart_detect.go: is an Argo restart stuck or finished? *)

From S2P Require Import Prelude GoStd GoTime K8s.

Local Open Scope Z_scope.

Section detect.
Context {L : K8sLib}.

(** [ro.Status.RestartedAt != nil && ro.Status.RestartedAt.Equal(ro.Spec.RestartAt)] *)
Definition restarted (ro : Rollout) : bool :=
  match ro_RestartedAt ro with
  | None => false
  | Some t => Time_Equal (Some t) (ro_RestartAt ro)
  end.

(** A pod the restart has still to replace. *)
Definition predates (restartAt : Time) (p : Pod) : bool :=
  match DeletionTimestamp (pod_meta p) with
  | Some _ => false
  | None => Before (CreationTimestamp (pod_meta p)) restartAt
  end.

Definition isRestartStuck (ro : Rollout) (pods : list Pod) (gracePeriod : Duration)
    (now : Time) : bool :=
  match ro_RestartAt ro with
  | None => false
  | Some restartAt =>
      if restarted ro then false
      else if Before now restartAt then false
      else if Sub now restartAt <? gracePeriod then false
      else existsb (predates restartAt) pods
  end.

Definition restartCompletedByArgo (ro : Rollout) (pods : list Pod) : bool :=
  match ro_RestartAt ro with
  | None => true
  | Some restartAt =>
      if restarted ro then true
      else negb (existsb (predates restartAt) pods)
  end.

(** A pending restart: [spec.restartAt] set and not reported as done. *)
Definition restart_pending (ro : Rollout) (restartAt : Time) : Prop :=
  ro_RestartAt ro = Some restartAt ∧ ro_RestartedAt ro ≠ Some restartAt.

Lemma restarted_spec {LL : K8sLibLaws L} ro t :
  ro_RestartAt ro = Some t → restarted ro = true ↔ ro_RestartedAt ro = Some t.
Proof.
  intros Ht. unfold restarted. destruct (ro_RestartedAt ro) as [u|]; [|naive_solver].
  rewrite Time_Equal_spec Ht. naive_solver.
Qed.

Lemma isRestartStuck_pending ro pods grace now : isRestartStuck ro pods grace now = true →
  ∃ t, ro_RestartAt ro = Some t ∧ restarted ro = false.
Proof. unfold isRestartStuck. repeat case_match; naive_solver. Qed.
End detect.
