(* ===== verification/NodeController.v ===== *)
(** * internal/controller/node_controller.go: the drain-surge reconciler

    The handlers of the drain state machine, generic in the workload type
    (a [Drainable] instance, as the Go code is generic in the interface), and
    the node-level loops.  A handler is a [prog] ending in [error + Result], the
    Go pair [(ctrl.Result, error)], whose result is empty whenever the error is
    not nil.  The workload object a handler receives by pointer is threaded as a
    value: every later reader in the same call sees the updates.  Log lines are
    left out; events are calls. *)

From stdpp Require Import pretty.
From S2P Require Import Prelude GoStd GoTime K8s Effects Config State Workload Scaler.

Local Open Scope Z_scope.
Local Open Scope surge_scope.

(** [ctrl.Result] *)
Record Result : Type := mkResult { RequeueAfter : Duration }.
Definition no_requeue : Result := mkResult 0.

(** [fmt] verbs [%d] and [%s] by concatenation. *)
Definition fmt_d (n : Z) : string := Itoa n.

Module Node.
Section node.
Context {L : K8sLib} (cfg : Config).

Section handlers.
Context {T : Type} {D : Drainable T}.

Definition eventf (w : T) (ty : EventType) (reason msg : string) : prog unit :=
  call (RecordEvent (object_ref w) ty reason msg).

(** [meta.Annotations[key] = v] *)
Definition annotate (key v : string) (w : T) : prog T :=
  let* a := map_assign key v (Annotations (GetObjectMeta w)) in
  Ret (set_annotations a w).

(** [if meta.Annotations == nil { meta.Annotations = make(map[string]string) }] *)
Definition ensure_annotations (w : T) : T :=
  match Annotations (GetObjectMeta w) with
  | None => set_annotations (Some ∅) w
  | Some _ => w
  end.

Definition anno (w : T) (key : string) : string :=
  anno_get (Annotations (GetObjectMeta w)) key.

Definition restoreHPA (meta : ObjectMeta) : prog (error + unit) :=
  let hpaName := anno_get (Annotations meta) AnnotationHPAName in
  if String.eqb hpaName "" then Ret (inr ())
  else
    match Atoi (anno_get (Annotations meta) AnnotationHPAOriginalMinReplicas) with
    | None => Ret (inl (Errorf "invalid hpa-original-min-replicas value" None))
    | Some originalMin =>
        PatchHPAMinReplicas (Namespace meta) hpaName (int32_wrap originalMin)
    end.

Definition abortWorkload (w : T) : prog (error + Result) :=
  restoreHPA (GetObjectMeta w) ;;
  let w := match getOriginalReplicas (Annotations (GetObjectMeta w)) with
           | inr original => SetReplicas original w
           | inl _ => w
           end in
  let w := set_annotations (clearDrainAnnotations (Annotations (GetObjectMeta w))) w in
  let? _ := wrapf "abort workload" (Patch w) in
  eventf w EventTypeWarning "DrainAborted" "Drain surge operation aborted" ;;
  Ret (inr no_requeue).

Definition shouldProcess (w : T) (nodeName : string) : prog bool :=
  let meta := GetObjectMeta w in
  if negb (String.eqb (anno w (EnabledAnnotation cfg)) "true") then Ret false
  else if negb (GetReplicas w =? 1) then Ret false
  else if negb (IsStable w) then
    eventf w EventTypeWarning "DrainSkipped"
      "Workload is not in a stable state — skipping drain surge" ;;
    Ret false
  else if (let drainNode := anno w AnnotationDrainNode in
           negb (String.eqb drainNode "") && negb (String.eqb drainNode nodeName))
  then Ret false
  else if negb (CanSurge w) then
    eventf w EventTypeWarning "DrainSkipped" "Workload strategy does not support drain surge" ;;
    Ret false
  else
    let* r := FindMatchingHPA (Namespace meta) (Name meta) (kind_string (workload_kind w)) in
    match r with
    | inl _ => Ret false
    | inr (Some hpa) =>
        if hpa_MaxReplicas hpa <=? 1 then
          eventf w EventTypeWarning "DrainSkipped" "HPA maxReplicas=1 prevents drain surge" ;;
          Ret false
        else Ret true
    | inr None => Ret true
    end.

Definition handlePending (w : T) (nodeName : string) : prog (error + Result) :=
  let meta := GetObjectMeta w in
  let? hasPDB := FindMatchingPDB (Namespace meta) (GetPodSelector w) in
  if negb hasPDB then
    eventf w EventTypeWarning "NoPDB"
      "No PodDisruptionBudget found matching workload pods — skipping drain surge" ;;
    Ret (inr no_requeue)
  else
    let originalReplicas := GetReplicas w in
    let surged := int32_add originalReplicas 1 in
    let w := ensure_annotations w in
    let* w := annotate AnnotationDrainState DrainStateScaledUp w in
    let* w := annotate AnnotationOriginalReplicas (Itoa originalReplicas) w in
    let* w := annotate AnnotationDrainNode nodeName w in
    let* now := call Now in
    let* w := annotate AnnotationDrainStart (Format_RFC3339 now) w in
    let? hpa := FindMatchingHPA (Namespace meta) (Name meta) (kind_string (workload_kind w)) in
    match hpa with
    | Some hpa =>
        if hpa_MaxReplicas hpa <? surged then
          eventf w EventTypeWarning "DrainSkipped"
            ("HPA maxReplicas=" +:+ fmt_d (hpa_MaxReplicas hpa) +:+ " prevents drain surge") ;;
          Ret (inr no_requeue)
        else if IsHPAAtMinReplicas hpa surged then
          let* _ := deref (hpa_MinReplicas hpa) in
          Ret (inr (mkResult (250 * Millisecond)))
        else
          let originalMin := HPAMinReplicasOrDefault hpa in
          let* w := annotate AnnotationHPAName (Name (hpa_meta hpa)) w in
          let* w := annotate AnnotationHPAOriginalMinReplicas (Itoa originalMin) w in
          let? _ := wrapf "patch workload for scale-up" (Patch w) in
          let? _ := wrapf "patch HPA minReplicas for scale-up"
                      (PatchHPAMinReplicas (Namespace meta) (Name (hpa_meta hpa)) surged) in
          eventf w EventTypeNormal "DrainSurge"
            ("Patched HPA " +:+ Name (hpa_meta hpa) +:+ " minReplicas from "
             +:+ fmt_d originalMin +:+ " to " +:+ fmt_d surged +:+ " for node drain on "
             +:+ nodeName) ;;
          Ret (inr (mkResult (RequeueInterval cfg)))
    | None =>
        let w := SetReplicas surged w in
        eventf w EventTypeNormal "DrainSurge"
          ("Scaled up from " +:+ fmt_d originalReplicas +:+ " to " +:+ fmt_d surged
           +:+ " for node drain on " +:+ nodeName) ;;
        let? _ := wrapf "patch workload for scale-up" (Patch w) in
        Ret (inr (mkResult (RequeueInterval cfg)))
    end.

Definition handleScaleUp (w : T) (nodeName : string) : prog (error + Result) :=
  match getOriginalReplicas (Annotations (GetObjectMeta w)) with
  | inl _ => abortWorkload w
  | inr original =>
      let* w :=
        if GetReplicas w <=? original then
          eventf w EventTypeWarning "CompetingController"
            "Replicas were reset externally during drain surge" ;;
          Ret (SetReplicas (int32_add original 1) w)
        else Ret w in
      let* w := annotate AnnotationDrainState DrainStateScaledUp w in
      let? _ := wrapf "patch workload for scale-up (reentrant)" (Patch w) in
      Ret (inr (mkResult (RequeueInterval cfg)))
  end.

(** The part of [handleWaitReady] after the re-application check. *)
Definition waitReady_pods (w : T) (nodeName : string) : prog (error + Result) :=
  let? ready := FindReadyPodOnOtherNode (Namespace (GetObjectMeta w)) (GetPodSelector w)
                  nodeName in
  if ready : bool then
    let* w := annotate AnnotationDrainState DrainStateReady w in
    let? _ := wrapf "patch workload to ready" (Patch w) in
    Ret (inr (mkResult (RequeueInterval cfg)))
  else Ret (inr (mkResult (RequeueInterval cfg))).

Definition handleWaitReady (w : T) (nodeName : string) : prog (error + Result) :=
  if String.eqb (anno w AnnotationHPAName) "" then
    match getOriginalReplicas (Annotations (GetObjectMeta w)) with
    | inl _ => abortWorkload w
    | inr original =>
        if GetReplicas w <=? original then
          let w := SetReplicas (int32_add original 1) w in
          let? _ := wrapf "re-apply scale-up" (Patch w) in
          Ret (inr (mkResult (RequeueInterval cfg)))
        else waitReady_pods w nodeName
    end
  else waitReady_pods w nodeName.

Definition handleWaitEviction (w : T) (nodeName : string) : prog (error + Result) :=
  let meta := GetObjectMeta w in
  let? podOnNode := FindPodOnNode (Namespace meta) (GetPodSelector w) nodeName in
  if negb podOnNode then
    let? _ := wrapf "restore HPA after eviction" (restoreHPA meta) in
    match getOriginalReplicas (Annotations meta) with
    | inl _ => abortWorkload w
    | inr original =>
        let w := if String.eqb (anno w AnnotationHPAName) "" then SetReplicas original w
                 else w in
        let* w := annotate AnnotationDrainState DrainStateDraining w in
        let? _ := wrapf "patch workload for scale-down" (Patch w) in
        eventf w EventTypeNormal "DrainScaleDown"
          ("Scaled down to " +:+ fmt_d original +:+ " after pod eviction from " +:+ nodeName) ;;
        Ret (inr (mkResult (RequeueInterval cfg)))
    end
  else Ret (inr (mkResult (RequeueInterval cfg))).

Definition handleScaleDown (w : T) : prog (error + Result) :=
  match getOriginalReplicas (Annotations (GetObjectMeta w)) with
  | inl _ => abortWorkload w
  | inr original =>
      let w := if String.eqb (anno w AnnotationHPAName) "" && negb (GetReplicas w =? original)
               then SetReplicas original w else w in
      let* w := annotate AnnotationDrainState DrainStateDone w in
      let? _ := wrapf "patch workload to done" (Patch w) in
      Ret (inr (mkResult (RequeueInterval cfg)))
  end.

Definition handleCleanup (w : T) : prog (error + Result) :=
  let w := set_annotations (clearDrainAnnotations (Annotations (GetObjectMeta w))) w in
  let? _ := wrapf "patch workload for cleanup" (Patch w) in
  eventf w EventTypeNormal "DrainComplete" "Drain surge operation completed successfully" ;;
  Ret (inr no_requeue).

Definition isActive (currentState : DrainState) : bool :=
  negb (String.eqb currentState DrainStateNone) && negb (String.eqb currentState DrainStateDone).

(** The checks and the dispatch below the stale/timeout block. *)
Definition reconcile_state (w : T) (nodeName : string) (currentState : DrainState) :
    prog (error + Result) :=
  let* go :=
    if String.eqb currentState DrainStateNone || String.eqb currentState "" then
      shouldProcess w nodeName
    else
      let drainNode := anno w AnnotationDrainNode in
      Ret (negb (negb (String.eqb drainNode "") && negb (String.eqb drainNode nodeName))) in
  if negb go then Ret (inr no_requeue)
  else if String.eqb currentState DrainStateNone then handlePending w nodeName
  else if String.eqb currentState DrainStatePending then handleScaleUp w nodeName
  else if String.eqb currentState DrainStateScaledUp then handleWaitReady w nodeName
  else if String.eqb currentState DrainStateReady then handleWaitEviction w nodeName
  else if String.eqb currentState DrainStateDraining then handleScaleDown w
  else if String.eqb currentState DrainStateDone then handleCleanup w
  else abortWorkload w.

Definition reconcileWorkload (w : T) (nodeName : string) : prog (error + Result) :=
  let currentState := anno w AnnotationDrainState in
  match (if isActive currentState
         then parseDrainStart (Annotations (GetObjectMeta w)) else None) with
  | Some drainStart =>
      let* now := call Now in
      let elapsed := Sub now drainStart in
      if int64_mul 3 (ReadinessTimeout cfg) <? elapsed then
        eventf w EventTypeWarning "DrainStale"
          ("Force aborting stale drain operation on node " +:+ nodeName) ;;
        abortWorkload w
      else if ReadinessTimeout cfg <? elapsed then
        eventf w EventTypeWarning "DrainTimeout"
          ("Drain operation timed out on node " +:+ nodeName) ;;
        abortWorkload w
      else reconcile_state w nodeName currentState
  | None => reconcile_state w nodeName currentState
  end.
End handlers.

(** ** Node-level loops *)

Definition hasDrainTaint (node : Node) : bool :=
  existsb (λ taint, existsb (λ dt, String.eqb (taint_Key taint) (Key dt)) (DrainTaints cfg))
    (node_Taints node).

Definition key_of (w : DrainableWorkload) : string :=
  workloadKey (Namespace (GetObjectMeta w)) (Name (GetObjectMeta w)).

(** [workloads[workloadKey(...)] = wl] for every item of a list. *)
Definition index_workloads (ws : list DrainableWorkload) (m : gmap string DrainableWorkload) :
    gmap string DrainableWorkload :=
  foldl (λ m w, <[key_of w := w]> m) m ws.

Definition findWorkloadsWithDrainNode (nodeName : string) :
    prog (error + gmap string DrainableWorkload) :=
  let? rollouts := wrapf "list rollouts" (call (ListRollouts (Some nodeName))) in
  let workloads := index_workloads (WRollout <$> rollouts) ∅ in
  let? deps := wrapf "list deployments" (call (ListDeployments (Some nodeName))) in
  Ret (inr (index_workloads (WDeployment <$> deps) workloads)).

Definition abortWorkloadsForNode (nodeName : string) : prog (error + Result) :=
  let? workloads := findWorkloadsWithDrainNode nodeName in
  let* entries := map_range workloads in
  let* errs := for_each (λ kw errs,
      let* r := abortWorkload kw.2 in
      Ret (match r with inl err => errs ++ [err] | inr _ => errs end)) entries [] in
  Ret (match errors_Join errs with Some err => inl err | None => inr no_requeue end).

Definition skip_pod (pod : Pod) : bool :=
  String.eqb (pod_Phase pod) PodSucceeded || String.eqb (pod_Phase pod) PodFailed
  || isPodTerminating pod.

(** One iteration of the pod loop of [Reconcile]. *)
Definition collect_workload (pod : Pod) (workloads : gmap string DrainableWorkload) :
    prog (gmap string DrainableWorkload) :=
  if skip_pod pod then Ret workloads
  else
    let* r := ResolveWorkloadFromPod pod in
    match r with
    | inl _ => Ret workloads
    | inr None => Ret workloads
    | inr (Some wl) =>
        match workloads !! key_of wl with
        | None => Ret (<[key_of wl := wl]> workloads)
        | Some _ => Ret workloads
        end
    end.

(** The smaller of two requeue delays, where 0 means none. *)
Definition min_requeue (requeueAfter r : Duration) : Duration :=
  if (0 <? r) && ((requeueAfter =? 0) || (r <? requeueAfter)) then r else requeueAfter.

Definition Reconcile (name : string) : prog (error + Result) :=
  let* r := call (GetNode name) in
  match r with
  | inl err => if IsNotFound err then abortWorkloadsForNode name else Ret (inl err)
  | inr node =>
      let nodeName := Name (node_meta node) in
      if negb (hasDrainTaint node) then abortWorkloadsForNode nodeName
      else
        let? pods := wrapf "list pods on node" (call (ListPodsOnNode nodeName)) in
        let* workloads := for_each collect_workload pods ∅ in
        let* existing := findWorkloadsWithDrainNode nodeName in
        let workloads := match existing with
                         | inl _ => workloads
                         | inr existingWorkloads => workloads ∪ existingWorkloads
                         end in
        if decide (workloads = ∅) then Ret (inr no_requeue)
        else
          let* entries := map_range workloads in
          let* requeueAfter := for_each (λ kw requeueAfter,
              let* result := reconcileWorkload kw.2 nodeName in
              Ret (match result with
                   | inl _ => requeueAfter
                   | inr res => min_requeue requeueAfter (RequeueAfter res)
                   end)) entries 0 in
          Ret (inr (if 0 <? requeueAfter then mkResult requeueAfter else no_requeue))
  end.

(** ** Orphan recovery *)

Definition taintedNodes (nodes : list Node) : gset string :=
  list_to_set ((λ n, Name (node_meta n)) <$> List.filter hasDrainTaint nodes).

Definition is_orphan {T} {D : Drainable T} (tainted : gset string) (w : T) : bool :=
  let drainNode := anno w AnnotationDrainNode in
  negb (String.eqb drainNode "") && negb (bool_decide (drainNode ∈ tainted)).

(** The body of the two recovery loops; a failed abort is only logged. *)
Definition recover_orphan {T} {D : Drainable T} (tainted : gset string) (w : T) (u : unit) :
    prog unit :=
  if is_orphan tainted w then abortWorkload w ;; Ret () else Ret ().

Definition RecoverOrphans : prog (error + unit) :=
  let? nodes := wrapf "list nodes" (call ListNodes) in
  let tainted := taintedNodes nodes in
  let? rollouts := wrapf "list rollouts" (call (ListRollouts None)) in
  for_each (recover_orphan tainted) rollouts () ;;
  let? deps := wrapf "list deployments" (call (ListDeployments None)) in
  for_each (recover_orphan tainted) deps () ;;
  Ret (inr ()).

(** ** Indexes and watch mappings of [SetupWithManager] *)

Definition indexPodByNode (pod : Pod) : list string :=
  if String.eqb (pod_NodeName pod) "" then [] else [pod_NodeName pod].

Definition indexByDrainNodeAnnotation (meta : ObjectMeta) : list string :=
  let v := anno_get (Annotations meta) AnnotationDrainNode in
  if String.eqb v "" then [] else [v].

Definition mapPodToNode (pod : Pod) : list string :=
  if String.eqb (pod_NodeName pod) "" then [] else [pod_NodeName pod].

Definition mapWorkloadToNode (meta : ObjectMeta) : list string :=
  let nodeName := anno_get (Annotations meta) AnnotationDrainNode in
  if String.eqb nodeName "" then [] else [nodeName].
End node.
End Node.
