(* ===== verification/RolloutController.v ===== *)
(** * internal/controller/rollout_controller.go: the restart-surge reconciler

    The same conventions as in [NodeController]: handlers are programs over a
    Rollout threaded as a value; map reads, map writes and events use the helpers
    defined there.  The injectable clock [timeNow] is the call
    [Now]. *)

From stdpp Require Import pretty.
From S2P Require Import Prelude GoStd GoTime K8s Effects Config State Workload Scaler.
From S2P Require Import RestartDetect NodeController.

Local Open Scope Z_scope.
Local Open Scope surge_scope.

Module Restart.
Section restart.
Context {L : K8sLib} (cfg : Config).

Definition restoreHPA (meta : ObjectMeta) : prog (error + unit) :=
  let hpaName := anno_get (Annotations meta) AnnotationHPAName in
  if String.eqb hpaName "" then Ret (inr ())
  else
    match Atoi (anno_get (Annotations meta) AnnotationHPAOriginalMinReplicas) with
    | None => Ret (inl (Errorf "invalid hpa-original-min-replicas value" None))
    | Some originalMin => PatchHPAMinReplicas (Namespace meta) hpaName (int32_wrap originalMin)
    end.

Definition abortRestartSurge (r : Rollout) : prog (error + Result) :=
  restoreHPA (GetObjectMeta r) ;;
  let r := match getOriginalReplicas (Annotations (GetObjectMeta r)) with
           | inr original => SetReplicas original r
           | inl _ => r
           end in
  let r := set_annotations (clearRestartSurgeAnnotations (Annotations (GetObjectMeta r))) r in
  let? _ := wrapf "abort restart-surge" (Patch r) in
  Node.eventf r EventTypeWarning "RestartSurgeAborted" "Restart-surge operation aborted" ;;
  Ret (inr no_requeue).

Definition yieldToDrain (r : Rollout) : prog (error + Result) :=
  let r := if String.eqb (Node.anno r AnnotationHPAName) "" then
             match getOriginalReplicas (Annotations (GetObjectMeta r)) with
             | inr original => SetReplicas original r
             | inl _ => r
             end
           else r in
  let r := set_annotations (clearRestartSurgeExclusiveAnnotations (Annotations (GetObjectMeta r))) r in
  let? _ := wrapf "yield to drain" (Patch r) in
  Node.eventf r EventTypeWarning "RestartSurgeYielded" "Restart-surge yielded to in-progress drain" ;;
  Ret (inr no_requeue).

(** [RestartAt != nil && !RestartedAt.Equal(RestartAt)]: [Equal] is called on
    a receiver that may be nil. *)
Definition restart_in_flight (r : Rollout) : bool :=
  match ro_RestartAt r with
  | None => false
  | Some t => negb (Time_Equal (ro_RestartedAt r) (Some t))
  end.

(** [handleRestartPending] from the budget lookup on: start the surge. *)
Definition start_surge (r : Rollout) : prog (error + Result) :=
  let meta := GetObjectMeta r in
  let? hasPDB := FindMatchingPDB (Namespace meta) (GetPodSelector r) in
  if negb hasPDB then Ret (inr no_requeue)
  else
    let originalReplicas := GetReplicas r in
    let surged := int32_add originalReplicas 1 in
    let r := Node.ensure_annotations r in
    let* r := Node.annotate AnnotationRestartSurgeState DrainStateScaledUp r in
    let* r := Node.annotate AnnotationOriginalReplicas (Itoa originalReplicas) r in
    let* now := call Now in
    let* r := Node.annotate AnnotationRestartSurgeStart (Format_RFC3339 now) r in
    let? hpa := FindMatchingHPA (Namespace meta) (Name meta) (kind_string (workload_kind r)) in
    match hpa with
    | Some hpa =>
        if hpa_MaxReplicas hpa <? surged then
          Node.eventf r EventTypeWarning "RestartSurgeSkipped"
            ("HPA maxReplicas=" +:+ fmt_d (hpa_MaxReplicas hpa) +:+ " prevents restart-surge") ;;
          Ret (inr no_requeue)
        else if IsHPAAtMinReplicas hpa surged then
          let* _ := deref (hpa_MinReplicas hpa) in
          Ret (inr (mkResult (250 * Millisecond)))
        else
          let originalMin := HPAMinReplicasOrDefault hpa in
          let* r := Node.annotate AnnotationHPAName (Name (hpa_meta hpa)) r in
          let* r := Node.annotate AnnotationHPAOriginalMinReplicas (Itoa originalMin) r in
          let? _ := wrapf "patch rollout for restart-surge scale-up" (Patch r) in
          let? _ := wrapf "patch HPA minReplicas for restart-surge"
                      (PatchHPAMinReplicas (Namespace meta) (Name (hpa_meta hpa)) surged) in
          Node.eventf r EventTypeNormal "RestartSurgeStart"
            ("Patched HPA " +:+ Name (hpa_meta hpa) +:+ " minReplicas from "
             +:+ fmt_d originalMin +:+ " to " +:+ fmt_d surged +:+ " to unblock restart") ;;
          Ret (inr (mkResult (RequeueInterval cfg)))
    | None =>
        let r := SetReplicas surged r in
        let* _ := deref (ro_RestartAt r) in
        Node.eventf r EventTypeNormal "RestartSurgeStart"
          ("Restart blocked by PDB, scaled from " +:+ fmt_d originalReplicas +:+ " to "
           +:+ fmt_d surged) ;;
        let? _ := wrapf "patch rollout for restart-surge scale-up" (Patch r) in
        Ret (inr (mkResult (RequeueInterval cfg)))
    end.

Definition handleRestartPending (r : Rollout) : prog (error + Result) :=
  let meta := GetObjectMeta r in
  if negb (String.eqb (Node.anno r (EnabledAnnotation cfg)) "true") then Ret (inr no_requeue)
  else if negb (CanSurge r) then Ret (inr no_requeue)
  else if negb (GetReplicas r =? 1) then Ret (inr no_requeue)
  else
    let? pods := listMatchingPods (Namespace meta) (GetPodSelector r) in
    let* now := call Now in
    if negb (isRestartStuck r pods (RestartSurgeGracePeriod cfg) now) then
      if restart_in_flight r then Ret (inr (mkResult (RestartSurgeGracePeriod cfg)))
      else Ret (inr no_requeue)
    else if negb (IsStableForRestart r) then
      Node.eventf r EventTypeWarning "RestartSurgeSkipped"
        "Rollout phase is not a pending restart — skipping restart-surge" ;;
      Ret (inr (mkResult (RequeueInterval cfg)))
    else start_surge r.

Definition handleRestartScaleUp (r : Rollout) : prog (error + Result) :=
  match getOriginalReplicas (Annotations (GetObjectMeta r)) with
  | inl _ => abortRestartSurge r
  | inr original =>
      if negb (String.eqb (Node.anno r AnnotationHPAName) "") || (original <? GetReplicas r)
      then Ret (inr (mkResult (RequeueInterval cfg)))
      else
        Node.eventf r EventTypeWarning "CompetingController"
          "Replicas were reset externally during restart-surge" ;;
        let r := SetReplicas (int32_add original 1) r in
        let? _ := wrapf "re-apply restart-surge scale-up" (Patch r) in
        Ret (inr (mkResult (RequeueInterval cfg)))
  end.

(** [readyCount] *)
Definition ready_count (pods : list Pod) : nat :=
  length (List.filter (λ p, negb (isPodTerminating p) && isPodReady p) pods).

(** The part of [handleRestartWaitReady] after the re-application check. *)
Definition restartWaitReady_pods (r : Rollout) : prog (error + Result) :=
  let? pods := listMatchingPods (Namespace (GetObjectMeta r)) (GetPodSelector r) in
  if (2 <=? ready_count pods)%nat then
    Node.eventf r EventTypeNormal "RestartSurgeReady"
      "Surge replica ready; Argo PodRestarter can now evict the stale pod" ;;
    let* r := Node.annotate AnnotationRestartSurgeState DrainStateReady r in
    let? _ := wrapf "patch rollout to ready" (Patch r) in
    Ret (inr (mkResult (RequeueInterval cfg)))
  else Ret (inr (mkResult (RequeueInterval cfg))).

Definition handleRestartWaitReady (r : Rollout) : prog (error + Result) :=
  if String.eqb (Node.anno r AnnotationHPAName) "" then
    match getOriginalReplicas (Annotations (GetObjectMeta r)) with
    | inl _ => abortRestartSurge r
    | inr original =>
        if GetReplicas r <=? original then
          let r := SetReplicas (int32_add original 1) r in
          let? _ := wrapf "re-apply restart-surge scale-up" (Patch r) in
          Ret (inr (mkResult (RequeueInterval cfg)))
        else restartWaitReady_pods r
    end
  else restartWaitReady_pods r.

Definition statusCaughtUp (r : Rollout) : bool :=
  match ro_RestartAt r with
  | None => false
  | Some t => Time_Equal (ro_RestartedAt r) (Some t)
  end.

(** The scale-down of [handleRestartWaitForArgo], once the restart is over. *)
Definition finish_restart (r : Rollout) : prog (error + Result) :=
  let meta := GetObjectMeta r in
  let? _ := wrapf "restore HPA after restart" (restoreHPA meta) in
  match getOriginalReplicas (Annotations meta) with
  | inl _ => abortRestartSurge r
  | inr original =>
      let r := if String.eqb (Node.anno r AnnotationHPAName) "" then SetReplicas original r else r in
      let* r := Node.annotate AnnotationRestartSurgeState DrainStateDraining r in
      let? _ := wrapf "patch rollout for restart-surge scale-down" (Patch r) in
      Node.eventf r EventTypeNormal "RestartSurgeScaleDown"
        ("Restart completed, scaled down to " +:+ fmt_d original) ;;
      Ret (inr (mkResult (RequeueInterval cfg)))
  end.

Definition handleRestartWaitForArgo (r : Rollout) : prog (error + Result) :=
  let meta := GetObjectMeta r in
  if statusCaughtUp r then finish_restart r
  else
    let? pods := listMatchingPods (Namespace meta) (GetPodSelector r) in
    if negb (restartCompletedByArgo r pods) then Ret (inr (mkResult (RequeueInterval cfg)))
    else finish_restart r.

Definition handleRestartScaleDown (r : Rollout) : prog (error + Result) :=
  match getOriginalReplicas (Annotations (GetObjectMeta r)) with
  | inl _ => abortRestartSurge r
  | inr original =>
      let r := if String.eqb (Node.anno r AnnotationHPAName) "" && negb (GetReplicas r =? original)
               then SetReplicas original r else r in
      let* r := Node.annotate AnnotationRestartSurgeState DrainStateDone r in
      let? _ := wrapf "patch rollout to done" (Patch r) in
      Ret (inr (mkResult (RequeueInterval cfg)))
  end.

Definition handleRestartCleanup (r : Rollout) : prog (error + Result) :=
  let r := set_annotations (clearRestartSurgeAnnotations (Annotations (GetObjectMeta r))) r in
  let? _ := wrapf "patch rollout for restart-surge cleanup" (Patch r) in
  Node.eventf r EventTypeNormal "RestartSurgeComplete"
    "Restart-surge operation completed successfully" ;;
  Ret (inr no_requeue).

(** Below the stale/timeout block: defer to a drain, then dispatch. *)
Definition reconcile_state (r : Rollout) (currentState : DrainState) : prog (error + Result) :=
  if negb (String.eqb (Node.anno r AnnotationDrainState) "") then
    if Node.isActive currentState then yieldToDrain r else Ret (inr no_requeue)
  else if String.eqb currentState DrainStateNone then handleRestartPending r
  else if String.eqb currentState DrainStatePending then handleRestartScaleUp r
  else if String.eqb currentState DrainStateScaledUp then handleRestartWaitReady r
  else if String.eqb currentState DrainStateReady then handleRestartWaitForArgo r
  else if String.eqb currentState DrainStateDraining then handleRestartScaleDown r
  else if String.eqb currentState DrainStateDone then handleRestartCleanup r
  else abortRestartSurge r.

Definition reconcileWorkload (r : Rollout) : prog (error + Result) :=
  let currentState := Node.anno r AnnotationRestartSurgeState in
  match (if Node.isActive currentState
         then parseRestartSurgeStart (Annotations (GetObjectMeta r)) else None) with
  | Some start =>
      let* now := call Now in
      let elapsed := Sub now start in
      if int64_mul 3 (RestartSurgeTimeout cfg) <? elapsed then
        Node.eventf r EventTypeWarning "RestartSurgeStale"
          "Force aborting stale restart-surge operation" ;;
        abortRestartSurge r
      else if RestartSurgeTimeout cfg <? elapsed then
        Node.eventf r EventTypeWarning "RestartSurgeTimeout" "Restart-surge operation timed out" ;;
        abortRestartSurge r
      else reconcile_state r currentState
  | None => reconcile_state r currentState
  end.

Definition Reconcile (namespace name : string) : prog (error + Result) :=
  let* res := call (GetRollout namespace name) in
  match res with
  | inl err => if IsNotFound err then Ret (inr no_requeue) else Ret (inl err)
  | inr ro => reconcileWorkload ro
  end.

(** ** Orphan recovery *)

Definition argoIdle (ro : Rollout) : bool :=
  match ro_RestartAt ro with None => true | Some _ => restarted ro end.

Definition recover_orphan (ro : Rollout) (u : unit) : prog unit :=
  if String.eqb (Node.anno ro AnnotationRestartSurgeState) DrainStateNone then Ret ()
  else if negb (argoIdle ro) then Ret ()
  else abortRestartSurge ro ;; Ret ().

Definition RecoverOrphans : prog (error + unit) :=
  let? rollouts := wrapf "list rollouts" (call (ListRollouts None)) in
  for_each recover_orphan rollouts () ;;
  Ret (inr ()).

(** ** Watch predicate and mapping of [SetupWithManager] *)

Definition rolloutRelevantPredicate (enabledAnnotation : string) (ro : Rollout) : bool :=
  if negb (String.eqb (Node.anno ro AnnotationRestartSurgeState) "") then true
  else if negb (String.eqb (Node.anno ro enabledAnnotation) "true") then false
  else match ro_RestartAt ro with
       | None => false
       | Some t => negb (Time_Equal (ro_RestartedAt ro) (Some t))
       end.

Definition mapPodToRollout (pod : Pod) : prog (list (string * string)) :=
  let* r := ResolveWorkloadFromPod pod in
  Ret (match r with
       | inr (Some (WRollout ro)) => [(Namespace (GetObjectMeta ro), Name (GetObjectMeta ro))]
       | _ => []
       end).
End restart.
End Restart.
