(* ===== verification/Wiring.v ===== *)
(** * How the controllers are wired to the manager

    The two [SetupWithManager] functions and the calls of [main] on the manager, as
    programs that log each call and stop at the first one that fails.  What a
    controller hands over is kept: index functions, watched kinds with their
    mapping functions and predicates, the reconcile function, the goroutine body.

    controller-runtime itself is a parameter: whether a call fails is the oracle
    [env], and which requests an event leads to is the class [ControllerRuntime],
    whose laws are its documented behaviour. *)

From stdpp Require Import pretty.
From S2P Require Import Prelude GoStd GoTime K8s Effects Config State Workload Scaler.
From S2P Require Import NodeController RolloutController.

Local Open Scope Z_scope.
Local Open Scope surge_scope.

(** ** internal/controller/logfields.go: the index keys *)

Definition IndexPodNodeName : string := "spec.nodeName".
Definition IndexWorkloadDrainNode : string := "metadata.annotations." +:+ AnnotationDrainNode.

(** ** Objects, events, requests *)

Inductive ObjKind : Set := NodeKind | PodKind | RolloutKind | DeploymentKind.
#[global] Instance ObjKind_eq_dec : EqDecision ObjKind.
Proof. solve_decision. Defined.

Record Request : Type := mkRequest { req_Namespace : string; req_Name : string }.

Section wiring.
Context {L : K8sLib}.

(** [client.Object], for the kinds the program uses. *)
Inductive object : Type :=
| ONode (n : Node)
| OPod (p : Pod)
| ORollout (r : Rollout)
| ODeployment (d : Deployment).

Definition kind_of (o : object) : ObjKind :=
  match o with
  | ONode _ => NodeKind | OPod _ => PodKind
  | ORollout _ => RolloutKind | ODeployment _ => DeploymentKind
  end.

Definition object_meta (o : object) : ObjectMeta :=
  match o with
  | ONode n => node_meta n | OPod p => pod_meta p
  | ORollout r => ro_meta r | ODeployment d => dep_meta d
  end.

Inductive event : Type :=
| CreateEvent (o : object)
| UpdateEvent (old new : object)
| DeleteEvent (o : object)
| GenericEvent (o : object).

(** The object as the event leaves it, and every object it speaks of. *)
Definition event_object (ev : event) : object :=
  match ev with
  | CreateEvent o | DeleteEvent o | GenericEvent o => o
  | UpdateEvent _ new => new
  end.
Definition event_objects (ev : event) : list object :=
  match ev with
  | CreateEvent o | DeleteEvent o | GenericEvent o => [o]
  | UpdateEvent old new => [old; new]
  end.

(** [o.( *corev1.Pod)] *)
Definition assert_pod (o : object) : prog Pod :=
  match o with OPod p => Ret p | _ => Panic "interface conversion" end.

(** ** What the controllers hand to the manager *)

Record Watch : Type := mkWatch {
  watch_kind : ObjKind;
  watch_map : object → prog (list Request)
}.

Record Registration : Type := mkRegistration {
  reg_for : ObjKind;
  reg_predicates : list (event → bool);
  reg_watches : list Watch;
  reg_concurrent : Z;
  reg_reconcile : Request → prog (error + Result)
}.

Inductive mgr_call : Type :=
| GetConfigOrDie
| NewManager (leaderElection : bool) (leaderElectionID healthAddr metricsAddr : string)
| AddHealthzCheck (name : string)
| AddReadyzCheck (name : string)
| IndexField (k : ObjKind) (field : string) (extract : object → prog (list string))
| Complete (reg : Registration)
| Go (body : prog unit)
| Start.

(** ** Programs on the manager: a log of calls and an oracle for their results *)

Definition log : Type := list mgr_call.

Section setup.
Context (env : log → option error).

Definition setup (A : Type) : Type := log → log * A.
Definition sret {A} (a : A) : setup A := λ l, (l, a).
Definition sbind {A B} (p : setup A) (f : A → setup B) : setup B :=
  λ l, let '(l', a) := p l in f a l'.

(** A call that may fail, and one that cannot. *)
Definition mgr (c : mgr_call) : setup (option error) := λ l, (l ++ [c], env (l ++ [c])).
Definition spawn (body : prog unit) : setup unit := λ l, (l ++ [Go body], ()).

(** [if err := p; err != nil { return bad err }; q] *)
Definition sthen {A} (p : setup (option error)) (bad : error → A) (q : setup A) : setup A :=
  sbind p (λ r, match r with Some e => sret (bad e) | None => q end).

(** ** NodeReconciler.SetupWithManager *)

Definition pod_node_index (o : object) : prog (list string) :=
  let* pod := assert_pod o in Ret (Node.indexPodByNode pod).

Definition drain_node_index (o : object) : prog (list string) :=
  Ret (Node.indexByDrainNodeAnnotation (object_meta o)).

Definition mapPodToNode (o : object) : prog (list Request) :=
  let* pod := assert_pod o in Ret (mkRequest "" <$> Node.mapPodToNode pod).

Definition mapWorkloadToNode (o : object) : prog (list Request) :=
  Ret (mkRequest "" <$> Node.mapWorkloadToNode (object_meta o)).

Definition node_registration (cfg : Config) : Registration :=
  mkRegistration NodeKind []
    [mkWatch PodKind mapPodToNode; mkWatch RolloutKind mapWorkloadToNode;
     mkWatch DeploymentKind mapWorkloadToNode]
    5 (λ req, Node.Reconcile cfg (req_Name req)).

Definition Node_SetupWithManager (cfg : Config) : setup (option error) :=
  sthen (mgr (IndexField PodKind IndexPodNodeName pod_node_index))
    (λ e, Some (Errorf "create pod node index" (Some e)))
  (sthen (mgr (IndexField RolloutKind IndexWorkloadDrainNode drain_node_index))
    (λ e, Some (Errorf "create rollout drain-node index" (Some e)))
  (sthen (mgr (IndexField DeploymentKind IndexWorkloadDrainNode drain_node_index))
    (λ e, Some (Errorf "create deployment drain-node index" (Some e)))
  (mgr (Complete (node_registration cfg))))).

(** ** RolloutReconciler.SetupWithManager *)

(** The four functions of the predicate look at the (new) object; one that is not
    a Rollout passes only by its restart-surge annotation. *)
Definition rollout_predicate (enabledAnnotation : string) (ev : event) : bool :=
  match event_object ev with
  | ORollout r => Restart.rolloutRelevantPredicate enabledAnnotation r
  | o => negb (String.eqb (anno_get (Annotations (object_meta o)) AnnotationRestartSurgeState) "")
  end.

Definition mapPodToRollout (o : object) : prog (list Request) :=
  match o with
  | OPod pod => let* l := Restart.mapPodToRollout pod in
                Ret ((λ '(ns, n), mkRequest ns n) <$> l)
  | _ => Ret []
  end.

Definition rollout_registration (cfg : Config) : Registration :=
  mkRegistration RolloutKind [rollout_predicate (EnabledAnnotation cfg)]
    [mkWatch PodKind mapPodToRollout]
    5 (λ req, Restart.Reconcile cfg (req_Namespace req) (req_Name req)).

Definition Rollout_SetupWithManager (cfg : Config) : setup (option error) :=
  mgr (Complete (rollout_registration cfg)).
End setup.

(** ** What controller-runtime does with a registration *)

(** [delivers reg ev q]: the event [ev] puts the request [q] into the queue of the
    registered controller.  For the kind of [For] it is the object itself when all
    predicates accept the event; for a watch, every request the mapping function
    returns for an object of the event. *)
Class ControllerRuntime : Type := {
  delivers : Registration → event → Request → Prop;
  delivers_for : ∀ reg ev, kind_of (event_object ev) = reg_for reg →
    Forall (λ pr, pr ev = true) (reg_predicates reg) →
    delivers reg ev (mkRequest (Namespace (object_meta (event_object ev)))
                               (Name (object_meta (event_object ev))));
  delivers_map : ∀ reg ev w o tr reqs q, w ∈ reg_watches reg → o ∈ event_objects ev →
    kind_of o = watch_kind w → runs (watch_map w o) tr (Returned reqs) → q ∈ reqs →
    delivers reg ev q
}.
End wiring.
