(* ===== verification/NodeSpec.v ===== *)
(** * What one reconcile of a workload may do to the cluster

    [drain_effect w node tr o] is the specification of one call of
    [NodeReconciler.reconcileWorkload]: the writes of a trace, branch by branch,
    with the conditions on the workload and the answers that justify them.
    [reconcileWorkload_effect] proves it for every environment; the theorems of
    [NodeProps] are read off it. *)

From stdpp Require Import pretty.
From S2P Require Import Prelude GoStd GoTime K8s Effects Config State Workload Scaler NodeController.

Local Open Scope Z_scope.

(** The writes of restoring an HPA's [minReplicas] from the annotations. *)
Definition restore_target (meta : ObjectMeta) : option (string * Z) :=
  let hpaName := anno_get (Annotations meta) AnnotationHPAName in
  if String.eqb hpaName "" then None
  else (λ n, (hpaName, int32_wrap n)) <$>
         Atoi (anno_get (Annotations meta) AnnotationHPAOriginalMinReplicas).

Definition restore_writes {L : K8sLib} (meta : ObjectMeta) (ok : bool) : list write :=
  match restore_target meta with
  | Some (hpaName, n) => [WHPA (Namespace meta) hpaName n ok]
  | None => []
  end.

(** The annotations of a surge that starts. *)
Definition pending_annotations (a : option annotations) (original : Z) (node : string)
    (now : Time) : annotations :=
  <[AnnotationDrainStart := Format_RFC3339 now]>
  (<[AnnotationDrainNode := node]>
  (<[AnnotationOriginalReplicas := Itoa original]>
  (<[AnnotationDrainState := DrainStateScaledUp]> (default ∅ a)))).

Definition hpa_annotations (hpa : HPA) (m : annotations) : annotations :=
  <[AnnotationHPAOriginalMinReplicas := Itoa (HPAMinReplicasOrDefault hpa)]>
  (<[AnnotationHPAName := Name (hpa_meta hpa)]> m).

(** Every write list an abort can leave behind: the recorded HPA restored, if
    there is one, then the final patch; or a prefix when the process crashes.  An
    error is returned exactly when the final patch failed. *)
Inductive undo_effect {L : K8sLib} (m : ObjectMeta) (final : bool → write) :
    list write → outcome (error + Result) → Prop :=
| abort_crash_before : undo_effect m final [] Crashed
| abort_crash_between okh : undo_effect m final (restore_writes m okh) Crashed
| abort_full okh ok o :
    ¬ panicked o → (∀ r, o = Returned r → is_ok r = ok) →
    undo_effect m final (restore_writes m okh ++ [final ok]) o.

Lemma ok_succeeded {A} (o : outcome (error + A)) ok :
  (∀ r, o = Returned r → is_ok r = ok) → succeeded o → ok = true.
Proof. destruct o as [[e|a]| |]; try done. intros H _. by rewrite -(H _ eq_refl). Qed.

Section spec.
Context {L : K8sLib} (cfg : Config) {T : Type} {D : Drainable T}.

Abbreviation meta w := (GetObjectMeta w).
Abbreviation annos w := (Annotations (GetObjectMeta w)).

(** A patch of this workload. *)
Definition wl_write (w : T) (replicas : option Z) (a : option annotations) (ok : bool) : write :=
  WWorkload (workload_kind w) (Namespace (meta w)) (Name (meta w))
    (mkMergePatch replicas (anno_patch a)) ok.

(** The replica count an abort restores. *)
Definition abort_replicas (w : T) : option Z :=
  match getOriginalReplicas (annos w) with inr n => Some n | inl _ => spec_Replicas w end.

Definition abort_write (w : T) (ok : bool) : write :=
  wl_write w (abort_replicas w) (clearDrainAnnotations (annos w)) ok.

Definition abort_effect (w : T) : list write → outcome (error + Result) → Prop :=
  undo_effect (meta w) (abort_write w).


(** Setting the drain state, and possibly the replica count. *)
Definition state_write (w : T) (s : DrainState) (replicas : option Z) (ok : bool) : write :=
  wl_write w replicas (Some (<[AnnotationDrainState := s]> (default ∅ (annos w)))) ok.

(** The replica count of a scale-down step: only without an HPA annotation. *)
Definition scaledown_replicas (w : T) (original : Z) : option Z :=
  if String.eqb (Node.anno w AnnotationHPAName) "" then Some original else spec_Replicas w.

(** The drain of [w], if it has one, is this node's. *)
Definition on_node (w : T) (node : string) : Prop :=
  Node.anno w AnnotationDrainNode = "" ∨ Node.anno w AnnotationDrainNode = node.

(** The conditions under which a surge may start. *)
Record eligible (w : T) (node : string) : Prop := {
  start_state : Node.anno w AnnotationDrainState = "";
  start_enabled : Node.anno w (EnabledAnnotation cfg) = "true";
  start_single : GetReplicas w = 1;
  start_stable : IsStable w = true;
  start_surgeable : CanSurge w = true;
  start_node : on_node w node
}.

(** A disruption budget covering the workload's pods was listed. *)
Definition found_pdb (w : T) (tr : list called) : Prop :=
  ∃ pdbs, Called (ListPDBs (Namespace (meta w))) (inr pdbs) ∈ tr
    ∧ existsb (pdb_matches (Requirements (GetPodSelector w)).1) pdbs = true.

Definition found_hpa (w : T) (tr : list called) (res : option HPA) : Prop :=
  ∃ hpas, Called (ListHPAs (Namespace (meta w))) (inr hpas) ∈ tr
    ∧ List.find (hpa_targets (Name (meta w)) (kind_string (workload_kind w))) hpas = res.

Definition listed_pods (w : T) (tr : list called) (pods : list Pod) : Prop :=
  Called (ListPods (Namespace (meta w)) (GetPodSelector w)) (inr pods) ∈ tr.

(** A drain that took too long: the clock read is past the timeout. *)
Definition overdue (w : T) (tr : list called) : Prop :=
  ∃ start now, parseDrainStart (annos w) = Some start ∧ now ∈ clock_reads tr
    ∧ (ReadinessTimeout cfg < Sub now start
       ∨ int64_mul 3 (ReadinessTimeout cfg) < Sub now start).

(** Why a run may abort the drain. *)
Definition abort_reason (w : T) (tr : list called) : Prop :=
  let s := Node.anno w AnnotationDrainState in
  s ≠ "" ∧ (overdue w tr
   ∨ (∃ e, getOriginalReplicas (annos w) = inl e)
   ∨ s ∉ [DrainStatePending; DrainStateScaledUp; DrainStateReady; DrainStateDraining;
          DrainStateDone]).

Inductive drain_effect (w : T) (node : string) (tr : list called) (o : outcome (error + Result)) :
    Prop :=
| eff_none : writes tr = [] → drain_effect w node tr o
| eff_surge now ok :
    eligible w node → found_pdb w tr → found_hpa w tr None → now ∈ clock_reads tr →
    writes tr = [wl_write w (Some 2) (Some (pending_annotations (annos w) 1 node now)) ok] →
    (succeeded o → ok = true) →
    drain_effect w node tr o
| eff_surge_hpa hpa now ok later :
    eligible w node → found_pdb w tr → found_hpa w tr (Some hpa) → now ∈ clock_reads tr →
    2 ≤ hpa_MaxReplicas hpa → HPAMinReplicasOrDefault hpa < 2 →
    writes tr =
      wl_write w (spec_Replicas w)
        (Some (hpa_annotations hpa (pending_annotations (annos w) 1 node now))) ok :: later →
    later = [] ∨ (ok = true ∧ ∃ okh, later = [WHPA (Namespace (meta w)) (Name (hpa_meta hpa)) 2 okh]) →
    (succeeded o → later = [WHPA (Namespace (meta w)) (Name (hpa_meta hpa)) 2 true]) →
    drain_effect w node tr o
| eff_rescale original ok :
    Node.anno w AnnotationDrainState = DrainStatePending → on_node w node →
    getOriginalReplicas (annos w) = inr original →
    writes tr = [state_write w DrainStateScaledUp
      (if GetReplicas w <=? original then Some (int32_add original 1) else spec_Replicas w) ok] →
    (succeeded o → ok = true) →
    drain_effect w node tr o
| eff_reapply original ok :
    Node.anno w AnnotationDrainState = DrainStateScaledUp → on_node w node →
    Node.anno w AnnotationHPAName = "" →
    getOriginalReplicas (annos w) = inr original → GetReplicas w ≤ original →
    writes tr = [wl_write w (Some (int32_add original 1)) (annos w) ok] →
    (succeeded o → ok = true) →
    drain_effect w node tr o
| eff_ready pods ok :
    Node.anno w AnnotationDrainState = DrainStateScaledUp → on_node w node →
    listed_pods w tr pods → existsb (ready_elsewhere node) pods = true →
    writes tr = [state_write w DrainStateReady (spec_Replicas w) ok] →
    (succeeded o → ok = true) →
    drain_effect w node tr o
| eff_evicted_partial pods okh :
    Node.anno w AnnotationDrainState = DrainStateReady → on_node w node →
    listed_pods w tr pods → existsb (alive_on node) pods = false →
    writes tr = restore_writes (meta w) okh → ¬ succeeded o →
    drain_effect w node tr o
| eff_evicted pods original ok :
    Node.anno w AnnotationDrainState = DrainStateReady → on_node w node →
    listed_pods w tr pods → existsb (alive_on node) pods = false →
    getOriginalReplicas (annos w) = inr original →
    writes tr = restore_writes (meta w) true
                ++ [state_write w DrainStateDraining (scaledown_replicas w original) ok] →
    (succeeded o → ok = true) →
    drain_effect w node tr o
| eff_done original ok :
    Node.anno w AnnotationDrainState = DrainStateDraining → on_node w node →
    getOriginalReplicas (annos w) = inr original →
    writes tr = [state_write w DrainStateDone
      (if String.eqb (Node.anno w AnnotationHPAName) "" && negb (GetReplicas w =? original)
       then Some original else spec_Replicas w) ok] →
    (succeeded o → ok = true) →
    drain_effect w node tr o
| eff_cleanup ok :
    Node.anno w AnnotationDrainState = DrainStateDone → on_node w node →
    writes tr = [wl_write w (spec_Replicas w) (clearDrainAnnotations (annos w)) ok] →
    (succeeded o → ok = true) →
    drain_effect w node tr o
| eff_abort pre ws :
    abort_reason w tr → pre = [] ∨ pre = restore_writes (meta w) true →
    abort_effect w ws o → writes tr = pre ++ ws →
    drain_effect w node tr o.

Lemma elem_of_suffix {A} (x : A) pre l : x ∈ l → x ∈ pre ++ l.
Proof. set_solver. Qed.

(** Reads made before do not matter. *)
Lemma drain_effect_app w node pre tr o :
  writes pre = [] → drain_effect w node tr o → drain_effect w node (pre ++ tr) o.
Proof.
  intros Hpre Heff.
  assert (writes (pre ++ tr) = writes tr) as Hw by by rewrite writes_app Hpre.
  assert (∀ c, c ∈ tr → c ∈ pre ++ tr) as Hin by set_solver.
  assert (∀ t, t ∈ clock_reads tr → t ∈ clock_reads (pre ++ tr)) as Hclock.
  { intros t. rewrite clock_reads_app. set_solver. }
  destruct Heff; match goal with H : writes tr = _ |- _ => rewrite -Hw in H end;
    [by eapply eff_none|..];
    unfold found_pdb, found_hpa, listed_pods in *.
  - eapply eff_surge; unfold found_pdb, found_hpa; naive_solver.
  - eapply eff_surge_hpa; unfold found_pdb, found_hpa; naive_solver.
  - by eapply eff_rescale.
  - by eapply eff_reapply.
  - eapply eff_ready; unfold listed_pods; naive_solver.
  - eapply eff_evicted_partial; unfold listed_pods; naive_solver.
  - eapply eff_evicted; unfold listed_pods; naive_solver.
  - by eapply eff_done.
  - by eapply eff_cleanup.
  - eapply eff_abort; [|done..]. unfold abort_reason, overdue in *. naive_solver.
Qed.
End spec.

(** A run that reads the clock once, in time, is not overdue. *)
Lemma in_time {L : K8sLib} {T : Type} {D : Drainable T} (cfg : Config) (w : T) tr start now :
  parseDrainStart (Annotations (GetObjectMeta w)) = Some start → clock_reads tr = [now] →
  (ReadinessTimeout cfg <? Sub now start) = false →
  (int64_mul 3 (ReadinessTimeout cfg) <? Sub now start) = false → ¬ overdue cfg w tr.
Proof.
  intros Hs Hc H1%Z.ltb_ge H3%Z.ltb_ge (start' & now' & Hs' & Hn & Hl).
  rewrite Hc in Hn. apply list_elem_of_singleton in Hn as ->.
  rewrite Hs in Hs'. injection Hs' as <-. lia.
Qed.
