(* ===== verification/NodeSound.v ===== *)
(** * Every reconcile of a workload has a specified effect

    One lemma per handler, then [reconcileWorkload_effect]: in every environment
    a run of [NodeReconciler.reconcileWorkload] does not panic and its writes are
    one of the cases of [drain_effect]. *)

From stdpp Require Import pretty.
From S2P Require Import Prelude GoStd GoTime K8s Effects Config State Workload Scaler.
From S2P Require Import NodeController NodeSpec.

Local Open Scope Z_scope.
Local Open Scope surge_scope.

(** Membership of a call in an explicit trace. *)
Ltac in_trace := repeat first [apply list_elem_of_here | apply list_elem_of_further].

Lemma annotate_some {L : K8sLib} {T : Type} {D : Drainable T} (key v : string) (w : T) m :
  Annotations (GetObjectMeta w) = Some m →
  Node.annotate key v w = Ret (set_annotations (Some (<[key:=v]> m)) w).
Proof. unfold Node.annotate. by intros ->. Qed.

(** Destruct what a program is stuck on. *)
Ltac split_on x :=
  lazymatch x with
  | wrap_err _ ?y => destruct y
  | negb ?y => split_on y
  | _ => tryif is_var x then destruct x else destruct x eqn:?
  end.

Ltac split_head p :=
  lazymatch p with
  | bind ?q _ => split_head q
  | match ?x with _ => _ end => split_on x
  | deref ?x => split_on x
  | Node.annotate _ _ _ =>
      erewrite annotate_some; [|autorewrite with surge_simpl; first [reflexivity|eassumption]]
  end.

(** One step of symbolic execution: expose the next call, or split on the
    condition the program is stuck on, using the interface laws first. *)
Ltac wp_step :=
  first
    [ match goal with
      | |- _ ∧ wp _ _ => split
      | |- _ ∧ (∀ _, _) => split
      | |- ∀ _, _ => intro
      end
    | progress cbn [wp bind bind_ok wrapf wrap_err call deref map_assign legal negb
                    Node.eventf Patch patchReplicasAndAnnotations FindMatchingPDB FindMatchingHPA
                    FindReadyPodOnOtherNode FindPodOnNode listMatchingPods PatchHPAMinReplicas]
    | match goal with |- wp ?p _ => split_head p end ].

(** The definitions that abbreviate expected writes. *)
Ltac unfold_writes := unfold wl_write, state_write, hpa_annotations, pending_annotations.

(** The writes of an explicit trace, with the interface laws applied. *)
Ltac solve_writes :=
  unfold_writes;
  rewrite ?writes_cons /= ?app_nil_r;
  autorewrite with surge_simpl;
  repeat match goal with
         | H : Annotations _ = _ |- _ => rewrite H
         | H : ?x = true |- context [if ?x then _ else _] => rewrite H
         | H : ?x = false |- context [if ?x then _ else _] => rewrite H
         end; try reflexivity.

(** Discharge the evidence that a read of the trace supports. *)
Ltac solve_evidence :=
  lazymatch goal with
  | |- found_pdb _ _ => eexists; split; [in_trace|eassumption]
  | |- found_hpa _ _ _ =>
      eexists; split; [in_trace|];
      match goal with H : List.find _ _ = _ |- _ => autorewrite with surge_simpl in H; exact H end
  | |- listed_pods _ _ _ => unfold listed_pods; in_trace
  | |- Called _ _ ∈ _ => in_trace
  | |- _ ∈ clock_reads _ => cbn; in_trace
  | |- succeeded _ → _ => by intros []
  | |- writes _ = _ => solve_writes
  | |- ¬ panicked _ => by intros []
  | |- _ => try done
  end.

Section sound.
Context {L : K8sLib} (cfg : Config) {T : Type} {D : Drainable T} {DL : DrainableLaws T}.

Abbreviation meta w := (GetObjectMeta w).
Abbreviation annos w := (Annotations (GetObjectMeta w)).

(** The postcondition of every handler. *)
Definition effect_post (w : T) (node : string) (tr : list called) (o : outcome (error + Result)) :
    Prop := ¬ panicked o ∧ drain_effect cfg w node tr o.

Lemma restoreHPA_effect (m : ObjectMeta) :
  wp (Node.restoreHPA m) (λ tr o,
    match o with
    | Returned (inr _) => writes tr = restore_writes m true
    | Returned (inl _) => ∃ ok, writes tr = restore_writes m ok
    | Crashed => writes tr = []
    | Panicked _ => False
    end).
Proof.
  unfold Node.restoreHPA, restore_writes, restore_target.
  destruct (String.eqb _ ""); [done|].
  destruct (Atoi _) as [n|]; [|by exists true]. cbn. split; [done|].
  intros [e|[]] _; [by exists false|done].
Qed.

(** Restore the HPA ignoring errors, reset the replica count, clear annotations
    with [clear] and patch: the shape of the aborts of both controllers. *)
Definition undo (clear : option annotations → option annotations) (patch_msg reason msg : string)
    (w : T) : prog (error + Result) :=
  Node.restoreHPA (meta w) ;;
  let w1 := match getOriginalReplicas (annos w) with
            | inr original => SetReplicas original w
            | inl _ => w
            end in
  let w2 := set_annotations (clear (annos w1)) w1 in
  let? _ := wrapf patch_msg (Patch w2) in
  Node.eventf w2 EventTypeWarning reason msg ;;
  Ret (inr no_requeue).

Lemma undo_wp clear patch_msg reason msg (w : T) :
  wp (undo clear patch_msg reason msg w) (λ tr o, ¬ panicked o ∧
    undo_effect (meta w) (wl_write w (abort_replicas w) (clear (annos w))) (writes tr) o).
Proof.
  unfold undo. apply wp_bind. eapply wp_mono; [|apply restoreHPA_effect].
  intros tr o Ho.
  assert (¬ panicked o ∧ (o = Crashed → writes tr = []) ∧
          ((∃ r, o = Returned r) → ∃ okh, writes tr = restore_writes (meta w) okh)) as (Hp&Hc&Hr).
  { destruct o as [[e|[]]| |]; naive_solver. }
  destruct o as [r|m|]; simpl; [|done|].
  - destruct Hr as [okh Hw]; [eauto|].
    set (w1 := match getOriginalReplicas _ with inl _ => w | inr n => SetReplicas n w end).
    assert (spec_Replicas w1 = abort_replicas w ∧ workload_kind w1 = workload_kind w
            ∧ meta w1 = meta w) as (Hs & Hk & Hm).
    { unfold abort_replicas, w1. destruct (getOriginalReplicas _); autorewrite with surge_simpl;
        done. }
    repeat wp_step; autorewrite with surge_simpl;
      rewrite ?writes_app ?Hw ?writes_cons /= ?app_nil_r ?Hs ?Hk ?Hm;
      (split; [done|]);
      first [ apply abort_crash_between
            | match goal with |- undo_effect _ _ (_ ++ [WWorkload _ _ _ _ ?ok]) _ =>
                apply (abort_full _ _ okh ok); [done|by intros ? [= <-]] end ].
  - rewrite Hc //. split; [tauto|]. constructor.
Qed.

Lemma abortWorkload_effect (w : T) :
  wp (Node.abortWorkload w) (λ tr o, ¬ panicked o ∧ abort_effect w (writes tr) o).
Proof.
  apply (undo_wp clearDrainAnnotations "abort workload" "DrainAborted"
           "Drain surge operation aborted" w).
Qed.

(** An abort with a reason is a specified effect, after reads and possibly
    after the HPA was restored. *)
Lemma wp_abort (w : T) node (Q : list called → outcome (error + Result) → Prop) pre :
  writes pre = [] ∨ writes pre = restore_writes (meta w) true →
  (∀ tr, abort_reason cfg w (pre ++ tr)) →
  (∀ tr o, effect_post w node (pre ++ tr) o → Q tr o) →
  wp (Node.abortWorkload w) Q.
Proof.
  intros Hpre Hreason HQ. eapply wp_mono; [|apply abortWorkload_effect].
  intros tr o [Hp Heff]. apply HQ. split; [done|].
  eapply (eff_abort cfg w node _ o (writes pre) (writes tr)); eauto. apply writes_app.
Qed.

Lemma abort_reason_original (w : T) tr e :
  Node.anno w AnnotationDrainState ≠ "" → getOriginalReplicas (annos w) = inl e →
  abort_reason cfg w tr.
Proof. intros Hs He. split; [done|]. right; left; eauto. Qed.


Lemma not_at_min hpa : IsHPAAtMinReplicas hpa 2 = false → HPAMinReplicasOrDefault hpa < 2.
Proof.
  unfold IsHPAAtMinReplicas, HPAMinReplicasOrDefault. destruct (hpa_MinReplicas hpa); lia.
Qed.

Lemma handlePending_effect (w : T) node : eligible cfg w node →
  wp (Node.handlePending cfg w node) (effect_post w node).
Proof.
  intros Hel. pose proof (start_single cfg w node Hel) as Hone.
  unfold Node.handlePending, Node.ensure_annotations, effect_post. rewrite Hone.
  change (int32_add 1 1) with 2.
  destruct (annos w) as [m|] eqn:Ea.
  all: repeat wp_step; try (split; [by intros []|]; by apply eff_none).
  all: try (unfold IsHPAAtMinReplicas in *; simplify_option_eq; done).
  all: split; [by intros []|].
  all: try (eapply eff_surge; solve_evidence).
  all: eapply eff_surge_hpa; solve_evidence; try by apply not_at_min.
  all: try lia.
  all: try (by left); try (right; split; [done|by eexists]).
Qed.

Lemma anno_some (w : T) key : Node.anno w key ≠ "" → ∃ m, annos w = Some m.
Proof. intros (m & -> & _)%anno_get_nonempty. eauto. Qed.

Lemma handleScaleUp_effect (w : T) node :
  Node.anno w AnnotationDrainState = DrainStatePending → on_node w node →
  wp (Node.handleScaleUp cfg w node) (effect_post w node).
Proof.
  intros Hs Hn. destruct (anno_some w AnnotationDrainState) as [m Ea]; [by rewrite Hs|].
  unfold Node.handleScaleUp. destruct (getOriginalReplicas (annos w)) as [e|original] eqn:Eo.
  - apply (wp_abort w node _ []); [by left| |done].
    intros tr. eapply abort_reason_original; [by rewrite Hs|done].
  - repeat wp_step; try (split; [by intros []|]; by apply eff_none).
    all: split; [by intros []|]; eapply eff_rescale; solve_evidence.

Qed.

Lemma handleWaitReady_effect (w : T) node :
  Node.anno w AnnotationDrainState = DrainStateScaledUp → on_node w node →
  wp (Node.handleWaitReady cfg w node) (effect_post w node).
Proof.
  intros Hs Hn. destruct (anno_some w AnnotationDrainState) as [m Ea]; [by rewrite Hs|].
  unfold Node.handleWaitReady, Node.waitReady_pods.
  destruct (String.eqb_spec (Node.anno w AnnotationHPAName) "") as [Hh|Hh].
  1: destruct (getOriginalReplicas (annos w)) as [e|original] eqn:Eo.
  1: { apply (wp_abort w node _ []); [by left| |done].
       intros tr. eapply abort_reason_original; [by rewrite Hs|done]. }
  all: repeat wp_step; try (split; [by intros []|]; by apply eff_none).
  all: split; [by intros []|].
  all: try (eapply eff_reapply; solve_evidence; lia).
  all: eapply eff_ready; solve_evidence.
Qed.

Lemma handleScaleDown_effect (w : T) node :
  Node.anno w AnnotationDrainState = DrainStateDraining → on_node w node →
  wp (Node.handleScaleDown cfg w) (effect_post w node).
Proof.
  intros Hs Hn. destruct (anno_some w AnnotationDrainState) as [m Ea]; [by rewrite Hs|].
  unfold Node.handleScaleDown. destruct (getOriginalReplicas (annos w)) as [e|original] eqn:Eo.
  - apply (wp_abort w node _ []); [by left| |done].
    intros tr. eapply abort_reason_original; [by rewrite Hs|done].
  - destruct (_ && _) eqn:Eb.
    all: repeat wp_step; try (split; [by intros []|]; by apply eff_none).
    all: split; [by intros []|]; eapply eff_done; solve_evidence; by rewrite Eb.
Qed.

Lemma handleCleanup_effect (w : T) node :
  Node.anno w AnnotationDrainState = DrainStateDone → on_node w node →
  wp (Node.handleCleanup w) (effect_post w node).
Proof.
  intros Hs Hn. unfold Node.handleCleanup.
  repeat wp_step; try (split; [by intros []|]; by apply eff_none).
  all: split; [by intros []|]; eapply eff_cleanup; solve_evidence.
Qed.

(** The scale-down of [handleWaitEviction], for the workload after the
    replica count was decided. *)
Lemma scaledown_effect (w w' : T) node pods original tr :
  Node.anno w AnnotationDrainState = DrainStateReady → on_node w node →
  existsb (alive_on node) pods = false → getOriginalReplicas (annos w) = inr original →
  writes tr = restore_writes (meta w) true →
  workload_kind w' = workload_kind w → meta w' = meta w →
  spec_Replicas w' = scaledown_replicas w original →
  wp (let* w0 := Node.annotate AnnotationDrainState DrainStateDraining w' in
      let? _ := wrapf "patch workload for scale-down" (Patch w0) in
      (Node.eventf w0 EventTypeNormal "DrainScaleDown"
         ("Scaled down to " +:+ fmt_d original +:+ " after pod eviction from " +:+ node) ;;
       Ret (inr (mkResult (RequeueInterval cfg)))))
    (λ tr' o', effect_post w node
       (Called (ListPods (Namespace (meta w)) (GetPodSelector w)) (inr pods) :: tr ++ tr') o').
Proof.
  intros Hs Hn Hpods Eo Hr Hk Hm Hsp.
  destruct (anno_some w AnnotationDrainState) as [m Ea]; [by rewrite Hs|].
  assert (annos w' = Some m) as Ea' by by rewrite Hm.
  repeat wp_step; (split; [by intros []|]).
  1: { eapply (eff_evicted_partial cfg w node _ _ pods true); solve_evidence; [|by intros []].
       by rewrite ?writes_cons ?app_nil_r /=. }
  all: eapply (eff_evicted cfg w node _ _ pods original); solve_evidence.
  all: rewrite ?writes_cons ?writes_app Hr ?writes_cons /=; f_equal.
  all: autorewrite with surge_simpl; unfold state_write, wl_write.
  all: by rewrite ?Hk ?Hm ?Hsp ?Ea.
Qed.

Lemma handleWaitEviction_effect (w : T) node :
  Node.anno w AnnotationDrainState = DrainStateReady → on_node w node →
  wp (Node.handleWaitEviction cfg w node) (effect_post w node).
Proof.
  intros Hs Hn. destruct (anno_some w AnnotationDrainState) as [m Ea]; [by rewrite Hs|].
  unfold Node.handleWaitEviction.
  repeat wp_step; try (split; [by intros []|]; by apply eff_none).
  apply wp_bind, wp_bind. eapply wp_mono; [|apply restoreHPA_effect].
  intros tr [[e|[]]|msg|] Hr; cbn [bind_post wp wrap_err]; [|..|done|].
  - destruct Hr as [okh Hw]. split; [by intros []|].
    eapply (eff_evicted_partial cfg w node _ _ l okh); solve_evidence; [|by intros []].
    by rewrite ?writes_cons ?app_nil_r /=.
  - destruct (getOriginalReplicas (annos w)) as [e|original] eqn:Eo.
    + eapply (wp_abort w node _ (Called (ListPods _ _) (inr l) :: tr)).
      * right. by rewrite writes_cons /=.
      * intros tr'. eapply abort_reason_original; [by rewrite Hs|done].
      * intros tr' o. by rewrite /= app_nil_r.
    + rewrite app_nil_r.
      destruct (String.eqb _ "") eqn:Eh; eapply scaledown_effect; eauto;
        autorewrite with surge_simpl; try done.
      all: unfold scaledown_replicas; by rewrite Eh.
  - split; [by intros []|]. apply eff_none. by rewrite writes_cons /=.
Qed.

(** [shouldProcess] only reads, and says yes only to an eligible workload. *)
Lemma shouldProcess_effect (w : T) node :
  Node.anno w AnnotationDrainState = "" →
  wp (Node.shouldProcess cfg w node) (λ tr o,
    writes tr = [] ∧ ¬ panicked o ∧ (o = Returned true → eligible cfg w node)).
Proof.
  intros Hs. unfold Node.shouldProcess.
  repeat wp_step; (split; [done|split; [by intros []|]]); try done.
  all: intros _; apply String.eqb_eq in Heqb; apply Z.eqb_eq in Heqb0.
  all: split; try done; unfold on_node.
  all: destruct (String.eqb_spec (Node.anno w AnnotationDrainNode) ""); [by left|].
  all: destruct (String.eqb_spec (Node.anno w AnnotationDrainNode) node); [by right|done].
Qed.

Lemma reconcile_state_effect (w : T) node :
  wp (Node.reconcile_state cfg w node (Node.anno w AnnotationDrainState))
    (effect_post w node).
Proof.
  unfold Node.reconcile_state. set (s := Node.anno w AnnotationDrainState).
  destruct (decide (s = "")) as [Hs|Hs].
  - change (Node.anno w AnnotationDrainState) with s. rewrite Hs /=.
    apply wp_bind. eapply wp_mono; [|by apply shouldProcess_effect].
    intros tr [[|]|m|] (Hw & Hp & Hel); cbn [bind_post negb].
    + eapply wp_mono; [|by apply handlePending_effect, Hel].
      intros tr' o [Hp' He]. split; [done|]. by apply drain_effect_app.
    + split; [by intros []|]. apply eff_none. by rewrite app_nil_r.
    + by destruct Hp.
    + split; [done|]. by apply eff_none.
  - rewrite (proj2 (String.eqb_neq s DrainStateNone) Hs) ?(proj2 (String.eqb_neq s "") Hs) /=.
    destruct (negb _) eqn:Ego; [split; [by intros []|by apply eff_none]|].
    assert (on_node w node) as Hn.
    { unfold on_node. destruct (String.eqb_spec (Node.anno w AnnotationDrainNode) ""); [by left|].
      destruct (String.eqb_spec (Node.anno w AnnotationDrainNode) node); [by right|done]. }
    repeat (match goal with |- wp (if String.eqb s ?k then _ else _) _ =>
              destruct (String.eqb_spec s k) end).
    + by apply handleScaleUp_effect.
    + by apply handleWaitReady_effect.
    + by apply handleWaitEviction_effect.
    + by apply handleScaleDown_effect.
    + by apply handleCleanup_effect.
    + apply (wp_abort w node _ []); [by left| |done].
      intros tr. split; [done|]. do 2 right. set_solver.
Qed.

(** In every environment, a run of [reconcileWorkload] does not panic and its
    writes are those of a case of [drain_effect]. *)
Lemma reconcileWorkload_effect (w : T) node :
  wp (Node.reconcileWorkload cfg w node) (effect_post w node).
Proof.
  unfold Node.reconcileWorkload. set (s := Node.anno w AnnotationDrainState).
  destruct (if Node.isActive s then _ else _) as [start|] eqn:Es;
    [|apply reconcile_state_effect].
  assert (s ≠ "" ∧ parseDrainStart (annos w) = Some start) as [Hs Hstart].
  { unfold Node.isActive in Es. destruct (String.eqb_spec s DrainStateNone); [done|].
    destruct (negb _ && _); done. }
  repeat wp_step; try (split; [by intros []|]; by apply eff_none).
  3: { eapply wp_mono; [|apply reconcile_state_effect]. intros tr o [Hp He]. split; [done|].
       by apply (drain_effect_app cfg w node [_]). }
  all: eapply (wp_abort w node _ [_; _]); last (intros tr o Hpost; exact Hpost); [by left|].
  all: intros tr; split; [done|]; left; exists start, r; split; [done|]; split; [cbn; in_trace|lia].
Qed.
End sound.
