(* ===== verification/UndoPass.v ===== *)
(** * Passes that undo operations one by one

    [undoes mt final l wr all]: for every element [x] of [l] in order, the writes
    [wr] restore the autoscaler recorded in [mt x], if one is, and then issue
    [final x]; [all] says whether every final write succeeded.  A failure does not
    stop the pass.  The node-level abort, the two orphan recoveries of the drain
    controller and the one of the restart-surge controller are such passes. *)

From S2P Require Import Prelude GoStd GoTime K8s Effects Loops Config State Workload Scaler.
From S2P Require Import NodeController NodeSpec.

Section undo.
Context {L : K8sLib} {A : Type} (mt : A → ObjectMeta) (final : A → bool → write).

Inductive undoes : list A → list write → bool → Prop :=
| undoes_nil : undoes [] [] true
| undoes_cons x l okh ok wr all :
    undoes l wr all →
    undoes (x :: l) (restore_writes (mt x) okh ++ final x ok :: wr) (ok && all).

Lemma undoes_app l1 wr1 b1 l2 wr2 b2 :
  undoes l1 wr1 b1 → undoes l2 wr2 b2 → undoes (l1 ++ l2) (wr1 ++ wr2) (b1 && b2).
Proof.
  induction 1 as [|x l okh ok wr all _ IH]; intros H2; [done|]. simpl.
  rewrite -app_assoc /= -andb_assoc. by constructor; apply IH.
Qed.

(** One iteration that undoes the picked elements and updates a local state. *)
Definition undo_iteration {S} (pick : A → bool) (upd : S → error + Result → S) (x : A)
    (tr : list called) (s s' : S) : Prop :=
  if pick x then
    ∃ r okh, s' = upd s r ∧ writes tr = restore_writes (mt x) okh ++ [final x (is_ok r)]
  else s' = s ∧ writes tr = [].

(** [good s b] relates the local state to whether every patch so far succeeded. *)
Lemma chain_undoes {S} (pick : A → bool) (upd : S → error + Result → S)
    (good : S → bool → Prop) l tr s s' b :
  (∀ s b r, good s b → good (upd s r) (b && is_ok r)) →
  chain (undo_iteration pick upd) l tr s s' → good s b →
  ∃ all, undoes (List.filter pick l) (writes tr) all ∧ good s' (b && all).
Proof.
  intros Hgood Hc. revert b.
  induction Hc as [s|x l tr1 tr2 s s1 s2 Hx _ IH]; intros b Hb.
  - exists true. split; [constructor|]. by rewrite andb_true_r.
  - unfold undo_iteration in Hx. simpl. rewrite writes_app. destruct (pick x).
    + destruct Hx as (r & okh & -> & Hw).
      destruct (IH (b && is_ok r)) as (all & Ha & Hg); [by apply Hgood|].
      exists (is_ok r && all). split; [|by rewrite andb_assoc].
      rewrite Hw -app_assoc /=. by constructor.
    + destruct Hx as [-> ->]. by apply IH.
Qed.

(** What an undoing program does, when it returns. *)
Definition undo_returned (x : A) (tr : list called) (o : outcome (error + Result)) : Prop :=
  ¬ panicked o ∧ ∀ r, o = Returned r →
    ∃ okh, writes tr = restore_writes (mt x) okh ++ [final x (is_ok r)].

Lemma undo_effect_returned x tr o :
  ¬ panicked o → undo_effect (mt x) (final x) (writes tr) o → undo_returned x tr o.
Proof.
  intros Hp He. split; [done|]. intros r ->.
  inversion He as [|?|okh ok o' _ Hok Hw]; subst. exists okh. by rewrite (Hok r eq_refl).
Qed.

Lemma undo_iteration_spec {S} (p : A → prog (error + Result)) (pick : A → bool)
    (upd : S → error + Result → S) x s :
  wp (p x) (undo_returned x) →
  wp (if pick x then bind (p x) (λ r, Ret (upd s r)) else Ret s)
    (λ tr o, ¬ panicked o ∧ ∀ s', o = Returned s' → undo_iteration pick upd x tr s s').
Proof.
  intros Hundo. unfold undo_iteration.
  destruct (pick x); [|by split; [intros []|intros s' [= <-]]].
  apply wp_bind. eapply wp_mono; [|exact Hundo].
  intros tr [r|m|] [Hp Hr]; cbn; [|by destruct Hp|by split; [intros []|]].
  split; [by intros []|]. intros s' [= <-]. rewrite app_nil_r.
  destruct (Hr r eq_refl) as [okh Hw]. by exists r, okh.
Qed.

(** A loop without local state that undoes the picked elements. *)
Lemma undo_loop (p : A → prog (error + Result)) (pick : A → bool) (body : A → unit → prog unit) l :
  (∀ x, wp (p x) (undo_returned x)) →
  (∀ x, body x () = if pick x then bind (p x) (λ _, Ret ()) else Ret ()) →
  wp (for_each body l ()) (λ tr o, ¬ panicked o ∧ ∀ u, o = Returned u →
    ∃ all, undoes (List.filter pick l) (writes tr) all).
Proof.
  intros Hundo Hbody. pose (upd := λ (u : unit) (r : error + Result), ()).
  eapply wp_mono; [|apply (wp_for_each_chain (undo_iteration pick upd))].
  - intros tr o [Hp Hc]. split; [done|]. intros u Ho.
    destruct (chain_undoes pick upd (λ _ _, True) l tr () u true)
      as (all & Ha & _); [done|by apply Hc|done|]. by exists all.
  - intros x [] _. rewrite Hbody. by apply (undo_iteration_spec p pick upd x ()).
Qed.
End undo.

Lemma undoes_fmap {L : K8sLib} {A B} (f : A → B) mt final (l : list A) wr all :
  undoes (λ x, mt (f x)) (λ x, final (f x)) l wr all → undoes mt final (f <$> l) wr all.
Proof. induction 1; simpl; by constructor. Qed.

Lemma filter_all {A} (l : list A) : List.filter (λ _, true) l = l.
Proof. induction l; simpl; congruence. Qed.

Lemma filter_sublist {A} (f : A → bool) l : List.filter f l `sublist_of` l.
Proof. induction l as [|x l IH]; simpl; [constructor|]. destruct (f x); by constructor. Qed.

(** Undoing drains. *)
Abbreviation aborts := (undoes GetObjectMeta abort_write).
