(* ===== verification/Cluster.v ===== *)
(** * An in-memory API server

    [cluster] is the state of a small API server and [cluster_server] answers
    every call of [apiE] from it: lookups by name, lists filtered by namespace,
    selector or index, merge patches applied as RFC 7386 says, and a clock.  It
    plays the role of the fake client of the repository's tests: the witnesses
    execute the controllers against it, and it shows that the assumptions of the
    theorems about servers can hold.  [fail_hpa] and [fail_workload] make the
    patches of that kind fail. *)

From S2P Require Import Prelude GoStd GoTime K8s Effects Config State Workload Scaler NodeController.

Local Open Scope Z_scope.

Section cluster.
Context {L : K8sLib}.

Record cluster : Type := mkCluster {
  c_nodes : list Node;
  c_replicasets : list ReplicaSet;
  c_rollouts : list Rollout;
  c_deployments : list Deployment;
  c_pods : list Pod;
  c_pdbs : list PDB;
  c_hpas : list HPA;
  c_now : Time;
  fail_workload : bool;
  fail_hpa : bool
}.

Definition named (ns n : string) (m : ObjectMeta) : bool :=
  String.eqb (Namespace m) ns && String.eqb (Name m) n.
Definition in_namespace (ns : string) (m : ObjectMeta) : bool := String.eqb (Namespace m) ns.
Definition indexed (drainNode : option string) (m : ObjectMeta) : bool :=
  match drainNode with
  | None => true
  | Some n => existsb (String.eqb n) (Node.indexByDrainNodeAnnotation m)
  end.

Definition not_found : error := ApiError true "not found".
Definition unavailable : error := ApiError false "unavailable".

Definition get_by {A} (f : A → bool) (l : list A) : error + A :=
  match List.find f l with Some x => inr x | None => inl not_found end.

(** The stored object after a merge patch. *)
Definition patch_meta (p : MergePatch) (m : ObjectMeta) : ObjectMeta :=
  with_Annotations (Some (merge_annotations (patch_annotations p) (default ∅ (Annotations m)))) m.
Definition patch_rollout (p : MergePatch) (r : Rollout) : Rollout :=
  mkRollout (patch_meta p (ro_meta r)) (patch_replicas p) (ro_Selector r) (ro_RestartAt r)
    (ro_Phase r) (ro_Message r) (ro_RestartedAt r).
Definition patch_deployment (p : MergePatch) (d : Deployment) : Deployment :=
  mkDeployment (patch_meta p (dep_meta d)) (patch_replicas p) (dep_Selector d)
    (dep_StrategyType d) (dep_ObservedGeneration d) (dep_Conditions d).
Definition patch_hpa (n : Z) (h : HPA) : HPA :=
  mkHPA (hpa_meta h) (Some n) (hpa_MaxReplicas h) (hpa_TargetKind h) (hpa_TargetName h).

Definition update_where {A} (f : A → bool) (g : A → A) (l : list A) : list A :=
  (λ x, if f x then g x else x) <$> l.

Definition set_rollouts (l : list Rollout) (c : cluster) : cluster :=
  mkCluster (c_nodes c) (c_replicasets c) l (c_deployments c) (c_pods c) (c_pdbs c) (c_hpas c)
    (c_now c) (fail_workload c) (fail_hpa c).
Definition set_deployments (l : list Deployment) (c : cluster) : cluster :=
  mkCluster (c_nodes c) (c_replicasets c) (c_rollouts c) l (c_pods c) (c_pdbs c) (c_hpas c)
    (c_now c) (fail_workload c) (fail_hpa c).
Definition set_hpas (l : list HPA) (c : cluster) : cluster :=
  mkCluster (c_nodes c) (c_replicasets c) (c_rollouts c) (c_deployments c) (c_pods c) (c_pdbs c) l
    (c_now c) (fail_workload c) (fail_hpa c).
Definition set_pods (l : list Pod) (c : cluster) : cluster :=
  mkCluster (c_nodes c) (c_replicasets c) (c_rollouts c) (c_deployments c) l (c_pdbs c) (c_hpas c)
    (c_now c) (fail_workload c) (fail_hpa c).
Definition set_now (t : Time) (c : cluster) : cluster :=
  mkCluster (c_nodes c) (c_replicasets c) (c_rollouts c) (c_deployments c) (c_pods c) (c_pdbs c)
    (c_hpas c) t (fail_workload c) (fail_hpa c).

Definition patch_workload (k : Kind) (ns n : string) (p : MergePatch) (c : cluster) :
    (error + unit) * cluster :=
  if fail_workload c then (inl unavailable, c)
  else match k with
       | KRollout =>
           if existsb (λ r, named ns n (ro_meta r)) (c_rollouts c)
           then (inr (), set_rollouts (update_where (λ r, named ns n (ro_meta r))
                                         (patch_rollout p) (c_rollouts c)) c)
           else (inl not_found, c)
       | KDeployment =>
           if existsb (λ d, named ns n (dep_meta d)) (c_deployments c)
           then (inr (), set_deployments (update_where (λ d, named ns n (dep_meta d))
                                            (patch_deployment p) (c_deployments c)) c)
           else (inl not_found, c)
       end.

Definition patch_hpas (ns n : string) (min : Z) (c : cluster) : (error + unit) * cluster :=
  if fail_hpa c then (inl unavailable, c)
  else if existsb (λ h, named ns n (hpa_meta h)) (c_hpas c)
  then (inr (), set_hpas (update_where (λ h, named ns n (hpa_meta h)) (patch_hpa min) (c_hpas c)) c)
  else (inl not_found, c).

Definition cluster_serve {R} (e : apiE R) (c : cluster) : R * cluster :=
  match e in apiE R return R * cluster with
  | GetNode n => (get_by (λ x, String.eqb (Name (node_meta x)) n) (c_nodes c), c)
  | GetReplicaSet ns n => (get_by (λ x, named ns n (rs_meta x)) (c_replicasets c), c)
  | GetRollout ns n => (get_by (λ x, named ns n (ro_meta x)) (c_rollouts c), c)
  | GetDeployment ns n => (get_by (λ x, named ns n (dep_meta x)) (c_deployments c), c)
  | ListNodes => (inr (c_nodes c), c)
  | ListPodsOnNode n =>
      (inr (List.filter (λ p, existsb (String.eqb n) (Node.indexPodByNode p)) (c_pods c)), c)
  | ListPods ns sel =>
      (inr (List.filter (λ p, in_namespace ns (pod_meta p)
                              && Selector_Matches sel (Labels (pod_meta p))) (c_pods c)), c)
  | ListPDBs ns => (inr (List.filter (λ x, in_namespace ns (pdb_meta x)) (c_pdbs c)), c)
  | ListHPAs ns => (inr (List.filter (λ x, in_namespace ns (hpa_meta x)) (c_hpas c)), c)
  | ListRollouts dn => (inr (List.filter (λ x, indexed dn (ro_meta x)) (c_rollouts c)), c)
  | ListDeployments dn => (inr (List.filter (λ x, indexed dn (dep_meta x)) (c_deployments c)), c)
  | PatchWorkload k ns n p => patch_workload k ns n p c
  | PatchHPA ns n min => patch_hpas ns n min c
  | RecordEvent _ _ _ _ => ((), c)
  | Now => (c_now c, c)
  | RangeOrder ks => (ks, c)
  end.

Lemma cluster_serve_legal R (e : apiE R) c : legal e (cluster_serve e c).1.
Proof. destruct e; cbn; done || reflexivity. Qed.

Definition cluster_server : server cluster := mkServer (@cluster_serve) cluster_serve_legal.
End cluster.
