(* ===== verification/Samples.v ===== *)
(** * Concrete inputs for the witnesses

    [match_labels] instantiates the library parameter with equality-based label
    selectors (a label map; its requirements are the printed pairs) and is shown
    to satisfy [K8sLibLaws].  The objects below are a single-replica Deployment
    and a Rollout named [web], with a budget, a node carrying a drain taint and,
    where needed, an autoscaler. *)

From stdpp Require Import pretty.
From S2P Require Import Prelude GoStd GoTime K8s Effects Config State Workload Scaler.
From S2P Require Import RestartDetect NodeController RolloutController Cluster.

Local Open Scope Z_scope.

(** ** Equality-based selectors *)

(** A requirement is the printed form of one label with its value. *)
Definition req_string (kv : string * string) : string := kv.1 +:+ "=" +:+ kv.2.

Definition req_matches (s : string) (ls : gmap string string) : bool :=
  existsb (λ kv, String.eqb (req_string kv) s) (map_to_list ls).

Definition label_reqs (sel : option (gmap string string)) : list string :=
  match sel with Some m => req_string <$> map_to_list m | None => [] end.

Definition match_labels : K8sLib := {|
  LabelSelector := gmap string string;
  Selector := option (gmap string string);
  Requirement := string;
  labels_Nothing := None;
  LabelSelectorAsSelector := λ m, inr (Some m);
  Requirements := λ sel, (label_reqs sel, match sel with Some _ => true | None => false end);
  Requirement_String := λ s, s;
  Requirement_Matches := req_matches;
  Selector_Matches := λ sel ls,
    match sel with Some _ => forallb (λ r, req_matches r ls) (label_reqs sel) | None => false end;
  Time_Equal := λ t u, bool_decide (t = u)
|}.

Lemma match_labels_laws : K8sLibLaws match_labels.
Proof.
  split; simpl.
  - intros t u. apply bool_decide_eq_true.
  - done.
  - done.
  - intros [m|] rs ls [= <-]. apply forallb_true_iff.
  - by intros [m|] rs [= <-].
  - by intros r1 r2 ls ->.
Qed.

#[global] Existing Instance match_labels.
#[global] Existing Instance match_labels_laws.

(** ** Objects *)

Definition ns : string := "default".
Definition t0 : Time := 1700000000 * Second.

Definition cfg : Config := flags_config no_flags.
Definition restart_cfg : Config :=
  flags_config (mkFlags None None None None None None (Some true) None None).

Definition meta_of (n : string) (a : option annotations) (refs : list OwnerReference) : ObjectMeta :=
  mkObjectMeta n ns a {["app" := "web"]} 1 refs t0 None.

Definition enabled : annotations := {[AnnotationEnabled := "true"]}.

Definition web_dep (replicas : option Z) (a : annotations) : Deployment :=
  mkDeployment (meta_of "web" (Some a) []) replicas (Some {["app" := "web"]}) "RollingUpdate" 1 [].

Definition web_ro (replicas : option Z) (a : annotations) (restartAt : option Time) : Rollout :=
  mkRollout (meta_of "web" (Some a) []) replicas (Some {["app" := "web"]}) restartAt "Healthy" ""
    None.

Definition web_pod (n node : string) (ready : bool) (created : Time) : Pod :=
  mkPod (mkObjectMeta n ns None {["app" := "web"]} 1
           [mkOwnerReference "ReplicaSet" "apps/v1" "web-rs"] created None)
    node "Running" (if ready then [mkPodCondition "Ready" "True"] else []).

Definition web_pdb : PDB := mkPDB (meta_of "web-pdb" None []) (Some {["app" := "web"]}).
Definition web_hpa (kind : string) (min : option Z) (max : Z) : HPA :=
  mkHPA (meta_of "web-hpa" None []) min max kind "web".
Definition web_rs (kind api : string) : ReplicaSet :=
  mkReplicaSet (meta_of "web-rs" None [mkOwnerReference kind api "web"]).

Definition drained_node : Node :=
  mkNode (meta_of "node-1" None []) [mkTaint "karpenter.sh/disrupted" "NoSchedule"].

(** A cluster with the Deployment [d], the pods [pods] and the autoscalers [hpas]. *)
Definition dep_cluster (d : Deployment) (pods : list Pod) (hpas : list HPA) (now : Time) : cluster :=
  mkCluster [drained_node] [web_rs "Deployment" "apps/v1"] [] [d] pods [web_pdb] hpas now false false.

Definition ro_cluster (r : Rollout) (pods : list Pod) (hpas : list HPA) (now : Time) : cluster :=
  mkCluster [drained_node] [web_rs "Rollout" "argoproj.io/v1alpha1"] [r] [] pods [web_pdb] hpas now
    false false.

(** The annotations of a drain in state [s] that started at [t0]. *)
Definition draining_annotations (s : DrainState) : annotations :=
  <[AnnotationDrainStart := Format_RFC3339 t0]>
  (<[AnnotationDrainNode := "node-1"]>
  (<[AnnotationOriginalReplicas := "1"]>
  (<[AnnotationDrainState := s]> enabled))).

(** A run against a cluster is a run in the sense of [runs]. *)
Abbreviation trace_of p c := (run cluster_server p c).1.1.
Abbreviation outcome_of p c := (run cluster_server p c).1.2.
Abbreviation after p c := (run cluster_server p c).2.

Lemma cluster_runs {A} (p : prog A) (c : cluster) : runs p (trace_of p c) (outcome_of p c).
Proof. destruct (run cluster_server p c) as [[tr o] c'] eqn:E. by apply (run_runs _ _ _ _ _ _ E). Qed.

(** A write without its annotation part, which is cheap to compute. *)
Definition shape (x : write) : (Kind * string * string * option Z * bool) + (string * string * Z * bool) :=
  match x with
  | WWorkload k ns n p ok => inl (k, ns, n, patch_replicas p, ok)
  | WHPA ns n v ok => inr (ns, n, v, ok)
  end.

Lemma shape_workload l k ns n r ok : shape <$> l = [inl (k, ns, n, r, ok)] →
  ∃ p, l = [WWorkload k ns n p ok] ∧ patch_replicas p = r.
Proof. destruct l as [|[] [|]]; try done. intros [= -> -> -> <- ->]. eauto. Qed.

(** The first reconcile of the drain surges the Deployment. *)
Example first_reconcile :
  let c := dep_cluster (web_dep (Some 1) enabled) [web_pod "old" "node-1" true t0] [] t0 in
  outcome_of (Node.Reconcile cfg "node-1") c = Returned (inr (mkResult (5 * Second)))
  ∧ (λ d, (dep_Replicas d, map_to_list <$> Annotations (dep_meta d))) <$>
      c_deployments (after (Node.Reconcile cfg "node-1") c)
    = [(Some 2, Some (map_to_list (draining_annotations DrainStateScaledUp)))].
Proof. split; vm_compute; reflexivity. Qed.
