(* ===== verification/LookupProps.v ===== *)
(** * Lookups and restart detection: theorems

    What the pure decisions of [Scaler] and [RestartDetect] mean: the budget
    check covers the workload's pods, owner resolution follows only the two
    supported owner chains, and the stuck-restart test is the documented one. *)

From stdpp Require Import pretty.
From S2P Require Import Prelude GoStd GoTime K8s Effects Loops Config State Workload Scaler.
From S2P Require Import RestartDetect NodeController RolloutController Cluster Samples.

Local Open Scope Z_scope.

(** ** Disruption budgets *)

(** C35. [FindMatchingPDB]'s criterion is sound: when some PodDisruptionBudget of
    the list is accepted, that budget's selector matches every pod the workload's
    own selector matches, so the budget covers all of the workload's pods; and a
    workload without a usable selector never has a matching budget. *)
Theorem FindMatchingPDB_covers {L : K8sLib} {LL : K8sLibLaws L} (sel : Selector) (pdbs : list PDB) :
  (existsb (pdb_matches (Requirements sel).1) pdbs = true →
   ∃ pdb ls psel, pdb ∈ pdbs ∧ pdb_Selector pdb = Some ls
     ∧ LabelSelectorAsSelector ls = inr psel
     ∧ ∀ labels, Selector_Matches sel labels = true → Selector_Matches psel labels = true)
  ∧ existsb (pdb_matches (Requirements labels_Nothing).1) pdbs = false.
Proof.
  split.
  - intros (pdb & Hin & Hm)%existsb_true_iff. unfold pdb_matches in Hm.
    destruct (pdb_Selector pdb) as [ls|] eqn:Hls; [|done].
    destruct (LabelSelectorAsSelector ls) as [e|psel] eqn:Hsel; [done|].
    exists pdb, ls, psel. do 3 (split; [done|]). intros labels Hmatch.
    apply requirementsMatch_spec in Hm as [Hne Hreq].
    destruct (Requirements psel) as [rs b] eqn:Hrs. simpl in *.
    destruct b; [|by apply Unselectable_spec in Hrs as [-> _]].
    apply (Selector_Matches_spec psel rs labels Hrs). intros r Hr.
    destruct (Hreq r Hr) as (wr & Hwr & Heq).
    rewrite (Requirement_String_spec _ _ _ Heq).
    destruct (Requirements sel) as [ws [|]] eqn:Hws; simpl in Hwr.
    + by apply (Selector_Matches_spec sel ws labels Hws).
    + apply Unselectable_spec in Hws as [-> _]. set_solver.
  - rewrite Nothing_Requirements. apply existsb_false_iff. intros pdb _. unfold pdb_matches.
    destruct (pdb_Selector pdb); [|done]. destruct (LabelSelectorAsSelector _); [done|].
    apply not_true_is_false. intros [Hne H]%requirementsMatch_spec.
    destruct (Requirements s).1 as [|r rs]; [done|]. destruct (H r) as (? & ? & _); set_solver.
Qed.

Lemma FindMatchingPDB_covers_witness :
  ∃ pdb ls psel, pdb ∈ [web_pdb] ∧ pdb_Selector pdb = Some ls
     ∧ LabelSelectorAsSelector ls = inr psel
     ∧ ∀ labels, Selector_Matches (Some {["app" := "web"]}) labels = true →
                 Selector_Matches psel labels = true.
Proof.
  apply (proj1 (FindMatchingPDB_covers (LL := match_labels_laws) (Some {["app" := "web"]}) [web_pdb])).
  vm_compute. reflexivity.
Defined.

(** ** Restart detection *)

(** C36. [isRestartStuck] holds exactly when a restart is pending, its time has
    come, the grace period has elapsed since (for a grace period a [Duration]
    can express) and a live pod predates it; and then
    [restartCompletedByArgo] is false, so the surge that a stuck restart starts is
    never ended by the same observation. *)
Theorem isRestartStuck_spec {L : K8sLib} {LL : K8sLibLaws L} (ro : Rollout) (pods : list Pod)
    (grace : Duration) (now : Time) (Hgrace : 0 < grace < maxDuration) :
  (isRestartStuck ro pods grace now = true ↔
   ∃ t, restart_pending ro t ∧ grace ≤ now - t
        ∧ ∃ p, p ∈ pods ∧ DeletionTimestamp (pod_meta p) = None
               ∧ CreationTimestamp (pod_meta p) < t)
  ∧ (isRestartStuck ro pods grace now = true → restartCompletedByArgo ro pods = false).
Proof.
  unfold isRestartStuck, restartCompletedByArgo, restart_pending.
  destruct (ro_RestartAt ro) as [t|] eqn:Ht; [|naive_solver].
  pose proof (restarted_spec ro t Ht) as Hr.
  destruct (restarted ro); [naive_solver|].
  unfold Before. destruct (Z.ltb_spec now t); [split; [naive_solver lia|done]|].
  destruct (Z.ltb_spec (Sub now t) grace) as [Hs|Hs]; [split; [|done]|].
  - split; [done|]. intros (t' & [[= <-] _] & Hge & _). exfalso.
    unfold Sub, minDuration, maxDuration in *. lia.
  - split; [|by intros ->]. rewrite existsb_true_iff. unfold predates. split.
    + intros (p & Hin & Hp). exists t. repeat split; [naive_solver| |].
      { unfold Sub, minDuration, maxDuration in *. lia. }
      destruct (DeletionTimestamp (pod_meta p)) eqn:Hd; [done|].
      exists p. apply Z.ltb_lt in Hp. auto.
    + intros (t' & [[= <-] _] & _ & p & Hin & Hd & Hc). exists p. split; [done|].
      rewrite Hd. by apply Z.ltb_lt.
Qed.

Lemma isRestartStuck_spec_witness :
  isRestartStuck (web_ro (Some 1) enabled (Some (t0 + Second))) [web_pod "old" "node-1" true t0]
    Minute (t0 + 2 * Minute) = true
  ∧ restartCompletedByArgo (web_ro (Some 1) enabled (Some (t0 + Second)))
      [web_pod "old" "node-1" true t0] = false.
Proof.
  split; [vm_compute; reflexivity|].
  apply (isRestartStuck_spec (LL := match_labels_laws) (web_ro (Some 1) enabled (Some (t0 + Second)))
           [web_pod "old" "node-1" true t0] Minute (t0 + 2 * Minute)).
  - split; reflexivity.
  - vm_compute. reflexivity.
Defined.

(** ** Owner resolution *)

Section resolution.
Context {L : K8sLib}.

(** An owner reference the resolution follows to [w], and the read that
    answered with it. *)
Definition owner_read (ns : string) (ref : OwnerReference) (w : DrainableWorkload)
    (tr : list called) : Prop :=
  match w with
  | WRollout r => ref_Kind ref = "Rollout" ∧ ref_APIVersion ref = "argoproj.io/v1alpha1"
                  ∧ Called (GetRollout ns (ref_Name ref)) (inr r) ∈ tr
  | WDeployment d => ref_Kind ref = "Deployment" ∧ ref_APIVersion ref = "apps/v1"
                     ∧ Called (GetDeployment ns (ref_Name ref)) (inr d) ∈ tr
  end.

Lemma owner_read_cons ns ref w c tr : owner_read ns ref w tr → owner_read ns ref w (c :: tr).
Proof. destruct w; unfold owner_read; set_solver. Qed.

Definition resolved_post (ns : string) (refs : list OwnerReference) (tr : list called)
    (o : outcome (error + option DrainableWorkload)) : Prop :=
  ∀ w, o = Returned (inr (Some w)) → ∃ ref, ref ∈ refs ∧ owner_read ns ref w tr.

Lemma resolve_owner_post ns refs : wp (resolve_owner ns refs) (resolved_post ns refs).
Proof.
  induction refs as [|ref refs IH]; cbn [resolve_owner]; [by intros w|].
  destruct (String.eqb _ "Rollout" && _) eqn:E1;
    [|destruct (String.eqb _ "Deployment" && _) eqn:E2].
  3: { eapply wp_mono; [|apply IH]. intros tr o H w Ho.
       destruct (H w Ho) as (ref' & ? & ?). exists ref'. set_solver. }
  all: wp_split; [by intros w|]; destruct r; [by intros w|].
  all: intros w [= <-]; exists ref; split; [set_solver|].
  all: repeat match goal with H : _ && _ = true |- _ => apply andb_true_iff in H as [??] end.
  all: repeat match goal with H : String.eqb _ _ = true |- _ => apply String.eqb_eq in H end.
  all: unfold owner_read; split_all; try done; apply list_elem_of_here.
Qed.

Lemma owner_replicaset_spec refs : owner_replicaset refs ≠ "" →
  ∃ ref, ref ∈ refs ∧ ref_Kind ref = "ReplicaSet" ∧ ref_APIVersion ref = "apps/v1"
         ∧ ref_Name ref = owner_replicaset refs.
Proof.
  unfold owner_replicaset. destruct (List.find _ _) as [ref|] eqn:E; [|done]. intros _.
  apply find_some in E as [Hin Hb]. apply andb_true_iff in Hb as [H1 H2].
  apply String.eqb_eq in H1. apply String.eqb_eq in H2.
  exists ref. rewrite list_elem_of_In. done.
Qed.

(** The owner chain from a pod to a workload, as read. *)
Definition owner_chain (pod : Pod) (w : DrainableWorkload) (tr : list called) : Prop :=
  ∃ pref rs ref, pref ∈ OwnerReferences (pod_meta pod)
    ∧ ref_Kind pref = "ReplicaSet" ∧ ref_APIVersion pref = "apps/v1"
    ∧ Called (GetReplicaSet (Namespace (pod_meta pod)) (ref_Name pref)) (inr rs) ∈ tr
    ∧ ref ∈ OwnerReferences (rs_meta rs)
    ∧ owner_read (Namespace (pod_meta pod)) ref w tr.

Lemma resolve_chain pod : wp (ResolveWorkloadFromPod pod) (λ tr o,
  ∀ w, o = Returned (inr (Some w)) → owner_chain pod w tr).
Proof.
  unfold ResolveWorkloadFromPod, owner_chain.
  destruct (String.eqb_spec (owner_replicaset (OwnerReferences (pod_meta pod))) ""); [done|].
  destruct (owner_replicaset_spec (OwnerReferences (pod_meta pod)))
    as (pref & Hin & Hk & Ha & Hn); [done|].
  rewrite -Hn. cbn. split; [done|]. intros [e|rs] _; cbn; [done|].
  eapply wp_mono; [|apply resolve_owner_post]. intros tr o Hpost w Ho.
  destruct (Hpost w Ho) as (ref & Href & Hread).
  exists pref, rs, ref. split_all; try done; [apply list_elem_of_here|by apply owner_read_cons].
Qed.
End resolution.

(** ** Every answer of the resolution *)

Section resolution_spec.
Context {L : K8sLib}.

Definition is_replicaset (ref : OwnerReference) : Prop :=
  ref_Kind ref = "ReplicaSet" ∧ ref_APIVersion ref = "apps/v1".
Definition is_rollout (ref : OwnerReference) : Prop :=
  ref_Kind ref = "Rollout" ∧ ref_APIVersion ref = "argoproj.io/v1alpha1".
Definition is_deployment (ref : OwnerReference) : Prop :=
  ref_Kind ref = "Deployment" ∧ ref_APIVersion ref = "apps/v1".
Definition is_owner (ref : OwnerReference) : Prop := is_rollout ref ∨ is_deployment ref.

(** The first element of a list with a property. *)
Definition first_such {A} (P : A → Prop) (l : list A) (x : A) : Prop :=
  ∃ pre post, l = pre ++ x :: post ∧ P x ∧ ∀ y, y ∈ pre → ¬ P y.

(** The owner references of a ReplicaSet: the calls made and the answer. *)
Inductive owner_resolved (ns : string) (refs : list OwnerReference) :
    list called → error + option DrainableWorkload → Prop :=
| no_owner : (∀ ref, ref ∈ refs → ¬ is_owner ref) → owner_resolved ns refs [] (inr None)
| owner_rollout ref ro : first_such is_owner refs ref → is_rollout ref →
    owner_resolved ns refs [Called (GetRollout ns (ref_Name ref)) (inr ro)]
      (inr (Some (WRollout ro)))
| owner_rollout_failed ref e : first_such is_owner refs ref → is_rollout ref →
    owner_resolved ns refs [Called (GetRollout ns (ref_Name ref)) (inl e)]
      (inl (Errorf "get Rollout" (Some e)))
| owner_deployment ref dep : first_such is_owner refs ref → is_deployment ref →
    owner_resolved ns refs [Called (GetDeployment ns (ref_Name ref)) (inr dep)]
      (inr (Some (WDeployment dep)))
| owner_deployment_failed ref e : first_such is_owner refs ref → is_deployment ref →
    owner_resolved ns refs [Called (GetDeployment ns (ref_Name ref)) (inl e)]
      (inl (Errorf "get Deployment" (Some e))).

(** The resolution of a pod. *)
Inductive pod_resolved (pod : Pod) : list called → error + option DrainableWorkload → Prop :=
| no_replicaset : (∀ ref, ref ∈ OwnerReferences (pod_meta pod) → ¬ is_replicaset ref) →
    pod_resolved pod [] (inr None)
| nameless_replicaset ref :
    first_such is_replicaset (OwnerReferences (pod_meta pod)) ref → ref_Name ref = "" →
    pod_resolved pod [] (inr None)
| replicaset_failed ref e :
    first_such is_replicaset (OwnerReferences (pod_meta pod)) ref → ref_Name ref ≠ "" →
    pod_resolved pod [Called (GetReplicaSet (Namespace (pod_meta pod)) (ref_Name ref)) (inl e)]
      (inl (Errorf "get ReplicaSet" (Some e)))
| replicaset_read ref rs tr r :
    first_such is_replicaset (OwnerReferences (pod_meta pod)) ref → ref_Name ref ≠ "" →
    owner_resolved (Namespace (pod_meta pod)) (OwnerReferences (rs_meta rs)) tr r →
    pod_resolved pod
      (Called (GetReplicaSet (Namespace (pod_meta pod)) (ref_Name ref)) (inr rs) :: tr) r.

Lemma first_such_here {A} (P : A → Prop) x l : P x → first_such P (x :: l) x.
Proof. intros Hx. exists [], l. split_all; [done..|]. by intros y []%not_elem_of_nil. Qed.

Lemma first_such_skip {A} (P : A → Prop) x y l : ¬ P x → first_such P (x :: l) y ↔ first_such P l y.
Proof.
  intros Hx. split.
  - intros ([|z pre] & post & E & Hy & Hpre); injection E as -> ->; [done|].
    exists pre, post. split_all; [done..|]. intros z' Hz. apply Hpre. set_solver.
  - intros (pre & post & -> & Hy & Hpre). exists (x :: pre), post. split_all; [done..|].
    by intros z [->|Hz]%elem_of_cons; [|apply Hpre].
Qed.

Lemma kind_eqb ref k a :
  String.eqb (ref_Kind ref) k && String.eqb (ref_APIVersion ref) a = true
  ↔ ref_Kind ref = k ∧ ref_APIVersion ref = a.
Proof. by rewrite andb_true_iff !String.eqb_eq. Qed.

(** Skipping a reference that is no owner. *)
Lemma owner_resolved_skip ns ref refs tr r : ¬ is_owner ref →
  owner_resolved ns (ref :: refs) tr r ↔ owner_resolved ns refs tr r.
Proof.
  intros Hr. split; intros [H|ref' ? H ?|ref' ? H ?|ref' ? H ?|ref' ? H ?].
  all: try (apply first_such_skip in H; [|done]); try by econstructor.
  all: try (econstructor; [|done]; by apply first_such_skip).
  - apply no_owner. intros y Hy. apply H. by apply list_elem_of_further.
  - apply no_owner. by intros y [->|Hy]%elem_of_cons; [|apply H].
Qed.

Lemma first_such_owner ref refs ref' :
  first_such is_owner (ref :: refs) ref' → is_owner ref → ref' = ref.
Proof.
  intros ([|z pre] & post & E & _ & Hpre) Ho; injection E as -> ->; [done|].
  by destruct (Hpre z (list_elem_of_here _ _)).
Qed.
(** A program that makes one read and returns what it answers. *)
Lemma read_runs {A B} (e : apiE (error + A)) msg (f : A → B) tr (r : error + B) :
  (∀ a, legal e a) →
  runs (bind_ok (wrapf msg (call e)) (λ x, Ret (inr (f x)))) tr (Returned r)
  ↔ (∃ x, tr = [Called e (inr x)] ∧ r = inr (f x))
    ∨ ∃ err, tr = [Called e (inl err)] ∧ r = inl (Errorf msg (Some err)).
Proof.
  intros Hlegal. cbn. split.
  - intros [[_ [=]]|([err|x] & tr' & -> & _ & -> & [= ->])]; eauto.
  - intros [(x & Ht & Hr)|(err & Ht & Hr)]; right; subst; eexists _, [];
      (split; [reflexivity|]; split; [apply Hlegal|done]).
Qed.

Lemma resolve_owner_runs ns refs tr r :
  runs (resolve_owner ns refs) tr (Returned r) ↔ owner_resolved ns refs tr r.
Proof.
  induction refs as [|ref refs IH].
  { split.
    - intros [-> ->]%runs_ret. apply no_owner. by intros ref []%not_elem_of_nil.
    - intros [_|? ? (? & ? & E & _)|? ? (? & ? & E & _)|? ? (? & ? & E & _)|? ? (? & ? & E & _)];
        [by split|by destruct (app_cons_not_nil _ _ _ E)..]. }
  cbn [resolve_owner].
  destruct (String.eqb _ "Rollout" && _) eqn:E1; [|destruct (String.eqb _ "Deployment" && _) eqn:E2].
  3: { rewrite IH owner_resolved_skip //. intros [H%kind_eqb|H%kind_eqb]; congruence. }
  all: rewrite read_runs //; match goal with H : _ && _ = true |- _ => apply kind_eqb in H end.
  - assert (is_owner ref) as Ho by by left. split.
    + intros [(ro & -> & ->)|(e & -> & ->)]; constructor; try done; by apply first_such_here.
    + intros [H|ref' ? Hf ?|ref' ? Hf ?|ref' ? Hf Hd|ref' ? Hf Hd].
      1: by destruct (H ref (list_elem_of_here _ _)).
      all: pose proof (first_such_owner _ _ _ Hf Ho) as ->; eauto.
      all: by destruct E1 as [E1 _], Hd as [Hd _]; rewrite E1 in Hd.
  - assert (is_owner ref) as Ho by by right. split.
    + intros [(ro & -> & ->)|(e & -> & ->)]; constructor; try done; by apply first_such_here.
    + intros [H|ref' ? Hf Hr|ref' ? Hf Hr|ref' ? Hf ?|ref' ? Hf ?].
      1: by destruct (H ref (list_elem_of_here _ _)).
      all: pose proof (first_such_owner _ _ _ Hf Ho) as ->; eauto.
      all: by destruct E2 as [E2 _], Hr as [Hr _]; rewrite E2 in Hr.
Qed.

(** The first loop: no owning ReplicaSet, or the first one. *)
Lemma owner_replicaset_first refs :
  ((∀ ref, ref ∈ refs → ¬ is_replicaset ref) ∧ owner_replicaset refs = "")
  ∨ ∃ ref, first_such is_replicaset refs ref ∧ owner_replicaset refs = ref_Name ref.
Proof.
  unfold owner_replicaset. induction refs as [|ref refs IH]; cbn.
  { left. split; [by intros ref []%not_elem_of_nil|done]. }
  destruct (String.eqb _ _ && _) eqn:E.
  - right. exists ref. apply kind_eqb in E. split; [by apply first_such_here|done].
  - assert (¬ is_replicaset ref) as Hr by (intros H%kind_eqb; congruence).
    destruct IH as [[Hno Hn]|(ref' & Hf & Hn)].
    + left. split; [|done]. by intros y [->|Hy]%elem_of_cons; [|apply Hno].
    + right. exists ref'. by rewrite first_such_skip.
Qed.

Lemma first_such_unique {A} (P : A → Prop) l x y : first_such P l x → first_such P l y → x = y.
Proof.
  intros (pre & post & -> & Hx & Hpre). revert Hpre.
  induction pre as [|z pre IH]; intros Hpre; cbn.
  - intros ([|z pre'] & post' & E & Hy & Hpre'); injection E as -> ->; [done|].
    by destruct (Hpre' z (list_elem_of_here _ _)).
  - intros Hy. apply IH; [set_solver|]. eapply first_such_skip; [|done].
    apply Hpre, list_elem_of_here.
Qed.

Lemma first_such_not {A} (P : A → Prop) l x : first_such P l x → ¬ ∀ y, y ∈ l → ¬ P y.
Proof. intros (pre & post & -> & Hx & _) H. apply (H x); [set_solver|done]. Qed.

Lemma ResolveWorkloadFromPod_runs pod tr r :
  runs (ResolveWorkloadFromPod pod) tr (Returned r) ↔ pod_resolved pod tr r.
Proof.
  unfold ResolveWorkloadFromPod.
  destruct (owner_replicaset_first (OwnerReferences (pod_meta pod))) as [[Hno ->]|(ref & Hf & ->)].
  { cbn. split; [intros [-> [= ->]]; by constructor|].
    intros [_|? ? _|? ? H|? ? ? ? H]; [done..| |].
    all: by destruct (first_such_not _ _ _ H). }
  destruct (String.eqb_spec (ref_Name ref) "") as [Hn|Hn].
  - split; [intros [-> ->]%runs_ret; by eapply nameless_replicaset|].
    intros [_|? ? _|ref' ? H Hn'|ref' ? ? ? H Hn']; [done..| |].
    all: by rewrite (first_such_unique _ _ _ _ H Hf) in Hn'.
  - split.
    + cbn. intros [[_ [=]]|([e|rs] & tr' & -> & _ & H)].
      * destruct H as [-> [= ->]]. by eapply replicaset_failed.
      * by eapply replicaset_read, resolve_owner_runs.
    + intros [H|ref' H Hn'|ref' e H Hn'|ref' rs tr' r' H Hn' Ho].
      * by destruct (first_such_not _ _ _ Hf).
      * by rewrite (first_such_unique _ _ _ _ H Hf) in Hn'.
      * pose proof (first_such_unique _ _ _ _ H Hf) as ->. cbn. right. by eexists _, [].
      * pose proof (first_such_unique _ _ _ _ H Hf) as ->. cbn. right. eexists _, tr'.
        split_all; [done..|]. by apply resolve_owner_runs.
Qed.
End resolution_spec.

(** C37. Owner resolution is exact.  [ResolveWorkloadFromPod] returns, after exactly
    these calls: nothing when no owner of the pod is an [apps/v1] ReplicaSet (or the
    first one has no name); an error when reading the first such ReplicaSet fails;
    nothing when that ReplicaSet is owned neither by an Argo Rollout nor by an
    [apps/v1] Deployment; else what reading the first of its owners that is one of
    them answers, the object or an error.  Each of these answers can occur, and
    resolving never writes or panics. *)
Theorem ResolveWorkloadFromPod_spec {L : K8sLib} (pod : Pod) :
  (∀ tr r, runs (ResolveWorkloadFromPod pod) tr (Returned r) ↔ pod_resolved pod tr r)
  ∧ ∀ tr o, runs (ResolveWorkloadFromPod pod) tr o → writes tr = [] ∧ ∀ m, o ≠ Panicked m.
Proof.
  split; [apply ResolveWorkloadFromPod_runs|]. intros tr o Hrun.
  by eapply wp_runs in Hrun; [|apply ResolveWorkloadFromPod_reads].
Qed.

Definition resolve_c : cluster :=
  dep_cluster (web_dep (Some 1) enabled) [web_pod "old" "node-1" true t0] [] t0.
Definition resolve_p : prog (error + option DrainableWorkload) :=
  ResolveWorkloadFromPod (web_pod "old" "node-1" true t0).

Definition resolve_ro_c : cluster :=
  ro_cluster (web_ro (Some 1) enabled None) [web_pod "old" "node-1" true t0] [] t0.

Lemma ResolveWorkloadFromPod_spec_witness :
  pod_resolved (web_pod "old" "node-1" true t0) (trace_of resolve_p resolve_c)
    (inr (Some (WDeployment (web_dep (Some 1) enabled))))
  ∧ pod_resolved (web_pod "old" "node-1" true t0) (trace_of resolve_p resolve_ro_c)
      (inr (Some (WRollout (web_ro (Some 1) enabled None)))).
Proof.
  split; apply (ResolveWorkloadFromPod_spec (web_pod "old" "node-1" true t0)).
  - assert (outcome_of resolve_p resolve_c
            = Returned (inr (Some (WDeployment (web_dep (Some 1) enabled))))) as <- by reflexivity.
    apply cluster_runs.
  - assert (outcome_of resolve_p resolve_ro_c
            = Returned (inr (Some (WRollout (web_ro (Some 1) enabled None))))) as <- by reflexivity.
    apply cluster_runs.
Defined.
