(* ===== verification/NodeProps.v ===== *)
(** * The drain-surge controller: theorems about one workload

    All statements quantify over every environment ([runs]): failing calls,
    stale reads, other actors between calls and crashes are included. *)

From stdpp Require Import pretty.
From S2P Require Import Prelude GoStd GoTime K8s Effects Config State Workload Scaler.
From S2P Require Import RestartDetect NodeController RolloutController NodeSpec NodeSound.
From S2P Require Import Cluster Samples.

Local Open Scope Z_scope.

(** What a patch leaves in an owned annotation: [""] when it deletes it. *)
Definition next_annotation (key : string) (p : MergePatch) : string :=
  match patch_annotations p !! key with Some (Some v) => v | _ => "" end.

Lemma next_annotation_patch key r a :
  next_annotation key (mkMergePatch r (anno_patch a)) = anno_get a key.
Proof.
  unfold next_annotation. simpl. rewrite anno_patch_lookup anno_get_lookup.
  destruct (anno_lookup a key); [done|]. by case_decide.
Qed.

(** The abstract drain state machine. *)
Inductive drain_step : DrainState → DrainState → Prop :=
| step_start : drain_step DrainStateNone DrainStateScaledUp
| step_rescale : drain_step DrainStatePending DrainStateScaledUp
| step_reapply : drain_step DrainStateScaledUp DrainStateScaledUp
| step_ready : drain_step DrainStateScaledUp DrainStateReady
| step_evicted : drain_step DrainStateReady DrainStateDraining
| step_done : drain_step DrainStateDraining DrainStateDone
| step_cleanup : drain_step DrainStateDone DrainStateNone
| step_abort s : s ≠ DrainStateNone → drain_step s DrainStateNone.

#[export] Hint Constructors drain_step : surge.

Section props.
Context {L : K8sLib} {T : Type} {D : Drainable T} {DL : DrainableLaws T}.

Abbreviation meta w := (GetObjectMeta w).
Abbreviation annos w := (Annotations (GetObjectMeta w)).

Lemma run_effect cfg (w : T) node tr o :
  runs (Node.reconcileWorkload cfg w node) tr o →
  ¬ panicked o ∧ drain_effect cfg w node tr o.
Proof. intros Hr. by eapply wp_runs in Hr; [|apply reconcileWorkload_effect]. Qed.

(** A write is a patch of this workload whose drain state is [s']. *)
Definition patches_to (w : T) (s' : DrainState) (x : write) : Prop :=
  ∃ p ok, x = WWorkload (workload_kind w) (Namespace (meta w)) (Name (meta w)) p ok
          ∧ next_annotation AnnotationDrainState p = s'.

Lemma wl_write_patches_to (w : T) r a ok :
  patches_to w (anno_get a AnnotationDrainState) (wl_write w r a ok).
Proof. eexists _, _. split; [done|]. apply next_annotation_patch. Qed.

Lemma state_write_patches_to (w : T) s r ok : patches_to w s (state_write w s r ok).
Proof.
  eexists _, _. split; [done|]. rewrite next_annotation_patch. by anno_simpl.
Qed.

Definition is_workload_write (x : write) : bool :=
  match x with WWorkload _ _ _ _ _ => true | WHPA _ _ _ _ => false end.

Lemma restore_no_workload_write (m : ObjectMeta) ok :
  List.filter is_workload_write (restore_writes m ok) = [].
Proof. unfold restore_writes. by destruct (restore_target m) as [[??]|]. Qed.

Lemma cleared_state a : anno_get (clearDrainAnnotations a) AnnotationDrainState = "".
Proof. unfold clearDrainAnnotations. by rewrite anno_get_deleted; [|solve_key]. Qed.

Lemma cleared_patches_to (w : T) r a ok :
  patches_to w DrainStateNone (wl_write w r (clearDrainAnnotations a) ok).
Proof. pose proof (wl_write_patches_to w r (clearDrainAnnotations a) ok) as H.
  by rewrite cleared_state in H. Qed.

Lemma step_patch (w : T) s s' (x : write) :
  patches_to w s' x → drain_step s s' →
  ∃ x' s', [x] = [x'] ∧ patches_to w s' x' ∧ drain_step s s'.
Proof. eauto. Qed.

Lemma abort_effect_steps (w : T) ws o s : s ≠ "" → abort_effect w ws o →
  List.filter is_workload_write ws = [] ∨
  ∃ x s', List.filter is_workload_write ws = [x] ∧ patches_to w s' x ∧ drain_step s s'.
Proof.
  intros Hs []; rewrite ?List.filter_app ?restore_no_workload_write; [by left..|right].
  eapply step_patch; [|by apply step_abort]. apply cleared_patches_to.
Qed.

(** At most one workload patch, and it takes a step of the machine. *)
Lemma effect_steps cfg (w : T) node tr o : drain_effect cfg w node tr o →
  List.filter is_workload_write (writes tr) = [] ∨
  ∃ x s', List.filter is_workload_write (writes tr) = [x] ∧ patches_to w s' x
          ∧ drain_step (Node.anno w AnnotationDrainState) s'.
Proof.
  intros []; match goal with H : writes tr = _ |- _ => rewrite H end; [by left|..].
  all: rewrite ?List.filter_app ?restore_no_workload_write /=.
  all: try match goal with H : Node.anno _ AnnotationDrainState = _ |- _ => rewrite H end.
  all: try match goal with H : eligible _ _ _ |- _ => rewrite (start_state _ _ _ H) end.
  - right. eapply step_patch; [apply wl_write_patches_to|]. anno_simpl. constructor.
  - right. assert (List.filter is_workload_write later = []) as ->.
    { destruct_or!; destruct_and?; naive_solver. }
    eapply step_patch; [apply wl_write_patches_to|]. unfold hpa_annotations.
    anno_simpl. constructor.
  - right. eapply step_patch; [apply state_write_patches_to|constructor].
  - right. eapply step_patch; [apply wl_write_patches_to|].
    change (anno_get (annos w) AnnotationDrainState) with (Node.anno w AnnotationDrainState).
    match goal with H : Node.anno w AnnotationDrainState = _ |- _ => rewrite H end. constructor.
  - right. eapply step_patch; [apply state_write_patches_to|constructor].
  - by left.
  - right. eapply step_patch; [apply state_write_patches_to|constructor].
  - right. eapply step_patch; [apply state_write_patches_to|constructor].
  - right. eapply step_patch; [|apply step_cleanup].
    apply cleared_patches_to.
  - assert (List.filter is_workload_write pre = []) as ->.
    { destruct_or!; subst; [done|]. apply restore_no_workload_write. }
    eapply abort_effect_steps; [|done]. by destruct H as [? _].
Qed.
End props.

(** C2. Every run of [NodeReconciler.reconcileWorkload], in every environment,
    refines the abstract drain machine: it patches at most one workload, the one
    it was given, and the patch moves the drain state along an edge of
    [drain_step] (start, re-apply, ready, evicted, done, cleanup, or abort). *)
Theorem reconcileWorkload_refines_machine {L : K8sLib} {T : Type} {D : Drainable T}
    {DL : DrainableLaws T} (cfg : Config) (w : T) (node : string) tr o
    (Hrun : runs (Node.reconcileWorkload cfg w node) tr o) :
  List.filter is_workload_write (writes tr) = [] ∨
  ∃ x s', List.filter is_workload_write (writes tr) = [x] ∧ patches_to w s' x
          ∧ drain_step (Node.anno w AnnotationDrainState) s'.
Proof. by eapply effect_steps, run_effect. Qed.

Definition sample_w : Deployment := web_dep (Some 1) enabled.
Definition sample_c : cluster := dep_cluster sample_w [web_pod "old" "node-1" true t0] [] t0.

Definition sample_p : prog (error + Result) := Node.reconcileWorkload cfg sample_w "node-1".
Definition sample_tr : list called := trace_of sample_p sample_c.

Lemma reconcileWorkload_refines_machine_witness :
  length (List.filter is_workload_write (writes sample_tr)) = 1%nat
  ∧ (List.filter is_workload_write (writes sample_tr) = [] ∨
     ∃ x s', List.filter is_workload_write (writes sample_tr) = [x] ∧ patches_to sample_w s' x
        ∧ drain_step (Node.anno sample_w AnnotationDrainState) s').
Proof.
  split; [reflexivity|].
  apply (reconcileWorkload_refines_machine cfg sample_w "node-1" _ (outcome_of sample_p sample_c)).
  apply cluster_runs.
Defined.

(** ** Starting a surge *)

Section start.
Context {L : K8sLib} {T : Type} {D : Drainable T} {DL : DrainableLaws T}.

(** The two ways a surge starts. *)
Definition replica_surge (w : T) (node : string) (tr : list called) : Prop :=
  ∃ now ok, found_hpa w tr None ∧ now ∈ clock_reads tr ∧
    writes tr = [wl_write w (Some 2)
      (Some (pending_annotations (Annotations (GetObjectMeta w)) 1 node now)) ok].

Definition hpa_surge (w : T) (node : string) (tr : list called) : Prop :=
  ∃ hpa now ok later, found_hpa w tr (Some hpa) ∧ now ∈ clock_reads tr
    ∧ 2 ≤ hpa_MaxReplicas hpa ∧ HPAMinReplicasOrDefault hpa < 2
    ∧ writes tr = wl_write w (spec_Replicas w) (Some (hpa_annotations hpa
        (pending_annotations (Annotations (GetObjectMeta w)) 1 node now))) ok :: later
    ∧ (later = [] ∨ (ok = true ∧ ∃ okh,
         later = [WHPA (Namespace (GetObjectMeta w)) (Name (hpa_meta hpa)) 2 okh])).

Lemma effect_start cfg (w : T) node tr o :
  drain_effect cfg w node tr o → Node.anno w AnnotationDrainState = "" → writes tr ≠ [] →
  eligible cfg w node ∧ found_pdb w tr ∧ (replica_surge w node tr ∨ hpa_surge w node tr).
Proof.
  intros Heff Hs Hne. destruct Heff as [| | | | | | | | | |pre ws [Hr _]]; try congruence.
  all: try (rewrite Hs in H; done).
  - split; [done|]. split; [done|]. left. by exists now, ok.
  - split; [done|]. split; [done|]. right. by exists hpa, now, ok, later.
Qed.
End start.

(** C3. A run on a workload with no drain state changes the cluster only when the
    workload is opted in, has exactly one replica, is stable, can surge and is not
    claimed by another node, and a covering PodDisruptionBudget was listed.  Then
    it makes exactly one of two changes: without an autoscaler, one patch to 2
    replicas that records the operation; with one, a patch that records the
    operation and the autoscaler's old minimum without touching the replica
    count, followed, only if that patch succeeded, by raising the minimum to 2. *)
Theorem surge_start {L : K8sLib} {T : Type} {D : Drainable T} {DL : DrainableLaws T}
    (cfg : Config) (w : T) (node : string) tr o
    (Hrun : runs (Node.reconcileWorkload cfg w node) tr o)
    (Hnone : Node.anno w AnnotationDrainState = "") (Hwrites : writes tr ≠ []) :
  eligible cfg w node ∧ found_pdb w tr ∧ (replica_surge w node tr ∨ hpa_surge w node tr).
Proof. by eapply effect_start; [eapply run_effect|..]. Qed.

Lemma surge_start_witness :
  eligible cfg sample_w "node-1" ∧ found_pdb sample_w sample_tr
  ∧ (replica_surge sample_w "node-1" sample_tr ∨ hpa_surge sample_w "node-1" sample_tr).
Proof.
  apply (surge_start cfg sample_w "node-1" sample_tr (outcome_of sample_p sample_c)).
  - apply cluster_runs.
  - reflexivity.
  - assert (length (writes sample_tr) = 1%nat) as H by reflexivity. by destruct (writes sample_tr).
Defined.

(** ** Aborting on timeout *)

Section abort.
Context {L : K8sLib} {T : Type} {D : Drainable T} {DL : DrainableLaws T}.

(** A run that completes an abort: the HPA restored if one is recorded, then
    the abort patch. *)
Definition full_abort (w : T) (tr : list called) (o : outcome (error + Result)) : Prop :=
  o = Crashed ∨ ∃ okh ok, writes tr = restore_writes (GetObjectMeta w) okh ++ [abort_write w ok]
                          ∧ (succeeded o → ok = true).

Lemma abort_effect_full (w : T) tr o : abort_effect w (writes tr) o → full_abort w tr o.
Proof.
  unfold full_abort. intros H. inversion H; subst; [by left..|]. right.
  eauto using ok_succeeded.
Qed.

Lemma timeout_wp cfg (w : T) node start :
  Node.isActive (Node.anno w AnnotationDrainState) = true →
  parseDrainStart (Annotations (GetObjectMeta w)) = Some start →
  wp (Node.reconcileWorkload cfg w node) (λ tr o,
    Forall (λ now, ReadinessTimeout cfg < Sub now start) (clock_reads tr) → full_abort w tr o).
Proof.
  intros Ha Hp. unfold Node.reconcileWorkload. rewrite Ha Hp.
  repeat wp_step; try by left.
  - eapply wp_mono; [|apply abortWorkload_effect]. intros tr o [_ He] _.
    apply (abort_effect_full w tr o) in He. done.
  - eapply wp_mono; [|apply abortWorkload_effect]. intros tr o [_ He] _.
    apply (abort_effect_full w tr o) in He. done.
  - apply wp_runs. intros tr o _ Hnow. exfalso.
    cbn in Hnow. apply Forall_cons_1 in Hnow as [? _]. lia.
Qed.
End abort.

(** C4. A drain that is active and whose recorded start lies further back than the
    readiness timeout is always ended: every run that does not crash issues the
    abort patch, which resets the replica count to the recorded original and
    deletes all eight owned annotations, after restoring the recorded autoscaler
    minimum; and no stale cached annotation survives on the server. *)
Theorem timeout_aborts {L : K8sLib} {T : Type} {D : Drainable T} {DL : DrainableLaws T}
    (cfg : Config) (w : T) (node : string) (start : Time) (original : Z) tr o
    (Hrun : runs (Node.reconcileWorkload cfg w node) tr o)
    (Hactive : Node.isActive (Node.anno w AnnotationDrainState) = true)
    (Hstart : parseDrainStart (Annotations (GetObjectMeta w)) = Some start)
    (Horig : getOriginalReplicas (Annotations (GetObjectMeta w)) = inr original)
    (Hlate : Forall (λ now, ReadinessTimeout cfg < Sub now start) (clock_reads tr))
    (Hcrash : o ≠ Crashed) :
  ∃ p okh ok,
    writes tr = restore_writes (GetObjectMeta w) okh
      ++ [WWorkload (workload_kind w) (Namespace (GetObjectMeta w)) (Name (GetObjectMeta w)) p ok]
    ∧ (succeeded o → ok = true)
    ∧ patch_replicas p = Some original
    ∧ ∀ key stored, key ∈ drainAnnotationKeys →
        merge_annotations (patch_annotations p) stored !! key = None.
Proof.
  eapply wp_runs in Hrun; [|by apply timeout_wp].
  destruct (Hrun Hlate) as [|(okh & ok & Hw & Hok)]; [done|].
  eexists _, okh, ok. split; [exact Hw|]. split; [done|]. split.
  - simpl. unfold abort_replicas. by rewrite Horig.
  - intros key stored Hkey. rewrite lookup_merge_annotations. cbn [patch_annotations].
    rewrite anno_patch_lookup. anno_simpl. by case_decide.
Qed.

Definition late_w : Deployment := web_dep (Some 2) (draining_annotations DrainStateScaledUp).
Definition late_c : cluster := dep_cluster late_w [] [] (t0 + 11 * Minute).
Definition late_p : prog (error + Result) := Node.reconcileWorkload cfg late_w "node-1".

Lemma timeout_aborts_witness :
  ∃ p okh ok,
    writes (trace_of late_p late_c) = restore_writes (GetObjectMeta late_w) okh
      ++ [WWorkload (workload_kind late_w) (Namespace (GetObjectMeta late_w))
            (Name (GetObjectMeta late_w)) p ok]
    ∧ (succeeded (outcome_of late_p late_c) → ok = true)
    ∧ patch_replicas p = Some 1
    ∧ ∀ key stored, key ∈ drainAnnotationKeys →
        merge_annotations (patch_annotations p) stored !! key = None.
Proof.
  apply (timeout_aborts cfg late_w "node-1" t0 1 (trace_of late_p late_c)
           (outcome_of late_p late_c)).
  - apply cluster_runs.
  - reflexivity.
  - vm_compute. reflexivity.
  - vm_compute. reflexivity.
  - assert (clock_reads (trace_of late_p late_c) = [t0 + 11 * Minute]) as -> by (vm_compute; reflexivity).
    repeat constructor.
  - assert (outcome_of late_p late_c = Returned (inr no_requeue)) as -> by (vm_compute; reflexivity).
    done.
Defined.

(** ** Waiting for readiness and eviction *)

Section waiting.
Context {L : K8sLib} {T : Type} {D : Drainable T} {DL : DrainableLaws T}.

Abbreviation meta w := (GetObjectMeta w).
Abbreviation annos w := (Annotations (GetObjectMeta w)).

Lemma restore_write_shape (m : ObjectMeta) ok x : x ∈ restore_writes m ok →
  ∃ n v, x = WHPA (Namespace m) n v ok ∧ restore_target m = Some (n, v).
Proof.
  unfold restore_writes. destruct (restore_target m) as [[n v]|]; [|set_solver].
  intros ->%list_elem_of_singleton. eauto.
Qed.

Lemma abort_effect_writes (w : T) ws o x : abort_effect w ws o → x ∈ ws →
  (∃ n v ok, x = WHPA (Namespace (meta w)) n v ok ∧ restore_target (meta w) = Some (n, v))
  ∨ ∃ ok, x = abort_write w ok.
Proof.
  intros [] Hx; [set_solver| |].
  - left. apply restore_write_shape in Hx as (n & v & -> & ?). eauto.
  - apply elem_of_app in Hx as [Hx| ->%list_elem_of_singleton]; [|by right; eauto].
    left. apply restore_write_shape in Hx as (n & v & -> & ?). eauto.
Qed.

(** The writes of a run on a workload whose drain is under way. *)
Lemma active_writes cfg (w : T) node tr o x :
  drain_effect cfg w node tr o → Node.anno w AnnotationDrainState ≠ "" → x ∈ writes tr →
  (∃ n v ok, x = WHPA (Namespace (meta w)) n v ok ∧ restore_target (meta w) = Some (n, v))
  ∨ is_workload_write x = true.
Proof.
  intros Heff Hs Hx. destruct Heff;
    match goal with H : writes _ = _ |- _ => rewrite H in Hx end; [set_solver|..].
  all: try (by apply list_elem_of_singleton in Hx as ->; right).
  all: try match goal with H : eligible _ _ _ |- _ =>
         by destruct Hs; apply (start_state _ _ _ H) end.
  - left. apply restore_write_shape in Hx as (n & v & -> & ?). eauto.
  - apply elem_of_app in Hx as [Hx| ->%list_elem_of_singleton]; [|by right].
    left. apply restore_write_shape in Hx as (n & v & -> & ?). eauto.
  - apply elem_of_app in Hx as [Hx|Hx].
    + destruct_or!; subst; [set_solver|].
      left. apply restore_write_shape in Hx as (n & v & -> & ?). eauto.
    + eapply abort_effect_writes in Hx as [?|[ok ->]]; [by left|by right|done].
Qed.

(** The replica count that a patch [p] of [w] carries in state [s] of a surge: the
    one read; or, scaled up without an autoscaler and with the count found at or
    below the original, original + 1; or, ready and [over], the scaled-down one. *)
Definition waiting_patch (s : DrainState) (w : T) (original : Z) (over : Prop)
    (p : MergePatch) : Prop :=
  patch_replicas p = spec_Replicas w
  ∨ (s = DrainStateScaledUp ∧ Node.anno w AnnotationHPAName = "" ∧ GetReplicas w ≤ original
     ∧ patch_replicas p = Some (int32_add original 1))
  ∨ (s = DrainStateReady ∧ over ∧ patch_replicas p = scaledown_replicas w original).

(** It does not lower the count while the surge is not over; an original count of
    2^31 - 1 has no successor in [int32]. *)
Lemma waiting_not_lower s (w : T) original over p :
  waiting_patch s w original over p → getOriginalReplicas (annos w) = inr original →
  original < 2 ^ 31 - 1 →
  GetReplicas w ≤ default 1 (patch_replicas p) ∨ (s = DrainStateReady ∧ over).
Proof.
  intros [->|[(_ & _ & Hle & ->)|(-> & Ho & _)]] Hg Hmax; [left..|by right].
  - by rewrite GetReplicas_spec.
  - apply getOriginalReplicas_range in Hg. unfold is_int32 in Hg. cbn.
    rewrite int32_add_small; unfold is_int32; lia.
Qed.

(** A pod list of the run showed no live pod of the workload on the node. *)
Definition eviction_seen (w : T) (node : string) (tr : list called) : Prop :=
  ∃ pods, listed_pods w tr pods ∧ existsb (alive_on node) pods = false.

(** What a workload patch does to the replica count while a drain waits. *)
Lemma waiting_replicas cfg (w : T) node tr o k ns n p ok original :
  drain_effect cfg w node tr o →
  Node.anno w AnnotationDrainState ∈ [DrainStateScaledUp; DrainStateReady] →
  getOriginalReplicas (annos w) = inr original → ¬ overdue cfg w tr →
  WWorkload k ns n p ok ∈ writes tr →
  waiting_patch (Node.anno w AnnotationDrainState) w original (eviction_seen w node tr) p.
Proof.
  intros Heff Hs Ho Hlate Hx.
  assert (∀ s, Node.anno w AnnotationDrainState = s →
               s = DrainStateScaledUp ∨ s = DrainStateReady) as Hs'.
  { intros s <-. by rewrite elem_of_cons list_elem_of_singleton in Hs. }
  destruct Heff; match goal with H : writes _ = _ |- _ => rewrite H in Hx end;
    [by apply not_elem_of_nil in Hx|..].
  all: try match goal with H : eligible _ _ _ |- _ =>
         by destruct (Hs' _ (start_state _ _ _ H)) end.
  all: try match goal with H : Node.anno _ AnnotationDrainState = _ |- _ =>
         by destruct (Hs' _ H) end.
  - apply list_elem_of_singleton in Hx. injection Hx as -> -> -> -> ->. right; left. cbn.
    rewrite Ho in H2. injection H2 as <-. done.
  - apply list_elem_of_singleton in Hx. injection Hx as -> -> -> -> ->. by left.
  - apply restore_write_shape in Hx as (? & ? & [=] & _).
  - apply elem_of_app in Hx as [(? & ? & [=] & _)%restore_write_shape|Hx%list_elem_of_singleton].
    injection Hx as -> -> -> -> ->. right; right. rewrite Ho in H3. injection H3 as <-.
    split; [done|]. split; [by exists pods|done].
  - exfalso. destruct H as [_ [?|[[e ?]|Hn]]]; [done|congruence|].
    destruct Hn. destruct (Hs' _ eq_refl) as [-> | ->]; solve_key.
Qed.
End waiting.

(** C8. While a drain waits (scaled up, or ready for the eviction), is not
    overdue and its original count is readable, every workload patch keeps the
    replica count it read; or, scaled up without an autoscaler and with the count
    found at or below the original, re-applies original + 1; or, ready and after a
    pod list showed no live pod of the workload on the node, carries the
    scaled-down count.  So before the eviction was seen no patch lowers the count,
    unless the original is 2^31 - 1, whose successor wraps around. *)
Theorem no_early_scale_down {L : K8sLib} {T : Type} {D : Drainable T} {DL : DrainableLaws T}
    (cfg : Config) (w : T) (node : string) (original : Z) tr o k ns n p ok
    (Hrun : runs (Node.reconcileWorkload cfg w node) tr o)
    (Hstate : Node.anno w AnnotationDrainState ∈ [DrainStateScaledUp; DrainStateReady])
    (Horig : getOriginalReplicas (Annotations (GetObjectMeta w)) = inr original)
    (Hlate : ¬ overdue cfg w tr) (Hwrite : WWorkload k ns n p ok ∈ writes tr) :
  waiting_patch (Node.anno w AnnotationDrainState) w original (eviction_seen w node tr) p
  ∧ (original < 2 ^ 31 - 1 →
     GetReplicas w ≤ default 1 (patch_replicas p)
     ∨ (Node.anno w AnnotationDrainState = DrainStateReady ∧ eviction_seen w node tr)).
Proof.
  assert (waiting_patch (Node.anno w AnnotationDrainState) w original (eviction_seen w node tr) p)
    as Hp by by eapply waiting_replicas; [eapply run_effect|..].
  split; [done|]. by eapply waiting_not_lower.
Qed.

(** C26. Once a drain is under way, the only autoscaler change a run can make is
    restoring the minimum recorded in the workload's annotations on the
    autoscaler named there. *)
Theorem hpa_writes_only_restore {L : K8sLib} {T : Type} {D : Drainable T} {DL : DrainableLaws T}
    (cfg : Config) (w : T) (node : string) tr o ns n v ok
    (Hrun : runs (Node.reconcileWorkload cfg w node) tr o)
    (Hstate : Node.anno w AnnotationDrainState ≠ "") (Hwrite : WHPA ns n v ok ∈ writes tr) :
  ns = Namespace (GetObjectMeta w) ∧ n = Node.anno w AnnotationHPAName
  ∧ ∃ min, Atoi (Node.anno w AnnotationHPAOriginalMinReplicas) = Some min ∧ v = int32_wrap min.
Proof.
  eapply active_writes in Hwrite as [(n' & v' & ok' & [= -> -> -> ->] & Ht)|]; [|done|by eapply run_effect|done].
  unfold restore_target in Ht. destruct (String.eqb _ ""); [done|].
  apply fmap_Some in Ht as (min & Hmin & [= -> ->]). eauto.
Qed.

(** The Deployment scaled up, its count reset to 1 by somebody else. *)
Definition reset_w : Deployment := web_dep (Some 1) (draining_annotations DrainStateScaledUp).
Definition reset_c : cluster :=
  dep_cluster reset_w [web_pod "old" "node-1" true t0] [] (t0 + Minute).
Definition reset_p : prog (error + Result) := Node.reconcileWorkload cfg reset_w "node-1".

Lemma no_early_scale_down_witness :
  ∃ p, writes (trace_of reset_p reset_c) = [WWorkload KDeployment "default" "web" p true] ∧
  patch_replicas p = Some 2 ∧
  (waiting_patch (Node.anno reset_w AnnotationDrainState) reset_w 1
     (eviction_seen reset_w "node-1" (trace_of reset_p reset_c)) p
   ∧ (1 < 2 ^ 31 - 1 → GetReplicas reset_w ≤ default 1 (patch_replicas p)
      ∨ (Node.anno reset_w AnnotationDrainState = DrainStateReady
         ∧ eviction_seen reset_w "node-1" (trace_of reset_p reset_c)))).
Proof.
  destruct (shape_workload (writes (trace_of reset_p reset_c)) KDeployment "default" "web"
              (Some 2) true) as (p & Hw & Hp); [vm_compute; reflexivity|].
  exists p. split; [exact Hw|]. split; [exact Hp|].
  apply (no_early_scale_down cfg reset_w "node-1" 1 (trace_of reset_p reset_c)
           (outcome_of reset_p reset_c) KDeployment "default" "web" p true).
  - apply cluster_runs.
  - assert (Node.anno reset_w AnnotationDrainState = DrainStateScaledUp) as ->
      by (vm_compute; reflexivity). apply list_elem_of_here.
  - vm_compute. reflexivity.
  - apply (in_time cfg reset_w _ t0 (t0 + Minute)); vm_compute; reflexivity.
  - rewrite Hw. apply list_elem_of_here.
Defined.

(** A drain with a recorded autoscaler, timing out. *)
Definition hpa_w : Deployment :=
  web_dep (Some 2) (<[AnnotationHPAName := "web-hpa"]>
    (<[AnnotationHPAOriginalMinReplicas := "1"]> (draining_annotations DrainStateScaledUp))).
Definition hpa_c : cluster :=
  dep_cluster hpa_w [] [web_hpa "Deployment" (Some 2) 5] (t0 + 11 * Minute).
Definition hpa_p : prog (error + Result) := Node.reconcileWorkload cfg hpa_w "node-1".

Lemma hpa_writes_only_restore_witness :
  "default" = Namespace (GetObjectMeta hpa_w) ∧ "web-hpa" = Node.anno hpa_w AnnotationHPAName
  ∧ ∃ min, Atoi (Node.anno hpa_w AnnotationHPAOriginalMinReplicas) = Some min
           ∧ 1 = int32_wrap min.
Proof.
  apply (hpa_writes_only_restore cfg hpa_w "node-1" (trace_of hpa_p hpa_c)
           (outcome_of hpa_p hpa_c) "default" "web-hpa" 1 true).
  - apply cluster_runs.
  - intros H. vm_compute in H. discriminate H.
  - destruct (writes (trace_of hpa_p hpa_c)) as [|x l] eqn:E;
      [apply (f_equal (fmap shape)) in E; vm_compute in E; discriminate E|].
    apply (f_equal (fmap shape)) in E. vm_compute in E. injection E as Hx _.
    destruct x; [discriminate Hx|]. injection Hx as <- <- <- <-. apply list_elem_of_here.
Defined.
