(* ===== verification/RestartSpec.v ===== *)
(** * What one reconcile of a Rollout by the restart-surge controller may do

    [restart_effect r tr o] is the counterpart of [drain_effect] for
    [RolloutReconciler.reconcileWorkload]: the writes of a trace branch by branch,
    with the state of the Rollout and the answers that justify them. *)

From stdpp Require Import pretty.
From S2P Require Import Prelude GoStd GoTime K8s Effects Config State Workload Scaler.
From S2P Require Import RestartDetect NodeController RolloutController NodeSpec.

Local Open Scope Z_scope.

(** The annotations of a restart-surge that starts. *)
Definition restart_annotations (a : option annotations) (original : Z) (now : Time) : annotations :=
  <[AnnotationRestartSurgeStart := Format_RFC3339 now]>
  (<[AnnotationOriginalReplicas := Itoa original]>
  (<[AnnotationRestartSurgeState := DrainStateScaledUp]> (default ∅ a))).

Section spec.
Context {L : K8sLib} (cfg : Config).

Abbreviation meta r := (GetObjectMeta r).
Abbreviation annos r := (Annotations (GetObjectMeta r)).

Definition restart_state (r : Rollout) : DrainState := Node.anno r AnnotationRestartSurgeState.
Definition drain_state (r : Rollout) : DrainState := Node.anno r AnnotationDrainState.

(** The conditions under which a restart-surge may start. *)
Record restart_eligible (r : Rollout) (tr : list called) : Prop := {
  re_state : restart_state r = "";
  re_no_drain : drain_state r = "";
  re_enabled : Node.anno r (EnabledAnnotation cfg) = "true";
  re_single : GetReplicas r = 1;
  re_stable : IsStableForRestart r = true;
  re_stuck : ∃ pods now, listed_pods r tr pods ∧ now ∈ clock_reads tr
               ∧ isRestartStuck r pods (RestartSurgeGracePeriod cfg) now = true
}.

(** Argo reports the restart done, or no listed pod predates it. *)
Definition restart_over (r : Rollout) (tr : list called) : Prop :=
  Restart.statusCaughtUp r = true
  ∨ ∃ pods, listed_pods r tr pods ∧ restartCompletedByArgo r pods = true.

Definition restart_overdue (r : Rollout) (tr : list called) : Prop :=
  ∃ start now, parseRestartSurgeStart (annos r) = Some start ∧ now ∈ clock_reads tr
    ∧ (RestartSurgeTimeout cfg < Sub now start
       ∨ int64_mul 3 (RestartSurgeTimeout cfg) < Sub now start).

Definition restart_abort_write (r : Rollout) (ok : bool) : write :=
  wl_write r (abort_replicas r) (clearRestartSurgeAnnotations (annos r)) ok.

(** Setting the restart-surge state, and possibly the replica count. *)
Definition restart_state_write (r : Rollout) (s : DrainState) (replicas : option Z) (ok : bool) :
    write :=
  wl_write r replicas (Some (<[AnnotationRestartSurgeState := s]> (default ∅ (annos r)))) ok.

(** The replica count a yield to a drain leaves. *)
Definition yield_replicas (r : Rollout) : option Z :=
  if String.eqb (Node.anno r AnnotationHPAName) "" then abort_replicas r else spec_Replicas r.

Definition restart_abort_reason (r : Rollout) (tr : list called) : Prop :=
  let s := restart_state r in
  s ≠ "" ∧ (restart_overdue r tr
   ∨ (drain_state r = "" ∧ ∃ e, getOriginalReplicas (annos r) = inl e)
   ∨ (drain_state r = "" ∧ s ∉ [DrainStatePending; DrainStateScaledUp; DrainStateReady;
                                DrainStateDraining; DrainStateDone])).

Inductive restart_effect (r : Rollout) (tr : list called) (o : outcome (error + Result)) : Prop :=
| ref_none : writes tr = [] → restart_effect r tr o
| ref_surge now ok :
    restart_eligible r tr → found_pdb r tr → found_hpa r tr None → now ∈ clock_reads tr →
    writes tr = [wl_write r (Some 2) (Some (restart_annotations (annos r) 1 now)) ok] →
    (succeeded o → ok = true) →
    restart_effect r tr o
| ref_surge_hpa hpa now ok later :
    restart_eligible r tr → found_pdb r tr → found_hpa r tr (Some hpa) → now ∈ clock_reads tr →
    2 ≤ hpa_MaxReplicas hpa → HPAMinReplicasOrDefault hpa < 2 →
    writes tr =
      wl_write r (spec_Replicas r)
        (Some (hpa_annotations hpa (restart_annotations (annos r) 1 now))) ok :: later →
    later = [] ∨ (ok = true ∧ ∃ okh, later = [WHPA (Namespace (meta r)) (Name (hpa_meta hpa)) 2 okh]) →
    (succeeded o → later = [WHPA (Namespace (meta r)) (Name (hpa_meta hpa)) 2 true]) →
    restart_effect r tr o
| ref_reapply original ok :
    restart_state r ∈ [DrainStatePending; DrainStateScaledUp] → drain_state r = "" →
    Node.anno r AnnotationHPAName = "" →
    getOriginalReplicas (annos r) = inr original → GetReplicas r ≤ original →
    writes tr = [wl_write r (Some (int32_add original 1)) (annos r) ok] →
    (succeeded o → ok = true) →
    restart_effect r tr o
| ref_ready pods ok :
    restart_state r = DrainStateScaledUp → drain_state r = "" →
    listed_pods r tr pods → (2 ≤ Restart.ready_count pods)%nat →
    writes tr = [restart_state_write r DrainStateReady (spec_Replicas r) ok] →
    (succeeded o → ok = true) →
    restart_effect r tr o
| ref_over_partial okh :
    restart_state r = DrainStateReady → drain_state r = "" → restart_over r tr →
    writes tr = restore_writes (meta r) okh → ¬ succeeded o →
    restart_effect r tr o
| ref_over original ok :
    restart_state r = DrainStateReady → drain_state r = "" → restart_over r tr →
    getOriginalReplicas (annos r) = inr original →
    writes tr = restore_writes (meta r) true
                ++ [restart_state_write r DrainStateDraining (scaledown_replicas r original) ok] →
    (succeeded o → ok = true) →
    restart_effect r tr o
| ref_done original ok :
    restart_state r = DrainStateDraining → drain_state r = "" →
    getOriginalReplicas (annos r) = inr original →
    writes tr = [restart_state_write r DrainStateDone
      (if String.eqb (Node.anno r AnnotationHPAName) "" && negb (GetReplicas r =? original)
       then Some original else spec_Replicas r) ok] →
    (succeeded o → ok = true) →
    restart_effect r tr o
| ref_cleanup ok :
    restart_state r = DrainStateDone → drain_state r = "" →
    writes tr = [wl_write r (spec_Replicas r) (clearRestartSurgeAnnotations (annos r)) ok] →
    (succeeded o → ok = true) →
    restart_effect r tr o
| ref_yield ok :
    Node.isActive (restart_state r) = true → drain_state r ≠ "" →
    writes tr = [wl_write r (yield_replicas r) (clearRestartSurgeExclusiveAnnotations (annos r)) ok] →
    (succeeded o → ok = true) →
    restart_effect r tr o
| ref_abort pre ws :
    restart_abort_reason r tr → pre = [] ∨ pre = restore_writes (meta r) true →
    undo_effect (meta r) (restart_abort_write r) ws o → writes tr = pre ++ ws →
    restart_effect r tr o.

(** Reads made before do not matter. *)
Lemma restart_effect_app r pre tr o :
  writes pre = [] → restart_effect r tr o → restart_effect r (pre ++ tr) o.
Proof.
  intros Hpre Heff.
  assert (writes (pre ++ tr) = writes tr) as Hw by by rewrite writes_app Hpre.
  assert (∀ c, c ∈ tr → c ∈ pre ++ tr) as Hin by set_solver.
  assert (∀ t, t ∈ clock_reads tr → t ∈ clock_reads (pre ++ tr)) as Hclock.
  { intros t. rewrite clock_reads_app. set_solver. }
  assert (restart_eligible r tr → restart_eligible r (pre ++ tr)) as Hel.
  { intros []. split; try done. destruct re_stuck0 as (pods & now & ? & ? & ?).
    exists pods, now. unfold listed_pods in *. auto. }
  destruct Heff; match goal with H : writes tr = _ |- _ => rewrite -Hw in H end;
    [by eapply ref_none|..];
    unfold found_pdb, found_hpa, listed_pods, restart_over in *.
  - eapply ref_surge; unfold found_pdb, found_hpa; naive_solver.
  - eapply ref_surge_hpa; unfold found_pdb, found_hpa; naive_solver.
  - by eapply ref_reapply.
  - eapply ref_ready; unfold listed_pods; naive_solver.
  - eapply ref_over_partial; unfold restart_over, listed_pods; naive_solver.
  - eapply ref_over; unfold restart_over, listed_pods; naive_solver.
  - by eapply ref_done.
  - by eapply ref_cleanup.
  - by eapply ref_yield.
  - eapply ref_abort; [|done..]. unfold restart_abort_reason, restart_overdue in *. naive_solver.
Qed.
End spec.

(** A run that reads the clock once, in time, is not overdue. *)
Lemma restart_in_time {L : K8sLib} (cfg : Config) (r : Rollout) tr start now :
  parseRestartSurgeStart (Annotations (GetObjectMeta r)) = Some start → clock_reads tr = [now] →
  (RestartSurgeTimeout cfg <? Sub now start) = false →
  (int64_mul 3 (RestartSurgeTimeout cfg) <? Sub now start) = false → ¬ restart_overdue cfg r tr.
Proof.
  intros Hs Hc H1%Z.ltb_ge H3%Z.ltb_ge (start' & now' & Hs' & Hn & Hl).
  rewrite Hc in Hn. apply list_elem_of_singleton in Hn as ->.
  rewrite Hs in Hs'. injection Hs' as <-. lia.
Qed.
