(* ===== verification/RestartSound.v ===== *)
(** * Every reconcile by the restart-surge controller has a specified effect

    One lemma per handler, then [restart_reconcile_effect]: in every environment a
    run of [RolloutReconciler.reconcileWorkload] does not panic and its writes are
    one of the cases of [restart_effect]. *)

From stdpp Require Import pretty.
From S2P Require Import Prelude GoStd GoTime K8s Effects Config State Workload Scaler.
From S2P Require Import RestartDetect NodeController RolloutController NodeSpec NodeSound RestartSpec.

Local Open Scope Z_scope.
Local Open Scope surge_scope.

Ltac unfold_writes ::=
  unfold restart_state_write, wl_write, hpa_annotations, restart_annotations.

(** Evidence in a trace that follows the reads [pre]. *)
Ltac in_suffix := apply elem_of_app; right; in_trace.
Ltac suffix_evidence :=
  lazymatch goal with
  | |- found_pdb _ (_ ++ _) => eexists; split; [in_suffix|eassumption]
  | |- found_hpa _ (_ ++ _) _ =>
      eexists; split; [in_suffix|];
      match goal with H : List.find _ _ = _ |- _ => autorewrite with surge_simpl in H; exact H end
  | |- _ ∈ clock_reads (_ ++ _) => rewrite clock_reads_app; apply elem_of_app; right; cbn; in_trace
  | H : writes ?pre = [] |- writes (?pre ++ _) = _ => rewrite writes_app H app_nil_l; solve_writes
  | |- _ => solve_evidence
  end.

Section sound.
Context {L : K8sLib} (cfg : Config).

Abbreviation meta r := (GetObjectMeta r).
Abbreviation annos r := (Annotations (GetObjectMeta r)).

Definition restart_post (r : Rollout) (tr : list called) (o : outcome (error + Result)) : Prop :=
  ¬ panicked o ∧ restart_effect cfg r tr o.

(** The two controllers restore autoscalers by the same program. *)
Lemma restoreHPA_same m : Restart.restoreHPA m = Node.restoreHPA m.
Proof. done. Qed.

Lemma abortRestartSurge_effect (r : Rollout) :
  wp (Restart.abortRestartSurge r) (λ tr o, ¬ panicked o ∧
    undo_effect (meta r) (restart_abort_write r) (writes tr) o).
Proof.
  apply (undo_wp clearRestartSurgeAnnotations "abort restart-surge" "RestartSurgeAborted"
           "Restart-surge operation aborted" r).
Qed.

Lemma wp_restart_abort (r : Rollout) (Q : list called → outcome (error + Result) → Prop) pre :
  writes pre = [] ∨ writes pre = restore_writes (meta r) true →
  (∀ tr, restart_abort_reason cfg r (pre ++ tr)) →
  (∀ tr o, restart_post r (pre ++ tr) o → Q tr o) →
  wp (Restart.abortRestartSurge r) Q.
Proof.
  intros Hpre Hreason HQ. eapply wp_mono; [|apply abortRestartSurge_effect].
  intros tr o [Hp Heff]. apply HQ. split; [done|].
  eapply (ref_abort cfg r _ o (writes pre) (writes tr)); eauto. apply writes_app.
Qed.

Lemma restart_reason_original (r : Rollout) tr e :
  restart_state r ≠ "" → drain_state r = "" → getOriginalReplicas (annos r) = inl e →
  restart_abort_reason cfg r tr.
Proof. intros Hs Hd He. split; [done|]. right; left; eauto. Qed.

Lemma restart_read_only (r : Rollout) tr o : writes tr = [] → ¬ panicked o → restart_post r tr o.
Proof. intros Hw Hp. split; [done|]. by apply ref_none. Qed.

Ltac restart_reads := try (apply restart_read_only; [done|by intros []]).

(** From the budget lookup on, after the reads [pre] that found the restart stuck. *)
Lemma start_surge_effect (r : Rollout) pre t :
  writes pre = [] → ro_RestartAt r = Some t → GetReplicas r = 1 →
  (∀ tr, restart_eligible cfg r (pre ++ tr)) →
  wp (Restart.start_surge cfg r) (λ tr o, restart_post r (pre ++ tr) o).
Proof.
  intros Hpre Ht Hone Hel.
  unfold Restart.start_surge, Node.ensure_annotations. rewrite Hone.
  change (int32_add 1 1) with 2.
  assert (∀ tr o, writes tr = [] → ¬ panicked o → restart_post r (pre ++ tr) o) as Hread.
  { intros tr o Hw Hp. apply restart_read_only; [|done]. by rewrite writes_app Hpre. }
  destruct (annos r) as [m|] eqn:Ea.
  all: repeat wp_step; try (apply Hread; [done|by intros []]).
  all: try (unfold IsHPAAtMinReplicas in *; simplify_option_eq; done).
  all: try (match goal with H : ro_RestartAt _ = None |- _ =>
              change (ro_RestartAt r = None) in H; congruence end).
  all: split; [by intros []|].
  all: try (eapply ref_surge; suffix_evidence).
  all: eapply ref_surge_hpa; suffix_evidence; try by apply not_at_min.
  all: try lia.
  all: try (by left); try (right; split; [done|by eexists]).
Qed.

Lemma handleRestartPending_effect (r : Rollout) :
  restart_state r = "" → drain_state r = "" →
  wp (Restart.handleRestartPending cfg r) (restart_post r).
Proof.
  intros Hs Hd. unfold Restart.handleRestartPending.
  destruct (String.eqb_spec (Node.anno r (EnabledAnnotation cfg)) "true") as [Hen|]; cbn [negb];
    restart_reads.
  change (CanSurge r) with true. cbn [negb].
  destruct (Z.eqb_spec (GetReplicas r) 1) as [Hone|]; cbn [negb]; restart_reads.
  repeat wp_step; restart_reads.
  destruct (isRestartStuck_pending _ _ _ _ Heqb) as (t & Ht & _).
  eapply wp_mono; [|apply (start_surge_effect r
    [Called (ListPods (Namespace (meta r)) (GetPodSelector r)) (inr l); Called Now r0] t)]; try done.
  intros tr. split; try done. exists l, r0. split; [apply list_elem_of_here|].
  split; [cbn; apply list_elem_of_here|done].
Qed.

Lemma handleRestartScaleUp_effect (r : Rollout) :
  restart_state r = DrainStatePending → drain_state r = "" →
  wp (Restart.handleRestartScaleUp cfg r) (restart_post r).
Proof.
  intros Hs Hd. unfold Restart.handleRestartScaleUp.
  destruct (getOriginalReplicas (annos r)) as [e|original] eqn:Eo.
  - apply (wp_restart_abort r _ []); [by left| |done].
    intros tr. eapply restart_reason_original; [by rewrite Hs|done..].
  - destruct (String.eqb_spec (Node.anno r AnnotationHPAName) "") as [Hh|]; cbn [negb orb];
      [|by apply restart_read_only; [|intros []]].
    repeat wp_step; restart_reads.
    all: split; [by intros []|]; eapply ref_reapply; solve_evidence; try lia.
    all: rewrite Hs; apply list_elem_of_here.
Qed.

Lemma handleRestartWaitReady_effect (r : Rollout) :
  restart_state r = DrainStateScaledUp → drain_state r = "" →
  wp (Restart.handleRestartWaitReady cfg r) (restart_post r).
Proof.
  intros Hs Hd. destruct (anno_some r AnnotationRestartSurgeState) as [m Ea];
    [unfold restart_state in Hs; by rewrite Hs|].
  unfold Restart.handleRestartWaitReady, Restart.restartWaitReady_pods.
  destruct (String.eqb_spec (Node.anno r AnnotationHPAName) "") as [Hh|Hh].
  1: destruct (getOriginalReplicas (annos r)) as [e|original] eqn:Eo.
  1: { apply (wp_restart_abort r _ []); [by left| |done].
       intros tr. eapply restart_reason_original; [by rewrite Hs|done..]. }
  all: repeat wp_step; restart_reads.
  all: split; [by intros []|].
  all: try (eapply ref_reapply; solve_evidence; try lia;
            rewrite Hs; apply list_elem_of_further, list_elem_of_here).
  all: eapply ref_ready; solve_evidence.
  all: by apply Nat.leb_le.
Qed.

Lemma handleRestartScaleDown_effect (r : Rollout) :
  restart_state r = DrainStateDraining → drain_state r = "" →
  wp (Restart.handleRestartScaleDown cfg r) (restart_post r).
Proof.
  intros Hs Hd. destruct (anno_some r AnnotationRestartSurgeState) as [m Ea];
    [unfold restart_state in Hs; by rewrite Hs|].
  unfold Restart.handleRestartScaleDown.
  destruct (getOriginalReplicas (annos r)) as [e|original] eqn:Eo.
  - apply (wp_restart_abort r _ []); [by left| |done].
    intros tr. eapply restart_reason_original; [by rewrite Hs|done..].
  - destruct (_ && _) eqn:Eb.
    all: repeat wp_step; restart_reads.
    all: split; [by intros []|]; eapply ref_done; solve_evidence; by rewrite Eb.
Qed.

Lemma handleRestartCleanup_effect (r : Rollout) :
  restart_state r = DrainStateDone → drain_state r = "" →
  wp (Restart.handleRestartCleanup r) (restart_post r).
Proof.
  intros Hs Hd. unfold Restart.handleRestartCleanup.
  repeat wp_step; restart_reads.
  all: split; [by intros []|]; eapply ref_cleanup; solve_evidence.
Qed.

Lemma yieldToDrain_effect (r : Rollout) :
  Node.isActive (restart_state r) = true → drain_state r ≠ "" →
  wp (Restart.yieldToDrain r) (restart_post r).
Proof.
  intros Hs Hd. unfold Restart.yieldToDrain.
  set (r1 := if String.eqb _ "" then _ else r).
  assert (ro_Replicas r1 = yield_replicas r ∧ ro_meta r1 = ro_meta r) as [Hsp Hm].
  { unfold r1, yield_replicas, abort_replicas.
    destruct (String.eqb _ ""); [|done]. by destruct (getOriginalReplicas _). }
  clearbody r1. repeat wp_step; restart_reads.
  all: split; [by intros []|].
  1: eapply (ref_yield cfg r _ _ false).
  5: eapply (ref_yield cfg r _ _ true).
  9: eapply (ref_yield cfg r _ _ true).
  all: try done; try by intros [].
  all: rewrite ?writes_cons /= Hsp Hm; reflexivity.
Qed.

(** The scale-down of [handleRestartWaitForArgo], after the reads [pre]. *)
Lemma finish_restart_effect (r : Rollout) pre :
  restart_state r = DrainStateReady → drain_state r = "" → writes pre = [] →
  (∀ tr, restart_over r (pre ++ tr)) →
  wp (Restart.finish_restart cfg r) (λ tr o, restart_post r (pre ++ tr) o).
Proof.
  intros Hs Hd Hpre Hover. destruct (anno_some r AnnotationRestartSurgeState) as [m Ea];
    [unfold restart_state in Hs; by rewrite Hs|].
  unfold Restart.finish_restart. rewrite restoreHPA_same. apply wp_bind, wp_bind.
  eapply wp_mono; [|apply restoreHPA_effect].
  intros tr [[e|[]]|msg|] Hr; cbn [bind_post wp wrap_err]; [|..|done|].
  - destruct Hr as [okh Hw]. split; [by intros []|].
    eapply (ref_over_partial cfg r _ _ okh); try done; [|by intros []].
    by rewrite ?writes_app ?app_nil_r Hpre.
  - destruct (getOriginalReplicas (annos r)) as [e|original] eqn:Eo.
    + eapply (wp_restart_abort r _ (pre ++ tr)).
      * right. by rewrite writes_app Hpre.
      * intros tr'. eapply restart_reason_original; [by rewrite Hs|done..].
      * intros tr' o. by rewrite app_nil_r -app_assoc.
    + rewrite app_nil_r.
      set (r1 := if String.eqb _ "" then _ else r).
      assert (annos r1 = Some m ∧ ro_Replicas r1 = scaledown_replicas r original
              ∧ ro_meta r1 = ro_meta r) as (Ea1 & Hsp & Hm).
      { unfold r1, scaledown_replicas. by destruct (String.eqb _ ""). }
      clearbody r1. repeat wp_step; (split; [by intros []|]).
      1: { eapply (ref_over_partial cfg r _ _ true); try done; [|by intros []].
           by rewrite ?writes_app ?app_nil_r Hpre. }
      1: eapply (ref_over cfg r _ _ original false).
      7: eapply (ref_over cfg r _ _ original true).
      13: eapply (ref_over cfg r _ _ original true).
      all: try done; try by intros [].
      all: rewrite ?writes_app Hpre Hr ?writes_cons /= Hsp Hm; unfold restart_state_write, wl_write.
      all: by rewrite Ea.
  - split; [by intros []|]. apply ref_none. by rewrite writes_app Hpre Hr.
Qed.

Lemma handleRestartWaitForArgo_effect (r : Rollout) :
  restart_state r = DrainStateReady → drain_state r = "" →
  wp (Restart.handleRestartWaitForArgo cfg r) (restart_post r).
Proof.
  intros Hs Hd. unfold Restart.handleRestartWaitForArgo.
  destruct (Restart.statusCaughtUp r) eqn:Ec.
  - apply (finish_restart_effect r []); try done. intros tr. by left.
  - repeat wp_step; restart_reads.
    eapply wp_mono; [|apply (finish_restart_effect r
      [Called (ListPods (Namespace (meta r)) (GetPodSelector r)) (inr l)])]; try done.
    intros tr. right. exists l. split; [apply list_elem_of_here|done].
Qed.

Lemma restart_dispatch_effect (r : Rollout) :
  wp (Restart.reconcile_state cfg r (restart_state r)) (restart_post r).
Proof.
  unfold Restart.reconcile_state.
  destruct (String.eqb_spec (Node.anno r AnnotationDrainState) "") as [Hd|Hd]; cbn [negb].
  - repeat (match goal with |- wp (if String.eqb (restart_state r) ?k then _ else _) _ =>
              destruct (String.eqb_spec (restart_state r) k) end).
    + by apply handleRestartPending_effect.
    + by apply handleRestartScaleUp_effect.
    + by apply handleRestartWaitReady_effect.
    + by apply handleRestartWaitForArgo_effect.
    + by apply handleRestartScaleDown_effect.
    + by apply handleRestartCleanup_effect.
    + apply (wp_restart_abort r _ []); [by left| |done].
      intros tr. split; [done|]. do 2 right. split; [done|]. set_solver.
  - destruct (Node.isActive _) eqn:Ea; [by apply yieldToDrain_effect|].
    by apply restart_read_only; [|intros []].
Qed.

(** In every environment, a run does not panic and its writes are those of a case
    of [restart_effect]. *)
Lemma restart_reconcile_effect (r : Rollout) :
  wp (Restart.reconcileWorkload cfg r) (restart_post r).
Proof.
  unfold Restart.reconcileWorkload.
  change (Node.anno r AnnotationRestartSurgeState) with (restart_state r).
  destruct (if Node.isActive _ then _ else _) as [start|] eqn:Es;
    [|apply restart_dispatch_effect].
  assert (restart_state r ≠ "" ∧ parseRestartSurgeStart (annos r) = Some start) as [Hs Hstart].
  { unfold Node.isActive in Es. destruct (String.eqb_spec (restart_state r) DrainStateNone); [done|].
    destruct (negb _ && _); done. }
  repeat wp_step; restart_reads.
  3: { eapply wp_mono; [|apply restart_dispatch_effect]. intros tr o [Hp He]. split; [done|].
       by apply (restart_effect_app cfg r [_]). }
  all: eapply (wp_restart_abort r _ [_; _]); last (intros tr o Hpost; exact Hpost); [by left|].
  all: intros tr; split; [done|]; left; exists start, r0; split; [done|];
    split; [cbn; in_trace|lia].
Qed.
End sound.
