(* ===== verification/StoreSystem.v ===== *)
(** * A stored workload under reconciles, late patches and other writers

    The system keeps every past version of one stored object and every patch that
    was sent.  A step is a change by someone else of anything but the owned
    annotations, a run of a controller program started from any past version (a
    stale cache), with crashes and failing calls included, or the arrival of a sent
    patch, late, out of order or repeatedly.

    [KeepsRecords] is what a controller promises to the system: started from a
    version whose owned annotations satisfy [ok], it only sends patches that carry
    annotations satisfying [ok].  [reachable_ok] is what the system gives back:
    every reachable version satisfies [ok]. *)

From S2P Require Import Prelude GoStd GoTime K8s Effects Config State Workload Scaler.
From S2P Require Import NodeController Cluster.

(** Only the owned annotations matter. *)
Definition same_owned (a b : option annotations) : Prop :=
  ∀ k, k ∈ drainAnnotationKeys → anno_lookup a k = anno_lookup b k.

#[global] Instance same_owned_equiv : Equivalence same_owned.
Proof.
  split.
  - by intros a k _.
  - intros a b H k Hk. by rewrite H.
  - intros a b c H1 H2 k Hk. by rewrite H1 ?H2.
Qed.

(** The annotations a patch carries. *)
Definition carries (p : MergePatch) (a : option annotations) : Prop :=
  patch_annotations p = anno_patch a.

(** The versions of the stored object, newest first, and the patches that were
    sent and may reach the server late, repeatedly or never. *)
Record system {L : K8sLib} : Type := mkSystem {
  versions : list DrainableWorkload;
  in_flight : list MergePatch
}.
Arguments system : clear implicits.
Arguments system {L}.
Arguments mkSystem {L} versions in_flight.

Section patches.
Context {L : K8sLib}.

Definition patch_stored (p : MergePatch) (w : DrainableWorkload) : DrainableWorkload :=
  match w with
  | WRollout r => WRollout (patch_rollout p r)
  | WDeployment d => WDeployment (patch_deployment p d)
  end.

Definition patch_in (x : write) : list MergePatch :=
  match x with WWorkload _ _ _ p _ => [p] | WHPA _ _ _ _ => [] end.
Definition patches (tr : list called) : list MergePatch := writes tr ≫= patch_in.

Lemma patched_owned p a w : carries p a →
  same_owned (Annotations (GetObjectMeta (patch_stored p w))) a.
Proof.
  intros Hp k Hk. transitivity (merge_annotations (patch_annotations p)
    (default ∅ (Annotations (GetObjectMeta w))) !! k); [by destruct w|].
  rewrite Hp. by apply merge_anno_patch_owned.
Qed.
End patches.

(** What a controller promises. *)
Class KeepsRecords {L : K8sLib} (starts : DrainableWorkload → prog (error + Result) → Prop)
    (ok : option annotations → Prop) : Prop :=
  keeps_records : ∀ v p tr o mp, ok (Annotations (GetObjectMeta v)) → starts v p → runs p tr o →
    mp ∈ patches tr → ∃ a, carries mp a ∧ ok a.

Section system.
Context {L : K8sLib} (starts : DrainableWorkload → prog (error + Result) → Prop).

Abbreviation annos w := (Annotations (GetObjectMeta w)).

Inductive system_step : system → system → Prop :=
| sys_environment w w' vs ps :
    same_owned (annos w) (annos w') →
    system_step (mkSystem (w :: vs) ps) (mkSystem (w' :: w :: vs) ps)
| sys_run v p tr o vs ps :
    v ∈ vs → starts v p → runs p tr o →
    system_step (mkSystem vs ps) (mkSystem vs (patches tr ++ ps))
| sys_apply p w vs ps :
    p ∈ ps →
    system_step (mkSystem (w :: vs) ps) (mkSystem (patch_stored p w :: w :: vs) ps).

Definition reachable (w : DrainableWorkload) : system → Prop :=
  rtc system_step (mkSystem [w] []).

Context (ok : option annotations → Prop) `{!Proper (same_owned ==> iff) ok, !KeepsRecords starts ok}.

Definition system_ok (s : system) : Prop :=
  (∀ v, v ∈ versions s → ok (annos v))
  ∧ ∀ p, p ∈ in_flight s → ∃ a, carries p a ∧ ok a.

Lemma system_step_ok s s' : system_step s s' → system_ok s → system_ok s'.
Proof.
  intros [w w' vs ps Hsame|v q tr o vs ps Hv Hq Hr|p w vs ps Hp] [Hvs Hps];
    split; cbn [versions in_flight] in *; try done.
  - intros v [->|Hv]%elem_of_cons; [|by apply Hvs]. rewrite -Hsame. apply Hvs. set_solver.
  - intros p [Hp|Hp]%elem_of_app; [|by apply Hps].
    eapply keeps_records; [by apply Hvs|exact Hq|exact Hr|exact Hp].
  - intros v [->|Hv]%elem_of_cons; [|by apply Hvs].
    destruct (Hps p Hp) as (a & Hc & Ha). by rewrite (patched_owned p a w Hc).
Qed.

(** Every version that can be reached from a sound one is sound. *)
Lemma reachable_ok w s v : ok (annos w) → reachable w s → v ∈ versions s → ok (annos v).
Proof.
  intros Hw Hs. unfold reachable in Hs.
  assert (system_ok (mkSystem [w] [])) as H0.
  { split; cbn; [|set_solver]. by intros v' ->%list_elem_of_singleton. }
  cut (system_ok s); [intros [H _]; apply H|].
  revert H0. induction Hs as [|s1 s2 s3 Hstep _ IH]; [done|].
  intros H0. apply IH. by eapply system_step_ok.
Qed.
End system.
