(* ===== verification/Deadlines.v ===== *)
(** * Surges with a deadline end

    [TimedSurge] is what a controller promises about an operation with a recorded
    start: a successful pass past the deadline ends it, a successful pass over an
    operation that needs no deadline any more ends it, and every other successful
    pass keeps the recorded start.  [deadline_reached] is what follows: any history of
    successful passes a minimal time apart ends the operation after at most
    [timeout / gap + 2] of them. *)

From S2P Require Import Prelude GoStd GoTime.

Local Open Scope Z_scope.

Class TimedSurge {V : Type} (tracked : Time → V → Prop) (active : V → bool) (ended : V → Prop)
    (timeout : Duration) (pass : Time → V → V → Prop) : Prop := {
  deadline_ends : ∀ s t v v', tracked s v → active v = true → timeout < t - s →
    pass t v v' → ended v';
  inactive_ends : ∀ s t v v', tracked s v → active v = false → pass t v v' → ended v';
  pass_keeps : ∀ s t v v', tracked s v → pass t v v' → ended v' ∨ tracked s v'
}.

Section history.
Context {V : Type} (gap : Duration) (pass : Time → V → V → Prop).

(** Passes at or after the given times, [gap] apart, and the version each leaves. *)
Fixpoint passes (t : Time) (v : V) (l : list (Time * V)) : Prop :=
  match l with
  | [] => True
  | (t', v') :: l => t ≤ t' ∧ pass t' v v' ∧ passes (t' + gap) v' l
  end.

Context {tracked : Time → V → Prop} {active : V → bool} {ended : V → Prop} {timeout : Duration}.
Context {TS : TimedSurge tracked active ended timeout pass} (Hgap : 0 < gap).

Lemma history_ends s t v l : tracked s v → passes t v l → l ≠ [] →
  timeout < t - s + gap * (Z.of_nat (length l) - 1) → ∃ tv, tv ∈ l ∧ ended tv.2.
Proof using Hgap TS.
  revert t v. induction l as [|[t1 v1] l IH]; intros t v Hv Hl Hne Hlong; [done|].
  destruct Hl as (Ht & Hpass & Hl). cbn [length] in Hlong.
  destruct (active v) eqn:Ha; [destruct (Z.lt_ge_cases timeout (t1 - s)) as [Hlate|Hlate]|].
  - exists (t1, v1). split; [apply list_elem_of_here|]. by eapply deadline_ends.
  - destruct (pass_keeps s t1 v v1 Hv Hpass) as [He|Hv1].
    { exists (t1, v1). split; [apply list_elem_of_here|done]. }
    destruct (IH (t1 + gap) v1) as (tv & Hin & He); [done|done| |lia|].
    + intros ->. cbn in Hlong. lia.
    + exists tv. split; [by apply list_elem_of_further|done].
  - exists (t1, v1). split; [apply list_elem_of_here|]. by eapply inactive_ends.
Qed.

Lemma deadline_reached s t v l : tracked s v → s ≤ t → 0 ≤ timeout → passes t v l →
  timeout / gap + 2 ≤ Z.of_nat (length l) → ∃ tv, tv ∈ l ∧ ended tv.2.
Proof using Hgap TS.
  intros Hv Hst H0 Hl Hlen. pose proof (Z.div_pos timeout gap H0 Hgap).
  apply (history_ends s t v); [done|done| |].
  - intros ->. cbn in Hlen. lia.
  - pose proof (Z.mul_succ_div_gt timeout gap Hgap).
    assert (gap * (timeout / gap + 1) ≤ gap * (Z.of_nat (length l) - 1)) by (apply Z.mul_le_mono_nonneg_l; lia).
    lia.
Qed.
End history.
