(* ===== verification/Records.v ===== *)
(** * The records the two controllers keep on a workload

    The owned annotations fall into three groups: those of the drain, those of the
    restart-surge, and the bookkeeping both share (original replica count and
    autoscaler).  [groups d r b a] says which groups are there, each whole and
    readable or wholly absent.  [drain_effect_shape] and [restart_effect_shape] say
    how every patch of a reconcile moves between shapes; the crash-safety theorems
    choose the shapes that are allowed. *)

From stdpp Require Import pretty.
From S2P Require Import Prelude GoStd GoTime K8s Effects Config State Workload Scaler.
From S2P Require Import NodeController RolloutController NodeSpec NodeSound StoreSystem.
From S2P Require Import RestartSpec RestartSound.

Local Open Scope Z_scope.

(** The states that are ever stored ([pending] is left before the first patch). *)
Definition recorded_states : list DrainState :=
  [DrainStateScaledUp; DrainStateReady; DrainStateDraining; DrainStateDone].

(** The annotations only the drain controller uses. *)
Definition drainExclusiveKeys : list string :=
  [AnnotationDrainState; AnnotationDrainNode; AnnotationDrainStart].
(** The annotations both controllers use. *)
Definition bookkeepingKeys : list string :=
  [AnnotationOriginalReplicas; AnnotationHPAName; AnnotationHPAOriginalMinReplicas].

Definition absent (keys : list string) (a : option annotations) : Prop :=
  ∀ k, k ∈ keys → anno_lookup a k = None.

Definition no_record : option annotations → Prop := absent drainAnnotationKeys.

Definition stored_state (key : string) (a : option annotations) : Prop :=
  ∃ s, anno_lookup a key = Some s ∧ s ∈ recorded_states.
Definition stored_time (key : string) (a : option annotations) : Prop :=
  ∃ t, anno_lookup a key = Some (Format_RFC3339 t).

(** A drain in progress: its state, its node and when it started. *)
Definition drain_group (a : option annotations) : Prop :=
  stored_state AnnotationDrainState a
  ∧ (∃ n, anno_lookup a AnnotationDrainNode = Some n ∧ n ≠ "")
  ∧ stored_time AnnotationDrainStart a.

(** A restart-surge in progress. *)
Definition restart_group (a : option annotations) : Prop :=
  stored_state AnnotationRestartSurgeState a ∧ stored_time AnnotationRestartSurgeStart a.

(** No autoscaler, or one by name with a minimum that reads back. *)
Definition hpa_part (a : option annotations) : Prop :=
  (anno_lookup a AnnotationHPAName = None ∧ anno_lookup a AnnotationHPAOriginalMinReplicas = None)
  ∨ ∃ h min, anno_lookup a AnnotationHPAName = Some h
      ∧ anno_lookup a AnnotationHPAOriginalMinReplicas = Some (Itoa min) ∧ min < 2.

(** What is needed to undo a surge. *)
Definition bookkeeping (a : option annotations) : Prop :=
  anno_lookup a AnnotationOriginalReplicas = Some (Itoa 1) ∧ hpa_part a.

(** ** Predicates that look at some keys only *)

Definition agree (keys : list string) (a b : option annotations) : Prop :=
  ∀ k, k ∈ keys → anno_lookup a k = anno_lookup b k.

Class Local (keys : list string) (P : option annotations → Prop) : Prop :=
  local_agree : ∀ a b, agree keys a b → P a → P b.

#[global] Instance absent_local keys : Local keys (absent keys).
Proof. intros a b H Ha k Hk. by rewrite -(H k Hk) Ha. Qed.

Ltac prove_local :=
  let H := fresh in let E := fresh in
  intros ? ? H; pose proof (λ k Hk, eq_sym (H k Hk)) as E;
  unfold stored_state, stored_time;
  repeat (rewrite E; [|by repeat constructor]); done.

#[global] Instance drain_local : Local drainExclusiveKeys drain_group.
Proof. unfold drain_group. prove_local. Qed.
#[global] Instance restart_local : Local restartSurgeExclusiveKeys restart_group.
Proof. unfold restart_group. prove_local. Qed.
#[global] Instance hpa_local :
  Local [AnnotationHPAName; AnnotationHPAOriginalMinReplicas] hpa_part.
Proof. unfold hpa_part. prove_local. Qed.
#[global] Instance bookkeeping_local : Local bookkeepingKeys bookkeeping.
Proof. unfold bookkeeping, hpa_part. prove_local. Qed.

(** A group that is there as a whole, or not at all. *)
Definition group (x : bool) (P : option annotations → Prop) (keys : list string)
    (a : option annotations) : Prop := if x then P a else absent keys a.

#[global] Instance group_local x keys P : Local keys P → Local keys (group x P keys).
Proof. intros HP a b H. destruct x; [by apply HP|by apply absent_local]. Qed.

Record groups (d r b : bool) (a : option annotations) : Prop := {
  shape_drain : group d drain_group drainExclusiveKeys a;
  shape_restart : group r restart_group restartSurgeExclusiveKeys a;
  shape_book : group b bookkeeping bookkeepingKeys a
}.

Lemma owned_keys k : k ∈ drainExclusiveKeys ∨ k ∈ restartSurgeExclusiveKeys ∨ k ∈ bookkeepingKeys →
  k ∈ drainAnnotationKeys.
Proof.
  unfold drainExclusiveKeys, restartSurgeExclusiveKeys, bookkeepingKeys, drainAnnotationKeys.
  set_solver.
Qed.

#[global] Instance shape_proper d r b : Proper (same_owned ==> iff) (groups d r b).
Proof.
  assert (∀ a a', same_owned a a' → groups d r b a → groups d r b a') as Himp.
  { intros a a' H []. split; (eapply group_local; [apply _| |done]);
      intros k Hk; apply H, owned_keys; auto. }
  intros a a' H. split; apply Himp; [done|by symmetry].
Qed.

Lemma shape_empty a : groups false false false a ↔ no_record a.
Proof.
  split.
  - intros [Hd Hr Hb] k Hk. cbn in *.
    assert (k ∈ drainExclusiveKeys ∨ k ∈ restartSurgeExclusiveKeys ∨ k ∈ bookkeepingKeys)
      as [|[|]]; [|by apply Hd|by apply Hr|by apply Hb].
    unfold drainExclusiveKeys, restartSurgeExclusiveKeys, bookkeepingKeys, drainAnnotationKeys in *.
    set_solver.
  - intros H. split; intros k Hk; apply H, owned_keys; auto.
Qed.

Lemma state_iff (x : bool) P keys key a : key ∈ keys → (P a → stored_state key a) →
  group x P keys a → (anno_get a key = "" ↔ x = false).
Proof.
  intros Hk HP Hg. rewrite anno_get_lookup. destruct x; cbn in Hg.
  - destruct (HP Hg) as (s & -> & Hs). split; [|done]. cbn. intros ->.
    unfold recorded_states in Hs. set_solver.
  - by rewrite Hg.
Qed.

(** The state annotations tell which groups are there. *)
Lemma drain_state_iff d r b a : groups d r b a → (anno_get a AnnotationDrainState = "" ↔ d = false).
Proof.
  intros []. apply (state_iff d drain_group drainExclusiveKeys); [|by intros []|done].
  by repeat constructor.
Qed.
Lemma restart_state_iff d r b a : groups d r b a →
  (anno_get a AnnotationRestartSurgeState = "" ↔ r = false).
Proof.
  intros []. apply (state_iff r restart_group restartSurgeExclusiveKeys); [|by intros []|done].
  by repeat constructor.
Qed.

Lemma bookkeeping_original a : bookkeeping a → getOriginalReplicas a = inr 1.
Proof. intros []. by apply getOriginalReplicas_Itoa. Qed.

(** A count that reads back is 1. *)
Lemma shape_original d r b a n : groups d r b a → getOriginalReplicas a = inr n → n = 1 ∧ b = true.
Proof.
  intros [_ _ Hb] Hn. destruct b; cbn in Hb.
  - apply bookkeeping_original in Hb. split; congruence.
  - unfold getOriginalReplicas in Hn. by rewrite Hb in Hn; [|solve_key].
Qed.

(** ** How patches change the groups *)

(** The group at [keys] is not touched by the patch. *)
Lemma group_frame x P keys `{!Local keys P} a a' :
  group x P keys a → agree keys a a' → group x P keys a'.
Proof. intros H E. by eapply group_local. Qed.

Lemma lookup_default a k : anno_lookup (Some (default ∅ a)) k = anno_lookup a k.
Proof. by destruct a. Qed.

Lemma agree_insert keys a k v : k ∉ keys → agree keys a (Some (<[k := v]> (default ∅ a))).
Proof.
  intros Hk j Hj. by rewrite anno_lookup_insert_ne ?lookup_default; [|intros <-].
Qed.

Lemma agree_delete keys ks a : (∀ k, k ∈ keys → k ∉ ks) → agree keys a (delete_keys ks a).
Proof. intros H j Hj. by rewrite anno_lookup_kept; [|apply H]. Qed.

Lemma absent_delete keys ks a : (∀ k, k ∈ keys → k ∈ ks) → absent keys (delete_keys ks a).
Proof. intros H k Hk. by rewrite anno_lookup_deleted; [|apply H]. Qed.

(** Subset and disjointness of the key lists. *)
Ltac solve_keys :=
  unfold drainExclusiveKeys, restartSurgeExclusiveKeys, bookkeepingKeys, restartSurgeFullKeys in *;
  let k := fresh in let H := fresh in
  intros k H; repeat (apply elem_of_cons in H as [->|H]; [solve_key|]); by apply not_elem_of_nil in H.

(** Agreement on a key list through insertions at other keys. *)
Ltac solve_agree :=
  let k := fresh "k" in let H := fresh in
  intros k H;
  unfold drainExclusiveKeys, restartSurgeExclusiveKeys, bookkeepingKeys in H;
  repeat (apply elem_of_cons in H as [->|H]; [anno_simpl; by rewrite ?lookup_default|]);
  by apply not_elem_of_nil in H.

Lemma group_hpa b a : group b bookkeeping bookkeepingKeys a → hpa_part a.
Proof. destruct b; [by intros []|]. intros H. left. split; apply H; by repeat constructor. Qed.

Lemma drain_start_shape r b a node now : node ≠ "" → groups false r b a →
  groups true r true (Some (pending_annotations a 1 node now)).
Proof.
  intros Hnode [_ Hr Hb]. unfold pending_annotations. split; cbn [group].
  - repeat split; unfold stored_state, stored_time; anno_simpl; eauto.
    eexists. split; [done|]. by repeat constructor.
  - eapply group_frame; [apply _|exact Hr|]. solve_agree.
  - split; [by anno_simpl|]. eapply hpa_local; [|by eapply group_hpa]. solve_agree.
Qed.

Lemma restart_start_shape d b a now : groups d false b a →
  groups d true true (Some (restart_annotations a 1 now)).
Proof.
  intros [Hd _ Hb]. unfold restart_annotations. split; cbn [group].
  - eapply group_frame; [apply _|exact Hd|]. solve_agree.
  - repeat split; unfold stored_state, stored_time; anno_simpl; eauto.
    eexists. split; [done|]. by repeat constructor.
  - split; [by anno_simpl|]. eapply hpa_local; [|by eapply group_hpa]. solve_agree.
Qed.

Lemma hpa_shape d r hpa m : HPAMinReplicasOrDefault hpa < 2 → groups d r true (Some m) →
  groups d r true (Some (hpa_annotations hpa m)).
Proof.
  intros Hmin [Hd Hr [Ho Hh]]. unfold hpa_annotations. split; cbn [group].
  - eapply group_frame; [apply _|exact Hd|]. solve_agree.
  - eapply group_frame; [apply _|exact Hr|]. solve_agree.
  - split; [by anno_simpl|]. right. eexists _, _. by anno_simpl.
Qed.

Lemma drain_state_shape r b a s : s ∈ recorded_states → groups true r b a →
  groups true r b (Some (<[AnnotationDrainState := s]> (default ∅ a))).
Proof.
  intros Hs [(_ & Hn & Ht) Hr Hb]. destruct a as [m|]; [|by destruct Ht]. cbn [default].
  split; cbn [group].
  - repeat split; unfold stored_state, stored_time; anno_simpl; eauto.
  - eapply group_frame; [apply _|exact Hr|]. by apply (agree_insert _ (Some m)); solve_key.
  - eapply group_frame; [apply _|exact Hb|]. by apply (agree_insert _ (Some m)); solve_key.
Qed.

Lemma restart_state_shape d b a s : s ∈ recorded_states → groups d true b a →
  groups d true b (Some (<[AnnotationRestartSurgeState := s]> (default ∅ a))).
Proof.
  intros Hs [Hd (_ & Ht) Hb]. destruct a as [m|]; [|by destruct Ht]. cbn [default].
  split; cbn [group].
  - eapply group_frame; [apply _|exact Hd|]. by apply (agree_insert _ (Some m)); solve_key.
  - repeat split; unfold stored_state, stored_time; anno_simpl; eauto.
  - eapply group_frame; [apply _|exact Hb|]. by apply (agree_insert _ (Some m)); solve_key.
Qed.

Lemma clear_drain_shape a : groups false false false (clearDrainAnnotations a).
Proof. apply shape_empty, absent_delete. done. Qed.

Lemma clear_restart_shape d r b a : groups d r b a →
  groups d false false (clearRestartSurgeAnnotations a).
Proof.
  intros [Hd _ _]. split; cbn [group]; [|apply absent_delete; solve_keys..].
  eapply group_frame; [apply _|exact Hd|]. apply agree_delete. solve_keys.
Qed.

Lemma clear_exclusive_shape d r b a : groups d r b a →
  groups d false b (clearRestartSurgeExclusiveAnnotations a).
Proof.
  intros [Hd _ Hb]. split; cbn [group]; [|apply absent_delete; solve_keys|].
  - eapply group_frame; [apply _|exact Hd|]. apply agree_delete. solve_keys.
  - eapply group_frame; [apply _|exact Hb|]. apply agree_delete. solve_keys.
Qed.

(** ** Every patch of a reconcile *)

(** A patch that carries annotations satisfying [P]. *)
Definition patch_with {L : K8sLib} (P : option annotations → Prop) (x : write) : Prop :=
  match x with
  | WHPA _ _ _ _ => True
  | WWorkload _ _ _ p _ => ∃ a, carries p a ∧ P a
  end.

(** The shapes a drain reconcile of a workload with shape [d r b] may store. *)
Definition drain_moves (d r b : bool) (a : option annotations) : Prop :=
  groups d r b a ∨ (d = false ∧ groups true r true a) ∨ groups false false false a.

(** The shapes a restart-surge reconcile may store.  Clearing keeps the drain's
    group; it keeps the bookkeeping only when it yields to a drain. *)
Definition restart_moves (d r b : bool) (a : option annotations) : Prop :=
  groups d r b a ∨ (d = false ∧ r = false ∧ groups d true true a) ∨ groups d false false a
  ∨ (d = true ∧ groups d false b a).

Section effects.
Context {L : K8sLib} (cfg : Config) {T : Type} {D : Drainable T} {DL : DrainableLaws T}.

Abbreviation annos w := (Annotations (GetObjectMeta w)).

Lemma patch_with_wl (P : option annotations → Prop) (w : T) r a ok :
  P a → patch_with P (wl_write w r a ok).
Proof. intros Ha. by exists a. Qed.

Lemma patch_with_restore P m ok : Forall (patch_with P) (restore_writes m ok).
Proof. unfold restore_writes. destruct (restore_target m) as [[]|]; by repeat constructor. Qed.

Lemma patch_with_undo P m final ws o : (∀ ok, patch_with P (final ok)) →
  undo_effect m final ws o → Forall (patch_with P) ws.
Proof.
  intros Hf []; [constructor|apply patch_with_restore|].
  apply Forall_app; split; [apply patch_with_restore|]. by repeat constructor.
Qed.

Lemma patch_with_patches P tr p : Forall (patch_with P) (writes tr) → p ∈ patches tr →
  ∃ a, carries p a ∧ P a.
Proof.
  intros Hs (x & Hp & Hx)%list_elem_of_bind. rewrite Forall_forall in Hs.
  specialize (Hs x Hx). destruct x; cbn in Hp; [|set_solver].
  by apply list_elem_of_singleton in Hp as ->.
Qed.

Lemma drain_abort_moves (w : T) d r b ok : patch_with (drain_moves d r b) (abort_write w ok).
Proof. apply patch_with_wl. right; right. apply clear_drain_shape. Qed.

Lemma drain_effect_shape (w : T) node tr o d r b : node ≠ "" → groups d r b (annos w) →
  drain_effect cfg w node tr o → Forall (patch_with (drain_moves d r b)) (writes tr).
Proof.
  intros Hnode Hg Heff. pose proof (drain_state_iff _ _ _ _ Hg) as Hd.
  assert (∀ s, s ∈ recorded_states → anno_get (annos w) AnnotationDrainState ≠ "" →
    drain_moves d r b (Some (<[AnnotationDrainState := s]> (default ∅ (annos w))))) as Hstate.
  { intros s Hs Hne. left. destruct d; [by apply drain_state_shape|naive_solver]. }
  destruct Heff; match goal with H : writes _ = _ |- _ => rewrite H end; [constructor|..].
  all: try match goal with H : eligible _ _ _ |- _ =>
         pose proof (proj1 Hd (start_state _ _ _ H)); subst d end.
  all: try match goal with H : Node.anno _ AnnotationDrainState = _ |- _ =>
         unfold Node.anno in H; rewrite H in Hstate end.
  all: repeat (apply Forall_app; split); try apply patch_with_restore.
  all: try (apply Forall_cons; split; [apply patch_with_wl|]); try apply Forall_nil_2.
  - right; left. split; [done|]. by eapply drain_start_shape.
  - right; left. split; [done|]. apply hpa_shape; [done|]. by eapply drain_start_shape.
  - match goal with H : _ ∨ _ |- _ => destruct H as [->|[_ [okh ->]]] end; by repeat constructor.
  - apply Hstate; [by repeat constructor|done].
  - by left.
  - apply Hstate; [by repeat constructor|done].
  - apply Hstate; [by repeat constructor|done].
  - apply Hstate; [by repeat constructor|done].
  - right; right. apply clear_drain_shape.
  - match goal with H : _ ∨ _ |- _ => destruct H as [-> | ->] end;
      [constructor|apply patch_with_restore].
  - eapply patch_with_undo; [|done]. apply drain_abort_moves.
Qed.

End effects.

Section restart_effects.
Context {L : K8sLib} (cfg : Config).

Abbreviation annos w := (Annotations (GetObjectMeta w)).

Lemma restart_abort_moves (w : Rollout) d r b ok : groups d r b (annos w) →
  patch_with (restart_moves d r b) (restart_abort_write w ok).
Proof.
  intros H. eexists. split; [done|]. right; right; left. by eapply clear_restart_shape.
Qed.

Lemma restart_effect_shape (w : Rollout) tr o d r b : groups d r b (annos w) →
  restart_effect cfg w tr o → Forall (patch_with (restart_moves d r b)) (writes tr).
Proof.
  intros Hg Heff. pose proof (drain_state_iff _ _ _ _ Hg) as Hd.
  pose proof (restart_state_iff _ _ _ _ Hg) as Hr.
  assert (∀ s, s ∈ recorded_states → restart_state w ≠ "" →
    restart_moves d r b (Some (<[AnnotationRestartSurgeState := s]> (default ∅ (annos w))))) as Hstate.
  { intros s Hs Hne. left. unfold restart_state, Node.anno in Hne.
    destruct r; [by apply restart_state_shape|naive_solver]. }
  destruct Heff; match goal with H : writes _ = _ |- _ => rewrite H end; [constructor|..].
  all: try match goal with H : restart_eligible _ _ _ |- _ =>
         pose proof (proj1 Hr (re_state _ _ _ H)); pose proof (proj1 Hd (re_no_drain _ _ _ H));
         subst d r end.
  all: try match goal with H : restart_state _ = _ |- _ => rewrite H in Hstate end.
  all: repeat (apply Forall_app; split); try apply patch_with_restore.
  all: try (apply Forall_cons; split; [apply patch_with_wl|]); try apply Forall_nil_2.
  - right; left. split; [done|]. split; [done|]. by eapply restart_start_shape.
  - right; left. split; [done|]. split; [done|]. apply hpa_shape; [done|].
    by eapply restart_start_shape.
  - match goal with H : _ ∨ _ |- _ => destruct H as [->|[_ [okh ->]]] end; by repeat constructor.
  - by left.
  - apply Hstate; [by repeat constructor|done].
  - apply Hstate; [by repeat constructor|done].
  - apply Hstate; [by repeat constructor|done].
  - right; right; left. by eapply clear_restart_shape.
  - right; right; right. split; [|by eapply clear_exclusive_shape].
    destruct d; [done|]. match goal with H : drain_state _ ≠ _ |- _ => destruct H end. by apply Hd.
  - match goal with H : _ ∨ _ |- _ => destruct H as [-> | ->] end;
      [constructor|apply patch_with_restore].
  - eapply patch_with_undo; [|done]. intros ok. by apply restart_abort_moves.
Qed.
End restart_effects.
