(* ===== verification/CrashSafety.v ===== *)
(** * Crash safety: what is stored always suffices to undo the drain

    The drain controller as a client of the system of [StoreSystem]: every reachable
    version of a workload carries no owned annotation, or a whole drain record. *)

From stdpp Require Import pretty.
From S2P Require Import Prelude GoStd GoTime K8s Effects Config State Workload Scaler.
From S2P Require Import NodeController NodeSpec NodeSound Cluster Samples NodeProps StoreSystem Records.

Local Open Scope Z_scope.

(** The drain's group and the bookkeeping come and go together. *)
Definition drain_ok (a : option annotations) : Prop := ∃ x, groups x false x a.

#[global] Instance drain_ok_proper : Proper (same_owned ==> iff) drain_ok.
Proof. intros a b H. unfold drain_ok. by setoid_rewrite H. Qed.

Lemma drain_moves_ok x a : drain_moves x false x a → drain_ok a.
Proof. intros [|[[_ ?]|]]; by eexists. Qed.

Section drain_system.
Context {L : K8sLib} (cfg : Config).

(** A reconcile for any node, or an abort (node gone, taint removed, orphan
    recovery). *)
Definition drain_runs (v : DrainableWorkload) (p : prog (error + Result)) : Prop :=
  (∃ node, node ≠ "" ∧ p = Node.reconcileWorkload cfg v node) ∨ p = Node.abortWorkload v.

(** Every patch of a drain run moves between shapes as [drain_moves] says. *)
Lemma drain_run_moves v p tr o mp d r b : groups d r b (Annotations (GetObjectMeta v)) →
  drain_runs v p → runs p tr o → mp ∈ patches tr → ∃ a, carries mp a ∧ drain_moves d r b a.
Proof.
  intros Hg [(node & Hnode & ->)| ->] Hr Hp; eapply patch_with_patches; try exact Hp.
  - eapply drain_effect_shape; [done|done|]. by eapply run_effect.
  - eapply wp_runs in Hr; [|apply abortWorkload_effect]. destruct Hr as [_ He].
    eapply patch_with_undo; [|exact He]. apply drain_abort_moves.
Qed.

#[global] Instance drain_keeps : KeepsRecords drain_runs drain_ok.
Proof.
  intros v p tr o mp [x Hx] Hs Hr Hp.
  destruct (drain_run_moves v p tr o mp x false x) as (a & Hc & Ha); try done.
  exists a. split; [done|]. by eapply drain_moves_ok.
Qed.
End drain_system.

(** C1. Crash safety of the drain controller.  Start from a workload with none of
    the owned annotations, and let any number of reconciles and aborts, by any
    nodes, run from any past version of the object, crash at any call, see calls
    fail, and have their patches applied late, in any order, repeatedly or never,
    while others change everything but the owned annotations.  Then every stored
    version either carries none of the owned annotations, or a complete record:
    a state of the machine past [pending], a non-empty node, a formatted start
    time, an original count that reads back as 1, and an autoscaler either absent
    or named with a readable minimum.  An abort therefore always sets 1 replica. *)
Theorem drain_crash_safe {L : K8sLib} (cfg : Config) (w : DrainableWorkload) (s : system)
    (v : DrainableWorkload)
    (Hstart : no_record (Annotations (GetObjectMeta w)))
    (Hreach : reachable (drain_runs cfg) w s) (Hv : v ∈ versions s) :
  let a := Annotations (GetObjectMeta v) in
  no_record a ∨ (drain_group a ∧ bookkeeping a ∧ absent restartSurgeExclusiveKeys a
                 ∧ abort_replicas v = Some 1).
Proof.
  intros a. destruct (reachable_ok (drain_runs cfg) drain_ok w s v) as [[] Ha]; try done.
  - exists false. by apply shape_empty.
  - right. destruct Ha as [Hd Hr Hb]. split_all; try done.
    unfold abort_replicas. by rewrite (bookkeeping_original _ Hb).
  - left. by apply shape_empty.
Qed.

(** The Deployment of the samples surged by a patch that arrives after the
    reconcile that sent it. *)
Definition crash_w : DrainableWorkload := WDeployment sample_w.
Definition crash_p : prog (error + Result) := Node.reconcileWorkload cfg crash_w "node-1".
Definition crash_tr : list called := trace_of crash_p sample_c.
Definition crash_s (p : MergePatch) : system :=
  mkSystem [patch_stored p crash_w; crash_w] (patches crash_tr).

Lemma drain_crash_safe_witness :
  ∃ p, patches crash_tr = [p] ∧ patch_replicas p = Some 2 ∧
    let a := Annotations (GetObjectMeta (patch_stored p crash_w)) in
    no_record a ∨ (drain_group a ∧ bookkeeping a ∧ absent restartSurgeExclusiveKeys a
                   ∧ abort_replicas (patch_stored p crash_w) = Some 1).
Proof.
  destruct (shape_workload (writes crash_tr) KDeployment "default" "web" (Some 2) true)
    as (p & Hw & Hp); [vm_compute; reflexivity|].
  assert (patches crash_tr = [p]) as Hps by (unfold patches; rewrite Hw; reflexivity).
  exists p. split; [exact Hps|]. split; [exact Hp|].
  apply (drain_crash_safe cfg crash_w (crash_s p) (patch_stored p crash_w)).
  - intros k Hk. unfold drainAnnotationKeys in Hk.
    repeat (apply elem_of_cons in Hk as [->|Hk]; [vm_compute; reflexivity|]).
    destruct (not_elem_of_nil _ Hk).
  - apply (rtc_l _ _ (mkSystem [crash_w] (patches crash_tr ++ []))).
    { apply (sys_run _ crash_w crash_p _ (outcome_of crash_p sample_c));
        [apply list_elem_of_here|left; exists "node-1"; split; [discriminate|reflexivity]|apply cluster_runs]. }
    rewrite app_nil_r. apply rtc_once, sys_apply. rewrite Hps. apply list_elem_of_here.
  - apply list_elem_of_here.
Defined.
