(* ===== verification/Autoscaler.v ===== *)
(** * The autoscaler a drain raised is lowered again

    A system of one workload's annotations and the minimum of the autoscaler that
    targets it.  Drain reconciles and aborts run one after the other on the stored
    annotations and may crash at any call; a call that reported an error may or may
    not have taken effect.  As long as the patches that restore the minimum do not
    fail, the minimum is the original one whenever no drain is recorded, and a raised
    minimum is always recorded with the value to restore. *)

From stdpp Require Import pretty.
From S2P Require Import Prelude GoStd GoTime K8s Effects Loops Config State Workload Scaler.
From S2P Require Import NodeController NodeSpec NodeSound Cluster Samples NodeProps StoreSystem.
From S2P Require Import Records CrashSafety.

Local Open Scope Z_scope.

Section autoscaler.
Context {L : K8sLib} (cfg : Config) (ns h : string) (m0 : Z).

Abbreviation annos w := (Annotations (GetObjectMeta w)).

(** The stored annotations and the autoscaler's minimum. *)
Definition hstate : Type := option annotations * Z.

Definition patched (p : MergePatch) (a : option annotations) : option annotations :=
  Some (merge_annotations (patch_annotations p) (default ∅ a)).

(** The effect of a write; one that reported an error may be lost. *)
Inductive applied : write → hstate → hstate → Prop :=
| app_patch k ns' n p ok a m : applied (WWorkload k ns' n p ok) (a, m) (patched p a, m)
| app_hpa min ok a m : applied (WHPA ns h min ok) (a, m) (a, min)
| app_other ns' h' min ok s : ns' ≠ ns ∨ h' ≠ h → applied (WHPA ns' h' min ok) s s
| app_lost_patch k ns' n p s : applied (WWorkload k ns' n p false) s s
| app_lost_hpa ns' h' min s : applied (WHPA ns' h' min false) s s.

Inductive applies : list write → hstate → hstate → Prop :=
| applies_nil s : applies [] s s
| applies_cons x ws s1 s2 s3 : applied x s1 s2 → applies ws s2 s3 → applies (x :: ws) s1 s3.

Lemma applies_app ws1 ws2 s s' : applies (ws1 ++ ws2) s s' →
  ∃ s1, applies ws1 s s1 ∧ applies ws2 s1 s'.
Proof.
  revert s. induction ws1 as [|x ws1 IH]; intros s H; [by exists s; split; [constructor|]|].
  inversion H as [|? ? ? s2 ? Hx Hws]; subst. destruct (IH s2 Hws) as (s1 & H1 & H2).
  exists s1. split; [by econstructor|done].
Qed.

(** The autoscaler found for the workload is [h], with the minimum of the state. *)
Definition sees (v : DrainableWorkload) (tr : list called) (m : Z) : Prop :=
  ∀ hpa, found_hpa v tr (Some hpa) → Name (hpa_meta hpa) = h ∧ HPAMinReplicasOrDefault hpa = m.

(** Only a patch that raises the minimum may fail. *)
Definition restores_ok (tr : list called) : Prop :=
  ∀ ns' h' min, WHPA ns' h' min false ∈ writes tr → min = 2.

Inductive hpa_step : hstate → hstate → Prop :=
| hpa_run v p tr o a m s' :
    same_owned (annos v) a → Namespace (GetObjectMeta v) = ns →
    drain_runs cfg v p → runs p tr o → sees v tr m → restores_ok tr →
    applies (writes tr) (a, m) s' →
    hpa_step (a, m) s'
| hpa_environment a a' m : same_owned a' a → hpa_step (a, m) (a', m).

(** ** The invariant *)

Definition raised_state (a : option annotations) : Prop :=
  anno_get a AnnotationDrainState ∈ [DrainStateScaledUp; DrainStateReady].

Definition hpa_recorded (a : option annotations) : Prop :=
  anno_lookup a AnnotationHPAName = Some h
  ∧ anno_lookup a AnnotationHPAOriginalMinReplicas = Some (Itoa m0) ∧ m0 < 2.

Definition hpa_inv (s : hstate) : Prop :=
  drain_ok s.1
  ∧ ((anno_lookup s.1 AnnotationHPAName = None ∧ s.2 = m0)
     ∨ (hpa_recorded s.1 ∧ (s.2 = m0 ∨ (s.2 = 2 ∧ raised_state s.1)))).

Lemma hpa_inv_same a b m : same_owned a b → hpa_inv (a, m) → hpa_inv (b, m).
Proof.
  intros H [Hok Hi]. split; cbn [fst snd] in *; [by rewrite -H|].
  unfold hpa_recorded, raised_state in *. rewrite !anno_get_lookup in Hi |- *.
  rewrite -(H AnnotationHPAName); [|solve_key].
  rewrite -(H AnnotationHPAOriginalMinReplicas); [|solve_key].
  by rewrite -(H AnnotationDrainState); [|solve_key].
Qed.

Lemma patched_same p a b : carries p b → same_owned (patched p a) b.
Proof. intros Hp k Hk. unfold patched. cbn. rewrite Hp. by apply merge_anno_patch_owned. Qed.

Context (Hh : h ≠ "") (Hm0 : is_int32 m0).

Lemma recorded_target v a : same_owned (annos v) a → hpa_recorded a →
  restore_target (GetObjectMeta v) = Some (h, m0).
Proof using Hh Hm0.
  intros Hv (Hn & Ho & _). unfold restore_target. rewrite !anno_get_lookup.
  rewrite (Hv AnnotationHPAName); [|solve_key].
  rewrite (Hv AnnotationHPAOriginalMinReplicas); [|solve_key]. rewrite Hn Ho.
  cbn [default from_option id]. destruct (String.eqb_spec h ""); [done|].
  rewrite Atoi_Itoa; [|auto with surge]. cbn [fmap option_fmap option_map].
  by rewrite int32_wrap_id.
Qed.

Lemma unrecorded_target v a : same_owned (annos v) a → anno_lookup a AnnotationHPAName = None →
  restore_target (GetObjectMeta v) = None.
Proof using.
  intros Hv Hn. unfold restore_target. rewrite anno_get_lookup.
  rewrite (Hv AnnotationHPAName); [|solve_key]. by rewrite Hn.
Qed.

(** What restoring does to a state that satisfies the invariant. *)
Lemma restore_applies v a m ok s' : same_owned (annos v) a → Namespace (GetObjectMeta v) = ns →
  hpa_inv (a, m) → applies (restore_writes (GetObjectMeta v) ok) (a, m) s' →
  (s' = (a, m) ∧ (ok = true → m = m0)) ∨ s' = (a, m0).
Proof using Hh Hm0.
  intros Hv Hns [_ Hi] Hap. cbn [fst snd] in Hi. unfold restore_writes in Hap.
  destruct Hi as [[Hn Hm]|[Hr Hm]].
  { rewrite (unrecorded_target v a Hv Hn) in Hap. inversion Hap; subst. by left. }
  rewrite (recorded_target v a Hv Hr) Hns in Hap.
  inversion Hap as [|? ? ? ? ? Hx Hnil]; subst. inversion Hnil; subst.
  inversion Hx; subst; [by right|naive_solver|by left].
Qed.

Lemma hpa_inv_restored a m : hpa_inv (a, m) → hpa_inv (a, m0).
Proof. intros [Hok [[? _]|[? _]]]; (split; [done|]); [by left|right; auto]. Qed.

(** A patch with annotations of the invariant keeps it, whether or not it is lost. *)
Lemma patch_applies {T} {D : Drainable T} (w : T) r b ok a m s' :
  hpa_inv (b, m) → hpa_inv (a, m) → applies [wl_write w r b ok] (a, m) s' →
  (s' = (a, m) ∧ ok = false ∨ ∃ c, s' = (c, m) ∧ same_owned c b) ∧ hpa_inv s'.
Proof using.
  intros Hb Ha Hap. inversion Hap as [|? ? ? ? ? Hx Hnil]; subst. inversion Hnil; subst.
  inversion Hx; subst; [|by split; [left|]].
  assert (same_owned (patched (mkMergePatch r (anno_patch b)) a) b) as Hs by by apply patched_same.
  split; [right; eauto|]. by eapply hpa_inv_same; [symmetry|].
Qed.

Lemma state_inv a m s : s ∈ recorded_states → anno_get a AnnotationDrainState ≠ "" →
  s ∈ [DrainStateScaledUp; DrainStateReady] ∨ m = m0 →
  hpa_inv (a, m) → hpa_inv (Some (<[AnnotationDrainState := s]> (default ∅ a)), m).
Proof using.
  intros Hs Hne Hst [[x Hg] Hi]. cbn [fst snd] in *.
  assert (x = true) as ->.
  { destruct x; [done|]. pose proof (drain_state_iff _ _ _ _ Hg). naive_solver. }
  split; cbn [fst snd]; [exists true; by apply drain_state_shape|].
  unfold hpa_recorded, raised_state in *. anno_simpl. rewrite !lookup_default.
  destruct Hi as [|[Hr Hm]]; [by left|]. right. split; [done|].
  destruct Hst as [Hst| ->]; [|by left]. destruct Hm as [|[Hm _]]; [by left|by right].
Qed.

Lemma cleared_inv a : hpa_inv (clearDrainAnnotations a, m0).
Proof using.
  split; cbn [fst snd]; [exists false; apply clear_drain_shape|]. left. by anno_simpl.
Qed.

Lemma pending_inv a node now : node ≠ "" → anno_get a AnnotationDrainState = "" →
  hpa_inv (a, m0) →
  hpa_inv (Some (pending_annotations a 1 node now), m0)
  ∧ anno_lookup (Some (pending_annotations a 1 node now)) AnnotationHPAName = None.
Proof using.
  intros Hnode Hst [[x Hg] Hi]. cbn [fst snd] in *.
  assert (x = false) as -> by (by apply (drain_state_iff _ _ _ _ Hg)).
  assert (anno_lookup (Some (pending_annotations a 1 node now)) AnnotationHPAName = None) as Hn.
  { unfold pending_annotations. anno_simpl. rewrite lookup_default.
    apply (proj1 (shape_empty a) Hg). solve_key. }
  split; [|done]. split; cbn [fst snd]; [|by left].
  exists true. by eapply drain_start_shape.
Qed.

(** A restoring patch that may not fail leaves the original minimum. *)
Lemma restore_ok_applies v a m ok s' : same_owned (annos v) a → Namespace (GetObjectMeta v) = ns →
  hpa_inv (a, m) → (∀ ns' h' k, WHPA ns' h' k false ∈ restore_writes (GetObjectMeta v) ok → k = 2) →
  applies (restore_writes (GetObjectMeta v) ok) (a, m) s' → s' = (a, m0).
Proof using Hh Hm0.
  intros Hv Hns Hi Hok Hap.
  destruct (restore_applies v a m ok s' Hv Hns Hi Hap) as [[-> Hm]| ->]; [|done].
  destruct Hi as [_ [[_ Hm']|[Hr _]]]; cbn [fst snd] in *; [by subst|].
  destruct ok; [by rewrite Hm|]. exfalso. destruct Hr as (Hn & Ho & Hlt).
  assert (m0 = 2); [|lia]. eapply Hok. unfold restore_writes.
  rewrite (recorded_target v a); [apply list_elem_of_here|done|by repeat split].
Qed.

(** After a restore the invariant still holds. *)
Lemma restore_inv v a m ok s' : same_owned (annos v) a → Namespace (GetObjectMeta v) = ns →
  hpa_inv (a, m) → applies (restore_writes (GetObjectMeta v) ok) (a, m) s' →
  ∃ m', s' = (a, m') ∧ hpa_inv (a, m').
Proof using Hh Hm0.
  intros Hv Hns Hi Hap.
  destruct (restore_applies v a m ok s' Hv Hns Hi Hap) as [[-> _]| ->]; [by eauto|].
  exists m0. split; [done|]. by eapply hpa_inv_restored.
Qed.

Lemma undo_inv v a m ws o s' : same_owned (annos v) a → Namespace (GetObjectMeta v) = ns →
  hpa_inv (a, m) → abort_effect v ws o → (∀ ns' h' k, WHPA ns' h' k false ∈ ws → k = 2) →
  applies ws (a, m) s' → hpa_inv s'.
Proof using Hh Hm0.
  intros Hv Hns Hi Heff Hok Hap. destruct Heff as [|okh|okh ok o].
  - by inversion Hap; subst.
  - destruct (restore_inv v a m okh s' Hv Hns Hi Hap) as (m' & -> & Hi'). done.
  - apply applies_app in Hap as (s1 & Hr & Hc).
    apply (restore_ok_applies v) in Hr as ->; [|done|done|done|].
    2: { intros ns' h' k Hin. eapply Hok, elem_of_app. by left. }
    apply patch_applies in Hc as [_ Hc]; [done|apply cleared_inv|by eapply hpa_inv_restored].
Qed.

(** Outside the two waiting states the minimum is the original one. *)
Lemma settled b m : hpa_inv (b, m) →
  anno_get b AnnotationDrainState ∉ [DrainStateScaledUp; DrainStateReady] → m = m0.
Proof using. by intros [_ [[_ ?]|[_ [?|[_ ?]]]]]; cbn [fst snd] in *. Qed.

Lemma raised_inv b hpa node now : node ≠ "" → anno_get b AnnotationDrainState = "" →
  hpa_inv (b, m0) → Name (hpa_meta hpa) = h → HPAMinReplicasOrDefault hpa = m0 → m0 < 2 →
  let c := Some (hpa_annotations hpa (pending_annotations b 1 node now)) in
  hpa_inv (c, m0) ∧ hpa_inv (c, 2).
Proof using.
  intros Hnode Hst Hi Hn Hm Hlt c.
  destruct (pending_inv b node now Hnode Hst Hi) as [[[x Hg] _] _]. cbn [fst] in Hg.
  assert (x = true) as ->.
  { destruct x; [done|]. apply drain_state_iff in Hg as [_ Hg]. specialize (Hg eq_refl).
    revert Hg. unfold pending_annotations. by anno_simpl. }
  assert (drain_ok c) as Hok by (exists true; apply hpa_shape; [lia|done]).
  assert (hpa_recorded c) as Hr.
  { unfold hpa_recorded, c, hpa_annotations. anno_simpl. by rewrite Hn Hm. }
  assert (raised_state c) as Hs.
  { unfold raised_state, c, hpa_annotations, pending_annotations. anno_simpl. apply list_elem_of_here. }
  split; (split; [done|]); right; (split; [done|]); [by left|by right].
Qed.

(** Recording the autoscaler first and raising it then. *)
Lemma raise_applies {T} {D : Drainable T} (w : T) r c ok later a s' :
  hpa_inv (c, m0) → hpa_inv (c, 2) → hpa_inv (a, m0) →
  later = [] ∨ (ok = true ∧ ∃ n okh, later = [WHPA ns n 2 okh]) →
  applies (wl_write w r c ok :: later) (a, m0) s' → hpa_inv s'.
Proof using.
  intros Hc0 Hc2 Ha Hl Hap. apply (applies_app [_]) in Hap as (s1 & Hw & Hap).
  apply patch_applies in Hw as [Hs1 Hw]; [|done|done].
  destruct Hl as [->|(-> & n & okh & ->)]; [by inversion Hap; subst|].
  destruct Hs1 as [[_ ?]|(b & -> & Hb)]; [done|].
  inversion Hap as [|? ? ? ? ? Hx Hnil]; subst. inversion Hnil; subst.
  inversion Hx; subst; [|done|done]. by eapply hpa_inv_same; [symmetry|].
Qed.

Lemma effect_inv v node a m tr o s' : node ≠ "" → same_owned (annos v) a →
  Namespace (GetObjectMeta v) = ns → sees v tr m → restores_ok tr → hpa_inv (a, m) →
  drain_effect cfg v node tr o → applies (writes tr) (a, m) s' → hpa_inv s'.
Proof using Hh Hm0.
  intros Hnode Hv Hns Hsees Hok Hi Heff Hap. unfold restores_ok in Hok.
  pose proof (hpa_inv_same _ _ m (symmetry Hv) Hi) as Hiv.
  destruct Heff; match goal with H : writes _ = _ |- _ => rewrite H in Hap, Hok end.
  all: try match goal with H : Node.anno _ AnnotationDrainState = _ |- _ => rename H into Hst end.
  all: unfold Node.anno in *.
  - by inversion Hap; subst.
  - match goal with H : eligible _ _ _ |- _ => pose proof (start_state _ _ _ H) as Hst end.
    assert (m = m0) as -> by (eapply settled; [exact Hiv|]; unfold Node.anno in Hst; rewrite Hst; set_solver).
    apply patch_applies in Hap as [_ ?]; [done| |done]. by apply pending_inv.
  - match goal with H : eligible _ _ _ |- _ => pose proof (start_state _ _ _ H) as Hst end.
    assert (m = m0) as -> by (eapply settled; [exact Hiv|]; unfold Node.anno in Hst; rewrite Hst; set_solver).
    match goal with H : found_hpa _ _ _ |- _ => destruct (Hsees _ H) as [Hn Hmin] end.
    destruct (raised_inv (annos v) hpa node now) as [Hi0 Hi2]; try done; [lia|].
    eapply (raise_applies v); [exact Hi0|exact Hi2|exact Hi| |exact Hap].
    match goal with H : later = [] ∨ _ |- _ => destruct H as [->|[-> [okh ->]]] end; rewrite ?Hns; eauto 6.
  - apply patch_applies in Hap as [_ ?]; [done| |done].
    apply state_inv; [by repeat constructor|by rewrite Hst| |done]. left. by repeat constructor.
  - by apply patch_applies in Hap as [_ ?].
  - apply patch_applies in Hap as [_ ?]; [done| |done].
    apply state_inv; [by repeat constructor|by rewrite Hst| |done]. left. by repeat constructor.
  - by destruct (restore_inv v a m okh s' Hv Hns Hi Hap) as (m' & -> & Hi').
  - apply applies_app in Hap as (s1 & Hr & Hc).
    apply (restore_ok_applies v) in Hr as ->; [|done|done|done|].
    2: { intros ns' h' k Hin. eapply Hok, elem_of_app. by left. }
    apply patch_applies in Hc as [_ ?]; [done| |by eapply hpa_inv_restored].
    apply state_inv; [by repeat constructor|by rewrite Hst|by right|by eapply hpa_inv_restored].
  - assert (m = m0) as -> by (eapply settled; [exact Hiv|]; rewrite Hst; set_solver).
    apply patch_applies in Hap as [_ ?]; [done| |done].
    apply state_inv; [by repeat constructor|by rewrite Hst|by right|done].
  - assert (m = m0) as -> by (eapply settled; [exact Hiv|]; rewrite Hst; set_solver).
    apply patch_applies in Hap as [_ ?]; [done|apply cleared_inv|done].
  - apply applies_app in Hap as (s1 & Hr & Hc).
    assert (∃ m1, s1 = (a, m1) ∧ hpa_inv (a, m1)) as (m1 & -> & Hi1).
    { match goal with H : pre = [] ∨ _ |- _ => destruct H as [-> | ->] end;
        [inversion Hr; subst; by eauto|by eapply restore_inv]. }
    eapply (undo_inv v a m1); try done. intros ns' h' k Hin. eapply Hok, elem_of_app. by right.
Qed.

Lemma hpa_step_inv s s' : hpa_step s s' → hpa_inv s → hpa_inv s'.
Proof using Hh Hm0.
  intros [v p tr o a m s1 Hv Hns [(node & Hnode & ->)| ->] Hr Hsees Hok Hap|a a' m Ha] Hi.
  - eapply effect_inv; try done. by apply run_effect in Hr as [_ ?].
  - eapply wp_runs in Hr; [|apply abortWorkload_effect]. destruct Hr as [_ He].
    by eapply (undo_inv v).
  - by eapply hpa_inv_same; [symmetry|].
Qed.
End autoscaler.

(** C7. The autoscaler is given back.  Start from a workload without owned
    annotations whose autoscaler [h] has the minimum [m0], and let drain reconciles
    and aborts run one after the other on what is stored, crash at any call, and see
    any call fail, with or without effect, except the patches that restore the
    minimum.  Then whenever no drain is recorded the minimum is [m0] again, and while
    it differs it is 2 and the workload records the autoscaler by name with [m0] as
    the value to restore. *)
Theorem autoscaler_restored {L : K8sLib} (cfg : Config) (ns h : string) (m0 : Z)
    (a0 a : option annotations) (m : Z)
    (Hh : h ≠ "") (Hm0 : is_int32 m0) (Hstart : no_record a0)
    (Hreach : rtc (hpa_step cfg ns h) (a0, m0) (a, m)) :
  (no_record a → m = m0)
  ∧ (m ≠ m0 → m = 2 ∧ anno_lookup a AnnotationHPAName = Some h
       ∧ anno_lookup a AnnotationHPAOriginalMinReplicas = Some (Itoa m0)).
Proof.
  assert (hpa_inv h m0 (a, m)) as [_ Hi].
  { assert (hpa_inv h m0 (a0, m0)) as H0.
    { split; cbn [fst snd]; [exists false; by apply shape_empty|]. left. split; [|done].
      apply Hstart. solve_key. }
    revert H0. generalize (a0, m0) (a, m) Hreach. intros s s'. induction 1 as [|s1 s2 s3 Hs _ IH]; [done|].
    intros Hi. apply IH. by eapply hpa_step_inv. }
  cbn [fst snd] in Hi. split.
  - intros Hno. destruct Hi as [[_ ?]|[(Hn & _) _]]; [done|].
    rewrite Hno in Hn; [done|solve_key].
  - intros Hne. destruct Hi as [[_ ?]|[(Hn & Ho & _) [?|[-> _]]]]; done.
Qed.

(** A surge through the sample autoscaler, from minimum 1 to 2. *)
Definition raise_w : DrainableWorkload := WDeployment sample_w.
Definition raise_p : prog (error + Result) := Node.reconcileWorkload cfg raise_w "node-1".
Definition raise_c : cluster := dep_cluster sample_w [] [web_hpa "Deployment" (Some 1) 3] t0.
Definition raise_a : option annotations := Annotations (GetObjectMeta raise_w).

Lemma raise_writes : ∃ p, writes (trace_of raise_p raise_c)
  = [WWorkload KDeployment "default" "web" p true; WHPA "default" "web-hpa" 2 true].
Proof.
  destruct (writes (trace_of raise_p raise_c)) as [|x [|y [|]]] eqn:E;
    apply (f_equal (fmap shape)) in E; vm_compute in E; try discriminate E.
  injection E as Hx Hy. destruct x as [? ? ? p ?|]; [|discriminate Hx].
  destruct y; [discriminate Hy|]. injection Hx as <- <- <- _ <-. injection Hy as <- <- <- <-. eauto.
Qed.

Lemma raise_sees hpa : found_hpa raise_w (trace_of raise_p raise_c) (Some hpa) →
  hpa = web_hpa "Deployment" (Some 1) 3.
Proof.
  assert ((λ c, match c with Called e r => match e in apiE R return R → list HPA with
             | ListHPAs _ => λ r, match r with inr l => l | inl _ => [] end | _ => λ _, [] end r end)
    <$> trace_of raise_p raise_c
    = [[web_hpa "Deployment" (Some 1) 3]; []; []; [web_hpa "Deployment" (Some 1) 3]; []; []; []]) as E
    by (vm_compute; reflexivity).
  intros (hpas & Hin & Hf).
  assert (hpas ∈ [[web_hpa "Deployment" (Some 1) 3]; []; []; [web_hpa "Deployment" (Some 1) 3]; []; []; []])
    as Hl by (rewrite -E; by apply (list_elem_of_fmap_2' _ _ _ _ Hin)).
  repeat (apply elem_of_cons in Hl as [->|Hl]; [vm_compute in Hf; first [discriminate Hf|injection Hf as <-; reflexivity]|]).
  destruct (not_elem_of_nil _ Hl).
Qed.

Lemma autoscaler_restored_witness :
  ∃ a, rtc (hpa_step cfg "default" "web-hpa") (raise_a, 1) (a, 2)
    ∧ anno_lookup a AnnotationHPAOriginalMinReplicas = Some (Itoa 1).
Proof.
  destruct raise_writes as [p Hw]. exists (patched p raise_a).
  assert (rtc (hpa_step cfg "default" "web-hpa") (raise_a, 1) (patched p raise_a, 2)) as Hr.
  { apply rtc_once.
    apply (hpa_run _ _ _ raise_w raise_p (trace_of raise_p raise_c) (outcome_of raise_p raise_c)).
    - reflexivity.
    - reflexivity.
    - left. exists "node-1". split; [discriminate|reflexivity].
    - apply cluster_runs.
    - intros hpa ->%raise_sees. split; reflexivity.
    - intros ns' h' k Hin. rewrite Hw in Hin.
      repeat (apply elem_of_cons in Hin as [Hin|Hin]; [discriminate Hin|]). destruct (not_elem_of_nil _ Hin).
    - rewrite Hw. repeat econstructor. }
  split; [exact Hr|].
  destruct (autoscaler_restored cfg "default" "web-hpa" 1 raise_a (patched p raise_a) 2) as [_ H].
  - discriminate.
  - split; [discriminate|reflexivity].
  - intros k Hk. unfold drainAnnotationKeys in Hk.
    repeat (apply elem_of_cons in Hk as [->|Hk]; [vm_compute; reflexivity|]).
    destruct (not_elem_of_nil _ Hk).
  - exact Hr.
  - apply H. discriminate.
Defined.
