(* ===== verification/NodeLoops.v ===== *)
(** * The node-level passes of the drain controller

    [abortWorkloadsForNode] and [RecoverOrphans] are shown to be passes that undo
    ([aborts], from [UndoPass]) exactly the workloads they should undo, and the map
    they are collected in is shown to lose none of them unless two kinds share a
    name. *)

From stdpp Require Import pretty.
From Stdlib Require Import Ascii.
From S2P Require Import Prelude GoStd GoTime K8s Effects Loops Config State Workload Scaler.
From S2P Require Import RestartDetect NodeController RolloutController NodeSpec NodeSound UndoPass.
From S2P Require Import Cluster Samples NodeProps.

Local Open Scope Z_scope.

Lemma abortWorkload_returned {L : K8sLib} {T} {D : Drainable T} {DL : DrainableLaws T} (w : T) :
  wp (Node.abortWorkload w) (undo_returned GetObjectMeta abort_write w).
Proof.
  eapply wp_mono; [|apply abortWorkload_effect]. intros tr o [Hp He].
  by apply undo_effect_returned.
Qed.

(** ** Aborting every workload of a node *)

Section node_abort.
Context {L : K8sLib}.

Lemma findWorkloads_spec node :
  wp (Node.findWorkloadsWithDrainNode node) (λ tr o, writes tr = [] ∧ ¬ panicked o ∧
    ∀ ws, o = Returned (inr ws) → ∃ ros deps,
      Called (ListRollouts (Some node)) (inr ros) ∈ tr
      ∧ Called (ListDeployments (Some node)) (inr deps) ∈ tr
      ∧ ws = Node.index_workloads (WDeployment <$> deps)
               (Node.index_workloads (WRollout <$> ros) ∅)).
Proof.
  unfold Node.findWorkloadsWithDrainNode.
  repeat wp_step; (split; [done|split; [by intros []|]]); intros ws [= <-].
  eexists _, _. split_all; [in_trace..|done].
Qed.

(** The calls of a lookup that succeeds. *)
Definition found_calls (node : string) (ros : list Rollout) (deps : list Deployment) :
    list called :=
  [Called (ListRollouts (Some node)) (inr ros); Called (ListDeployments (Some node)) (inr deps)].

(** The workloads found, for lists [ros] and [deps]. *)
Definition found_workloads (ros : list Rollout) (deps : list Deployment) :
    gmap string DrainableWorkload :=
  Node.index_workloads (WDeployment <$> deps) (Node.index_workloads (WRollout <$> ros) ∅).

Lemma map_range_spec {A} (m : gmap string A) :
  wp (map_range m) (λ tr o, writes tr = [] ∧ ¬ panicked o ∧
    ∀ es, o = Returned es → es.*2 ≡ₚ (map_to_list m).*2).
Proof.
  unfold map_range. cbn. split; [split; [done|split; [by intros []|done]]|].
  intros ks Hks. split; [done|]. split; [by intros []|]. intros es [= <-].
  destruct (runs_map_range m [Called (RangeOrder (map_to_list m).*1) ks]
              (omap (λ k, (λ v, (k, v)) <$> m !! k) ks)) as [_ ->]; [|done].
  right. by exists ks, [].
Qed.

Definition collect_err (errs : list error) (r : error + Result) : list error :=
  match r with inl err => errs ++ [err] | inr _ => errs end.

Definition no_errors (errs : list error) : bool := match errs with [] => true | _ => false end.

Lemma no_errors_collect errs r : no_errors (collect_err errs r) = no_errors errs && is_ok r.
Proof. by destruct r, errs. Qed.

Lemma abort_loop_spec {A} (entries : list (A * DrainableWorkload)) :
  wp (for_each (λ kw errs, bind (Node.abortWorkload kw.2) (λ r, Ret (collect_err errs r)))
        entries [])
    (λ tr o, ¬ panicked o ∧ ∀ errs, o = Returned errs →
       ∃ all, aborts entries.*2 (writes tr) all ∧ no_errors errs = all).
Proof.
  pose (mt := λ x : A * DrainableWorkload, GetObjectMeta x.2).
  pose (final := λ x : A * DrainableWorkload, abort_write x.2).
  eapply wp_mono; [|apply (wp_for_each_chain (undo_iteration mt final (λ _, true) collect_err))].
  - intros tr o [Hp Hc]. split; [done|]. intros errs Ho.
    destruct (chain_undoes mt final (λ _, true) collect_err (λ errs b, no_errors errs = b)
                entries tr [] errs true) as (all & Ha & Hg); [|by apply Hc|done|].
    + intros s b r <-. apply no_errors_collect.
    + rewrite filter_all in Ha. exists all. split; [|done].
      by apply (undoes_fmap snd GetObjectMeta abort_write).
  - intros x s _.
    apply (undo_iteration_spec mt final (λ x, Node.abortWorkload x.2) (λ _, true) collect_err x s).
    apply (abortWorkload_returned x.2).
Qed.

(** The pass that [abortWorkloadsForNode] makes, when it returns. *)
Definition node_abort_post (node : string) (tr : list called) (r : error + Result) : Prop :=
  (writes tr = [] ∧ is_ok r = false)
  ∨ ∃ ros deps ws,
      Called (ListRollouts (Some node)) (inr ros) ∈ tr
      ∧ Called (ListDeployments (Some node)) (inr deps) ∈ tr
      ∧ ws ≡ₚ (map_to_list (found_workloads ros deps)).*2
      ∧ aborts ws (writes tr) (is_ok r).

Lemma abortWorkloadsForNode_spec node :
  wp (Node.abortWorkloadsForNode node) (λ tr o, ¬ panicked o ∧ ∀ r, o = Returned r →
    node_abort_post node tr r).
Proof.
  unfold Node.abortWorkloadsForNode. apply wp_bind.
  eapply wp_mono; [|apply findWorkloads_spec].
  intros tr [[e|m]|msg|] (Hw & Hp & Hfound); cbn [bind_post];
    [|..|by destruct Hp|by split; [intros []|]].
  { split; [by intros []|]. intros r [= <-]. left. by rewrite app_nil_r. }
  destruct (Hfound m eq_refl) as (ros & deps & Hros & Hdeps & ->).
  apply wp_bind. eapply wp_mono; [|apply map_range_spec].
  intros tr1 [entries|msg|] (Hw1 & Hp1 & Hperm); cbn [bind_post];
    [|by destruct Hp1|by split; [intros []|]].
  apply wp_bind. eapply wp_mono; [|apply abort_loop_spec].
  intros tr2 [errs|msg|] [Hp2 Hloop]; cbn [bind_post];
    [|by destruct Hp2|by split; [intros []|]].
  destruct (Hloop errs eq_refl) as (all & Ha & Herr). cbn.
  split; [by intros []|]. intros r [= <-]. right. exists ros, deps, entries.*2.
  split_all; [set_solver..|by apply Hperm|].
  rewrite !writes_app Hw Hw1 app_nil_r /=. subst all. by destruct errs.
Qed.
End node_abort.

(** C28. When a node is gone or no longer carries a drain taint, the controller
    undoes every drain recorded for it: a returning [abortWorkloadsForNode] either
    wrote nothing and reports that listing failed, or restored and patched every
    workload it found for the node, each exactly once and in some order, whether
    or not earlier ones failed, and reports an error exactly when one of those
    patches failed. *)
Theorem abortWorkloadsForNode_complete {L : K8sLib} (node : string) tr r
    (Hrun : runs (Node.abortWorkloadsForNode node) tr (Returned r)) :
  (writes tr = [] ∧ is_ok r = false)
  ∨ ∃ ros deps ws,
      Called (ListRollouts (Some node)) (inr ros) ∈ tr
      ∧ Called (ListDeployments (Some node)) (inr deps) ∈ tr
      ∧ ws ≡ₚ (map_to_list (found_workloads ros deps)).*2
      ∧ aborts ws (writes tr) (is_ok r).
Proof.
  eapply wp_runs in Hrun; [|apply abortWorkloadsForNode_spec].
  by apply (proj2 Hrun r).
Qed.

(** A node that went away with the Deployment of the samples mid-drain. *)
Definition gone_w : Deployment := web_dep (Some 2) (draining_annotations DrainStateReady).
Definition gone_c : cluster := dep_cluster gone_w [] [] t0.
Definition gone_p : prog (error + Result) := Node.abortWorkloadsForNode "node-1".

Lemma abortWorkloadsForNode_complete_witness :
  shape <$> writes (trace_of gone_p gone_c) = [inl (KDeployment, "default", "web", Some 1, true)]
  ∧ ((writes (trace_of gone_p gone_c) = [] ∧ true = false)
     ∨ ∃ ros deps ws,
         Called (ListRollouts (Some "node-1")) (inr ros) ∈ trace_of gone_p gone_c
         ∧ Called (ListDeployments (Some "node-1")) (inr deps) ∈ trace_of gone_p gone_c
         ∧ ws ≡ₚ (map_to_list (found_workloads ros deps)).*2
         ∧ aborts ws (writes (trace_of gone_p gone_c)) true).
Proof.
  split; [vm_compute; reflexivity|].
  apply (abortWorkloadsForNode_complete "node-1" (trace_of gone_p gone_c) (inr no_requeue)).
  assert (outcome_of gone_p gone_c = Returned (inr no_requeue)) as <- by (vm_compute; reflexivity).
  apply cluster_runs.
Defined.

(** ** Which workloads are found *)

Section found.
Context {L : K8sLib}.

Lemma index_workloads_values ws m :
  NoDup (Node.key_of <$> ws) → (∀ w, w ∈ ws → m !! Node.key_of w = None) →
  (map_to_list (Node.index_workloads ws m)).*2 ≡ₚ ws ++ (map_to_list m).*2.
Proof.
  revert m. induction ws as [|w ws IH]; intros m Hnd Hfresh; [done|].
  apply NoDup_cons in Hnd as [Hnew Hnd]. simpl.
  rewrite IH; [|done|].
  - rewrite map_to_list_insert; [|apply Hfresh; set_solver]. simpl.
    by rewrite -Permutation_middle.
  - intros w' Hw'. rewrite lookup_insert_ne; [apply Hfresh; set_solver|].
    intros E. apply Hnew. rewrite E. by apply list_elem_of_fmap_2.
Qed.

(** Does a string contain a slash? *)
Fixpoint has_slash (s : string) : bool :=
  match s with
  | EmptyString => false
  | String c s => Ascii.eqb c "/"%char || has_slash s
  end.

Lemma workloadKey_inj ns1 n1 ns2 n2 :
  has_slash ns1 = false → has_slash ns2 = false →
  workloadKey ns1 n1 = workloadKey ns2 n2 → ns1 = ns2 ∧ n1 = n2.
Proof.
  unfold workloadKey. revert ns2. induction ns1 as [|c ns1 IH]; intros [|c2 ns2] H1 H2; cbn in *.
  - intros [= E]; split; [done|exact E].
  - intros [= <- _]. done.
  - intros [= -> _]. done.
  - apply orb_false_iff in H1 as [_ H1]. apply orb_false_iff in H2 as [_ H2].
    intros [= -> E]. destruct (IH ns2 H1 H2 E) as [-> ->]. done.
Qed.

Definition full_name (w : DrainableWorkload) : string * string :=
  (Namespace (GetObjectMeta w), Name (GetObjectMeta w)).

Lemma key_of_nodup ws :
  NoDup (full_name <$> ws) →
  (∀ w, w ∈ ws → has_slash (Namespace (GetObjectMeta w)) = false) →
  NoDup (Node.key_of <$> ws).
Proof.
  induction ws as [|w ws IH]; intros Hnd Hs; [constructor|].
  apply NoDup_cons in Hnd as [Hnew Hnd]. simpl. apply NoDup_cons. split.
  - intros (w' & E & Hw')%list_elem_of_fmap. apply Hnew, list_elem_of_fmap. exists w'.
    split; [|done]. unfold Node.key_of in E.
    apply workloadKey_inj in E as [E1 E2]; [|apply Hs; set_solver..].
    unfold full_name. by rewrite E1 E2.
  - apply IH; [done|]. intros w' Hw'. apply Hs. set_solver.
Qed.
End found.

(** When the listed Rollouts and Deployments have pairwise distinct
    namespaced names and no namespace contains a slash (Kubernetes namespaces
    cannot), the map keyed by [workloadKey] loses and merges nothing: its entries
    are exactly the listed workloads. *)
Lemma found_workloads_exact {L : K8sLib} (ros : list Rollout) (deps : list Deployment)
    (Hnames : NoDup (full_name <$> (WRollout <$> ros) ++ (WDeployment <$> deps)))
    (Hslash : ∀ w, w ∈ (WRollout <$> ros) ++ (WDeployment <$> deps) →
                   has_slash (Namespace (GetObjectMeta w)) = false) :
  (map_to_list (found_workloads ros deps)).*2 ≡ₚ (WRollout <$> ros) ++ (WDeployment <$> deps).
Proof.
  unfold found_workloads, Node.index_workloads. rewrite -foldl_app.
  fold (Node.index_workloads ((WRollout <$> ros) ++ (WDeployment <$> deps)) ∅).
  rewrite index_workloads_values; [by rewrite map_to_list_empty app_nil_r| |].
  - by apply key_of_nodup.
  - intros w _. apply lookup_empty.
Qed.

Lemma found_workloads_exact_witness :
  (map_to_list (found_workloads [] [gone_w])).*2 ≡ₚ [WDeployment gone_w].
Proof.
  apply (found_workloads_exact [] [gone_w]).
  - apply NoDup_singleton.
  - intros w ->%list_elem_of_singleton. reflexivity.
Defined.

(** ** A key without the kind *)

Section collision.
Context {L : K8sLib}.

(** The exact calls of a lookup that returned. *)
Lemma findWorkloads_calls node tr ex :
  runs (Node.findWorkloadsWithDrainNode node) tr (Returned ex) →
  match ex with
  | inr ws => ∃ ros deps, tr = found_calls node ros deps ∧ ws = found_workloads ros deps
  | inl _ => ∃ e, tr = [Called (ListRollouts (Some node)) (inl e)]
             ∨ ∃ ros, tr = [Called (ListRollouts (Some node)) (inr ros);
                            Called (ListDeployments (Some node)) (inl e)]
  end.
Proof.
  unfold Node.findWorkloadsWithDrainNode.
  intros (r & tr1 & tr2 & -> & Hr & H)%runs_bind.
  apply runs_bind in Hr as (r0 & tr3 & tr4 & -> & [-> _]%runs_call & [-> ->]%runs_ret).
  destruct r0 as [e|ros]; cbn [wrap_err] in H; [by apply runs_ret in H as [-> ->]; exists e; left|].
  apply runs_bind in H as (r & tr5 & tr6 & -> & Hd & H).
  apply runs_bind in Hd as (r1 & tr7 & tr8 & -> & [-> _]%runs_call & [-> ->]%runs_ret).
  destruct r1 as [e|deps]; cbn [wrap_err] in H; apply runs_ret in H as [-> ->].
  - exists e. right. by exists ros.
  - by exists ros, deps.
Qed.

(** The lists a trace starts with. *)
Definition op_lists {R} (e : apiE R) : R → option (list Rollout + list Deployment) :=
  match e in apiE R return R → option (list Rollout + list Deployment) with
  | ListRollouts _ => λ r, match r with inr l => Some (inl l) | inl _ => None end
  | ListDeployments _ => λ r, match r with inr l => Some (inr l) | inl _ => None end
  | _ => λ _, None
  end.
Definition lists_of (tr : list called) : list (option (list Rollout + list Deployment)) :=
  (λ c, match c with Called e r => op_lists e r end) <$> tr.

(** A lookup that began with these answers found these workloads. *)
Lemma findWorkloads_answers node ros deps rest tr2 tr1 ws :
  found_calls node ros deps ++ rest = tr1 ++ tr2 →
  runs (Node.findWorkloadsWithDrainNode node) tr1 (Returned (inr ws)) →
  ws = found_workloads ros deps ∧ tr1 = found_calls node ros deps.
Proof.
  intros E (ros' & deps' & -> & ->)%findWorkloads_calls.
  apply (f_equal (λ l, take 2 (lists_of l))) in E. cbn in E. injection E as -> ->. done.
Qed.

(** The map a collision leaves: under the Rollout's key there is a Deployment. *)
Lemma found_deployment ros deps d : d ∈ deps →
  ∃ d', d' ∈ deps ∧ Node.key_of (WDeployment d') = Node.key_of (WDeployment d)
    ∧ found_workloads ros deps !! Node.key_of (WDeployment d) = Some (WDeployment d').
Proof.
  unfold found_workloads. generalize (Node.index_workloads (WRollout <$> ros) ∅).
  induction deps as [|x deps IH] using rev_ind; intros m; [by intros []%not_elem_of_nil|].
  rewrite fmap_app /Node.index_workloads foldl_app. cbn.
  destruct (decide (Node.key_of (WDeployment x) = Node.key_of (WDeployment d))) as [E|E].
  - intros _. exists x. split; [set_solver|]. split; [done|]. by rewrite -E lookup_insert_eq.
  - intros [Hd|Hd%list_elem_of_singleton]%elem_of_app; [|congruence].
    destruct (IH m Hd) as (d' & Hin & Hk & Hl). exists d'. split; [set_solver|].
    split; [done|]. by rewrite lookup_insert_ne.
Qed.

(** The values of the map are stored under their own keys. *)
Lemma found_own_key ros deps k w : found_workloads ros deps !! k = Some w → k = Node.key_of w.
Proof.
  assert (∀ ws m, (∀ k w, m !! k = Some w → k = Node.key_of w) →
    ∀ k w, Node.index_workloads ws m !! k = Some w → k = Node.key_of w) as Hix.
  { induction ws as [|x ws IH]; intros m Hm; [done|]. cbn. apply IH.
    intros k' w' [[<- <-]|[_ H]]%lookup_insert_Some; [done|by apply Hm]. }
  unfold found_workloads. apply Hix, Hix. by intros k' w' ?%lookup_empty_Some.
Qed.

(** The writes of undoing [ws] are on workloads of [ws]; every one is patched. *)
Lemma aborts_workload_write ws wr all k ns n p ok : aborts ws wr all →
  WWorkload k ns n p ok ∈ wr →
  ∃ w, w ∈ ws ∧ k = workload_kind w ∧ ns = Namespace (GetObjectMeta w) ∧ n = Name (GetObjectMeta w).
Proof.
  induction 1 as [|w ws okh ok' wr all _ IH]; [by intros []%not_elem_of_nil|].
  intros [Hx|[Hx|Hx]%elem_of_cons]%elem_of_app.
  - by apply restore_write_shape in Hx as (? & ? & [=] & _).
  - injection Hx as -> -> -> _ _. exists w. set_solver.
  - destruct (IH Hx) as (w' & Hw' & ?). exists w'. set_solver.
Qed.

Lemma aborts_patched ws wr w : aborts ws wr true → w ∈ ws → abort_write w true ∈ wr.
Proof.
  intros H. remember true as all eqn:Eall. revert Eall.
  induction H as [|x ws okh ok wr all _ IH]; [by intros _ []%not_elem_of_nil|].
  intros [-> ->]%andb_true_iff [->|Hw]%elem_of_cons; apply elem_of_app; right.
  - apply list_elem_of_here.
  - apply list_elem_of_further. by apply IH.
Qed.

(** A successful node abort: the lists it read and the workloads it undid. *)
Lemma node_abort_answers node ros deps rest r :
  runs (Node.abortWorkloadsForNode node) (found_calls node ros deps ++ rest) (Returned r) →
  ∃ ws, ws ≡ₚ (map_to_list (found_workloads ros deps)).*2
    ∧ aborts ws (writes (found_calls node ros deps ++ rest)) (is_ok r).
Proof.
  unfold Node.abortWorkloadsForNode. intros (ex & tr1 & tr2 & E & Hf & H)%runs_bind.
  destruct ex as [e|m].
  { exfalso. apply findWorkloads_calls in Hf as (e' & [->|[ros' ->]]).
    all: apply (f_equal (λ l, take 2 (lists_of l))) in E; cbn in E; congruence. }
  destruct (findWorkloads_answers _ _ _ _ _ _ _ E Hf) as [-> ->]. apply app_inv_head in E as ->.
  apply runs_bind in H as (es & tr3 & tr4 & -> & [-> Hes]%runs_map_range & H).
  apply runs_bind in H as (errs & tr5 & tr6 & -> & Hl & [-> ->]%runs_ret).
  eapply wp_runs in Hl; [|apply abort_loop_spec].
  destruct (proj2 Hl errs eq_refl) as (all & Ha & Herr).
  exists es.*2. split; [by rewrite Hes|]. rewrite app_nil_r !writes_app. cbn [writes mbind].
  subst all. by destruct errs.
Qed.
End collision.

(** C33. When a Rollout and a Deployment recorded for the node share their
    namespaced name, [workloadKey] does not tell them apart and the Rollout is
    lost: a node abort that lists both and succeeds patches a Deployment under that
    key but never the Rollout, whose drain is not undone although the pass
    reported no error. *)
Theorem found_workloads_collision {L : K8sLib} (node : string) (ros : list Rollout)
    (deps : list Deployment) (r : Rollout) (d : Deployment) rest res
    (Hrun : runs (Node.abortWorkloadsForNode node) (found_calls node ros deps ++ rest)
              (Returned (inr res)))
    (Hr : r ∈ ros) (Hd : d ∈ deps) (Hname : full_name (WRollout r) = full_name (WDeployment d)) :
  (∀ p ok, WWorkload KRollout (Namespace (ro_meta r)) (Name (ro_meta r)) p ok
             ∉ writes (found_calls node ros deps ++ rest))
  ∧ ∃ d', d' ∈ deps ∧ Node.key_of (WDeployment d') = Node.key_of (WRollout r)
      ∧ abort_write (WDeployment d') true ∈ writes (found_calls node ros deps ++ rest).
Proof.
  destruct (node_abort_answers _ _ _ _ _ Hrun) as (ws & Hws & Ha). injection Hname as Hns Hn.
  assert (Node.key_of (WRollout r) = Node.key_of (WDeployment d)) as Hkey
    by (unfold Node.key_of; cbn; by rewrite Hns Hn).
  destruct (found_deployment ros deps d Hd) as (d' & Hd' & Hk' & Hl). split.
  - intros p ok Hx. destruct (aborts_workload_write _ _ _ _ _ _ _ _ Ha Hx) as (w & Hw & Hk & Ens & En).
    rewrite Hws in Hw. apply list_elem_of_fmap in Hw as ([k w'] & -> & Hm%elem_of_map_to_list).
    cbn [snd] in *. pose proof (found_own_key _ _ _ _ Hm) as ->.
    assert (Node.key_of w' = Node.key_of (WDeployment d)) as E
      by (rewrite -Hkey; unfold Node.key_of; cbn; by rewrite -Ens -En).
    rewrite E Hl in Hm. injection Hm as <-. done.
  - exists d'. split; [done|]. split; [by rewrite Hk'|]. eapply aborts_patched; [done|].
    rewrite Hws. apply list_elem_of_fmap. eexists (_, _). split; [|by apply elem_of_map_to_list].
    done.
Qed.

(** The Rollout and the Deployment of the samples, both mid-drain for the node. *)
Definition twin_r : Rollout := web_ro (Some 2) (draining_annotations DrainStateReady) None.
Definition twin_c : cluster :=
  mkCluster [] [] [twin_r] [gone_w] [] [] [] t0 false false.

Lemma found_workloads_collision_witness :
  ∃ rest, trace_of gone_p twin_c = found_calls "node-1" [twin_r] [gone_w] ++ rest
    ∧ (∀ p ok, WWorkload KRollout "default" "web" p ok ∉ writes (trace_of gone_p twin_c)).
Proof.
  exists (drop 2 (trace_of gone_p twin_c)).
  assert (trace_of gone_p twin_c
          = found_calls "node-1" [twin_r] [gone_w] ++ drop 2 (trace_of gone_p twin_c)) as E.
  { rewrite -{1}(take_drop 2 (trace_of gone_p twin_c)). f_equal. }
  split; [exact E|]. rewrite E.
  apply (found_workloads_collision "node-1" [twin_r] [gone_w] twin_r gone_w _ no_requeue).
  - rewrite -E.
    assert (outcome_of gone_p twin_c = Returned (inr no_requeue)) as <- by (vm_compute; reflexivity).
    apply cluster_runs.
  - apply list_elem_of_here.
  - apply list_elem_of_here.
  - reflexivity.
Defined.

(** ** Orphan recovery *)

Section orphans.
Context {L : K8sLib} (cfg : Config).

(** A recorded drain whose node is not among the listed nodes with a drain taint. *)
Definition orphaned (nodes : list Node) (w : DrainableWorkload) : Prop :=
  Node.anno w AnnotationDrainNode ≠ ""
  ∧ ∀ n, n ∈ nodes → Name (node_meta n) = Node.anno w AnnotationDrainNode →
         Node.hasDrainTaint cfg n = false.

Lemma is_orphan_spec nodes w :
  Node.is_orphan (Node.taintedNodes cfg nodes) w = true ↔ orphaned nodes w.
Proof.
  unfold Node.is_orphan, orphaned. rewrite andb_true_iff !negb_true_iff String.eqb_neq.
  rewrite bool_decide_eq_false. unfold Node.taintedNodes. rewrite elem_of_list_to_set.
  rewrite list_elem_of_fmap. setoid_rewrite list_elem_of_In. setoid_rewrite filter_In.
  split; intros [Hne H]; (split; [done|]).
  - intros n Hn E. destruct (Node.hasDrainTaint cfg n) eqn:Et; [|done]. destruct H. exists n. auto.
  - intros (n & E & Hn & Et). specialize (H n Hn). rewrite -E in H. rewrite H in Et; done.
Qed.

(** One of the two recovery loops. *)
Lemma recovery_loop {T} {D : Drainable T} {DL : DrainableLaws T} (tainted : gset string)
    (l : list T) :
  wp (for_each (Node.recover_orphan tainted) l ()) (λ tr o, ¬ panicked o ∧ ∀ u, o = Returned u →
    ∃ all, aborts (List.filter (Node.is_orphan tainted) l) (writes tr) all).
Proof.
  apply (undo_loop GetObjectMeta abort_write Node.abortWorkload); [|done].
  apply abortWorkload_returned.
Qed.

(** A pass over the listed workloads that undoes the orphaned ones. *)
Definition recovery_post (nodes : list Node) (ws : list DrainableWorkload) (wr : list write) :
    Prop :=
  ∃ orphans all, (∀ w, w ∈ orphans ↔ w ∈ ws ∧ orphaned nodes w) ∧ orphans `sublist_of` ws
    ∧ aborts orphans wr all.

Lemma recovery_pass {A} (f : A → DrainableWorkload) (pick : A → bool) nodes (l : list A) wr all :
  (∀ x, pick x = Node.is_orphan (Node.taintedNodes cfg nodes) (f x)) →
  aborts (f <$> List.filter pick l) wr all → recovery_post nodes (f <$> l) wr.
Proof.
  intros Hpick Ha. eexists _, all. split; [|split; [|exact Ha]].
  - intros w. rewrite !list_elem_of_fmap. setoid_rewrite list_elem_of_In.
    setoid_rewrite filter_In. setoid_rewrite Hpick. setoid_rewrite is_orphan_spec. naive_solver.
  - apply fmap_sublist, filter_sublist.
Qed.

Lemma recovery_post_app nodes ws1 wr1 ws2 wr2 :
  recovery_post nodes ws1 wr1 → recovery_post nodes ws2 wr2 →
  recovery_post nodes (ws1 ++ ws2) (wr1 ++ wr2).
Proof.
  intros (o1 & b1 & H1 & S1 & A1) (o2 & b2 & H2 & S2 & A2).
  exists (o1 ++ o2), (b1 && b2). split_all; [|by apply sublist_app|by apply undoes_app].
  intros w. rewrite !elem_of_app H1 H2. tauto.
Qed.

Definition recovered (tr : list called) (o : outcome (error + unit)) : Prop :=
  ¬ panicked o ∧ (o = Returned (inr ()) →
    ∃ nodes ros deps, Called ListNodes (inr nodes) ∈ tr
      ∧ Called (ListRollouts None) (inr ros) ∈ tr ∧ Called (ListDeployments None) (inr deps) ∈ tr
      ∧ recovery_post nodes ((WRollout <$> ros) ++ (WDeployment <$> deps)) (writes tr)).

Lemma RecoverOrphans_spec : wp (Node.RecoverOrphans cfg) recovered.
Proof.
  unfold Node.RecoverOrphans.
  repeat wp_step; try (by split; [intros []|]).
  apply wp_bind. eapply wp_mono; [|apply recovery_loop].
  intros tr1 [[]|m|] [Hp Hr]; cbn [bind_post]; [|by destruct Hp|by split; [intros []|]].
  destruct (Hr () eq_refl) as [b1 Hb1].
  repeat wp_step; try (by split; [intros []|]).
  apply wp_bind. eapply wp_mono; [|apply recovery_loop].
  intros tr2 [[]|m|] [Hp2 Hr2]; cbn [bind_post wp]; [|by destruct Hp2|by split; [intros []|]].
  destruct (Hr2 () eq_refl) as [b2 Hb2].
  split; [by intros []|]. intros _. exists l, l0, l1.
  split_all; [set_solver..|].
  rewrite !writes_cons writes_app !writes_cons !app_nil_r /=.
  apply recovery_post_app.
  - eapply (recovery_pass WRollout); [done|]. by apply undoes_fmap.
  - eapply (recovery_pass WDeployment); [done|]. by apply undoes_fmap.
Qed.
End orphans.

(** C29. Orphan recovery after a restart is exact: when it succeeds, it undid (one
    restore if recorded and one patch each, in list order, whether or not earlier
    ones failed) precisely the listed Rollouts and Deployments that record a drain
    node which is not a listed node carrying a drain taint, and wrote nothing
    else. *)
Theorem RecoverOrphans_exact {L : K8sLib} (cfg : Config) tr
    (Hrun : runs (Node.RecoverOrphans cfg) tr (Returned (inr ()))) :
  ∃ nodes ros deps orphans all,
    Called ListNodes (inr nodes) ∈ tr
    ∧ Called (ListRollouts None) (inr ros) ∈ tr ∧ Called (ListDeployments None) (inr deps) ∈ tr
    ∧ (∀ w, w ∈ orphans ↔ w ∈ (WRollout <$> ros) ++ (WDeployment <$> deps) ∧ orphaned cfg nodes w)
    ∧ orphans `sublist_of` (WRollout <$> ros) ++ (WDeployment <$> deps)
    ∧ aborts orphans (writes tr) all.
Proof.
  eapply wp_runs in Hrun; [|apply RecoverOrphans_spec].
  destruct (proj2 Hrun eq_refl) as (nodes & ros & deps & H1 & H2 & H3 & orphans & all & H).
  exists nodes, ros, deps, orphans, all. tauto.
Qed.

(** The Deployment drained for a node that does not exist. *)
Definition orphan_w : Deployment :=
  web_dep (Some 2) (<[AnnotationDrainNode := "node-9"]> (draining_annotations DrainStateReady)).
Definition orphan_c : cluster := dep_cluster orphan_w [] [] t0.
Definition orphan_p : prog (error + unit) := Node.RecoverOrphans cfg.

Lemma RecoverOrphans_exact_witness :
  shape <$> writes (trace_of orphan_p orphan_c) = [inl (KDeployment, "default", "web", Some 1, true)]
  ∧ ∃ nodes ros deps orphans all,
      Called ListNodes (inr nodes) ∈ trace_of orphan_p orphan_c
      ∧ Called (ListRollouts None) (inr ros) ∈ trace_of orphan_p orphan_c
      ∧ Called (ListDeployments None) (inr deps) ∈ trace_of orphan_p orphan_c
      ∧ (∀ w, w ∈ orphans ↔
           w ∈ (WRollout <$> ros) ++ (WDeployment <$> deps) ∧ orphaned cfg nodes w)
      ∧ orphans `sublist_of` (WRollout <$> ros) ++ (WDeployment <$> deps)
      ∧ aborts orphans (writes (trace_of orphan_p orphan_c)) all.
Proof.
  split; [vm_compute; reflexivity|].
  apply (RecoverOrphans_exact cfg (trace_of orphan_p orphan_c)).
  assert (outcome_of orphan_p orphan_c = Returned (inr ())) as <- by (vm_compute; reflexivity).
  apply cluster_runs.
Defined.
