(* ===== verification/NodeReconcile.v ===== *)
(** * [NodeReconciler.Reconcile]: what a whole pass may touch

    Every write of a pass is on a workload the pass itself read, and that is
    opted in, mid-drain, or recorded for the node; and a pass never panics. *)

From stdpp Require Import pretty.
From S2P Require Import Prelude GoStd GoTime K8s Effects Loops Config State Workload Scaler.
From S2P Require Import RestartDetect NodeController RolloutController NodeSpec NodeSound.
From S2P Require Import Cluster Samples LookupProps NodeProps NodeLoops.

Local Open Scope Z_scope.

Section touch.
Context {L : K8sLib} (cfg : Config).

(** A write on the workload [w] or on an autoscaler of its namespace. *)
Definition targets {T} {D : Drainable T} (w : T) (x : write) : Prop :=
  match x with
  | WWorkload k ns n _ _ => k = workload_kind w ∧ ns = Namespace (GetObjectMeta w)
                            ∧ n = Name (GetObjectMeta w)
  | WHPA ns _ _ _ => ns = Namespace (GetObjectMeta w)
  end.

(** The pass read the workload, by name or in a list. *)
Definition observed (tr : list called) (w : DrainableWorkload) : Prop :=
  match w with
  | WRollout r => (∃ ns n, Called (GetRollout ns n) (inr r) ∈ tr)
                  ∨ ∃ sel ros, Called (ListRollouts sel) (inr ros) ∈ tr ∧ r ∈ ros
  | WDeployment d => (∃ ns n, Called (GetDeployment ns n) (inr d) ∈ tr)
                     ∨ ∃ sel deps, Called (ListDeployments sel) (inr deps) ∈ tr ∧ d ∈ deps
  end.

(** The pass found the workload recorded for the node. *)
Definition recorded (node : string) (tr : list called) (w : DrainableWorkload) : Prop :=
  match w with
  | WRollout r => ∃ ros, Called (ListRollouts (Some node)) (inr ros) ∈ tr ∧ r ∈ ros
  | WDeployment d => ∃ deps, Called (ListDeployments (Some node)) (inr deps) ∈ tr ∧ d ∈ deps
  end.

Lemma observed_app tr tr' w : observed tr w ∨ observed tr' w → observed (tr ++ tr') w.
Proof. destruct w; unfold observed; set_solver. Qed.

Lemma recorded_app node tr tr' w : recorded node tr w → recorded node (tr ++ tr') w.
Proof. destruct w; unfold recorded; set_solver. Qed.

Lemma recorded_observed node tr w : recorded node tr w → observed tr w.
Proof. destruct w; unfold recorded, observed; naive_solver. Qed.

Lemma restore_targets {T} {D : Drainable T} (w : T) ok :
  Forall (targets w) (restore_writes (GetObjectMeta w) ok).
Proof. unfold restore_writes. destruct (restore_target _) as [[]|]; by repeat constructor. Qed.

Lemma wl_write_targets {T} {D : Drainable T} (w : T) r a ok : targets w (wl_write w r a ok).
Proof. done. Qed.

Lemma undo_targets {T} {D : Drainable T} (w : T) ws o :
  abort_effect w ws o → Forall (targets w) ws.
Proof.
  intros []; [constructor|apply restore_targets|].
  apply Forall_app; split; [apply restore_targets|by repeat constructor].
Qed.

(** The writes of a reconcile of [w] are on [w]. *)
Lemma effect_targets {T} {D : Drainable T} (w : T) node tr o :
  drain_effect cfg w node tr o → Forall (targets w) (writes tr).
Proof.
  intros []; match goal with H : writes tr = _ |- _ => rewrite H end; [constructor|..].
  2: { constructor; [done|]. match goal with H : _ ∨ _ |- _ => destruct H as [->|(_ & okh & ->)] end;
         by repeat constructor. }
  all: try (by repeat constructor).
  - apply restore_targets.
  - apply Forall_app; split; [apply restore_targets|by repeat constructor].
  - apply Forall_app; split; [|by eapply undo_targets].
    destruct_or!; subst; [constructor|apply restore_targets].
Qed.

(** A workload with no drain state is only touched when it is opted in. *)
Lemma effect_opted_in {T} {D : Drainable T} (w : T) node tr o x :
  drain_effect cfg w node tr o → x ∈ writes tr →
  Node.anno w (EnabledAnnotation cfg) = "true" ∨ Node.anno w AnnotationDrainState ≠ "".
Proof.
  intros Heff Hx. destruct (decide (Node.anno w AnnotationDrainState = "")) as [Hs|]; [|by right].
  left. destruct (effect_start cfg w node tr o) as [He _]; [done..| |by apply start_enabled in He].
  intros E. rewrite E in Hx. by apply not_elem_of_nil in Hx.
Qed.
End touch.

(** ** A pass over a node that is being drained *)

Section pass.
Context {L : K8sLib} (cfg : Config).

(** Collecting the workloads of the pods only reads. *)
Definition collected (pod : Pod) (tr : list called) (m m' : gmap string DrainableWorkload) : Prop :=
  m' = m ∨ ∃ w, m' = <[Node.key_of w := w]> m ∧ observed tr w.

Lemma chain_owner_observed pod w tr : owner_chain pod w tr → observed tr w.
Proof.
  intros (pref & rs & ref & _ & _ & _ & _ & _ & Hr). destruct w; unfold owner_read in Hr; naive_solver.
Qed.

Definition reads_only {A} (tr : list called) (o : outcome A) : Prop := writes tr = [] ∧ ¬ panicked o.

Lemma collect_workload_spec pod m :
  wp (Node.collect_workload pod m) (λ tr o, reads_only tr o ∧
    ∀ m', o = Returned m' → collected pod tr m m').
Proof.
  unfold Node.collect_workload.
  destruct (Node.skip_pod pod); [split; [by split; [|intros []]|intros m' [= <-]; by left]|].
  apply wp_bind.
  eapply wp_mono; [|apply wp_conj; [apply ResolveWorkloadFromPod_reads|apply resolve_chain]].
  intros tr [[e|[w|]]|msg|] [[Hw Hp] Hc]; cbn [bind_post];
    [| | |by destruct (Hp msg)|by split; [split; [|intros []]|]].
  1, 3: cbn; split; [split; [by rewrite app_nil_r|by intros []]|intros m' [= <-]; by left].
  destruct (m !! Node.key_of w); cbn; (split; [split; [by rewrite app_nil_r|by intros []]|]).
  all: intros m' [= <-]; try by left.
  right. exists w. split; [done|]. rewrite app_nil_r. by eapply chain_owner_observed, Hc.
Qed.

Lemma collect_loop_spec pods :
  wp (for_each Node.collect_workload pods ∅) (λ tr o, reads_only tr o ∧
    ∀ m k w, o = Returned m → m !! k = Some w → observed tr w).
Proof.
  eapply wp_mono; [|apply wp_conj; [apply (wp_for_each_chain collected)|
    apply (wp_for_each Node.collect_workload (λ _, True) (λ tr, writes tr = []))]].
  - intros tr o [[Hp Hc] [Hw _]]. split; [done|]. intros m k w Ho Hk.
    revert k w Hk.
    refine (chain_invariant collected (λ tr m, ∀ k w, m !! k = Some w → observed tr w)
              pods tr ∅ m _ (Hc m Ho) [] _); [|by intros k' w' ?%lookup_empty_Some].
    intros x pre tr1 s s' Hpre Hx k' w' Hk'. apply observed_app.
    destruct Hx as [->|(w1 & -> & Ho1)]; [left; by eapply Hpre|].
    apply lookup_insert_Some in Hk' as [[_ <-]|[_ Hk']]; [by right|left; by eapply Hpre].
  - intros x s _. eapply wp_mono; [|apply collect_workload_spec]. by intros tr o [[? ?] ?].
  - done.
  - intros t1 t2 H1 H2. by rewrite writes_app H1 H2.
  - intros x s _ _. eapply wp_mono; [|apply collect_workload_spec].
    intros tr [] [[Hw Hp] _]; [done|by destruct Hp|done].
  - done.
Qed.

Lemma index_elem ws (m : gmap string DrainableWorkload) k w :
  Node.index_workloads ws m !! k = Some w → w ∈ ws ∨ m !! k = Some w.
Proof.
  revert m. induction ws as [|x ws IH]; intros m H; [by right|]. simpl in H.
  apply IH in H as [H|[[_ <-]|[_ H]]%lookup_insert_Some]; [left; set_solver| |by right].
  left. apply list_elem_of_here.
Qed.

Lemma found_elem ros deps k w : found_workloads ros deps !! k = Some w →
  (∃ r, w = WRollout r ∧ r ∈ ros) ∨ (∃ d, w = WDeployment d ∧ d ∈ deps).
Proof.
  unfold found_workloads.
  intros [H|[H|H]%index_elem]%index_elem; [..|by apply lookup_empty_Some in H].
  all: apply list_elem_of_fmap in H as (x & -> & Hx); eauto.
Qed.

Lemma found_recorded node ros deps tr k w :
  Called (ListRollouts (Some node)) (inr ros) ∈ tr →
  Called (ListDeployments (Some node)) (inr deps) ∈ tr →
  found_workloads ros deps !! k = Some w → recorded node tr w.
Proof. intros Hros Hdeps [(x & -> & Hx)|(x & -> & Hx)]%found_elem; cbn; eauto. Qed.

(** Why a workload of a list may be touched. *)
Definition touch_ok (why : DrainableWorkload → Prop) (ws : list DrainableWorkload) (x : write) :
    Prop := ∃ w, w ∈ ws ∧ targets w x ∧ why w.

Definition opted_in (w : DrainableWorkload) : Prop :=
  Node.anno w (EnabledAnnotation cfg) = "true" ∨ Node.anno w AnnotationDrainState ≠ "".

(** A loop over workloads each of whose iterations touches only its own. *)
Lemma touching_loop {S} (body : string * DrainableWorkload → S → prog S) why entries s :
  (∀ x s, x ∈ entries → wp (body x s) (λ tr o, ¬ panicked o ∧
     Forall (λ y, targets x.2 y ∧ why x.2) (writes tr))) →
  wp (for_each body entries s) (λ tr o, ¬ panicked o ∧
    Forall (touch_ok why entries.*2) (writes tr)).
Proof.
  intros Hbody. eapply wp_mono;
    [|apply (wp_for_each body (λ _, True) (λ tr, Forall (touch_ok why entries.*2) (writes tr)))].
  - intros tr [] [HF Hp]; (split; [|done]); by intros [].
  - constructor.
  - intros t1 t2 H1 H2. rewrite writes_app. by apply Forall_app.
  - intros x s0 Hx _. eapply wp_mono; [|by apply Hbody].
    intros tr o [Hp HF]. split; [|by destruct o; [| |done]; [done|by destruct Hp]].
    eapply Forall_impl; [exact HF|]. intros y [Ht Hw]. exists x.2.
    split; [by apply list_elem_of_fmap_2|done].
  - done.
Qed.

Lemma reconcile_body_spec node (x : string * DrainableWorkload) (requeueAfter : Duration) :
  wp (bind (Node.reconcileWorkload cfg x.2 node) (λ result,
        Ret (match result with
             | inl _ => requeueAfter
             | inr res => Node.min_requeue requeueAfter (RequeueAfter res)
             end)))
    (λ tr o, ¬ panicked o ∧ Forall (λ y, targets x.2 y ∧ opted_in x.2) (writes tr)).
Proof.
  apply wp_bind. eapply wp_mono; [|apply (reconcileWorkload_effect cfg x.2 node)].
  intros tr o [Hp He].
  assert (Forall (λ y, targets x.2 y ∧ opted_in x.2) (writes tr)) as HF.
  { pose proof (effect_targets cfg _ _ _ _ He) as Ht. rewrite Forall_forall in Ht.
    apply Forall_forall. intros y Hy. split; [by apply Ht|]. by eapply effect_opted_in. }
  destruct o; cbn; [|by destruct Hp|done].
  rewrite app_nil_r. split; [by intros []|done].
Qed.

Lemma abort_body_spec (x : string * DrainableWorkload) errs :
  wp (bind (Node.abortWorkload x.2) (λ r, Ret (collect_err errs r)))
    (λ tr o, ¬ panicked o ∧ Forall (λ y, targets x.2 y ∧ True) (writes tr)).
Proof.
  apply wp_bind. eapply wp_mono; [|apply abortWorkload_effect]. intros tr o [Hp He].
  apply undo_targets in He.
  assert (Forall (λ y, targets x.2 y ∧ True) (writes tr)) as HF
    by (eapply Forall_impl; [exact He|]; tauto).
  destruct o; cbn; [|by destruct Hp|done].
  rewrite app_nil_r. split; [by intros []|done].
Qed.
End pass.

(** ** The whole pass *)

Section reconcile.
Context {L : K8sLib} (cfg : Config).

(** Every write is on a workload that was read, and is opted in, mid-drain, or
    recorded for a node. *)
Definition pass_ok (tr : list called) (o : outcome (error + Result)) : Prop :=
  ¬ panicked o ∧ ∀ x, x ∈ writes tr →
    ∃ w, observed tr w ∧ targets w x
         ∧ (opted_in cfg w ∨ ∃ node, recorded node tr w).

Lemma pass_ok_reads tr o : writes tr = [] → ¬ panicked o → pass_ok tr o.
Proof. intros Hw Hp. split; [done|]. rewrite Hw. intros x []%not_elem_of_nil. Qed.

Lemma pass_ok_app pre tr o : writes pre = [] → pass_ok tr o → pass_ok (pre ++ tr) o.
Proof.
  intros Hw [Hp H]. split; [done|]. rewrite writes_app Hw. intros x Hx.
  destruct (H x Hx) as (w & Ho & Ht & Hwhy). exists w.
  split; [apply observed_app; by right|]. split; [done|].
  destruct Hwhy as [|[node Hr]]; [by left|]. right. exists node.
  destruct w; unfold recorded in *; set_solver.
Qed.

(** The last loop of a pass, after the reads [pre] that found its workloads. *)
Lemma pass_ok_touch pre tr o ws why :
  writes pre = [] → ¬ panicked o → Forall (touch_ok why ws) (writes tr) →
  (∀ w, w ∈ ws → observed pre w) →
  (∀ w, w ∈ ws → why w → opted_in cfg w ∨ ∃ node, recorded node pre w) →
  pass_ok (pre ++ tr) o.
Proof.
  intros Hw Hp HF Hobs Hwhy. split; [done|]. rewrite writes_app Hw. intros x Hx.
  rewrite Forall_forall in HF. destruct (HF x Hx) as (w & Hin & Ht & Hy).
  exists w. split; [apply observed_app; left; by apply Hobs|]. split; [done|].
  destruct (Hwhy w Hin Hy) as [|[node Hr]]; [by left|]. right. exists node. by apply recorded_app.
Qed.

Lemma values_elem {A} (m : gmap string A) es (w : A) :
  es ≡ₚ (map_to_list m).*2 → w ∈ es → ∃ k, m !! k = Some w.
Proof.
  intros -> ([k w'] & -> & Hk)%list_elem_of_fmap. exists k. by apply elem_of_map_to_list in Hk.
Qed.

Lemma abort_pass_ok node : wp (Node.abortWorkloadsForNode node) pass_ok.
Proof.
  unfold Node.abortWorkloadsForNode. apply wp_bind.
  eapply wp_mono; [|apply findWorkloads_spec].
  intros tr [[e|m]|msg|] (Hw & Hp & Hfound); cbn [bind_post wp];
    [apply pass_ok_reads; [by rewrite app_nil_r|by intros []]| |by destruct Hp
    |by apply pass_ok_reads].
  destruct (Hfound m eq_refl) as (ros & deps & Hros & Hdeps & ->).
  apply wp_bind. eapply wp_mono; [|apply map_range_spec].
  intros tr1 [entries|msg|] (Hw1 & Hp1 & Hperm); cbn [bind_post];
    [|by destruct Hp1|apply pass_ok_reads; [by rewrite writes_app Hw Hw1|by intros []]].
  specialize (Hperm entries eq_refl).
  apply wp_bind. eapply wp_mono; [|apply (touching_loop _ (λ _, True) entries []);
    intros x s _; apply abort_body_spec].
  intros tr2 o [Hp2 HF].
  assert (∀ w, w ∈ entries.*2 → recorded node (tr ++ tr1) w) as Hrec.
  { intros w Hin. destruct (values_elem _ _ w Hperm Hin) as [k Hk].
    apply recorded_app. by eapply found_recorded. }
  assert (∀ o' : outcome (error + Result), ¬ panicked o' → pass_ok (tr ++ tr1 ++ tr2) o') as Hok.
  { intros o' Ho'. rewrite app_assoc. eapply pass_ok_touch; [|done|exact HF|..].
    - by rewrite writes_app Hw Hw1.
    - intros w Hin. by eapply recorded_observed, Hrec.
    - intros w Hin _. right. exists node. by apply Hrec. }
  destruct o; cbn; [rewrite app_nil_r; apply Hok; by intros []|by destruct Hp2|by apply Hok].
Qed.

(** The reconcile loop over the workloads found, after the reads [pre]. *)
Lemma tainted_pass_ok node (m : gmap string DrainableWorkload) pre :
  writes pre = [] → (∀ k w, m !! k = Some w → observed pre w) →
  wp (bind (map_range m) (λ entries,
        bind (for_each (λ kw requeueAfter,
                bind (Node.reconcileWorkload cfg kw.2 node) (λ result,
                  Ret (match result with
                       | inl _ => requeueAfter
                       | inr res => Node.min_requeue requeueAfter (RequeueAfter res)
                       end))) entries 0)
          (λ requeueAfter, Ret (inr (if 0 <? requeueAfter then mkResult requeueAfter
                                     else no_requeue)))))
    (λ tr o, pass_ok (pre ++ tr) o).
Proof.
  intros Hpre Hobs. apply wp_bind. eapply wp_mono; [|apply map_range_spec].
  intros tr1 [entries|msg|] (Hw1 & Hp1 & Hperm); cbn [bind_post];
    [|by destruct Hp1|apply pass_ok_reads; [by rewrite writes_app Hpre Hw1|by intros []]].
  specialize (Hperm entries eq_refl).
  apply wp_bind. eapply wp_mono; [|apply (touching_loop _ (opted_in cfg) entries 0);
    intros x s _; apply reconcile_body_spec].
  intros tr2 o [Hp2 HF].
  assert (∀ o' : outcome (error + Result), ¬ panicked o' → pass_ok (pre ++ tr1 ++ tr2) o') as Hok.
  { intros o' Ho'. rewrite app_assoc. eapply pass_ok_touch; [|done|exact HF|..].
    - by rewrite writes_app Hpre Hw1.
    - intros w Hin. destruct (values_elem _ _ w Hperm Hin) as [k Hk].
      apply observed_app. left. by eapply Hobs.
    - intros w _ Hw. by left. }
  destruct o; cbn; [rewrite app_nil_r; apply Hok; by intros []|by destruct Hp2|by apply Hok].
Qed.

Lemma merged_observed (m existing : gmap string DrainableWorkload) tr tr' :
  (∀ k w, m !! k = Some w → observed tr w) →
  (∀ k w, existing !! k = Some w → observed tr' w) →
  ∀ k w, (m ∪ existing) !! k = Some w → observed (tr ++ tr') w.
Proof.
  intros H1 H2 k w Hk. apply observed_app.
  apply lookup_union_Some_raw in Hk as [Hk|[_ Hk]]; [left; by eapply H1|right; by eapply H2].
Qed.

Lemma Reconcile_pass_ok name : wp (Node.Reconcile cfg name) pass_ok.
Proof.
  unfold Node.Reconcile. cbn [bind call wp legal]. split; [apply pass_ok_reads; [done|by intros []]|].
  intros [err|node] _; cbn [bind].
  { destruct (IsNotFound err); [|apply pass_ok_reads; [done|by intros []]].
    eapply wp_mono; [|apply abort_pass_ok]. intros tr o. by apply (pass_ok_app [_]). }
  destruct (negb _).
  { eapply wp_mono; [|apply abort_pass_ok]. intros tr o. by apply (pass_ok_app [_]). }
  repeat wp_step; try (apply pass_ok_reads; [done|by intros []]).
  apply wp_bind. eapply wp_mono; [|apply collect_loop_spec].
  intros tr1 [m|msg|] [[Hw1 Hp1] Hobs]; cbn [bind_post];
    [|by destruct Hp1|apply pass_ok_reads; [done|by intros []]].
  apply wp_bind. eapply wp_mono; [|apply findWorkloads_spec].
  intros tr2 [ex|msg|] (Hw2 & Hp2 & Hfound); cbn [bind_post];
    [|by destruct Hp2|apply pass_ok_reads; [by rewrite !writes_cons /= writes_app Hw1 Hw2|by intros []]].
  set (ws := match ex with inl _ => m | inr existing => m ∪ existing end).
  assert (∀ k w, ws !! k = Some w → observed (tr1 ++ tr2) w) as Hws.
  { destruct ex as [e|existing]; intros k w Hk.
    - apply observed_app. left. by eapply Hobs.
    - destruct (Hfound existing eq_refl) as (ros & deps & Hr & Hd & ->).
      eapply merged_observed; [..|exact Hk]; [by intros k' w' ?; eapply Hobs|].
      intros k' w' Hk'. eapply recorded_observed. by eapply found_recorded. }
  case_decide.
  { apply pass_ok_reads; [by rewrite !writes_cons /= !writes_app Hw1 Hw2|by intros []]. }
  eapply wp_mono; [|apply (tainted_pass_ok _ ws (Called (GetNode name) (inr node)
    :: Called (ListPodsOnNode (Name (node_meta node))) (inr l) :: tr1 ++ tr2))].
  - intros tr o. by rewrite /= -app_assoc.
  - by rewrite !writes_cons /= writes_app Hw1 Hw2.
  - intros k w Hk. apply (observed_app [_; _]). right. by eapply Hws.
Qed.
End reconcile.

(** C10. A whole reconcile of a node, in every environment, touches only what it
    may: it never panics, and every write it attempts is on a workload (or an
    autoscaler in that workload's namespace) that this very pass read from the
    server, and that workload is opted in by the annotation, or carries a drain
    state already, or was listed as recorded for the node that lost its taint. *)
Theorem Reconcile_touches_only {L : K8sLib} (cfg : Config) (name : string) tr o
    (Hrun : runs (Node.Reconcile cfg name) tr o) :
  ¬ panicked o ∧ ∀ x, x ∈ writes tr →
    ∃ w, observed tr w ∧ targets w x
         ∧ (opted_in cfg w ∨ ∃ node, recorded node tr w).
Proof. eapply wp_runs in Hrun; [exact Hrun|apply Reconcile_pass_ok]. Qed.

Definition pass_p : prog (error + Result) := Node.Reconcile cfg "node-1".

Lemma Reconcile_touches_only_witness :
  ∃ x, writes (trace_of pass_p sample_c) = [x]
    ∧ ∃ w, observed (trace_of pass_p sample_c) w ∧ targets w x
         ∧ (opted_in cfg w ∨ ∃ node, recorded node (trace_of pass_p sample_c) w).
Proof.
  destruct (shape_workload (writes (trace_of pass_p sample_c)) KDeployment "default" "web"
              (Some 2) true) as (p & Hw & _); [vm_compute; reflexivity|].
  eexists. split; [exact Hw|].
  apply (proj2 (Reconcile_touches_only cfg "node-1" (trace_of pass_p sample_c)
           (outcome_of pass_p sample_c) (cluster_runs pass_p sample_c))).
  rewrite Hw. apply list_elem_of_here.
Defined.
