(* ===== verification/NodeRequeue.v ===== *)
(** * Requeueing: no drain is forgotten

    What delay a reconcile asks for: a drain in progress on the node is always
    looked at again after the requeue interval, unless the reconcile ended it.
    The lemmas on the least delay serve the passes of [NodeVisits]. *)

From stdpp Require Import pretty.
From S2P Require Import Prelude GoStd GoTime K8s Effects Loops Config State Workload Scaler.
From S2P Require Import RestartDetect NodeController RolloutController NodeSpec NodeSound.
From S2P Require Import Cluster Samples LookupProps NodeProps NodeLoops NodeReconcile.

Local Open Scope Z_scope.

(** ** One workload *)

Section delay.
Context {L : K8sLib} (cfg : Config) {T : Type} {D : Drainable T} {DL : DrainableLaws T}.

Abbreviation meta w := (GetObjectMeta w).
Abbreviation annos w := (Annotations (GetObjectMeta w)).

(** The last write is a successful patch that deletes the owned annotations. *)
Definition ended (w : T) (tr : list called) : Prop :=
  ∃ pre r, writes tr = pre ++ [wl_write w r (clearDrainAnnotations (annos w)) true].

(** What a returning reconcile of [w] asks for. *)
Definition delay_post (w : T) (node : string) (tr : list called) (o : outcome (error + Result)) :
    Prop :=
  ∀ res, o = Returned (inr res) →
    res = mkResult (RequeueInterval cfg)
    ∨ (res = mkResult (250 * Millisecond) ∧ Node.anno w AnnotationDrainState = "")
    ∨ (res = no_requeue ∧ (Node.anno w AnnotationDrainState = "" ∨ ¬ on_node w node ∨ ended w tr)).

Lemma delay_interval (w : T) node tr : delay_post w node tr
  (Returned (inr (mkResult (RequeueInterval cfg)))).
Proof. intros res [= <-]. by left. Qed.

Lemma delay_prefix (w : T) node pre tr o :
  delay_post w node tr o → delay_post w node (pre ++ tr) o.
Proof.
  intros H res Ho. destruct (H res Ho) as [|[|[-> Hwhy]]]; [by left|by right; left|].
  do 2 right. split; [done|]. destruct Hwhy as [|[|(p & r & Hw)]]; [by left|by right; left|].
  do 2 right. exists (writes pre ++ p), r. by rewrite writes_app Hw app_assoc.
Qed.

Lemma delay_abort (w : T) node : wp (Node.abortWorkload w) (delay_post w node).
Proof.
  assert (wp (Node.abortWorkload w) (λ tr o, ∀ res, o = Returned (inr res) → res = no_requeue))
    as Hnone.
  { unfold Node.abortWorkload. apply wp_bind. eapply wp_mono; [|apply restoreHPA_effect].
    intros tr [r|m|] _; cbn [bind_post]; [|done..]. repeat wp_step; congruence. }
  eapply wp_mono; [|apply wp_conj; [apply abortWorkload_returned|exact Hnone]].
  intros tr o [[_ H] Hres] res ->. destruct (H _ eq_refl) as [okh Hw].
  specialize (Hres res eq_refl). subst res. do 2 right. split; [done|]. do 2 right.
  by exists (restore_writes (meta w) okh), (abort_replicas w).
Qed.

Lemma delay_pending (w : T) node : Node.anno w AnnotationDrainState = "" →
  wp (Node.handlePending cfg w node) (delay_post w node).
Proof.
  intros Hs. unfold Node.handlePending, Node.ensure_annotations.
  destruct (annos w) as [m|] eqn:Ea.
  all: repeat wp_step; intros res [= <-]; try (by left); try (by right; left).
  all: do 2 right; split; [done|by left].
Qed.

Lemma delay_scaleUp (w : T) node m : annos w = Some m →
  wp (Node.handleScaleUp cfg w node) (delay_post w node).
Proof.
  intros Ea. unfold Node.handleScaleUp.
  destruct (getOriginalReplicas (annos w)) as [e|original]; [apply delay_abort|].
  repeat wp_step; try apply delay_interval; by intros res [= <-].
Qed.

Lemma delay_waitReady (w : T) node m : annos w = Some m →
  wp (Node.handleWaitReady cfg w node) (delay_post w node).
Proof.
  intros Ea. unfold Node.handleWaitReady, Node.waitReady_pods.
  destruct (String.eqb (Node.anno w AnnotationHPAName) "").
  1: destruct (getOriginalReplicas (annos w)) as [e|original]; [apply delay_abort|].
  all: repeat wp_step; try apply delay_interval; by intros res [= <-].
Qed.

Lemma delay_waitEviction (w : T) node m : annos w = Some m →
  wp (Node.handleWaitEviction cfg w node) (delay_post w node).
Proof.
  intros Ea. unfold Node.handleWaitEviction.
  repeat wp_step; try apply delay_interval; try by intros res [= <-].
  apply wp_bind, wp_bind. eapply wp_mono; [|apply restoreHPA_effect].
  intros tr [[e|[]]|msg|] Hr; cbn [bind_post wp wrap_err]; try by intros res [= <-].
  destruct (getOriginalReplicas (annos w)) as [e|original].
  - eapply wp_mono; [|apply (delay_abort w node)]. intros tr' o.
    rewrite app_nil_r. by apply (delay_prefix w node (_ :: tr)).
  - destruct (String.eqb _ ""); repeat wp_step; try apply delay_interval;
      by intros res [= <-].
Qed.

Lemma delay_scaleDown (w : T) node m : annos w = Some m →
  wp (Node.handleScaleDown cfg w) (delay_post w node).
Proof.
  intros Ea. unfold Node.handleScaleDown.
  destruct (getOriginalReplicas (annos w)) as [e|original]; [apply delay_abort|].
  destruct (_ && _); repeat wp_step; try apply delay_interval; by intros res [= <-].
Qed.

Lemma delay_cleanup (w : T) node : wp (Node.handleCleanup w) (delay_post w node).
Proof.
  unfold Node.handleCleanup. repeat wp_step; intros res [= <-].
  do 2 right. split; [done|]. do 2 right. exists [], (spec_Replicas w). solve_writes.
Qed.

Lemma reconcile_state_delay (w : T) node :
  wp (Node.reconcile_state cfg w node (Node.anno w AnnotationDrainState)) (delay_post w node).
Proof.
  unfold Node.reconcile_state. set (s := Node.anno w AnnotationDrainState).
  destruct (decide (s = "")) as [Hs|Hs].
  - change (Node.anno w AnnotationDrainState) with s. rewrite Hs /=.
    apply wp_bind. eapply wp_mono; [|by apply shouldProcess_effect].
    intros tr [[|]|m|] _; cbn [bind_post negb]; [|..|by intros res [=]|by intros res [=]].
    + eapply wp_mono; [|by apply delay_pending]. intros tr' o. apply delay_prefix.
    + intros res [= <-]. do 2 right. split; [done|by left].
  - rewrite (proj2 (String.eqb_neq s DrainStateNone) Hs) ?(proj2 (String.eqb_neq s "") Hs) /=.
    destruct (anno_some w AnnotationDrainState Hs) as [m Ea].
    destruct (negb _) eqn:Ego.
    { intros res [= <-]. do 2 right. split; [done|right; left]. unfold on_node.
      destruct (String.eqb_spec (Node.anno w AnnotationDrainNode) ""); [done|].
      by destruct (String.eqb_spec (Node.anno w AnnotationDrainNode) node) as [|]; [|intros []]. }
    repeat (match goal with |- wp (if String.eqb s ?k then _ else _) _ =>
              destruct (String.eqb s k) end);
      eauto using delay_scaleUp, delay_waitReady, delay_waitEviction, delay_scaleDown,
        delay_cleanup, delay_abort.
Qed.

Lemma reconcileWorkload_delay (w : T) node :
  wp (Node.reconcileWorkload cfg w node) (delay_post w node).
Proof.
  unfold Node.reconcileWorkload.
  destruct (if Node.isActive _ then _ else _) as [start|]; [|apply reconcile_state_delay].
  repeat wp_step; try by intros res [= <-].
  - eapply wp_mono; [|apply delay_abort]. intros tr o. by apply (delay_prefix w node [_; _]).
  - eapply wp_mono; [|apply delay_abort]. intros tr o. by apply (delay_prefix w node [_; _]).
  - eapply wp_mono; [|apply reconcile_state_delay]. intros tr o. by apply (delay_prefix w node [_]).
Qed.
End delay.

(** C9. No drain is forgotten: a reconcile that succeeds on a workload whose drain
    is in progress and belongs to this node (or to none) either asks to be called
    again after the requeue interval, or its last write successfully deleted all
    the owned annotations, ending the drain. *)
Theorem drain_requeued {L : K8sLib} {T : Type} {D : Drainable T} {DL : DrainableLaws T}
    (cfg : Config) (w : T) (node : string) tr res
    (Hrun : runs (Node.reconcileWorkload cfg w node) tr (Returned (inr res)))
    (Hstate : Node.anno w AnnotationDrainState ≠ "") (Hnode : on_node w node) :
  RequeueAfter res = RequeueInterval cfg ∨ (RequeueAfter res = 0 ∧ ended w tr).
Proof.
  eapply wp_runs in Hrun; [|apply (reconcileWorkload_delay cfg w node)].
  destruct (Hrun res eq_refl) as [->|[[_ ?]|[-> [?|[?|?]]]]]; [by left|done..|by right].
Qed.

Lemma drain_requeued_witness :
  RequeueAfter (mkResult (5 * Second)) = RequeueInterval cfg
  ∨ (RequeueAfter (mkResult (5 * Second)) = 0 ∧ ended reset_w (trace_of reset_p reset_c)).
Proof.
  apply (drain_requeued cfg reset_w "node-1" (trace_of reset_p reset_c)).
  - assert (outcome_of reset_p reset_c = Returned (inr (mkResult (5 * Second)))) as <-
      by (vm_compute; reflexivity).
    apply cluster_runs.
  - intros H. vm_compute in H. discriminate H.
  - right. vm_compute. reflexivity.
Defined.

(** ** The least delay *)

Lemma min_requeue_spec a r : 0 ≤ a → 0 ≤ r →
  Node.min_requeue a r = if a =? 0 then r else if r =? 0 then a else Z.min a r.
Proof.
  intros Ha Hr. unfold Node.min_requeue.
  destruct (Z.ltb_spec 0 r), (Z.eqb_spec a 0), (Z.eqb_spec r 0), (Z.ltb_spec r a); simpl; lia.
Qed.

(** Case analysis on the innermost integer comparisons of the goal. *)
Ltac zcases := repeat (cbn [andb orb]; match goal with
  | |- context [?x <? ?y] =>
      lazymatch constr:((x, y)) with
      | context [match _ with _ => _ end] => fail
      | _ => destruct (Z.ltb_spec x y)
      end
  | |- context [?x =? ?y] =>
      lazymatch constr:((x, y)) with
      | context [match _ with _ => _ end] => fail
      | _ => destruct (Z.eqb_spec x y)
      end
  end); cbn [andb orb].

Lemma min_requeue_comm a b c : 0 ≤ a → 0 ≤ b → 0 ≤ c →
  Node.min_requeue (Node.min_requeue a b) c = Node.min_requeue (Node.min_requeue a c) b.
Proof. intros Ha Hb Hc. unfold Node.min_requeue. zcases; lia. Qed.

Lemma min_requeue_choice a d : Node.min_requeue a d = a ∨ Node.min_requeue a d = d.
Proof. unfold Node.min_requeue. zcases; auto. Qed.

Definition requeue_of (ds : list Duration) : Duration := foldl Node.min_requeue 0 ds.

Lemma foldl_min_requeue_spec ds a : 0 ≤ a → Forall (λ d, 0 ≤ d) ds →
  let r := foldl Node.min_requeue a ds in
  0 ≤ r ∧ (r = 0 ↔ a = 0 ∧ Forall (λ d, d = 0) ds)
  ∧ (0 < r → r ∈ a :: ds ∧ ∀ d, d ∈ a :: ds → 0 < d → r ≤ d).
Proof.
  revert a. induction ds as [|d ds IH]; intros a Ha Hds; cbn.
  { split_all; [done|naive_solver|]. intros Hr. split; [apply list_elem_of_here|].
    by intros d ->%list_elem_of_singleton. }
  apply Forall_cons in Hds as [Hd Hds].
  assert (0 ≤ Node.min_requeue a d) as Hm by (unfold Node.min_requeue; zcases; lia).
  destruct (IH _ Hm Hds) as (H0 & Hz & Hl). split; [done|]. split.
  - rewrite Hz Forall_cons. unfold Node.min_requeue. zcases; naive_solver lia.
  - intros Hr. destruct (Hl Hr) as [Hin Hle]. split.
    + apply elem_of_cons in Hin as [E|Hin]; [|by do 2 apply list_elem_of_further]. rewrite E.
      destruct (min_requeue_choice a d) as [-> | ->];
        [apply list_elem_of_here|apply list_elem_of_further, list_elem_of_here].
    + intros x Hx Hpos.
      apply elem_of_cons in Hx as [Hx|[Hx|Hx]%elem_of_cons];
        [..|by apply Hle; [apply list_elem_of_further|]].
      all: assert (0 < Node.min_requeue a d ≤ x) as [Hmp Hmx]
        by (subst x; unfold Node.min_requeue; zcases; lia).
      all: etransitivity; [|exact Hmx]; by apply Hle; [apply list_elem_of_here|].
Qed.

Lemma requeue_permutation ds ds' a : 0 ≤ a → Forall (λ d, 0 ≤ d) ds → ds ≡ₚ ds' →
  foldl Node.min_requeue a ds = foldl Node.min_requeue a ds'.
Proof.
  intros Ha Hds Hp. revert a Ha. induction Hp as [|d ds ds' Hp IH|d1 d2 ds|ds1 ds2 ds3 Hp1 IH1 Hp2 IH2];
    intros a Ha; cbn; [done|..].
  - apply Forall_cons in Hds as [Hd Hds]. apply IH; [done|].
    unfold Node.min_requeue. zcases; lia.
  - apply Forall_cons in Hds as [Hd1 Hds]. apply Forall_cons in Hds as [Hd2 Hds].
    by rewrite min_requeue_comm.
  - rewrite IH1 //. apply IH2; [by rewrite -Hp1|done].
Qed.
