(* ===== verification/NodeVisits.v ===== *)
(** * A pass over a draining node, visit by visit

    [tainted_pass] takes the calls of a pass over a node that carries a drain taint
    apart, without remainder: the node and its pods are read, the owners of the
    pods are resolved, the recorded workloads are listed, and then the workloads
    found are reconciled one after the other.  A pass visits every workload found,
    each key once, and asks for the least delay of its visits, whatever order Go
    ranges over the map in. *)

From stdpp Require Import pretty.
From S2P Require Import Prelude GoStd GoTime K8s Effects Loops Config State Workload Scaler.
From S2P Require Import RestartDetect NodeController RolloutController NodeSpec NodeSound.
From S2P Require Import Cluster Samples LookupProps NodeProps NodeLoops NodeReconcile NodeRequeue.

Local Open Scope Z_scope.

(** The node the pass read first. *)
Definition op_node {L : K8sLib} {R} (e : apiE R) : R → option Node :=
  match e in apiE R return R → option Node with
  | GetNode _ => λ r, match r with inr nd => Some nd | inl _ => None end
  | _ => λ _, None
  end.
Definition node_read {L : K8sLib} (tr : list called) : option Node :=
  match tr with Called e r :: _ => op_node e r | [] => None end.

(** A reconcile of a pass: the workload it was given, the calls it made and what
    it returned. *)
Record visit {L : K8sLib} : Type := mkVisit {
  v_workload : DrainableWorkload;
  v_trace : list called;
  v_result : error + Result
}.

Section pass.
Context {L : K8sLib}.

(** What looking at a pod of the node read and found: nothing for a pod that is
    over or terminating, else what its owner resolves to. *)
Definition resolves (pod : Pod) (x : list called * (error + option DrainableWorkload)) : Prop :=
  if Node.skip_pod pod then x = ([], inr None)
  else runs (ResolveWorkloadFromPod pod) x.1 (Returned x.2).

Definition resolved (x : list called * (error + option DrainableWorkload)) :
    option DrainableWorkload :=
  match x.2 with inl _ => None | inr w => w end.

(** The listing of the workloads recorded for the node, in order of precedence: of
    two with the same key the one listed last stays.  A failed listing is only
    logged. *)
Inductive listing (node : string) : list called → list DrainableWorkload → Prop :=
| listing_failed_rollouts e : listing node [Called (ListRollouts (Some node)) (inl e)] []
| listing_failed_deployments ros e :
    listing node [Called (ListRollouts (Some node)) (inr ros);
                  Called (ListDeployments (Some node)) (inl e)] []
| listing_found ros deps :
    listing node (found_calls node ros deps)
      (reverse ((WRollout <$> ros) ++ (WDeployment <$> deps))).

(** The first workload of a list with a given key. *)
Definition with_key (k : string) (ws : list DrainableWorkload) : option DrainableWorkload :=
  List.find (λ w, String.eqb (Node.key_of w) k) ws.

(** The order in which the map is ranged over; an empty one is not. *)
Inductive ranging : list called → list DrainableWorkload → Prop :=
| ranging_none : ranging [] []
| ranging_some keys ws :
    (Node.key_of <$> ws) ≡ₚ keys →
    ranging [Called (RangeOrder keys) (Node.key_of <$> ws)] ws.

(** The whole trace of a pass that returns: [owners] are the workloads the pods
    resolved to, in pod order, [recs] those recorded for the node, and [vs] the
    visits, in order.  The visited workloads are, key by key, the first of
    [owners ++ recs]. *)
Inductive tainted_pass (cfg : Config) (name : string) (nd : Node) :
    list called → list DrainableWorkload → list DrainableWorkload → list visit → Prop :=
| tainted_pass_intro pods rs recs tr_list tr_range vs :
    Forall2 resolves pods rs →
    listing (Name (node_meta nd)) tr_list recs →
    ranging tr_range (v_workload <$> vs) →
    NoDup (Node.key_of <$> (v_workload <$> vs)) →
    (∀ w, w ∈ v_workload <$> vs ↔ with_key (Node.key_of w) (omap resolved rs ++ recs) = Some w) →
    Forall (λ v, runs (Node.reconcileWorkload cfg (v_workload v) (Name (node_meta nd)))
                   (v_trace v) (Returned (v_result v))) vs →
    tainted_pass cfg name nd
      (Called (GetNode name) (inr nd)
       :: Called (ListPodsOnNode (Name (node_meta nd))) (inr pods)
       :: concat rs.*1 ++ tr_list ++ tr_range ++ concat (v_trace <$> vs))
      (omap resolved rs) recs vs.

(** ** The maps as precedence lists *)

Lemma with_key_app k l1 l2 :
  with_key k (l1 ++ l2) = match with_key k l1 with Some w => Some w | None => with_key k l2 end.
Proof.
  unfold with_key. induction l1 as [|w l1 IH]; cbn; [done|]. by destruct (String.eqb _ _).
Qed.

Lemma with_key_some k ws w : with_key k ws = Some w → Node.key_of w = k ∧ w ∈ ws.
Proof. intros [H E%String.eqb_eq]%find_some. split; [done|]. by apply list_elem_of_In. Qed.

Lemma with_key_has ws w : w ∈ ws → ∃ w', with_key (Node.key_of w) ws = Some w'.
Proof.
  intros Hw. destruct (with_key (Node.key_of w) ws) as [w'|] eqn:E; [eauto|].
  apply list_elem_of_In in Hw. apply (find_none _ _ E) in Hw.
  by rewrite String.eqb_refl in Hw.
Qed.

Lemma index_with_key ws (m : gmap string DrainableWorkload) k :
  Node.index_workloads ws m !! k
  = match with_key k (reverse ws) with Some w => Some w | None => m !! k end.
Proof.
  revert m. induction ws as [|w ws IH]; intros m; [done|].
  cbn [Node.index_workloads foldl]. fold (Node.index_workloads ws (<[Node.key_of w := w]> m)).
  rewrite IH reverse_cons with_key_app. destruct (with_key k (reverse ws)); [done|].
  cbn. destruct (String.eqb_spec (Node.key_of w) k) as [->|Hne];
    [by rewrite lookup_insert_eq|by rewrite lookup_insert_ne].
Qed.

Lemma found_with_key ros deps k :
  found_workloads ros deps !! k
  = with_key k (reverse ((WRollout <$> ros) ++ (WDeployment <$> deps))).
Proof.
  unfold found_workloads. rewrite !index_with_key lookup_empty reverse_app with_key_app.
  destruct (with_key k (reverse (WDeployment <$> deps))); [done|].
  by destruct (with_key k (reverse (WRollout <$> ros))).
Qed.

Lemma found_has ros deps w : w ∈ (WRollout <$> ros) ++ (WDeployment <$> deps) →
  is_Some (found_workloads ros deps !! Node.key_of w).
Proof.
  rewrite -elem_of_reverse. intros [w' Hw']%with_key_has. exists w'. by rewrite found_with_key.
Qed.

(** One iteration of the pod loop. *)
Lemma collect_runs pod m tr m' : runs (Node.collect_workload pod m) tr (Returned m') →
  ∃ r, resolves pod (tr, r)
    ∧ ∀ k, m' !! k = match m !! k with
                     | Some w => Some w
                     | None => with_key k (option_list (resolved (tr, r)))
                     end.
Proof.
  unfold Node.collect_workload, resolves. destruct (Node.skip_pod pod).
  { intros [-> ->]%runs_ret. exists (inr None). split; [done|]. intros k. by destruct (m !! k). }
  intros (r & tr1 & tr2 & -> & Hr & H)%runs_bind. exists r. cbn [fst snd resolved].
  assert (tr2 = [] ∧ ∀ k, m' !! k = match m !! k with
            | Some w => Some w | None => with_key k (option_list (resolved (tr1, r))) end)
    as [-> Hm]; [|by rewrite app_nil_r].
  destruct r as [e|[wl|]]; [..|destruct (m !! Node.key_of wl) eqn:E|];
    apply runs_ret in H as [-> ->]; (split; [done|]); intros k; cbn;
    try by destruct (m !! k).
  all: destruct (String.eqb_spec (Node.key_of wl) k) as [<-|Hne].
  - by rewrite E.
  - by destruct (m !! k).
  - by rewrite E lookup_insert_eq.
  - rewrite lookup_insert_ne //. by destruct (m !! k).
Qed.

Lemma collect_loop_runs pods m tr m' :
  runs (for_each Node.collect_workload pods m) tr (Returned m') →
  ∃ rs, tr = concat rs.*1 ∧ Forall2 resolves pods rs
    ∧ ∀ k, m' !! k = match m !! k with
                     | Some w => Some w | None => with_key k (omap resolved rs)
                     end.
Proof.
  intros Hc%runs_for_each. induction Hc as [m|pod pods tr1 tr2 m m1 m2 Hrun _ IH].
  { exists []. split_all; [done..|]. intros k. by destruct (m !! k). }
  destruct (collect_runs _ _ _ _ Hrun) as (r & Hr & Hm1).
  destruct IH as (rs & -> & Hrs & Hm2). exists ((tr1, r) :: rs).
  split; [done|]. split; [by constructor|]. intros k. rewrite Hm2 Hm1.
  destruct (m !! k); [done|].
  assert (omap resolved ((tr1, r) :: rs) = option_list (resolved (tr1, r)) ++ omap resolved rs)
    as -> by (cbn; by destruct (resolved (tr1, r))).
  by rewrite with_key_app.
Qed.

Lemma listing_runs node tr ex : runs (Node.findWorkloadsWithDrainNode node) tr (Returned ex) →
  ∃ recs, listing node tr recs
    ∧ ∀ k, match ex with inl _ => ∅ | inr ws => ws end !! k = with_key k recs.
Proof.
  intros H%findWorkloads_calls. destruct ex as [e|ws].
  - destruct H as (e' & [->|(ros & ->)]); exists []; (split; [constructor|]); intros k;
      by rewrite lookup_empty.
  - destruct H as (ros & deps & -> & ->). eexists. split; [constructor|].
    intros k. apply found_with_key.
Qed.

(** ** The last loop *)

(** The delays asked for; a failed reconcile asks for none. *)
Definition delays (vs : list visit) : list Duration :=
  omap (λ v, match v_result v with inl _ => None | inr res => Some (RequeueAfter res) end) vs.

Lemma visits_runs (cfg : Config) node (entries : list (string * DrainableWorkload)) d tr d' :
  runs (for_each (λ kw requeueAfter, bind (Node.reconcileWorkload cfg kw.2 node) (λ result,
          Ret match result with
              | inl _ => requeueAfter
              | inr res => Node.min_requeue requeueAfter (RequeueAfter res)
              end)) entries d) tr (Returned d') →
  ∃ vs, tr = concat (v_trace <$> vs) ∧ v_workload <$> vs = entries.*2
    ∧ Forall (λ v, runs (Node.reconcileWorkload cfg (v_workload v) node)
                     (v_trace v) (Returned (v_result v))) vs
    ∧ d' = foldl Node.min_requeue d (delays vs).
Proof.
  intros Hc%runs_for_each. induction Hc as [d|[k w] entries tr1 tr2 d d1 d2 Hrun _ IH].
  { by exists []. }
  apply runs_bind in Hrun as (r & tr3 & tr4 & -> & Hr & [-> ->]%runs_ret).
  destruct IH as (vs & -> & Hws & Hvs & ->). exists (mkVisit _ w tr3 r :: vs).
  rewrite app_nil_r. cbn. split; [done|]. split; [by f_equal|]. split; [by constructor|].
  by destruct r.
Qed.

(** The entries of a map given by a precedence list. *)
Lemma entries_with_key (m : gmap string DrainableWorkload) (ws : list DrainableWorkload)
    (es : list (string * DrainableWorkload)) :
  (∀ k, m !! k = with_key k ws) → es ≡ₚ map_to_list m →
  es.*1 = Node.key_of <$> es.*2 ∧ NoDup es.*1
  ∧ ∀ w, w ∈ es.*2 ↔ with_key (Node.key_of w) ws = Some w.
Proof.
  intros Hm Hes.
  assert (∀ k w, (k, w) ∈ es ↔ with_key k ws = Some w) as Hin.
  { intros k w. by rewrite Hes elem_of_map_to_list Hm. }
  split; [|split].
  - rewrite -list_fmap_compose. apply list_fmap_ext. intros i [k w] Hi.
    apply list_elem_of_lookup_2, Hin, with_key_some in Hi as [<- _]. done.
  - rewrite Hes. apply NoDup_fst_map_to_list.
  - intros w. rewrite list_elem_of_fmap. split.
    + intros ([k w'] & -> & Hk%Hin). by destruct (with_key_some _ _ _ Hk) as [<- _].
    + intros Hw. exists (Node.key_of w, w). split; [done|]. by apply Hin.
Qed.

Lemma delays_nonneg (cfg : Config) node vs : 0 < RequeueInterval cfg →
  Forall (λ v, runs (Node.reconcileWorkload cfg (v_workload v) node)
                 (v_trace v) (Returned (v_result v))) vs →
  Forall (λ d, 0 ≤ d) (delays vs).
Proof.
  intros Hcfg Hv. apply Forall_forall. intros d ([w tr r] & Hin & Hd)%list_elem_of_omap.
  rewrite Forall_forall in Hv. specialize (Hv _ Hin). cbn in *.
  destruct r as [|res]; [done|]. injection Hd as <-.
  eapply wp_runs in Hv; [|apply (reconcileWorkload_delay cfg w node)].
  destruct (Hv res eq_refl) as [->|[[-> _]|[-> _]]]; cbn; unfold Millisecond; lia.
Qed.

Lemma failed_delays vs : Forall (λ v, is_ok (v_result v) = false) vs → delays vs = [].
Proof. induction 1 as [|[w tr [e|res]] vs Hv _ IH]; by cbn in *. Qed.

Lemma foldl_min_nonneg ds : Forall (λ d, 0 ≤ d) ds → 0 ≤ requeue_of ds.
Proof. intros H. by destruct (foldl_min_requeue_spec ds 0) as [? _]. Qed.

(** A pass that returns without an error, taken apart. *)
Lemma tainted_pass_runs (cfg : Config) (name : string) (nd : Node) tr res :
  runs (Node.Reconcile cfg name) tr (Returned (inr res)) →
  node_read tr = Some nd → Node.hasDrainTaint cfg nd = true →
  ∃ owners recs vs, tainted_pass cfg name nd tr owners recs vs
    ∧ (0 ≤ requeue_of (delays vs) → RequeueAfter res = requeue_of (delays vs)).
Proof.
  unfold Node.Reconcile. intros (r & tr0 & tr1 & -> & [-> _]%runs_call & H)%runs_bind Hn Ht.
  cbn in Hn. destruct r as [e|nd']; [done|]. injection Hn as ->. rewrite Ht in H. cbn [negb] in H.
  apply runs_bind in H as (pods & tr2 & tr3 & -> & Hp & H).
  apply runs_bind in Hp as (ps & tr4 & tr5 & -> & [-> _]%runs_call & [-> ->]%runs_ret).
  destruct ps as [e|ps]; cbn [wrap_err] in H; [by apply runs_ret in H as [_ [=]]|].
  apply runs_bind in H as (m & tr6 & tr7 & -> & Hcol & H).
  destruct (collect_loop_runs _ _ _ _ Hcol) as (rs & -> & Hrs & Hm).
  apply runs_bind in H as (ex & tr8 & tr9 & -> & Hl & H).
  destruct (listing_runs _ _ _ Hl) as (recs & Hrecs & Hex).
  set (all := match ex with inl _ => m | inr existing => m ∪ existing end) in H.
  assert (∀ k, all !! k = with_key k (omap resolved rs ++ recs)) as Hall.
  { intros k. rewrite with_key_app -Hex. specialize (Hm k). rewrite lookup_empty in Hm.
    unfold all. destruct ex as [e|ws].
    - rewrite lookup_empty Hm. by destruct (with_key k _).
    - rewrite lookup_union -Hm. by destruct (m !! k), (ws !! k). }
  exists (omap resolved rs), recs. clearbody all. destruct (decide (all = ∅)) as [E|E].
  - apply runs_ret in H as [-> [= ->]]. exists []. split; [|done]. rewrite !app_nil_r.
    pose proof (tainted_pass_intro cfg name nd ps rs recs tr8 [] [] Hrs Hrecs) as Hpass.
    rewrite /= !app_nil_r in Hpass. apply Hpass; [constructor|constructor| |constructor].
    intros w. rewrite -Hall E lookup_empty. split; [by intros []%not_elem_of_nil|done].
  - apply runs_bind in H as (es & tr10 & tr11 & -> & [-> Hes]%runs_map_range & H).
    apply runs_bind in H as (d & tr12 & tr13 & -> & Hv & [-> [= ->]]%runs_ret).
    destruct (visits_runs _ _ _ _ _ _ Hv) as (vs & -> & Hws & Hvs & ->).
    destruct (entries_with_key _ _ _ Hall Hes) as (Hk & Hnd & Hw).
    exists vs. rewrite !app_nil_r. split.
    + assert (ranging [Called (RangeOrder (map_to_list all).*1) es.*1] (v_workload <$> vs)) as Hr.
      { rewrite Hws Hk. constructor. by rewrite -Hk Hes. }
      rewrite -Hws in Hw. rewrite Hk -Hws in Hnd.
      pose proof (tainted_pass_intro cfg name nd ps rs recs tr8 _ vs Hrs Hrecs Hr Hnd Hw Hvs) as Hpass.
      exact Hpass.
    + unfold requeue_of. intros H0. destruct (Z.ltb_spec 0 (foldl Node.min_requeue 0 (delays vs)));
        [done|]. cbn. lia.
Qed.

(** A pass that only undoes asks for no delay. *)
Lemma abort_pass_delay node tr res :
  runs (Node.abortWorkloadsForNode node) tr (Returned (inr res)) → RequeueAfter res = 0.
Proof.
  unfold Node.abortWorkloadsForNode. intros (ex & tr1 & tr2 & _ & _ & H)%runs_bind.
  destruct ex as [e|m]; [by apply runs_ret in H as [_ [=]]|].
  apply runs_bind in H as (es & tr3 & tr4 & _ & _ & H).
  apply runs_bind in H as (errs & tr5 & tr6 & _ & _ & [_ E]%runs_ret).
  destruct errs; cbn in E; [by injection E as ->|done].
Qed.

Lemma untainted_pass_delay (cfg : Config) (name : string) tr res :
  runs (Node.Reconcile cfg name) tr (Returned (inr res)) →
  (∀ nd, node_read tr = Some nd → Node.hasDrainTaint cfg nd = false) → RequeueAfter res = 0.
Proof.
  unfold Node.Reconcile. intros (r & tr0 & tr1 & -> & [-> _]%runs_call & H)%runs_bind Ht.
  destruct r as [e|nd].
  - destruct (IsNotFound e); [by eapply abort_pass_delay|by apply runs_ret in H as [_ [=]]].
  - rewrite (Ht nd eq_refl) in H. cbn [negb] in H. by eapply abort_pass_delay.
Qed.
End pass.

(** C31. A pass over a node that carries a drain taint, when it succeeds, is nothing
    but: read the node and its pods, resolve the owner of every pod that is
    neither over nor terminating, list the recorded workloads, and reconcile the
    workloads found one after the other.  No drain is skipped and none is visited
    twice: every workload that a pod resolved to or that was listed as recorded for
    the node has its key visited, each key once, on the object of the first pod,
    or else the one listed last. *)
Theorem Reconcile_visits_recorded {L : K8sLib} (cfg : Config) (name : string) (nd : Node) tr res
    (Hrun : runs (Node.Reconcile cfg name) tr (Returned (inr res)))
    (Hnode : node_read tr = Some nd) (Htaint : Node.hasDrainTaint cfg nd = true) :
  ∃ owners recs vs, tainted_pass cfg name nd tr owners recs vs
    ∧ ∀ w, w ∈ owners ++ recs →
        ∃ v, v ∈ vs ∧ Node.key_of (v_workload v) = Node.key_of w
             ∧ with_key (Node.key_of w) (owners ++ recs) = Some (v_workload v).
Proof.
  destruct (tainted_pass_runs _ _ _ _ _ Hrun Hnode Htaint) as (owners & recs & vs & Hpass & _).
  exists owners, recs, vs. split; [done|]. intros w Hw.
  destruct (with_key_has _ _ Hw) as [w' Hw'].
  destruct Hpass as [pods rs recs tr_list tr_range vs _ _ _ _ Hvis _].
  destruct (with_key_some _ _ _ Hw') as [Hk _].
  assert (w' ∈ v_workload <$> vs) as Hin by (apply Hvis; by rewrite Hk).
  apply list_elem_of_fmap in Hin as (v & -> & Hv). eauto.
Qed.

(** The old pod is gone; the Deployment is found by its annotation. *)
Definition evicted_w : Deployment := web_dep (Some 2) (draining_annotations DrainStateReady).
Definition evicted_c : cluster :=
  dep_cluster evicted_w [web_pod "new" "node-2" true t0] [] (t0 + Minute).

Lemma Reconcile_visits_recorded_witness :
  shape <$> writes (trace_of pass_p evicted_c) = [inl (KDeployment, "default", "web", Some 1, true)]
  ∧ ∃ owners recs vs, tainted_pass cfg "node-1" drained_node (trace_of pass_p evicted_c) owners recs vs
      ∧ ∀ w, w ∈ owners ++ recs →
          ∃ v, v ∈ vs ∧ Node.key_of (v_workload v) = Node.key_of w
               ∧ with_key (Node.key_of w) (owners ++ recs) = Some (v_workload v).
Proof.
  split; [vm_compute; reflexivity|].
  apply (Reconcile_visits_recorded cfg "node-1" drained_node (trace_of pass_p evicted_c)
           (mkResult (5 * Second))).
  - assert (outcome_of pass_p evicted_c = Returned (inr (mkResult (5 * Second)))) as <-
      by (vm_compute; reflexivity).
    apply cluster_runs.
  - reflexivity.
  - reflexivity.
Defined.

(** C32. The delay after which a node is reconciled again: a pass that succeeds over
    a node without a drain taint asks for none; a pass over a tainted node asks for
    the least positive delay among all its visits (those of [tainted_pass], none
    left out), and for none exactly when no visit asked for one; the order in which
    Go ranges over the workloads does not matter.  A visit that failed asks for
    none, so a pass whose visits all failed is not repeated after a delay. *)
Theorem Reconcile_requeue {L : K8sLib} (cfg : Config) (name : string) tr res
    (Hcfg : valid_config cfg) (Hrun : runs (Node.Reconcile cfg name) tr (Returned (inr res))) :
  ((∀ nd, node_read tr = Some nd → Node.hasDrainTaint cfg nd = false) → RequeueAfter res = 0)
  ∧ ∀ nd, node_read tr = Some nd → Node.hasDrainTaint cfg nd = true →
    ∃ owners recs vs, tainted_pass cfg name nd tr owners recs vs
      ∧ (∀ ds, ds ≡ₚ delays vs → requeue_of ds = RequeueAfter res)
      ∧ (RequeueAfter res = 0 ↔ Forall (λ d, d = 0) (delays vs))
      ∧ (RequeueAfter res ≠ 0 → RequeueAfter res ∈ delays vs
          ∧ ∀ d, d ∈ delays vs → 0 < d → RequeueAfter res ≤ d)
      ∧ (Forall (λ v, is_ok (v_result v) = false) vs → RequeueAfter res = 0).
Proof.
  split; [by eapply untainted_pass_delay|]. intros nd Hn Ht.
  assert (0 < RequeueInterval cfg) as Hpos by (destruct Hcfg; lia).
  destruct (tainted_pass_runs _ _ _ _ _ Hrun Hn Ht) as (owners & recs & vs & Hpass & Hdelay).
  exists owners, recs, vs. split; [done|].
  assert (Forall (λ d, 0 ≤ d) (delays vs)) as Hds
    by (destruct Hpass; by eapply delays_nonneg).
  rewrite (Hdelay (foldl_min_nonneg _ Hds)).
  destruct (foldl_min_requeue_spec (delays vs) 0 ltac:(done) Hds) as (H0 & Hz & Hl).
  unfold requeue_of. split; [|split; [naive_solver|split]].
  - intros ds Hp. symmetry. by apply requeue_permutation.
  - intros Hr. destruct Hl as [Hin Hle]; [lia|]. apply elem_of_cons in Hin as [E|Hin]; [lia|].
    split; [done|]. intros d Hd. by apply Hle, list_elem_of_further.
  - intros Hfail. by rewrite (failed_delays vs Hfail).
Qed.

Lemma Reconcile_requeue_witness :
  ∃ owners recs vs, tainted_pass cfg "node-1" drained_node (trace_of pass_p sample_c) owners recs vs
    ∧ (∀ ds, ds ≡ₚ delays vs → requeue_of ds = 5 * Second)
    ∧ (5 * Second = 0 ↔ Forall (λ d, d = 0) (delays vs))
    ∧ (5 * Second ≠ 0 → 5 * Second ∈ delays vs
        ∧ ∀ d, d ∈ delays vs → 0 < d → 5 * Second ≤ d)
    ∧ (Forall (λ v, is_ok (v_result v) = false) vs → 5 * Second = 0).
Proof.
  apply (Reconcile_requeue cfg "node-1" (trace_of pass_p sample_c) (mkResult (5 * Second))).
  - apply Validate_spec. reflexivity.
  - assert (outcome_of pass_p sample_c = Returned (inr (mkResult (5 * Second)))) as <-
      by (vm_compute; reflexivity).
    apply cluster_runs.
  - reflexivity.
  - reflexivity.
Defined.
