(* ===== verification/NodeProgress.v ===== *)
(** * Progress and persistence of a drain

    A successful reconcile of a drain in progress takes exactly the next step its
    observations allow; what the first step persists reads back as what later
    steps and the abort need; and what an abort does when the autoscaler cannot
    be restored. *)

From stdpp Require Import pretty.
From S2P Require Import Prelude GoStd GoTime K8s Effects Loops Config State Workload Scaler.
From S2P Require Import RestartDetect NodeController RolloutController NodeSpec NodeSound.
From S2P Require Import Cluster Samples NodeProps.

Local Open Scope Z_scope.

Section progress.
Context {L : K8sLib} (cfg : Config) {T : Type} {D : Drainable T} {DL : DrainableLaws T}.

Abbreviation meta w := (GetObjectMeta w).
Abbreviation annos w := (Annotations (GetObjectMeta w)).

(** The surge is not in place: no autoscaler is recorded, and the count was put
    back to the original or below. *)
Definition surge_undone (w : T) (original : Z) : bool :=
  String.eqb (Node.anno w AnnotationHPAName) "" && (GetReplicas w <=? original).

(** The patch that puts the surge in place again. *)
Definition reapply_write (w : T) (original : Z) : write :=
  wl_write w (Some (int32_add original 1)) (annos w) true.

(** The step a successful reconcile takes in each state. *)
Definition next_step (w : T) (node : string) (original : Z) (tr : list called) : Prop :=
  let s := Node.anno w AnnotationDrainState in
  (s = DrainStatePending → writes tr = [state_write w DrainStateScaledUp
       (if GetReplicas w <=? original then Some (int32_add original 1) else spec_Replicas w) true])
  ∧ (s = DrainStateScaledUp →
       if surge_undone w original then writes tr = [reapply_write w original]
       else ∃ pods, listed_pods w tr pods ∧
         writes tr = if existsb (ready_elsewhere node) pods
                     then [state_write w DrainStateReady (spec_Replicas w) true] else [])
  ∧ (s = DrainStateReady → ∃ pods, listed_pods w tr pods ∧
       writes tr = if existsb (alive_on node) pods then []
                   else restore_writes (meta w) true
                        ++ [state_write w DrainStateDraining (scaledown_replicas w original) true])
  ∧ (s = DrainStateDraining → ∃ r, writes tr = [state_write w DrainStateDone r true]
       ∧ (Node.anno w AnnotationHPAName = "" → default 1 r = original)
       ∧ (Node.anno w AnnotationHPAName ≠ "" → r = spec_Replicas w))
  ∧ (s = DrainStateDone →
       writes tr = [wl_write w (spec_Replicas w) (clearDrainAnnotations (annos w)) true]).

Definition progress_post (P : list called → Prop) (tr : list called)
    (o : outcome (error + Result)) : Prop := ∀ res, o = Returned (inr res) → P tr.

Lemma progress_fail P tr o : ¬ succeeded o → progress_post P tr o.
Proof. intros Hn res ->. by destruct Hn. Qed.

Ltac progress_fails := try (by apply progress_fail; intros []).

Lemma progress_scaleUp (w : T) node m original : annos w = Some m →
  getOriginalReplicas (annos w) = inr original →
  wp (Node.handleScaleUp cfg w node) (progress_post (λ tr,
    writes tr = [state_write w DrainStateScaledUp
      (if GetReplicas w <=? original then Some (int32_add original 1) else spec_Replicas w) true])).
Proof.
  intros Ea Eo. unfold Node.handleScaleUp. rewrite Eo.
  destruct (GetReplicas w <=? original); repeat wp_step; progress_fails.
  all: intros res _; solve_writes.
Qed.

Lemma progress_waitReady (w : T) node m original : annos w = Some m →
  getOriginalReplicas (annos w) = inr original →
  wp (Node.handleWaitReady cfg w node) (progress_post (λ tr,
    if surge_undone w original then writes tr = [reapply_write w original]
    else ∃ pods, listed_pods w tr pods ∧
      writes tr = if existsb (ready_elsewhere node) pods
                  then [state_write w DrainStateReady (spec_Replicas w) true] else [])).
Proof.
  intros Ea Eo. unfold Node.handleWaitReady, Node.waitReady_pods, surge_undone.
  destruct (String.eqb (Node.anno w AnnotationHPAName) ""); cbn [andb].
  1: rewrite Eo; destruct (GetReplicas w <=? original).
  all: repeat wp_step; progress_fails.
  1: intros res _; unfold reapply_write; solve_writes.
  all: intros res _; exists l; split; [in_trace|]; rewrite Heqb; solve_writes.
Qed.

Lemma progress_waitEviction (w : T) node m original : annos w = Some m →
  getOriginalReplicas (annos w) = inr original →
  wp (Node.handleWaitEviction cfg w node) (progress_post (λ tr, ∃ pods, listed_pods w tr pods ∧
    writes tr = if existsb (alive_on node) pods then []
                else restore_writes (meta w) true
                     ++ [state_write w DrainStateDraining (scaledown_replicas w original) true])).
Proof.
  intros Ea Eo. unfold Node.handleWaitEviction. repeat wp_step; progress_fails.
  1: { intros res _. exists l. split; [in_trace|]. by rewrite Heqb. }
  apply wp_bind, wp_bind. eapply wp_mono; [|apply restoreHPA_effect].
  intros tr [[e|[]]|msg|] Hr; cbn [bind_post wp wrap_err]; progress_fails.
  rewrite Eo app_nil_r.
  set (w1 := if String.eqb _ "" then _ else w).
  assert (spec_Replicas w1 = scaledown_replicas w original ∧ meta w1 = meta w
          ∧ workload_kind w1 = workload_kind w) as (Hs & Hm & Hk).
  { unfold w1, scaledown_replicas. destruct (String.eqb _ ""); autorewrite with surge_simpl; done. }
  assert (annos w1 = Some m) as Ea1 by by rewrite Hm.
  clearbody w1. repeat wp_step; progress_fails.
  intros res _. exists l. split; [in_trace|]. rewrite Heqb writes_cons /= writes_app Hr.
  f_equal. rewrite writes_cons /=. autorewrite with surge_simpl.
  unfold state_write, wl_write. by rewrite Hs Hm Hk Ea.
Qed.

Lemma progress_scaleDown (w : T) m original : annos w = Some m →
  getOriginalReplicas (annos w) = inr original →
  wp (Node.handleScaleDown cfg w) (progress_post (λ tr, ∃ r,
    writes tr = [state_write w DrainStateDone r true]
    ∧ (Node.anno w AnnotationHPAName = "" → default 1 r = original)
    ∧ (Node.anno w AnnotationHPAName ≠ "" → r = spec_Replicas w))).
Proof.
  intros Ea Eo. unfold Node.handleScaleDown. rewrite Eo.
  destruct (String.eqb_spec (Node.anno w AnnotationHPAName) "") as [Hh|Hh]; cbn [andb];
    [destruct (Z.eqb_spec (GetReplicas w) original); cbn [negb]|].
  all: repeat wp_step; progress_fails.
  all: intros res _; eexists; split; [solve_writes|]; split; intros; try done.
  by rewrite -GetReplicas_spec.
Qed.

Lemma progress_cleanup (w : T) :
  wp (Node.handleCleanup w) (progress_post (λ tr,
    writes tr = [wl_write w (spec_Replicas w) (clearDrainAnnotations (annos w)) true])).
Proof.
  unfold Node.handleCleanup. repeat wp_step; progress_fails. intros res _. solve_writes.
Qed.

Lemma next_step_app (w : T) node original pre tr :
  writes pre = [] → next_step w node original tr → next_step w node original (pre ++ tr).
Proof.
  intros Hpre (H0 & H1 & H2 & H3 & H4). unfold next_step. rewrite writes_app Hpre.
  assert (∀ pods, listed_pods w tr pods → listed_pods w (pre ++ tr) pods) as Hl.
  { intros pods. apply elem_of_suffix. }
  split_all; [done|..|done|done].
  - intros Hs. specialize (H1 Hs). destruct (surge_undone w original); [done|].
    destruct H1 as (pods & Hp & Hw). eauto.
  - intros Hs. destruct (H2 Hs) as (pods & Hp & Hw). eauto.
Qed.

Definition steady_states : list DrainState :=
  [DrainStatePending; DrainStateScaledUp; DrainStateReady; DrainStateDraining; DrainStateDone].

Lemma reconcile_state_progress (w : T) node original :
  Node.anno w AnnotationDrainState ∈ steady_states → on_node w node →
  getOriginalReplicas (annos w) = inr original →
  wp (Node.reconcile_state cfg w node (Node.anno w AnnotationDrainState))
    (progress_post (next_step w node original)).
Proof.
  intros Hs Hn Ho. destruct (getOriginalReplicas_some _ _ Ho) as [m Ea].
  assert (negb (negb (String.eqb (Node.anno w AnnotationDrainNode) "")
                && negb (String.eqb (Node.anno w AnnotationDrainNode) node)) = true) as Hgo.
  { destruct Hn as [-> | ->]; [done|]. rewrite String.eqb_refl. by destruct (String.eqb _ ""). }
  unfold Node.reconcile_state.
  assert (∀ s P, Node.anno w AnnotationDrainState = s →
    (∀ tr, P tr → next_step w node original tr) → ∀ p, wp p (progress_post P) →
    wp p (progress_post (next_step w node original))) as Hmono.
  { intros s P _ HP p Hp. eapply wp_mono; [|exact Hp]. intros tr o H res Hr. eapply HP, H, Hr. }
  unfold steady_states in Hs.
  repeat (apply elem_of_cons in Hs as [Hs|Hs]); [..|by apply not_elem_of_nil in Hs].
  all: rewrite Hs; cbn [bind]; rewrite Hgo; cbn [negb].
  - eapply (Hmono _ _ Hs); [|by eapply progress_scaleUp].
    intros tr H. unfold next_step. rewrite Hs. split_all; done.
  - eapply (Hmono _ _ Hs); [|by eapply progress_waitReady].
    intros tr H. unfold next_step. rewrite Hs. split_all; done.
  - eapply (Hmono _ _ Hs); [|by eapply progress_waitEviction].
    intros tr H. unfold next_step. rewrite Hs. split_all; done.
  - eapply (Hmono _ _ Hs); [|by eapply progress_scaleDown].
    intros tr H. unfold next_step. rewrite Hs. split_all; done.
  - eapply (Hmono _ _ Hs); [|by eapply progress_cleanup].
    intros tr H. unfold next_step. rewrite Hs. split_all; done.
Qed.

Lemma reconcileWorkload_progress (w : T) node original :
  Node.anno w AnnotationDrainState ∈ steady_states → on_node w node →
  getOriginalReplicas (annos w) = inr original →
  wp (Node.reconcileWorkload cfg w node) (λ tr o, ¬ overdue cfg w tr →
    progress_post (next_step w node original) tr o).
Proof.
  intros Hs Hn Ho. unfold Node.reconcileWorkload.
  destruct (Node.isActive _) eqn:Ea; [destruct (parseDrainStart (annos w)) as [start|] eqn:Ep|].
  2, 3: by eapply wp_mono; [|apply (reconcile_state_progress w node original)].
  repeat wp_step; try (by apply progress_fail; intros []).
  1, 2: apply wp_runs; intros tr o _ Hno; exfalso; apply Hno;
    exists start, r; split; [done|]; split; [cbn; in_trace|lia].
  eapply wp_mono; [|by apply (reconcile_state_progress w node original)].
  intros tr o Hst _ res Hr. apply (next_step_app w node original [_]); [done|]. by eapply Hst.
Qed.
End progress.


Lemma state_listed s : existsb (String.eqb s) steady_states = true → s ∈ steady_states.
Proof.
  intros (x & Hx%list_elem_of_In & E)%existsb_exists. by apply String.eqb_eq in E as ->.
Qed.

(** Scaled up, with a ready pod on another node. *)
Definition surged_w : Deployment := web_dep (Some 2) (draining_annotations DrainStateScaledUp).
Definition surged_c : cluster :=
  dep_cluster surged_w [web_pod "old" "node-1" true t0; web_pod "new" "node-2" true t0] []
    (t0 + Minute).
Definition surged_p : prog (error + Result) := Node.reconcileWorkload cfg surged_w "node-1".

(** Draining, with the count back at the original: the usual case. *)
Definition lowered_w : Deployment := web_dep (Some 1) (draining_annotations DrainStateDraining).
Definition lowered_c : cluster :=
  dep_cluster lowered_w [web_pod "new" "node-2" true t0] [] (t0 + Minute).
Definition lowered_p : prog (error + Result) := Node.reconcileWorkload cfg lowered_w "node-1".


(** ** What the first step persists *)

Section persisted.
Context {L : K8sLib} {T : Type} {D : Drainable T} {DL : DrainableLaws T}.

Abbreviation annos w := (Annotations (GetObjectMeta w)).

(** The server's annotations after a patch that carries [a]. *)
Definition merged (p : MergePatch) (stored : annotations) : option annotations :=
  Some (merge_annotations (patch_annotations p) stored).

Lemma merged_owned rep a stored key : key ∈ drainAnnotationKeys →
  anno_lookup (merged (mkMergePatch rep (anno_patch a)) stored) key = anno_lookup a key.
Proof. apply merge_anno_patch_owned. Qed.

(** The record of a surge started at [now] for [node], read back. *)
Definition readable (node : string) (now : Time) (a : option annotations) : Prop :=
  anno_get a AnnotationDrainState = DrainStateScaledUp
  ∧ anno_get a AnnotationDrainNode = node
  ∧ getOriginalReplicas a = inr 1
  ∧ parseDrainStart a = Some (now / Second * Second).

Lemma readable_intro node now a :
  0 ≤ year_of now ≤ 9999 →
  anno_lookup a AnnotationDrainState = Some DrainStateScaledUp →
  anno_lookup a AnnotationDrainNode = Some node →
  anno_lookup a AnnotationOriginalReplicas = Some (Itoa 1) →
  anno_lookup a AnnotationDrainStart = Some (Format_RFC3339 now) → readable node now a.
Proof.
  intros Hy Hs Hn Ho Ht. unfold readable. rewrite !anno_get_lookup Hs Hn.
  split; [done|]. split; [done|]. split; [by apply getOriginalReplicas_Itoa|].
  by apply parse_Format_annotation.
Qed.

Lemma surge_readable rep a node now stored : 0 ≤ year_of now ≤ 9999 →
  readable node now (merged (mkMergePatch rep
    (anno_patch (Some (pending_annotations a 1 node now)))) stored).
Proof.
  intros Hy. unfold pending_annotations.
  apply readable_intro; [done|..]; (rewrite merged_owned; [|solve_key]); by anno_simpl.
Qed.

Lemma hpa_surge_readable rep hpa a node now stored :
  0 ≤ year_of now ≤ 9999 →
  let a' := merged (mkMergePatch rep (anno_patch
              (Some (hpa_annotations hpa (pending_annotations a 1 node now))))) stored in
  readable node now a'
  ∧ anno_get a' AnnotationHPAName = Name (hpa_meta hpa)
  ∧ (is_int64 (HPAMinReplicasOrDefault hpa) →
     Atoi (anno_get a' AnnotationHPAOriginalMinReplicas) = Some (HPAMinReplicasOrDefault hpa)).
Proof.
  intros Hy a'. unfold a', hpa_annotations, pending_annotations. split_all.
  - apply readable_intro; [done|..]; (rewrite merged_owned; [|solve_key]); by anno_simpl.
  - rewrite anno_get_lookup merged_owned; [|solve_key]. by anno_simpl.
  - intros Hm. rewrite anno_get_lookup merged_owned; [|solve_key]. anno_simpl.
    cbn. by apply Atoi_Itoa.
Qed.
End persisted.

(** C27. Round trip of the persisted record: every workload patch of a run that
    starts a surge leaves on the server, whatever was stored before, annotations
    from which the controller reads back the state [scaled-up], the node, the
    original count 1, and the time at which it ran, to the second. *)
Theorem surge_record_roundtrip {L : K8sLib} {T : Type} {D : Drainable T} {DL : DrainableLaws T}
    (cfg : Config) (w : T) (node : string) tr o k ns n p ok stored
    (Hrun : runs (Node.reconcileWorkload cfg w node) tr o)
    (Hnone : Node.anno w AnnotationDrainState = "")
    (Hclock : Forall (λ now, 0 ≤ year_of now ≤ 9999) (clock_reads tr))
    (Hwrite : WWorkload k ns n p ok ∈ writes tr) :
  ∃ now, now ∈ clock_reads tr ∧ readable node now (merged p stored).
Proof.
  apply run_effect in Hrun as [_ Heff]. rewrite Forall_forall in Hclock.
  destruct (effect_start cfg w node tr o) as (_ & _ & Hs); [done..| |].
  { intros E. rewrite E in Hwrite. by apply not_elem_of_nil in Hwrite. }
  destruct Hs as [(now & ok' & _ & Hn & Hw)|(hpa & now & ok' & later & _ & Hn & _ & _ & Hw & Hl)];
    exists now; (split; [done|]); rewrite Hw in Hwrite.
  - apply list_elem_of_singleton in Hwrite. injection Hwrite as -> -> -> -> ->.
    by apply surge_readable, Hclock.
  - apply elem_of_cons in Hwrite as [E|Hwrite].
    + injection E as -> -> -> -> ->. by apply hpa_surge_readable, Hclock.
    + destruct Hl as [->|(_ & okh & ->)]; [by apply not_elem_of_nil in Hwrite|].
      by apply list_elem_of_singleton in Hwrite.
Qed.

Lemma surge_record_roundtrip_witness :
  ∃ p now, writes sample_tr = [WWorkload KDeployment "default" "web" p true]
    ∧ now ∈ clock_reads sample_tr ∧ readable "node-1" now (merged p ∅).
Proof.
  destruct (shape_workload (writes sample_tr) KDeployment "default" "web" (Some 2) true)
    as (p & Hw & _); [vm_compute; reflexivity|].
  destruct (surge_record_roundtrip cfg sample_w "node-1" sample_tr (outcome_of sample_p sample_c)
              KDeployment "default" "web" p true ∅) as (now & Hn & Hr).
  - apply cluster_runs.
  - vm_compute. reflexivity.
  - assert (clock_reads sample_tr = [t0]) as -> by (vm_compute; reflexivity).
    repeat constructor; vm_compute; discriminate.
  - rewrite Hw. apply list_elem_of_here.
  - exists p, now. split; [exact Hw|]. split; [exact Hn|exact Hr].
Defined.

(** ** An autoscaler that cannot be restored *)

Section outage.
Context {L : K8sLib}.

(** A server that accepts every call except patches of autoscalers; reads that
    the abort does not make answer with an error. *)
Definition outage_serve {R} (e : apiE R) (u : unit) : R * unit :=
  match e in apiE R return R * unit with
  | GetNode _ => (inl unavailable, u)
  | GetReplicaSet _ _ => (inl unavailable, u)
  | GetRollout _ _ => (inl unavailable, u)
  | GetDeployment _ _ => (inl unavailable, u)
  | ListNodes => (inl unavailable, u)
  | ListPodsOnNode _ => (inl unavailable, u)
  | ListPods _ _ => (inl unavailable, u)
  | ListPDBs _ => (inl unavailable, u)
  | ListHPAs _ => (inl unavailable, u)
  | ListRollouts _ => (inl unavailable, u)
  | ListDeployments _ => (inl unavailable, u)
  | PatchWorkload _ _ _ _ => (inr (), u)
  | PatchHPA _ _ _ => (inl unavailable, u)
  | RecordEvent _ _ _ _ => ((), u)
  | Now => (0, u)
  | RangeOrder ks => (ks, u)
  end.

Lemma outage_legal R (e : apiE R) u : legal e (outage_serve e u).1.
Proof. destruct e; cbn; done || reflexivity. Qed.

Definition outage : server unit := mkServer (@outage_serve) outage_legal.

Lemma outage_abort {T} {D : Drainable T} {DL : DrainableLaws T} (w : T) hpaName min :
  restore_target (GetObjectMeta w) = Some (hpaName, min) →
  ∃ tr, run outage (Node.abortWorkload w) () = (tr, Returned (inr no_requeue), ())
    ∧ writes tr = [WHPA (Namespace (GetObjectMeta w)) hpaName min false; abort_write w true].
Proof.
  unfold restore_target. intros Ht. destruct (String.eqb _ "") eqn:Eh; [done|].
  apply fmap_Some in Ht as (n & Hn & [= -> ->]).
  eexists. split.
  - unfold Node.abortWorkload. rewrite run_bind. unfold Node.restoreHPA. rewrite Eh Hn.
    reflexivity.
  - rewrite !writes_cons /=. unfold abort_write, wl_write, abort_replicas.
    destruct (getOriginalReplicas _); autorewrite with surge_simpl; done.
Qed.
End outage.

(** C40. An abort forgets an autoscaler it failed to restore: whenever one is
    recorded, there is a run of [abortWorkload] in which the restoring patch fails
    and that still reports success after deleting the record of the autoscaler, so
    nothing in the cluster remembers the minimum any more. *)
Theorem abort_forgets_hpa {L : K8sLib} {T : Type} {D : Drainable T} {DL : DrainableLaws T}
    (w : T) (hpaName : string) (min : Z)
    (Hrecorded : restore_target (GetObjectMeta w) = Some (hpaName, min)) :
  ∃ tr p, runs (Node.abortWorkload w) tr (Returned (inr no_requeue))
    ∧ writes tr = [WHPA (Namespace (GetObjectMeta w)) hpaName min false;
                   WWorkload (workload_kind w) (Namespace (GetObjectMeta w))
                     (Name (GetObjectMeta w)) p true]
    ∧ ∀ stored, restore_target (with_Annotations (merged p stored) (GetObjectMeta w)) = None.
Proof.
  destruct (outage_abort w hpaName min Hrecorded) as (tr & Hrun & Hw).
  exists tr. eexists. split; [by apply (run_runs _ _ _ _ _ _ Hrun)|]. split; [exact Hw|].
  intros stored. unfold restore_target. cbn [Annotations with_Annotations].
  rewrite anno_get_lookup merged_owned; [|solve_key].
  unfold clearDrainAnnotations. rewrite anno_lookup_deleted; [done|solve_key].
Qed.

Lemma abort_forgets_hpa_witness :
  ∃ tr p, runs (Node.abortWorkload hpa_w) tr (Returned (inr no_requeue))
    ∧ writes tr = [WHPA (Namespace (GetObjectMeta hpa_w)) "web-hpa" 1 false;
                   WWorkload (workload_kind hpa_w) (Namespace (GetObjectMeta hpa_w))
                     (Name (GetObjectMeta hpa_w)) p true]
    ∧ ∀ stored, restore_target (with_Annotations (merged p stored) (GetObjectMeta hpa_w)) = None.
Proof.
  apply (abort_forgets_hpa hpa_w "web-hpa" 1). vm_compute. reflexivity.
Defined.

(** ** The drain taint *)

(** A node counts as draining exactly when one of its taints has the key of a
    configured drain taint; the effects, of the taint and of the configuration,
    are not looked at. *)
Lemma hasDrainTaint_spec (cfg : Config) (node : Node) :
  (Node.hasDrainTaint cfg node = true ↔
   ∃ taint dt, taint ∈ node_Taints node ∧ dt ∈ DrainTaints cfg ∧ taint_Key taint = Key dt)
  ∧ ∀ effect, Node.hasDrainTaint cfg (mkNode (node_meta node)
      ((λ t, mkTaint (taint_Key t) (effect t)) <$> node_Taints node)) = Node.hasDrainTaint cfg node.
Proof.
  unfold Node.hasDrainTaint. split.
  - rewrite existsb_true_iff. setoid_rewrite existsb_true_iff. setoid_rewrite String.eqb_eq.
    naive_solver.
  - intros effect. cbn. induction (node_Taints node) as [|t ts IH]; [done|]. cbn. by rewrite IH.
Qed.

(** ** A whole drain *)

(** Apply a change of the environment between two passes. *)
Definition pass (c : cluster) : cluster := after (Node.Reconcile cfg "node-1") c.

Definition old_pod : Pod := web_pod "old" "node-1" true t0.
Definition new_pod (ready : bool) : Pod := web_pod "new" "node-2" ready (t0 + 5 * Second).

(** The cluster after each of six passes: the surge pod starts, becomes ready, the
    old pod is evicted. *)
Definition pass1 : cluster := pass sample_c.
Definition pass2 : cluster := pass (set_pods [old_pod; new_pod false] (set_now (t0 + 10 * Second) pass1)).
Definition pass3 : cluster := pass (set_pods [old_pod; new_pod true] (set_now (t0 + 15 * Second) pass2)).
Definition pass4 : cluster := pass (set_pods [new_pod true] (set_now (t0 + 20 * Second) pass3)).
Definition pass5 : cluster := pass (set_now (t0 + 25 * Second) pass4).
Definition pass6 : cluster := pass (set_now (t0 + 30 * Second) pass5).

Definition summary (c : cluster) : list (option Z * string) :=
  (λ d, (dep_Replicas d, Node.anno d AnnotationDrainState)) <$> c_deployments c.

(** A whole drain, end to end against the in-memory server: the Deployment goes
    from 1 replica to 2, waits while the new pod is not ready, becomes ready, goes
    back to 1 when the old pod is gone, and ends with exactly the annotations it
    started with. *)
Example full_drain_cycle :
  (summary <$> [sample_c; pass1; pass2; pass3; pass4; pass5; pass6]
   = [[(Some 1, "")]; [(Some 2, "scaled-up")]; [(Some 2, "scaled-up")]; [(Some 2, "ready")];
      [(Some 1, "draining")]; [(Some 1, "done")]; [(Some 1, "")]])
  ∧ (λ d, map_to_list <$> Annotations (dep_meta d)) <$> c_deployments pass6
    = [Some (map_to_list enabled)].
Proof. split; vm_compute; reflexivity. Qed.
