(* ===== verification/RestartProps.v ===== *)
(** * The restart-surge controller: theorems

    Read off [restart_effect] for every environment: refinement to an abstract
    machine that never touches the drain's own annotations, when a surge starts
    and ends, timeouts, yielding to a drain, the watch predicate and orphan
    recovery. *)

From stdpp Require Import pretty.
From S2P Require Import Prelude GoStd GoTime K8s Effects Loops Config State Workload Scaler.
From S2P Require Import RestartDetect NodeController RolloutController NodeSpec NodeSound UndoPass.
From S2P Require Import Cluster Samples NodeProps RestartSpec RestartSound StoreSystem Records.

Local Open Scope Z_scope.

(** The abstract restart-surge machine; [pending] is never left except by an
    abort, and a yield to a drain is an abort of this machine. *)
Inductive restart_step : DrainState → DrainState → Prop :=
| rstep_start : restart_step DrainStateNone DrainStateScaledUp
| rstep_pending : restart_step DrainStatePending DrainStatePending
| rstep_reapply : restart_step DrainStateScaledUp DrainStateScaledUp
| rstep_ready : restart_step DrainStateScaledUp DrainStateReady
| rstep_over : restart_step DrainStateReady DrainStateDraining
| rstep_done : restart_step DrainStateDraining DrainStateDone
| rstep_cleanup : restart_step DrainStateDone DrainStateNone
| rstep_abort s : s ≠ DrainStateNone → restart_step s DrainStateNone.

Section props.
Context {L : K8sLib}.

Abbreviation meta r := (GetObjectMeta r).
Abbreviation annos r := (Annotations (GetObjectMeta r)).

Lemma run_restart cfg r tr o :
  runs (Restart.reconcileWorkload cfg r) tr o → ¬ panicked o ∧ restart_effect cfg r tr o.
Proof. intros Hr. by eapply wp_runs in Hr; [|apply restart_reconcile_effect]. Qed.

(** A patch of the Rollout that sets the restart-surge state to [s'] and leaves
    the drain's own annotations as they were read. *)
Definition restart_patches_to (r : Rollout) (s' : DrainState) (x : write) : Prop :=
  ∃ p ok, x = WWorkload KRollout (Namespace (meta r)) (Name (meta r)) p ok
    ∧ next_annotation AnnotationRestartSurgeState p = s'
    ∧ ∀ key, key ∈ drainExclusiveKeys → next_annotation key p = Node.anno r key.

Lemma restart_patch_intro (r : Rollout) rep a ok :
  (∀ key, key ∈ drainExclusiveKeys → anno_get a key = Node.anno r key) →
  restart_patches_to r (anno_get a AnnotationRestartSurgeState) (wl_write r rep a ok).
Proof.
  intros Hkeys. eexists _, _. split; [done|]. split; [apply next_annotation_patch|].
  intros key Hkey. rewrite next_annotation_patch. by apply Hkeys.
Qed.

(** Membership in the drain's own keys, key by key. *)
Ltac drain_keys :=
  let key := fresh "key" in let Hk := fresh "Hk" in
  intros key Hk; unfold drainExclusiveKeys in Hk;
  repeat (apply elem_of_cons in Hk as [-> |Hk]; [|]); [..|by apply not_elem_of_nil in Hk].

Lemma default_get a k : anno_get (Some (default ∅ a)) k = anno_get a k.
Proof. destruct a; [done|]. unfold anno_get. cbn. by rewrite lookup_empty. Qed.

Lemma kept_drain_keys keys a key : key ∈ drainExclusiveKeys →
  (∀ k, k ∈ drainExclusiveKeys → k ∉ keys) → anno_get (delete_keys keys a) key = anno_get a key.
Proof. intros Hk H. apply anno_get_kept. by apply H. Qed.

Lemma full_keys_disjoint k : k ∈ drainExclusiveKeys → k ∉ restartSurgeFullKeys.
Proof. unfold drainExclusiveKeys, restartSurgeFullKeys. set_solver. Qed.

Lemma exclusive_keys_disjoint k : k ∈ drainExclusiveKeys → k ∉ restartSurgeExclusiveKeys.
Proof. unfold drainExclusiveKeys, restartSurgeExclusiveKeys. set_solver. Qed.

Lemma restart_step_patch (r : Rollout) s a rep ok :
  (∀ key, key ∈ drainExclusiveKeys → anno_get a key = Node.anno r key) →
  restart_step s (anno_get a AnnotationRestartSurgeState) →
  ∃ x s', [wl_write r rep a ok] = [x] ∧ restart_patches_to r s' x ∧ restart_step s s'.
Proof. intros Hk Hs. eexists _, _. split; [done|]. split; [by apply restart_patch_intro|done]. Qed.

Lemma restart_undo_steps (r : Rollout) ws o s : s ≠ "" →
  undo_effect (meta r) (restart_abort_write r) ws o →
  List.filter is_workload_write ws = [] ∨
  ∃ x s', List.filter is_workload_write ws = [x] ∧ restart_patches_to r s' x ∧ restart_step s s'.
Proof.
  intros Hs []; rewrite ?List.filter_app ?restore_no_workload_write; [by left..|right].
  cbn. apply restart_step_patch.
  - intros key Hk. by apply kept_drain_keys; [|apply full_keys_disjoint].
  - anno_simpl. by apply rstep_abort.
Qed.

Lemma restart_effect_steps cfg r tr o : restart_effect cfg r tr o →
  List.filter is_workload_write (writes tr) = [] ∨
  ∃ x s', List.filter is_workload_write (writes tr) = [x] ∧ restart_patches_to r s' x
          ∧ restart_step (restart_state r) s'.
Proof.
  intros []; match goal with H : writes tr = _ |- _ => rewrite H end; [by left|..].
  all: rewrite ?List.filter_app ?restore_no_workload_write.
  all: try match goal with H : restart_eligible _ _ _ |- _ =>
         rewrite (re_state _ _ _ H); right end.
  all: try match goal with H : restart_state _ = _ |- _ => rewrite H end.
  - apply restart_step_patch; unfold restart_annotations.
    + drain_keys; anno_simpl; apply default_get.
    + anno_simpl. constructor.
  - assert (List.filter is_workload_write later = []) as Hl.
    { destruct_or!; destruct_and?; naive_solver. }
    cbn. rewrite Hl. apply restart_step_patch; unfold hpa_annotations, restart_annotations.
    + drain_keys; anno_simpl; apply default_get.
    + anno_simpl. constructor.
  - right. apply restart_step_patch; [done|].
    change (anno_get (annos r) AnnotationRestartSurgeState) with (restart_state r).
    match goal with H : restart_state r ∈ _ |- _ =>
      apply elem_of_cons in H as [-> | ->%list_elem_of_singleton] end; constructor.
  - right. apply restart_step_patch; [drain_keys; anno_simpl; apply default_get|].
    anno_simpl. constructor.
  - by left.
  - right. apply restart_step_patch; [drain_keys; anno_simpl; apply default_get|].
    anno_simpl. constructor.
  - right. apply restart_step_patch; [drain_keys; anno_simpl; apply default_get|].
    anno_simpl. constructor.
  - right. apply restart_step_patch.
    + intros key Hk. by apply kept_drain_keys; [|apply full_keys_disjoint].
    + anno_simpl. apply rstep_cleanup.
  - right. apply restart_step_patch.
    + intros key Hk. by apply kept_drain_keys; [|apply exclusive_keys_disjoint].
    + anno_simpl. apply rstep_abort. intros E. by rewrite E in H.
  - assert (List.filter is_workload_write pre = []) as ->.
    { destruct_or!; subst; [done|]. apply restore_no_workload_write. }
    eapply restart_undo_steps; [|done]. by destruct H as [? _].
Qed.
End props.

(** C11. Every run of [RolloutReconciler.reconcileWorkload], in every environment,
    refines the abstract restart-surge machine: it patches at most the Rollout it
    was given, the patch moves the restart-surge state along an edge of
    [restart_step], and it never changes the drain controller's own annotations
    (state, node and start). *)
Theorem restart_refines_machine {L : K8sLib} (cfg : Config) (r : Rollout) tr o
    (Hrun : runs (Restart.reconcileWorkload cfg r) tr o) :
  List.filter is_workload_write (writes tr) = [] ∨
  ∃ x s', List.filter is_workload_write (writes tr) = [x] ∧ restart_patches_to r s' x
          ∧ restart_step (restart_state r) s'.
Proof. by eapply restart_effect_steps, run_restart. Qed.

(** A stuck restart: requested at [t0], the only pod is older, 2 minutes later. *)
Definition stuck_r : Rollout := web_ro (Some 1) enabled (Some (t0 + Second)).
Definition stuck_c : cluster :=
  ro_cluster stuck_r [web_pod "old" "node-1" true t0] [] (t0 + 2 * Minute).
Definition stuck_p : prog (error + Result) := Restart.reconcileWorkload restart_cfg stuck_r.

Lemma restart_refines_machine_witness :
  shape <$> writes (trace_of stuck_p stuck_c) = [inl (KRollout, "default", "web", Some 2, true)]
  ∧ (List.filter is_workload_write (writes (trace_of stuck_p stuck_c)) = [] ∨
     ∃ x s', List.filter is_workload_write (writes (trace_of stuck_p stuck_c)) = [x]
        ∧ restart_patches_to stuck_r s' x ∧ restart_step (restart_state stuck_r) s').
Proof.
  split; [vm_compute; reflexivity|].
  apply (restart_refines_machine restart_cfg stuck_r _ (outcome_of stuck_p stuck_c)).
  apply cluster_runs.
Defined.

(** ** Starting *)

Section start.
Context {L : K8sLib}.

Abbreviation annos r := (Annotations (GetObjectMeta r)).

(** The two ways a restart-surge starts. *)
Definition restart_replica_surge (r : Rollout) (tr : list called) : Prop :=
  ∃ now ok, found_hpa r tr None ∧ now ∈ clock_reads tr ∧
    writes tr = [wl_write r (Some 2) (Some (restart_annotations (annos r) 1 now)) ok].

Definition restart_hpa_surge (r : Rollout) (tr : list called) : Prop :=
  ∃ hpa now ok later, found_hpa r tr (Some hpa) ∧ now ∈ clock_reads tr
    ∧ 2 ≤ hpa_MaxReplicas hpa ∧ HPAMinReplicasOrDefault hpa < 2
    ∧ writes tr = wl_write r (spec_Replicas r) (Some (hpa_annotations hpa
        (restart_annotations (annos r) 1 now))) ok :: later
    ∧ (later = [] ∨ (ok = true ∧ ∃ okh,
         later = [WHPA (Namespace (GetObjectMeta r)) (Name (hpa_meta hpa)) 2 okh])).

Lemma restart_effect_start cfg r tr o :
  restart_effect cfg r tr o → restart_state r = "" → writes tr ≠ [] →
  restart_eligible cfg r tr ∧ found_pdb r tr
  ∧ (restart_replica_surge r tr ∨ restart_hpa_surge r tr).
Proof.
  intros Heff Hs Hne. destruct Heff as [| | | | | | | | | |pre ws [Hr _]]; try congruence.
  all: try (rewrite Hs in H; done).
  - split; [done|]. split; [done|]. left. by exists now, ok.
  - split; [done|]. split; [done|]. right. by exists hpa, now, ok, later.
  - rewrite Hs in H. apply elem_of_cons in H as [|H%list_elem_of_singleton]; done.
Qed.
End start.

(** C22. A restart-surge starts only on a Rollout that is opted in, has exactly one
    replica, has no drain in progress, is Healthy or waiting for this restart, and
    whose restart was seen to be stuck on the listed pods past the grace period,
    with a covering disruption budget; then it either patches the Rollout to 2
    replicas or, with an autoscaler, records its old minimum before raising it. *)
Theorem restart_surge_start {L : K8sLib} (cfg : Config) (r : Rollout) tr o
    (Hrun : runs (Restart.reconcileWorkload cfg r) tr o)
    (Hnone : restart_state r = "") (Hwrites : writes tr ≠ []) :
  restart_eligible cfg r tr ∧ found_pdb r tr
  ∧ (restart_replica_surge r tr ∨ restart_hpa_surge r tr).
Proof. by eapply restart_effect_start; [eapply run_restart|..]. Qed.

Lemma restart_surge_start_witness :
  restart_eligible restart_cfg stuck_r (trace_of stuck_p stuck_c)
  ∧ found_pdb stuck_r (trace_of stuck_p stuck_c)
  ∧ (restart_replica_surge stuck_r (trace_of stuck_p stuck_c)
     ∨ restart_hpa_surge stuck_r (trace_of stuck_p stuck_c)).
Proof.
  apply (restart_surge_start restart_cfg stuck_r (trace_of stuck_p stuck_c)
           (outcome_of stuck_p stuck_c)).
  - apply cluster_runs.
  - vm_compute. reflexivity.
  - intros E. apply (f_equal (fmap shape)) in E. vm_compute in E. discriminate E.
Defined.

(** ** Timing out, and yielding to a drain *)

Section ending.
Context {L : K8sLib}.

Abbreviation meta r := (GetObjectMeta r).
Abbreviation annos r := (Annotations (GetObjectMeta r)).

Lemma restart_timeout_wp cfg r start :
  Node.isActive (restart_state r) = true → parseRestartSurgeStart (annos r) = Some start →
  wp (Restart.reconcileWorkload cfg r) (λ tr o,
    Forall (λ now, RestartSurgeTimeout cfg < Sub now start) (clock_reads tr) →
    o = Crashed ∨ ∃ okh ok, writes tr = restore_writes (meta r) okh ++ [restart_abort_write r ok]
                            ∧ (succeeded o → ok = true)).
Proof.
  intros Ha Hp. unfold Restart.reconcileWorkload.
  change (Node.anno r AnnotationRestartSurgeState) with (restart_state r). rewrite Ha Hp.
  repeat wp_step; try by left.
  3: { apply wp_runs. intros tr o _ Hnow. exfalso.
       cbn in Hnow. apply Forall_cons_1 in Hnow as [? _]. lia. }
  all: eapply wp_mono; [|apply abortRestartSurge_effect]; intros tr o [_ He] _.
  all: inversion He; subst; [by left..|right; eauto using ok_succeeded].
Qed.

(** What the server stores in an owned annotation after a patch. *)
Definition stored_after (p : MergePatch) (stored : annotations) (key : string) : option string :=
  merge_annotations (patch_annotations p) stored !! key.

Lemma stored_after_patch rep a stored key : key ∈ drainAnnotationKeys →
  stored_after (mkMergePatch rep (anno_patch a)) stored key = anno_lookup a key.
Proof. apply merge_anno_patch_owned. Qed.
End ending.

(** C24. A restart-surge that is active and whose recorded start lies further back
    than its timeout is always ended by a run that does not crash: after restoring
    the recorded autoscaler minimum, one patch sets the recorded original replica
    count and removes the five restart-surge annotations from the server, and
    keeps the drain's own three as they were read. *)
Theorem restart_timeout_aborts {L : K8sLib} (cfg : Config) (r : Rollout) (start : Time)
    (original : Z) tr o
    (Hrun : runs (Restart.reconcileWorkload cfg r) tr o)
    (Hactive : Node.isActive (restart_state r) = true)
    (Hstart : parseRestartSurgeStart (Annotations (GetObjectMeta r)) = Some start)
    (Horig : getOriginalReplicas (Annotations (GetObjectMeta r)) = inr original)
    (Hlate : Forall (λ now, RestartSurgeTimeout cfg < Sub now start) (clock_reads tr))
    (Hcrash : o ≠ Crashed) :
  ∃ p okh ok,
    writes tr = restore_writes (GetObjectMeta r) okh
      ++ [WWorkload KRollout (Namespace (GetObjectMeta r)) (Name (GetObjectMeta r)) p ok]
    ∧ (succeeded o → ok = true)
    ∧ patch_replicas p = Some original
    ∧ ∀ stored,
        (∀ key, key ∈ restartSurgeFullKeys → stored_after p stored key = None)
        ∧ ∀ key, key ∈ drainExclusiveKeys →
            stored_after p stored key = anno_lookup (Annotations (GetObjectMeta r)) key.
Proof.
  eapply wp_runs in Hrun; [|by apply restart_timeout_wp].
  destruct (Hrun Hlate) as [|(okh & ok & Hw & Hok)]; [done|].
  eexists _, okh, ok. split; [exact Hw|]. split; [done|]. split.
  { cbn. unfold abort_replicas. by rewrite Horig. }
  intros stored. split; intros key Hkey.
  - rewrite stored_after_patch; [by anno_simpl|].
    unfold restartSurgeFullKeys, drainAnnotationKeys in *. set_solver.
  - rewrite stored_after_patch; [|unfold drainExclusiveKeys, drainAnnotationKeys in *; set_solver].
    unfold clearRestartSurgeAnnotations. rewrite anno_lookup_kept //.
    unfold drainExclusiveKeys, restartSurgeFullKeys in *. set_solver.
Qed.

(** The annotations of a restart-surge in state [s] that started at [t0]. *)
Definition surging_annotations (s : DrainState) : annotations :=
  <[AnnotationRestartSurgeStart := Format_RFC3339 t0]>
  (<[AnnotationOriginalReplicas := "1"]> (<[AnnotationRestartSurgeState := s]> enabled)).

Definition late_r : Rollout :=
  web_ro (Some 2) (surging_annotations DrainStateScaledUp) (Some (t0 - 2 * Minute)).
Definition late_rc : cluster := ro_cluster late_r [] [] (t0 + 11 * Minute).
Definition late_rp : prog (error + Result) := Restart.reconcileWorkload restart_cfg late_r.

Lemma restart_timeout_aborts_witness :
  ∃ p okh ok,
    writes (trace_of late_rp late_rc) = restore_writes (GetObjectMeta late_r) okh
      ++ [WWorkload KRollout (Namespace (GetObjectMeta late_r)) (Name (GetObjectMeta late_r)) p ok]
    ∧ (succeeded (outcome_of late_rp late_rc) → ok = true)
    ∧ patch_replicas p = Some 1
    ∧ ∀ stored,
        (∀ key, key ∈ restartSurgeFullKeys → stored_after p stored key = None)
        ∧ ∀ key, key ∈ drainExclusiveKeys →
            stored_after p stored key = anno_lookup (Annotations (GetObjectMeta late_r)) key.
Proof.
  apply (restart_timeout_aborts restart_cfg late_r t0 1 (trace_of late_rp late_rc)
           (outcome_of late_rp late_rc)).
  - apply cluster_runs.
  - vm_compute. reflexivity.
  - vm_compute. reflexivity.
  - vm_compute. reflexivity.
  - assert (clock_reads (trace_of late_rp late_rc) = [t0 + 11 * Minute]) as ->
      by (vm_compute; reflexivity).
    repeat constructor.
  - assert (outcome_of late_rp late_rc = Returned (inr no_requeue)) as -> by (vm_compute; reflexivity).
    discriminate.
Defined.

(** ** Restart-surge and drain together *)

Section together.
Context {L : K8sLib}.

Abbreviation meta r := (GetObjectMeta r).
Abbreviation annos r := (Annotations (GetObjectMeta r)).

(** While a drain is in progress and the restart-surge is not overdue, the only
    write is the yield patch. *)
Lemma drain_in_progress_writes cfg r tr o x :
  restart_effect cfg r tr o → drain_state r ≠ "" → ¬ restart_overdue cfg r tr → x ∈ writes tr →
  ∃ ok, x = wl_write r (yield_replicas r) (clearRestartSurgeExclusiveAnnotations (annos r)) ok.
Proof.
  intros Heff Hd Hlate Hx.
  destruct Heff; match goal with H : writes _ = _ |- _ => rewrite H in Hx end;
    [by apply not_elem_of_nil in Hx|..]; try done.
  all: try (match goal with H : restart_eligible _ _ _ |- _ =>
              by destruct Hd; apply (re_no_drain _ _ _ H) end).
  - apply list_elem_of_singleton in Hx as ->. by exists ok.
  - exfalso. destruct H as [_ [?|[[??]|[??]]]]; done.
Qed.

(** The replica count while a restart-surge waits. *)
Lemma restart_waiting_replicas cfg r tr o k ns n p ok original :
  restart_effect cfg r tr o → restart_state r ∈ [DrainStateScaledUp; DrainStateReady] →
  drain_state r = "" → getOriginalReplicas (annos r) = inr original →
  ¬ restart_overdue cfg r tr → WWorkload k ns n p ok ∈ writes tr →
  waiting_patch (restart_state r) r original (restart_over r tr) p.
Proof.
  intros Heff Hs Hd Ho Hlate Hx.
  assert (∀ s, restart_state r = s → s = DrainStateScaledUp ∨ s = DrainStateReady) as Hs'.
  { intros s <-. by rewrite elem_of_cons list_elem_of_singleton in Hs. }
  destruct Heff; match goal with H : writes _ = _ |- _ => rewrite H in Hx end;
    [by apply not_elem_of_nil in Hx|..].
  all: try match goal with H : restart_eligible _ _ _ |- _ =>
         by destruct (Hs' _ (re_state _ _ _ H)) end.
  all: try match goal with H : restart_state _ = _ |- _ => by destruct (Hs' _ H) end.
  - apply list_elem_of_singleton in Hx. injection Hx as -> -> -> -> ->. right; left. cbn.
    rewrite Ho in H2. injection H2 as <-. split; [|done].
    destruct (Hs' _ eq_refl) as [E|E]; [done|]. rewrite E in H. by apply elem_of_cons in H as [|H%list_elem_of_singleton].
  - apply list_elem_of_singleton in Hx. injection Hx as -> -> -> -> ->. by left.
  - apply restore_write_shape in Hx as (? & ? & [=] & _).
  - apply elem_of_app in Hx as [(? & ? & [=] & _)%restore_write_shape|Hx%list_elem_of_singleton].
    injection Hx as -> -> -> -> ->. right; right. rewrite Ho in H2. injection H2 as <-. done.
  - done.
  - exfalso. destruct H as [_ [?|[[_ [e ?]]|[_ Hn]]]]; [done|congruence|].
    destruct Hn. destruct (Hs' _ eq_refl) as [-> | ->]; solve_key.
Qed.
End together.

(** C23. Yielding to a drain is safe for the drain: when a drain is in progress on
    the Rollout and the restart-surge is not overdue, the controller writes nothing
    but one patch of the Rollout which removes its own two annotations from the
    server and keeps all six the drain controller relies on, the original replica
    count and the recorded autoscaler included. *)
Theorem restart_yields_to_drain {L : K8sLib} (cfg : Config) (r : Rollout) tr o x
    (Hrun : runs (Restart.reconcileWorkload cfg r) tr o)
    (Hdrain : drain_state r ≠ "") (Hlate : ¬ restart_overdue cfg r tr) (Hx : x ∈ writes tr) :
  ∃ p ok, x = WWorkload KRollout (Namespace (GetObjectMeta r)) (Name (GetObjectMeta r)) p ok
    ∧ ∀ stored,
        (∀ key, key ∈ restartSurgeExclusiveKeys → stored_after p stored key = None)
        ∧ ∀ key, key ∈ drainOwnKeys →
            stored_after p stored key = anno_lookup (Annotations (GetObjectMeta r)) key.
Proof.
  apply run_restart in Hrun as [_ Heff].
  destruct (drain_in_progress_writes cfg r tr o x) as [ok ->]; [done..|].
  eexists _, ok. split; [done|]. intros stored. split; intros key Hkey.
  - rewrite stored_after_patch; [by anno_simpl|].
    unfold restartSurgeExclusiveKeys, drainAnnotationKeys in *. set_solver.
  - rewrite stored_after_patch; [|unfold drainOwnKeys, drainAnnotationKeys in *; set_solver].
    unfold clearRestartSurgeExclusiveAnnotations. rewrite anno_lookup_kept //.
    unfold drainOwnKeys, restartSurgeExclusiveKeys in *. set_solver.
Qed.

(** A restart-surge on a Rollout that a drain has taken over. *)
Definition both_annotations : annotations :=
  <[AnnotationDrainState := DrainStateScaledUp]> (surging_annotations DrainStateScaledUp).
Definition both_r : Rollout := web_ro (Some 2) both_annotations (Some (t0 - 2 * Minute)).
Definition both_c (now : Time) : cluster := ro_cluster both_r [] [] now.
Definition both_p : prog (error + Result) := Restart.reconcileWorkload restart_cfg both_r.

Lemma restart_yields_to_drain_witness :
  ∃ p ok, writes (trace_of both_p (both_c (t0 + Minute)))
            = [WWorkload KRollout "default" "web" p ok]
    ∧ ∀ stored,
        (∀ key, key ∈ restartSurgeExclusiveKeys → stored_after p stored key = None)
        ∧ ∀ key, key ∈ drainOwnKeys →
            stored_after p stored key = anno_lookup (Annotations (GetObjectMeta both_r)) key.
Proof.
  destruct (shape_workload (writes (trace_of both_p (both_c (t0 + Minute)))) KRollout "default" "web"
              (Some 1) true) as (p & Hw & _); [vm_compute; reflexivity|].
  destruct (restart_yields_to_drain restart_cfg both_r (trace_of both_p (both_c (t0 + Minute)))
              (outcome_of both_p (both_c (t0 + Minute)))
              (WWorkload KRollout "default" "web" p true)) as (p' & ok & E & Hp).
  - apply cluster_runs.
  - intros H. vm_compute in H. discriminate H.
  - apply (restart_in_time restart_cfg both_r _ t0 (t0 + Minute)); vm_compute; reflexivity.
  - rewrite Hw. apply list_elem_of_here.
  - injection E as <- _. exists p, true. split; [exact Hw|exact Hp].
Defined.

(** C39. The two machines are not mutually exclusive when a restart-surge is overdue:
    its abort takes precedence over yielding, and the patch removes the shared
    annotations under a drain in progress.  Whatever is stored, the server is left
    with the drain state the controller read and without an original replica
    count, so the drain can no longer find the count it has to restore. *)
Theorem restart_timeout_strips_drain {L : K8sLib} (cfg : Config) (r : Rollout) (start : Time) tr o
    (Hrun : runs (Restart.reconcileWorkload cfg r) tr o)
    (Hactive : Node.isActive (restart_state r) = true) (Hdrain : drain_state r ≠ "")
    (Hstart : parseRestartSurgeStart (Annotations (GetObjectMeta r)) = Some start)
    (Hlate : Forall (λ now, RestartSurgeTimeout cfg < Sub now start) (clock_reads tr))
    (Hcrash : o ≠ Crashed) :
  ∃ k ns n p ok, WWorkload k ns n p ok ∈ writes tr
    ∧ ∀ stored, let a := Some (merge_annotations (patch_annotations p) stored) in
        anno_get a AnnotationDrainState = drain_state r
        ∧ ∃ e, getOriginalReplicas a = inl e.
Proof.
  eapply wp_runs in Hrun; [|by apply restart_timeout_wp].
  destruct (Hrun Hlate) as [|(okh & ok & Hw & _)]; [done|].
  eexists _, _, _, _, ok. split.
  { rewrite Hw. apply elem_of_app. right. apply list_elem_of_here. }
  intros stored a.
  assert (∀ key, key ∈ drainAnnotationKeys →
    anno_lookup a key = anno_lookup (clearRestartSurgeAnnotations (Annotations (GetObjectMeta r))) key)
    as Ha by (intros key; apply merge_anno_patch_owned).
  clearbody a. clear Hrun Hw. split.
  - rewrite anno_get_lookup Ha; [|solve_key].
    unfold clearRestartSurgeAnnotations. rewrite anno_lookup_kept; [reflexivity|solve_key].
  - unfold getOriginalReplicas. rewrite Ha; [|solve_key].
    unfold clearRestartSurgeAnnotations. rewrite anno_lookup_deleted; [eauto|solve_key].
Qed.

Lemma restart_timeout_strips_drain_witness :
  ∃ k ns n p ok, WWorkload k ns n p ok ∈ writes (trace_of both_p (both_c (t0 + 11 * Minute)))
    ∧ ∀ stored, let a := Some (merge_annotations (patch_annotations p) stored) in
        anno_get a AnnotationDrainState = drain_state both_r
        ∧ ∃ e, getOriginalReplicas a = inl e.
Proof.
  apply (restart_timeout_strips_drain restart_cfg both_r t0
           (trace_of both_p (both_c (t0 + 11 * Minute)))
           (outcome_of both_p (both_c (t0 + 11 * Minute)))).
  - apply cluster_runs.
  - vm_compute. reflexivity.
  - intros H. vm_compute in H. discriminate H.
  - vm_compute. reflexivity.
  - assert (clock_reads (trace_of both_p (both_c (t0 + 11 * Minute))) = [t0 + 11 * Minute]) as ->
      by (vm_compute; reflexivity).
    repeat constructor.
  - assert (outcome_of both_p (both_c (t0 + 11 * Minute)) = Returned (inr no_requeue)) as ->
      by (vm_compute; reflexivity).
    discriminate.
Defined.

(** C25. While a restart-surge waits (scaled up, or ready for Argo), is not overdue,
    its original count is readable and no drain took over, every patch keeps the
    count it read; or, scaled up without an autoscaler and with the count found at
    or below the original, re-applies original + 1; or, ready and after Argo
    reported the restart done or a pod list showed no live pod older than it,
    carries the scaled-down count.  So before the restart is over no patch lowers
    the count, unless the original is 2^31 - 1, whose successor wraps around. *)
Theorem restart_no_early_scale_down {L : K8sLib} (cfg : Config) (r : Rollout) (original : Z) tr o
    k ns n p ok
    (Hrun : runs (Restart.reconcileWorkload cfg r) tr o)
    (Hstate : restart_state r ∈ [DrainStateScaledUp; DrainStateReady]) (Hdrain : drain_state r = "")
    (Horig : getOriginalReplicas (Annotations (GetObjectMeta r)) = inr original)
    (Hlate : ¬ restart_overdue cfg r tr) (Hwrite : WWorkload k ns n p ok ∈ writes tr) :
  waiting_patch (restart_state r) r original (restart_over r tr) p
  ∧ (original < 2 ^ 31 - 1 →
     GetReplicas r ≤ default 1 (patch_replicas p)
     ∨ (restart_state r = DrainStateReady ∧ restart_over r tr)).
Proof.
  assert (waiting_patch (restart_state r) r original (restart_over r tr) p) as Hp
    by by eapply restart_waiting_replicas; [eapply run_restart|..].
  split; [done|]. by eapply waiting_not_lower.
Qed.

(** The surge pod is ready beside the old one. *)
Definition ready_r : Rollout :=
  web_ro (Some 2) (surging_annotations DrainStateScaledUp) (Some (t0 - 2 * Minute)).
Definition ready_c : cluster :=
  ro_cluster ready_r [web_pod "old" "node-1" true (t0 - 3 * Minute); web_pod "new" "node-2" true t0]
    [] (t0 + Minute).
Definition ready_p : prog (error + Result) := Restart.reconcileWorkload restart_cfg ready_r.

Lemma restart_no_early_scale_down_witness :
  ∃ p, writes (trace_of ready_p ready_c) = [WWorkload KRollout "default" "web" p true] ∧
  patch_replicas p = Some 2 ∧
  (waiting_patch (restart_state ready_r) ready_r 1
     (restart_over ready_r (trace_of ready_p ready_c)) p
   ∧ (1 < 2 ^ 31 - 1 → GetReplicas ready_r ≤ default 1 (patch_replicas p)
      ∨ (restart_state ready_r = DrainStateReady
         ∧ restart_over ready_r (trace_of ready_p ready_c)))).
Proof.
  destruct (shape_workload (writes (trace_of ready_p ready_c)) KRollout "default" "web"
              (Some 2) true) as (p & Hw & Hp); [vm_compute; reflexivity|].
  exists p. split; [exact Hw|]. split; [exact Hp|].
  apply (restart_no_early_scale_down restart_cfg ready_r 1 (trace_of ready_p ready_c)
           (outcome_of ready_p ready_c) KRollout "default" "web" p true).
  - apply cluster_runs.
  - assert (restart_state ready_r = DrainStateScaledUp) as -> by (vm_compute; reflexivity).
    apply list_elem_of_here.
  - vm_compute. reflexivity.
  - vm_compute. reflexivity.
  - apply (restart_in_time restart_cfg ready_r _ t0 (t0 + Minute)); vm_compute; reflexivity.
  - rewrite Hw. apply list_elem_of_here.
Defined.

(** ** The watch predicate *)

(** The predicate filters out nothing the controller would act on: a rejected
    Rollout is one that a reconcile leaves alone, in any environment. *)
Lemma rejected_no_writes {L : K8sLib} {LL : K8sLibLaws L} (cfg : Config) (r : Rollout) tr o :
  Restart.rolloutRelevantPredicate (EnabledAnnotation cfg) r = false →
  runs (Restart.reconcileWorkload cfg r) tr o → writes tr = [].
Proof.
  intros Hpred Hrun.
  destruct (decide (writes tr = [])) as [|Hne]; [done|exfalso].
  apply run_restart in Hrun as [_ Heff]. unfold Restart.rolloutRelevantPredicate in Hpred.
  destruct (String.eqb_spec (Node.anno r AnnotationRestartSurgeState) "") as [Hs|]; [|done].
  cbn [negb] in Hpred.
  destruct (restart_effect_start cfg r tr o Heff Hs Hne) as [[_ _ Hen _ _ Hstuck] _].
  rewrite Hen /= in Hpred. destruct Hstuck as (pods & now & _ & _ & Hstuck).
  destruct (isRestartStuck_pending _ _ _ _ Hstuck) as (t & Ht & Hr).
  rewrite Ht in Hpred. apply negb_false_iff, Time_Equal_spec in Hpred.
  apply (restarted_spec r t Ht) in Hpred. congruence.
Qed.

(** ** Orphan recovery *)

Section recovery.
Context {L : K8sLib}.

(** A recorded restart-surge that has nothing left to wait for. *)
Definition restart_orphan (r : Rollout) : bool :=
  negb (String.eqb (Node.anno r AnnotationRestartSurgeState) DrainStateNone) && Restart.argoIdle r.

Definition restart_recovered (tr : list called) (o : outcome (error + unit)) : Prop :=
  ¬ panicked o ∧ (o = Returned (inr ()) → ∃ ros all,
    Called (ListRollouts None) (inr ros) ∈ tr
    ∧ undoes GetObjectMeta restart_abort_write (List.filter restart_orphan ros) (writes tr) all).

Lemma restart_recovery_spec : wp Restart.RecoverOrphans restart_recovered.
Proof.
  unfold Restart.RecoverOrphans. repeat wp_step; try (by split; [intros []|]).
  apply wp_bind.
  eapply wp_mono; [|apply (undo_loop GetObjectMeta restart_abort_write Restart.abortRestartSurge
    restart_orphan Restart.recover_orphan l)].
  - intros tr [[]|m|] [Hp Hr]; cbn [bind_post wp]; [|by destruct Hp|by split; [intros []|]].
    destruct (Hr () eq_refl) as [all Ha]. split; [by intros []|]. intros _.
    exists l, all. split; [apply list_elem_of_here|]. by rewrite writes_cons app_nil_r.
  - intros r. eapply wp_mono; [|apply abortRestartSurge_effect]. intros tr o [Hp He].
    by apply undo_effect_returned.
  - intros r. unfold Restart.recover_orphan, restart_orphan.
    by destruct (String.eqb _ DrainStateNone), (Restart.argoIdle r).
Qed.
End recovery.

(** C30. Restart-surge orphan recovery is exact: when it succeeds, it aborted, in list
    order and whether or not earlier aborts failed, precisely the listed Rollouts
    that record a restart-surge and have no restart pending (none requested, or
    the requested one reported done), and wrote nothing else. *)
Theorem restart_RecoverOrphans_exact {L : K8sLib} {LL : K8sLibLaws L} tr
    (Hrun : runs Restart.RecoverOrphans tr (Returned (inr ()))) :
  ∃ ros orphans all,
    Called (ListRollouts None) (inr ros) ∈ tr
    ∧ (∀ r, r ∈ orphans ↔ r ∈ ros ∧ restart_state r ≠ "" ∧ ∀ t, ¬ restart_pending r t)
    ∧ orphans `sublist_of` ros
    ∧ undoes GetObjectMeta restart_abort_write orphans (writes tr) all.
Proof.
  eapply wp_runs in Hrun; [|apply restart_recovery_spec].
  destruct (proj2 Hrun eq_refl) as (ros & all & Hros & Hu).
  exists ros, (List.filter restart_orphan ros), all. split_all; [done| |apply filter_sublist|done].
  intros r. rewrite !list_elem_of_In filter_In. unfold restart_orphan, Restart.argoIdle.
  rewrite andb_true_iff negb_true_iff String.eqb_neq. unfold restart_pending, restart_state.
  destruct (ro_RestartAt r) as [t|] eqn:Et; [|naive_solver].
  rewrite (restarted_spec r t Et). split; [naive_solver|].
  intros (Hin & Hs & Hp). split; [done|]. split; [done|].
  destruct (decide (ro_RestartedAt r = Some t)); [done|]. by destruct (Hp t).
Qed.

Definition leftover_r : Rollout := web_ro (Some 2) (surging_annotations DrainStateReady) None.
Definition leftover_c : cluster := ro_cluster leftover_r [] [] t0.

Lemma restart_RecoverOrphans_exact_witness :
  shape <$> writes (trace_of Restart.RecoverOrphans leftover_c)
    = [inl (KRollout, "default", "web", Some 1, true)]
  ∧ ∃ ros orphans all,
      Called (ListRollouts None) (inr ros) ∈ trace_of Restart.RecoverOrphans leftover_c
      ∧ (∀ r, r ∈ orphans ↔ r ∈ ros ∧ restart_state r ≠ "" ∧ ∀ t, ¬ restart_pending r t)
      ∧ orphans `sublist_of` ros
      ∧ undoes GetObjectMeta restart_abort_write orphans
          (writes (trace_of Restart.RecoverOrphans leftover_c)) all.
Proof.
  split; [vm_compute; reflexivity|].
  apply (restart_RecoverOrphans_exact (LL := match_labels_laws)
           (trace_of Restart.RecoverOrphans leftover_c)).
  assert (outcome_of Restart.RecoverOrphans leftover_c = Returned (inr ())) as <-
    by (vm_compute; reflexivity).
  apply cluster_runs.
Defined.
