(* ===== verification/RestartSafety.v ===== *)
(** * Crash safety of the restart-surge controller, alone and beside the drain

    Two more clients of the system of [StoreSystem].  Alone, the restart-surge
    controller keeps its group and the bookkeeping together.  When both controllers
    work on one Rollout, from stale versions and with late patches, the groups stay
    whole and a recorded original count is always 1; the one combination in which
    the bookkeeping is missing is a drain whose bookkeeping an aborted
    restart-surge removed. *)

From stdpp Require Import pretty.
From S2P Require Import Prelude GoStd GoTime K8s Effects Loops Config State Workload Scaler.
From S2P Require Import RestartDetect NodeController RolloutController NodeSpec NodeSound.
From S2P Require Import Cluster Samples NodeProps RestartSpec RestartSound StoreSystem Records.
From S2P Require Import CrashSafety RestartProps.

Local Open Scope Z_scope.

Definition restart_ok (a : option annotations) : Prop := ∃ x, groups false x x a.

(** The shapes of two controllers: a restart-surge has its bookkeeping, and
    bookkeeping belongs to some operation. *)
Definition both_ok (a : option annotations) : Prop :=
  ∃ d r b, groups d r b a ∧ (r = true → b = true) ∧ (b = true → d = true ∨ r = true).

#[global] Instance restart_ok_proper : Proper (same_owned ==> iff) restart_ok.
Proof. intros a b H. unfold restart_ok. by setoid_rewrite H. Qed.
#[global] Instance both_ok_proper : Proper (same_owned ==> iff) both_ok.
Proof. intros a b H. unfold both_ok. by setoid_rewrite H. Qed.

Section systems.
Context {L : K8sLib} (cfg : Config).

(** A reconcile of a Rollout, or an abort by the orphan recovery. *)
Definition restart_runs (v : DrainableWorkload) (p : prog (error + Result)) : Prop :=
  ∃ r, v = WRollout r ∧ (p = Restart.reconcileWorkload cfg r ∨ p = Restart.abortRestartSurge r).

(** Both controllers on the same objects. *)
Definition both_runs (v : DrainableWorkload) (p : prog (error + Result)) : Prop :=
  drain_runs cfg v p ∨ restart_runs v p.

Lemma restart_run_moves v p tr o mp d r b : groups d r b (Annotations (GetObjectMeta v)) →
  restart_runs v p → runs p tr o → mp ∈ patches tr → ∃ a, carries mp a ∧ restart_moves d r b a.
Proof.
  intros Hg (ro & -> & [->| ->]) Hr Hp; eapply patch_with_patches; try exact Hp.
  - eapply restart_effect_shape; [exact Hg|]. by eapply run_restart.
  - eapply wp_runs in Hr; [|apply abortRestartSurge_effect]. destruct Hr as [_ He].
    eapply patch_with_undo; [|exact He]. intros ok. by apply restart_abort_moves.
Qed.

#[global] Instance restart_keeps : KeepsRecords restart_runs restart_ok.
Proof.
  intros v p tr o mp [x Hx] Hs Hr Hp.
  destruct (restart_run_moves v p tr o mp false x x) as (a & Hc & Ha); try done.
  exists a. split; [done|]. destruct Ha as [|[(_ & _ & ?)|[|[? _]]]]; [by eexists..|done].
Qed.

#[global] Instance both_keeps : KeepsRecords both_runs both_ok.
Proof.
  intros v p tr o mp (d & r & b & Hg & Hrb & Hb) [Hs|Hs] Hr Hp.
  - destruct (drain_run_moves cfg v p tr o mp d r b) as (a & Hc & Ha); try done.
    exists a. split; [done|]. destruct Ha as [|[[_ ?]|]]; eexists _, _, _; eauto 6; naive_solver.
  - destruct (restart_run_moves v p tr o mp d r b) as (a & Hc & Ha); try done.
    exists a. split; [done|].
    destruct Ha as [|[(_ & _ & ?)|[|[-> ?]]]]; eexists _, _, _; split; eauto 6; naive_solver.
Qed.
End systems.

(** C13. Crash safety of the restart-surge controller.  From a Rollout with none of
    the owned annotations, under the same stale reads, crashes, failing calls and
    late or repeated patches as for the drain, every stored version carries none
    of the owned annotations, or a whole restart-surge record (a state past
    [pending], a formatted start, original count 1, the autoscaler absent or
    readable) and no drain annotation; aborting it sets 1 replica. *)
Theorem restart_crash_safe {L : K8sLib} (cfg : Config) (w : DrainableWorkload) (s : system)
    (v : DrainableWorkload)
    (Hstart : no_record (Annotations (GetObjectMeta w)))
    (Hreach : reachable (restart_runs cfg) w s) (Hv : v ∈ versions s) :
  let a := Annotations (GetObjectMeta v) in
  no_record a ∨ (restart_group a ∧ bookkeeping a ∧ absent drainExclusiveKeys a
                 ∧ abort_replicas v = Some 1).
Proof.
  intros a. destruct (reachable_ok (restart_runs cfg) restart_ok w s v) as [[] Ha]; try done.
  - exists false. by apply shape_empty.
  - right. destruct Ha as [Hd Hr Hb]. split_all; try done.
    unfold abort_replicas. by rewrite (bookkeeping_original _ Hb).
  - left. by apply shape_empty.
Qed.

(** C12. Both controllers on one workload.  However reconciles and aborts of the
    drain and the restart-surge controller interleave, from stale versions, with
    crashes and late or repeated patches, every stored version of an object that
    started without owned annotations carries (1) none of them, or (2) one or both
    operations, each with its whole group, and the bookkeeping they share with an
    original count of 1, so that aborting sets 1 replica, or (3) a drain alone
    without bookkeeping, which an aborted restart-surge under a drain leaves; an
    abort then keeps the count it finds. *)
Theorem both_crash_safe {L : K8sLib} (cfg : Config) (w : DrainableWorkload) (s : system)
    (v : DrainableWorkload)
    (Hstart : no_record (Annotations (GetObjectMeta w)))
    (Hreach : reachable (both_runs cfg) w s) (Hv : v ∈ versions s) :
  let a := Annotations (GetObjectMeta v) in
  no_record a
  ∨ (bookkeeping a ∧ abort_replicas v = Some 1 ∧ (drain_group a ∨ restart_group a)
     ∧ (drain_group a ∨ absent drainExclusiveKeys a)
     ∧ (restart_group a ∨ absent restartSurgeExclusiveKeys a))
  ∨ (drain_group a ∧ absent restartSurgeFullKeys a ∧ abort_replicas v = spec_Replicas v).
Proof.
  intros a.
  destruct (reachable_ok (both_runs cfg) both_ok w s v) as (d & r & b & Ha & Hrb & Hb); try done.
  { exists false, false, false. split; [by apply shape_empty|done]. }
  destruct b.
  - right; left. destruct Ha as [Hd Hr Hbk]. split; [done|]. split.
    { unfold abort_replicas. by rewrite (bookkeeping_original _ Hbk). }
    destruct (Hb eq_refl) as [->| ->]; split_all; eauto; (destruct r || destruct d); auto.
  - destruct r; [by specialize (Hrb eq_refl)|]. destruct d; [right; right|left; by apply shape_empty].
    destruct Ha as [Hd Hr Hbk]. cbn in *. split; [done|]. split.
    { intros k Hk. assert (k ∈ restartSurgeExclusiveKeys ∨ k ∈ bookkeepingKeys) as [|];
        [|by apply Hr|by apply Hbk].
      unfold restartSurgeFullKeys, restartSurgeExclusiveKeys, bookkeepingKeys in *. set_solver. }
    unfold abort_replicas, getOriginalReplicas. by rewrite Hbk; [|solve_key].
Qed.

(** The stuck Rollout of the samples surged by a patch that arrives after the
    reconcile that sent it. *)
Definition stuck_s (p : MergePatch) : system :=
  mkSystem [patch_stored p (WRollout stuck_r); WRollout stuck_r] (patches (trace_of stuck_p stuck_c)).

Lemma stuck_no_record : no_record (Annotations (GetObjectMeta (WRollout stuck_r))).
Proof.
  intros k Hk. unfold drainAnnotationKeys in Hk.
  repeat (apply elem_of_cons in Hk as [->|Hk]; [vm_compute; reflexivity|]).
  destruct (not_elem_of_nil _ Hk).
Qed.

Lemma stuck_patch : ∃ p, patches (trace_of stuck_p stuck_c) = [p] ∧ patch_replicas p = Some 2.
Proof.
  destruct (shape_workload (writes (trace_of stuck_p stuck_c)) KRollout "default" "web" (Some 2) true)
    as (p & Hw & Hp); [vm_compute; reflexivity|].
  exists p. split; [unfold patches; rewrite Hw; reflexivity|exact Hp].
Qed.

Lemma stuck_reachable starts p : patches (trace_of stuck_p stuck_c) = [p] →
  starts (WRollout stuck_r) stuck_p → reachable starts (WRollout stuck_r) (stuck_s p).
Proof.
  intros Hps Hs.
  apply (rtc_l _ _ (mkSystem [WRollout stuck_r] (patches (trace_of stuck_p stuck_c) ++ []))).
  { by apply (sys_run _ (WRollout stuck_r) stuck_p _ (outcome_of stuck_p stuck_c));
      [apply list_elem_of_here| |apply cluster_runs]. }
  rewrite app_nil_r. apply rtc_once, sys_apply. rewrite Hps. apply list_elem_of_here.
Qed.

Lemma stuck_starts : restart_runs restart_cfg (WRollout stuck_r) stuck_p.
Proof. exists stuck_r. split; [reflexivity|left; reflexivity]. Qed.

Lemma restart_crash_safe_witness :
  ∃ p, patches (trace_of stuck_p stuck_c) = [p] ∧
    let v := patch_stored p (WRollout stuck_r) in
    let a := Annotations (GetObjectMeta v) in
    no_record a ∨ (restart_group a ∧ bookkeeping a ∧ absent drainExclusiveKeys a
                   ∧ abort_replicas v = Some 1).
Proof.
  destruct stuck_patch as (p & Hps & _). exists p. split; [exact Hps|].
  apply (restart_crash_safe restart_cfg (WRollout stuck_r) (stuck_s p)).
  - apply stuck_no_record.
  - apply stuck_reachable; [exact Hps|apply stuck_starts].
  - apply list_elem_of_here.
Defined.

Lemma both_crash_safe_witness :
  ∃ p, patches (trace_of stuck_p stuck_c) = [p] ∧
    let v := patch_stored p (WRollout stuck_r) in
    let a := Annotations (GetObjectMeta v) in
    no_record a
    ∨ (bookkeeping a ∧ abort_replicas v = Some 1 ∧ (drain_group a ∨ restart_group a)
       ∧ (drain_group a ∨ absent drainExclusiveKeys a)
       ∧ (restart_group a ∨ absent restartSurgeExclusiveKeys a))
    ∨ (drain_group a ∧ absent restartSurgeFullKeys a ∧ abort_replicas v = spec_Replicas v).
Proof.
  destruct stuck_patch as (p & Hps & _). exists p. split; [exact Hps|].
  apply (both_crash_safe restart_cfg (WRollout stuck_r) (stuck_s p)).
  - apply stuck_no_record.
  - apply stuck_reachable; [exact Hps|right; apply stuck_starts].
  - apply list_elem_of_here.
Defined.
