(* ===== verification/Counts.v ===== *)
(** * Which counts the controllers write

    Every replica count and every autoscaler minimum a run writes is one it read,
    2, or derived from the recorded original count; it is always an int32, and for
    the records the controllers keep it is the count read, 1 or 2. *)

From stdpp Require Import pretty.
From S2P Require Import Prelude GoStd GoTime K8s Effects Loops Config State Workload Scaler.
From S2P Require Import RestartDetect NodeController RolloutController NodeSpec NodeSound.
From S2P Require Import Cluster Samples NodeProps RestartSpec RestartSound StoreSystem Records.
From S2P Require Import CrashSafety RestartProps RestartSafety.

Local Open Scope Z_scope.

Section counts.
Context {L : K8sLib} {T : Type} {D : Drainable T} {DL : DrainableLaws T}.

Abbreviation meta w := (GetObjectMeta w).
Abbreviation annos w := (Annotations (GetObjectMeta w)).

(** Where a replica count may come from. *)
Definition count_of (w : T) (n : option Z) : Prop :=
  n = spec_Replicas w ∨ n = Some 2
  ∨ ∃ original, getOriginalReplicas (annos w) = inr original
      ∧ (n = Some original ∨ n = Some (int32_add original 1)).

Definition counted (w : T) (x : write) : Prop :=
  match x with
  | WWorkload k ns n p _ => k = workload_kind w ∧ ns = Namespace (meta w) ∧ n = Name (meta w)
                            ∧ count_of w (patch_replicas p)
  | WHPA ns n min _ => ns = Namespace (meta w)
                       ∧ (min = 2 ∨ restore_target (meta w) = Some (n, min))
  end.

Lemma counted_wl (w : T) r a ok : count_of w r → counted w (wl_write w r a ok).
Proof. done. Qed.

Lemma counted_restore (w : T) ok : Forall (counted w) (restore_writes (meta w) ok).
Proof.
  unfold restore_writes. destruct (restore_target (meta w)) as [[n v]|] eqn:E; [|done].
  apply Forall_cons; split; [|done]. split; [done|by right].
Qed.

Lemma count_spec (w : T) : count_of w (spec_Replicas w).
Proof. by left. Qed.
Lemma count_two (w : T) : count_of w (Some 2).
Proof. by right; left. Qed.
Lemma count_original (w : T) n : getOriginalReplicas (annos w) = inr n → count_of w (Some n).
Proof. intros H. do 2 right. exists n. auto. Qed.
Lemma count_surged (w : T) n :
  getOriginalReplicas (annos w) = inr n → count_of w (Some (int32_add n 1)).
Proof. intros H. do 2 right. exists n. auto. Qed.
Lemma count_abort (w : T) : count_of w (abort_replicas w).
Proof.
  unfold abort_replicas. destruct (getOriginalReplicas _) eqn:E; [apply count_spec|].
  by apply count_original.
Qed.
Lemma count_scaledown (w : T) n :
  getOriginalReplicas (annos w) = inr n → count_of w (scaledown_replicas w n).
Proof.
  intros H. unfold scaledown_replicas. destruct (String.eqb _ ""); [by apply count_original|].
  apply count_spec.
Qed.

Lemma counted_undo (w : T) final ws o : (∀ ok, counted w (final ok)) →
  undo_effect (meta w) final ws o → Forall (counted w) ws.
Proof.
  intros Hf []; [constructor|apply counted_restore|].
  apply Forall_app; split; [apply counted_restore|]. by repeat constructor.
Qed.
End counts.

Create HintDb counts discriminated.
#[export] Hint Resolve count_spec count_two count_original count_surged count_abort
  count_scaledown : counts.

(** Every write of an effect has a count from one of these sources. *)
Ltac solve_counts :=
  repeat match goal with
    | |- Forall _ (_ ++ _) => apply Forall_app; split
    | |- Forall _ [] => apply Forall_nil_2
    | |- Forall (counted ?w) (restore_writes _ _) => apply (counted_restore w)
    | H : _ ∨ _ |- Forall (counted ?w) ?l => is_var l; destruct H as [->|H]
    | H : _ = true ∧ (∃ _, _ = _) |- Forall (counted ?w) ?l => is_var l; destruct H as [_ [? ->]]
    | H : ?l = restore_writes _ _ |- Forall (counted ?w) ?l => is_var l; subst l
    | |- Forall _ (_ :: _) => apply Forall_cons; split
    | |- counted _ (wl_write _ _ _ _) => apply counted_wl
    | |- counted _ (state_write _ _ _ _) => apply counted_wl
    | |- counted _ (restart_state_write _ _ _ _) => apply counted_wl
    | |- counted _ (WHPA _ _ 2 _) => split; [done|by left]
    | |- count_of _ (if ?c then _ else _) => destruct c
    | |- count_of _ _ => by eauto with counts
    end.

Section effects.
Context {L : K8sLib} (cfg : Config) {T : Type} {D : Drainable T} {DL : DrainableLaws T}.

Lemma abort_counted (w : T) ok : counted w (abort_write w ok).
Proof. apply counted_wl, count_abort. Qed.

Lemma drain_counts (w : T) node tr o :
  drain_effect cfg w node tr o → Forall (counted w) (writes tr).
Proof.
  intros Heff. destruct Heff; match goal with H : writes _ = _ |- _ => rewrite H end; solve_counts.
  all: eapply counted_undo; [|eassumption]; apply abort_counted.
Qed.
End effects.

Section restart_effects.
Context {L : K8sLib} (cfg : Config).

Lemma restart_abort_counted (r : Rollout) ok : counted r (restart_abort_write r ok).
Proof. apply counted_wl, count_abort. Qed.

Lemma count_yield (r : Rollout) : count_of r (yield_replicas r).
Proof. unfold yield_replicas. destruct (String.eqb _ ""); [apply count_abort|apply count_spec]. Qed.
#[local] Hint Resolve count_yield : counts.

Lemma restart_counts (r : Rollout) tr o :
  restart_effect cfg r tr o → Forall (counted r) (writes tr).
Proof.
  intros Heff. destruct Heff; match goal with H : writes _ = _ |- _ => rewrite H end; solve_counts.
  all: eapply counted_undo; [|eassumption]; apply restart_abort_counted.
Qed.

(** Every run of either controller on a stored object. *)
Lemma both_counts (v : DrainableWorkload) p tr o :
  both_runs cfg v p → runs p tr o → Forall (counted v) (writes tr).
Proof.
  intros [[(node & _ & ->)| ->]|(r & -> & [->| ->])] Hr.
  - eapply drain_counts. by apply run_effect in Hr as [_ ?].
  - eapply wp_runs in Hr; [|apply abortWorkload_effect]. destruct Hr as [_ He].
    eapply counted_undo; [|exact He]. apply abort_counted.
  - apply (restart_counts r tr o). by apply run_restart in Hr as [_ ?].
  - eapply wp_runs in Hr; [|apply abortRestartSurge_effect]. destruct Hr as [_ He].
    apply (counted_undo r _ _ _ (restart_abort_counted r) He).
Qed.
End restart_effects.

Definition int32_write {L : K8sLib} (x : write) : Prop :=
  match x with
  | WWorkload _ _ _ p _ => ∀ n, patch_replicas p = Some n → is_int32 n
  | WHPA _ _ min _ => is_int32 min
  end.

(** The counts of a surge: what was read, one, or two. *)
Definition surge_write {L : K8sLib} (v : DrainableWorkload) (x : write) : Prop :=
  match x with
  | WWorkload k ns n p _ =>
      k = workload_kind v ∧ ns = Namespace (GetObjectMeta v) ∧ n = Name (GetObjectMeta v)
      ∧ patch_replicas p ∈ [spec_Replicas v; Some 1; Some 2]
  | WHPA ns n min _ =>
      ns = Namespace (GetObjectMeta v)
      ∧ (min = 2 ∨ restore_target (GetObjectMeta v) = Some (n, min))
  end.

Section ranges.
Context {L : K8sLib}.

Lemma restore_target_int32 m n min : restore_target m = Some (n, min) → is_int32 min.
Proof.
  unfold restore_target. destruct (String.eqb _ ""); [done|].
  destruct (Atoi _); [|done]. intros [= _ <-]. auto with surge.
Qed.

Lemma counted_int32 (v : DrainableWorkload) x : (∀ n, spec_Replicas v = Some n → is_int32 n) →
  counted v x → int32_write x.
Proof.
  intros Hspec. destruct x as [k ns n p ok|ns n min ok]; cbn.
  - intros (_ & _ & _ & [E|[E|(o & Ho & [E|E])]]) c Hc; rewrite Hc in E.
    + by apply Hspec.
    + injection E as ->. done.
    + injection E as ->. by eapply getOriginalReplicas_range.
    + injection E as ->. apply int32_wrap_range.
  - intros [_ [->|H]]; [done|]. by eapply restore_target_int32.
Qed.

Lemma counted_surge (v : DrainableWorkload) x : both_ok (Annotations (GetObjectMeta v)) →
  counted v x → surge_write v x.
Proof.
  intros (d & r & b & Hg & _) Hx. destruct x as [k ns n p ok|ns n min ok]; [|done].
  destruct Hx as (-> & -> & -> & H). cbn [surge_write]. split_all; [done..|].
  destruct H as [->|[->|(o & Ho & E)]].
  - apply list_elem_of_here.
  - apply list_elem_of_further, list_elem_of_further, list_elem_of_here.
  - destruct (shape_original _ _ _ _ _ Hg Ho) as [-> _]. change (int32_add 1 1) with 2 in E.
    destruct E as [->| ->]; repeat constructor.
Qed.
End ranges.

(** C15. Counts stay in range.  Whatever the annotations hold and the server answers,
    every replica count and autoscaler minimum that a run of either controller
    writes is an int32.  On every version of a workload the two controllers can
    produce, a patch only addresses that workload, and asks for the replica count
    it read, for 1 or for 2; an autoscaler minimum it writes is 2 or the one
    recorded. *)
Theorem written_counts {L : K8sLib} (cfg : Config) (v : DrainableWorkload)
    (p : prog (error + Result)) tr o
    (Hstart : both_runs cfg v p) (Hrun : runs p tr o)
    (Hspec : ∀ n, spec_Replicas v = Some n → is_int32 n) :
  Forall int32_write (writes tr)
  ∧ (both_ok (Annotations (GetObjectMeta v)) → Forall (surge_write v) (writes tr)).
Proof.
  pose proof (both_counts cfg v p tr o Hstart Hrun) as Hc. split.
  - eapply Forall_impl; [exact Hc|]. intros x. by apply counted_int32.
  - intros Hok. eapply Forall_impl; [exact Hc|]. intros x. by apply counted_surge.
Qed.

Lemma written_counts_witness :
  length (writes crash_tr) = 1%nat ∧ Forall int32_write (writes crash_tr)
  ∧ Forall (surge_write crash_w) (writes crash_tr).
Proof.
  split; [vm_compute; reflexivity|].
  destruct (written_counts cfg crash_w crash_p crash_tr (outcome_of crash_p sample_c)) as [H1 H2].
  - left. left. exists "node-1". split; [discriminate|reflexivity].
  - apply cluster_runs.
  - intros n H. vm_compute in H. injection H as <-. split; [discriminate|reflexivity].
  - split; [exact H1|]. apply H2. exists false, false, false. split; [|split; discriminate].
    apply shape_empty. intros k Hk. unfold drainAnnotationKeys in Hk.
    repeat (apply elem_of_cons in Hk as [->|Hk]; [vm_compute; reflexivity|]).
    destruct (not_elem_of_nil _ Hk).
Defined.
