(* ===== verification/RestartProgress.v ===== *)
(** * Progress of a restart-surge

    A successful reconcile of a restart-surge in progress takes exactly the next
    step its observations allow; and a whole restart-surge runs end to end. *)

From stdpp Require Import pretty.
From S2P Require Import Prelude GoStd GoTime K8s Effects Loops Config State Workload Scaler.
From S2P Require Import RestartDetect NodeController RolloutController NodeSpec NodeSound.
From S2P Require Import Cluster Samples NodeProps NodeProgress RestartSpec RestartSound RestartProps.

Local Open Scope Z_scope.

Section progress.
Context {L : K8sLib} (cfg : Config).

Abbreviation meta r := (GetObjectMeta r).
Abbreviation annos r := (Annotations (GetObjectMeta r)).

(** The writes that end the wait for Argo. *)
Definition finish_writes (r : Rollout) (original : Z) : list write :=
  restore_writes (meta r) true
  ++ [restart_state_write r DrainStateDraining (scaledown_replicas r original) true].

(** The step a successful reconcile takes in each state. *)
Definition restart_next (r : Rollout) (original : Z) (tr : list called) : Prop :=
  let s := restart_state r in
  (s = DrainStatePending →
     writes tr = if surge_undone r original then [reapply_write r original] else [])
  ∧ (s = DrainStateScaledUp →
       if surge_undone r original then writes tr = [reapply_write r original]
       else ∃ pods, listed_pods r tr pods ∧
         writes tr = if (2 <=? Restart.ready_count pods)%nat
                     then [restart_state_write r DrainStateReady (spec_Replicas r) true] else [])
  ∧ (s = DrainStateReady →
       if Restart.statusCaughtUp r then writes tr = finish_writes r original
       else ∃ pods, listed_pods r tr pods ∧
         writes tr = if restartCompletedByArgo r pods then finish_writes r original else [])
  ∧ (s = DrainStateDraining → ∃ n, writes tr = [restart_state_write r DrainStateDone n true]
       ∧ (Node.anno r AnnotationHPAName = "" → default 1 n = original)
       ∧ (Node.anno r AnnotationHPAName ≠ "" → n = spec_Replicas r))
  ∧ (s = DrainStateDone →
       writes tr = [wl_write r (spec_Replicas r) (clearRestartSurgeAnnotations (annos r)) true]).

Ltac progress_fails := try (by apply progress_fail; intros []).

Lemma progress_restartScaleUp (r : Rollout) original :
  getOriginalReplicas (annos r) = inr original →
  wp (Restart.handleRestartScaleUp cfg r) (progress_post (λ tr,
    writes tr = if surge_undone r original then [reapply_write r original] else [])).
Proof.
  intros Eo. unfold Restart.handleRestartScaleUp, surge_undone. rewrite Eo.
  destruct (String.eqb (Node.anno r AnnotationHPAName) ""); cbn [andb negb orb];
    [rewrite Z.ltb_antisym; destruct (GetReplicas r <=? original); cbn [negb]|].
  all: repeat wp_step; progress_fails.
  all: intros res _; unfold reapply_write; solve_writes.
Qed.

Lemma progress_restartWaitReady (r : Rollout) m original : annos r = Some m →
  getOriginalReplicas (annos r) = inr original →
  wp (Restart.handleRestartWaitReady cfg r) (progress_post (λ tr,
    if surge_undone r original then writes tr = [reapply_write r original]
    else ∃ pods, listed_pods r tr pods ∧
      writes tr = if (2 <=? Restart.ready_count pods)%nat
                  then [restart_state_write r DrainStateReady (spec_Replicas r) true] else [])).
Proof.
  intros Ea Eo. unfold Restart.handleRestartWaitReady, Restart.restartWaitReady_pods, surge_undone.
  destruct (String.eqb (Node.anno r AnnotationHPAName) ""); cbn [andb].
  1: rewrite Eo; destruct (GetReplicas r <=? original).
  all: repeat wp_step; progress_fails.
  1: intros res _; unfold reapply_write; solve_writes.
  all: intros res _; exists l; split; [in_trace|]; rewrite Heqb; solve_writes.
Qed.

Lemma progress_finish (r : Rollout) m original : annos r = Some m →
  getOriginalReplicas (annos r) = inr original →
  wp (Restart.finish_restart cfg r) (progress_post (λ tr, writes tr = finish_writes r original)).
Proof.
  intros Ea Eo. unfold Restart.finish_restart. rewrite restoreHPA_same.
  apply wp_bind, wp_bind. eapply wp_mono; [|apply restoreHPA_effect].
  intros tr [[e|[]]|msg|] Hr; cbn [bind_post wp wrap_err]; progress_fails.
  rewrite Eo app_nil_r.
  set (r1 := if String.eqb _ "" then _ else r).
  assert (annos r1 = Some m ∧ ro_Replicas r1 = scaledown_replicas r original
          ∧ ro_meta r1 = ro_meta r) as (Ea1 & Hsp & Hm).
  { unfold r1, scaledown_replicas. by destruct (String.eqb _ ""). }
  clearbody r1. repeat wp_step; progress_fails.
  intros res _. unfold finish_writes. rewrite writes_app Hr. f_equal.
  rewrite ?writes_cons /= Hsp Hm. unfold restart_state_write, wl_write. by rewrite Ea.
Qed.

Lemma progress_waitForArgo (r : Rollout) m original : annos r = Some m →
  getOriginalReplicas (annos r) = inr original →
  wp (Restart.handleRestartWaitForArgo cfg r) (progress_post (λ tr,
    if Restart.statusCaughtUp r then writes tr = finish_writes r original
    else ∃ pods, listed_pods r tr pods ∧
      writes tr = if restartCompletedByArgo r pods then finish_writes r original else [])).
Proof.
  intros Ea Eo. unfold Restart.handleRestartWaitForArgo.
  destruct (Restart.statusCaughtUp r); [by eapply progress_finish|].
  repeat wp_step; progress_fails.
  - eapply wp_mono; [|by eapply progress_finish]. intros tr o Hf res Hres.
    exists l. split; [in_trace|]. rewrite Heqb writes_cons /=. by eapply Hf.
  - intros res _. exists l. split; [in_trace|]. by rewrite Heqb.
Qed.

Lemma progress_restartScaleDown (r : Rollout) m original : annos r = Some m →
  getOriginalReplicas (annos r) = inr original →
  wp (Restart.handleRestartScaleDown cfg r) (progress_post (λ tr, ∃ n,
    writes tr = [restart_state_write r DrainStateDone n true]
    ∧ (Node.anno r AnnotationHPAName = "" → default 1 n = original)
    ∧ (Node.anno r AnnotationHPAName ≠ "" → n = spec_Replicas r))).
Proof.
  intros Ea Eo. unfold Restart.handleRestartScaleDown. rewrite Eo.
  destruct (String.eqb_spec (Node.anno r AnnotationHPAName) "") as [Hh|Hh]; cbn [andb];
    [destruct (Z.eqb_spec (GetReplicas r) original); cbn [negb]|].
  all: repeat wp_step; progress_fails.
  all: intros res _; eexists; split; [solve_writes|]; split; intros; done.
Qed.

Lemma progress_restartCleanup (r : Rollout) :
  wp (Restart.handleRestartCleanup r) (progress_post (λ tr,
    writes tr = [wl_write r (spec_Replicas r) (clearRestartSurgeAnnotations (annos r)) true])).
Proof.
  unfold Restart.handleRestartCleanup. repeat wp_step; progress_fails. intros res _. solve_writes.
Qed.

Lemma restart_next_app (r : Rollout) original pre tr :
  writes pre = [] → restart_next r original tr → restart_next r original (pre ++ tr).
Proof.
  intros Hpre (H0 & H1 & H2 & H3 & H4). unfold restart_next. rewrite writes_app Hpre.
  assert (∀ pods, listed_pods r tr pods → listed_pods r (pre ++ tr) pods) as Hl.
  { intros pods. apply elem_of_suffix. }
  split_all; [done|..|done|done].
  - intros Hs. specialize (H1 Hs). destruct (surge_undone r original); [done|].
    destruct H1 as (pods & Hp & Hw). eauto.
  - intros Hs. specialize (H2 Hs). destruct (Restart.statusCaughtUp r); [done|].
    destruct H2 as (pods & Hp & Hw). eauto.
Qed.

Lemma restart_dispatch_progress (r : Rollout) original :
  restart_state r ∈ steady_states → drain_state r = "" →
  getOriginalReplicas (annos r) = inr original →
  wp (Restart.reconcile_state cfg r (restart_state r)) (progress_post (restart_next r original)).
Proof.
  intros Hs Hd Ho. destruct (getOriginalReplicas_some _ _ Ho) as [m Ea].
  unfold Restart.reconcile_state. unfold drain_state in Hd. rewrite Hd. cbn [String.eqb negb].
  assert (∀ (P : list called → Prop) p, (∀ tr, P tr → restart_next r original tr) →
    wp p (progress_post P) → wp p (progress_post (restart_next r original))) as Hmono.
  { intros P p HP Hp. eapply wp_mono; [|exact Hp]. intros tr o H res Hr. eapply HP, H, Hr. }
  unfold steady_states in Hs.
  repeat (apply elem_of_cons in Hs as [Hs|Hs]); [..|by apply not_elem_of_nil in Hs].
  all: rewrite Hs.
  - eapply Hmono; [|by eapply progress_restartScaleUp].
    intros tr H. unfold restart_next. rewrite Hs. split_all; done.
  - eapply Hmono; [|by eapply progress_restartWaitReady].
    intros tr H. unfold restart_next. rewrite Hs. split_all; done.
  - eapply Hmono; [|by eapply progress_waitForArgo].
    intros tr H. unfold restart_next. rewrite Hs. split_all; done.
  - eapply Hmono; [|by eapply progress_restartScaleDown].
    intros tr H. unfold restart_next. rewrite Hs. split_all; done.
  - eapply Hmono; [|by eapply progress_restartCleanup].
    intros tr H. unfold restart_next. rewrite Hs. split_all; done.
Qed.

Lemma restart_reconcile_progress (r : Rollout) original :
  restart_state r ∈ steady_states → drain_state r = "" →
  getOriginalReplicas (annos r) = inr original →
  wp (Restart.reconcileWorkload cfg r) (λ tr o, ¬ restart_overdue cfg r tr →
    progress_post (restart_next r original) tr o).
Proof.
  intros Hs Hd Ho. unfold Restart.reconcileWorkload.
  destruct (Node.isActive _) eqn:Ea; [destruct (parseRestartSurgeStart (annos r)) as [start|] eqn:Ep|].
  2, 3: by eapply wp_mono; [|apply (restart_dispatch_progress r original)].
  repeat wp_step; try (by apply progress_fail; intros []).
  1, 2: apply wp_runs; intros tr o _ Hno; exfalso; apply Hno;
    exists start, r0; split; [done|]; split; [cbn; in_trace|lia].
  eapply wp_mono; [|by apply (restart_dispatch_progress r original)].
  intros tr o Hst _ res Hr. apply (restart_next_app r original [_]); [done|]. by eapply Hst.
Qed.
End progress.


(** Scaled up, with two ready pods. *)
Definition surged_r : Rollout :=
  web_ro (Some 2) (surging_annotations DrainStateScaledUp) (Some (t0 - 2 * Minute)).
Definition surged_rc : cluster :=
  ro_cluster surged_r [web_pod "old" "node-1" true (t0 - 60 * Minute); web_pod "new" "node-2" true t0] []
    (t0 + Minute).
Definition surged_rp : prog (error + Result) := Restart.reconcileWorkload restart_cfg surged_r.

(** Draining, with the count back at the original: the usual case. *)
Definition lowered_r : Rollout :=
  web_ro (Some 1) (surging_annotations DrainStateDraining) (Some (t0 - 2 * Minute)).
Definition lowered_rc : cluster :=
  ro_cluster lowered_r [web_pod "new" "node-2" true t0] [] (t0 + Minute).
Definition lowered_rp : prog (error + Result) := Restart.reconcileWorkload restart_cfg lowered_r.


(** ** A whole restart-surge *)

Definition restart_pass (c : cluster) : cluster :=
  after (Restart.Reconcile restart_cfg "default" "web") c.

Definition stale_pod : Pod := web_pod "old" "node-1" true t0.
Definition fresh_pod (ready : bool) : Pod := web_pod "new" "node-2" ready (t0 + 2 * Minute).

Definition rpass1 : cluster := restart_pass stuck_c.
Definition rpass2 : cluster := restart_pass (set_pods [stale_pod; fresh_pod false] rpass1).
Definition rpass3 : cluster := restart_pass (set_pods [stale_pod; fresh_pod true] rpass2).
Definition rpass4 : cluster := restart_pass rpass3.
Definition rpass5 : cluster := restart_pass (set_pods [fresh_pod true] rpass4).
Definition rpass6 : cluster := restart_pass rpass5.
Definition rpass7 : cluster := restart_pass rpass6.

(** Surge, wait for the new pod, wait for Argo, scale down, clean up. *)
Example full_restart_cycle :
  (λ c, (λ r, (ro_Replicas r, Node.anno r AnnotationRestartSurgeState)) <$> c_rollouts c)
    <$> [stuck_c; rpass1; rpass2; rpass3; rpass4; rpass5; rpass6; rpass7]
  = [[(Some 1, "")]; [(Some 2, "scaled-up")]; [(Some 2, "scaled-up")]; [(Some 2, "ready")];
     [(Some 2, "ready")]; [(Some 1, "draining")]; [(Some 1, "done")]; [(Some 1, "")]].
Proof. vm_compute. reflexivity. Qed.
