(* ===== verification/Termination.v ===== *)
(** * Every drain and every restart-surge ends

    Successful passes over a stored workload, each on the version the previous one
    left, with everything but the owned annotations changing in between.  Both
    controllers satisfy the laws of [TimedSurge], so an operation ends after a
    number of passes that only depends on the timeout and on how far they are
    apart. *)

From stdpp Require Import pretty.
From S2P Require Import Prelude GoStd GoTime K8s Effects Loops Config State Workload Scaler.
From S2P Require Import RestartDetect NodeController RolloutController NodeSpec NodeSound.
From S2P Require Import Cluster Samples NodeProps NodeProgress RestartSpec RestartSound RestartProps.
From S2P Require Import StoreSystem Records Deadlines RestartProgress.

Local Open Scope Z_scope.

Section stored.
Context {L : K8sLib}.

Abbreviation annos w := (Annotations (GetObjectMeta w)).

(** The stored object after the successful patches of a run. *)
Definition store_write (v : DrainableWorkload) (x : write) : DrainableWorkload :=
  match x with WWorkload _ _ _ p true => patch_stored p v | _ => v end.
Definition stored_by (tr : list called) (v : DrainableWorkload) : DrainableWorkload :=
  foldl store_write v (writes tr).

(** Writes that leave the workload alone. *)
Definition no_store (ws : list write) : Prop := ∀ v, foldl store_write v ws = v.

Lemma no_store_nil : no_store [].
Proof. done. Qed.
Lemma no_store_restore m ok : no_store (restore_writes m ok).
Proof. intros v. unfold restore_writes. by destruct (restore_target m) as [[]|]. Qed.
Lemma no_store_app ws1 ws2 : no_store ws1 → no_store ws2 → no_store (ws1 ++ ws2).
Proof. intros H1 H2 v. by rewrite foldl_app H1 H2. Qed.

(** After a successful last patch, the owned annotations are those it carries. *)
Lemma store_patch {T} {D : Drainable T} pre (w : T) r a v b : no_store pre →
  same_owned b (annos (foldl store_write v (pre ++ [wl_write w r a true]))) → same_owned b a.
Proof.
  intros Hpre ->. rewrite foldl_app Hpre /=. by apply patched_owned.
Qed.

Lemma same_owned_get a b k : same_owned a b → k ∈ drainAnnotationKeys → anno_get a k = anno_get b k.
Proof. intros H Hk. by rewrite !anno_get_lookup (H k Hk). Qed.

Lemma same_owned_time a b k : same_owned a b → k ∈ drainAnnotationKeys →
  parseRFC3339Annotation a k = parseRFC3339Annotation b k.
Proof. intros H Hk. unfold parseRFC3339Annotation. by rewrite (H k Hk). Qed.

Lemma no_record_same a b : same_owned a b → no_record b → no_record a.
Proof. intros H Hb k Hk. by rewrite (H k Hk) Hb. Qed.

Lemma inactive_done s : s ≠ "" → Node.isActive s = false → s = DrainStateDone.
Proof.
  unfold Node.isActive. destruct (String.eqb_spec s DrainStateNone); [done|].
  by destruct (String.eqb_spec s DrainStateDone).
Qed.

(** A run whose clock readings are all past the deadline. *)
Lemma past_deadline timeout s t l : is_int64 timeout ∧ timeout < maxDuration →
  timeout < t - s → Forall (λ now, t ≤ now) l → Forall (λ now, timeout < Sub now s) l.
Proof.
  intros [Hi Hm] Ht Hl. eapply Forall_impl; [exact Hl|]. intros now Hn. cbn in Hn.
  apply Sub_spec; [done|lia].
Qed.

(** ** The drain *)

Section drain.
Context (cfg : Config) (node : string).

(** A drain of [node] that started at [s]. *)
Definition drain_tracked (s : Time) (v : DrainableWorkload) : Prop :=
  Node.anno v AnnotationDrainState ≠ "" ∧ on_node v node ∧ parseDrainStart (annos v) = Some s.

Definition drain_active (v : DrainableWorkload) : bool :=
  Node.isActive (Node.anno v AnnotationDrainState).

(** A successful reconcile of the stored version at or after time [t]. *)
Definition drain_pass (t : Time) (v v' : DrainableWorkload) : Prop :=
  ∃ tr res, runs (Node.reconcileWorkload cfg v node) tr (Returned (inr res))
    ∧ Forall (λ now, t ≤ now) (clock_reads tr)
    ∧ same_owned (annos v') (annos (stored_by tr v)).

Definition drain_ended (v : DrainableWorkload) : Prop := no_record (annos v).

Lemma drain_tracked_same s v v' a : drain_tracked s v → same_owned (annos v') a →
  anno_get a AnnotationDrainState ≠ "" →
  (∀ k, k ∈ [AnnotationDrainNode; AnnotationDrainStart] → anno_lookup a k = anno_lookup (annos v) k) →
  drain_tracked s v'.
Proof.
  intros (_ & Hn & Hs) H Hst Ha.
  assert (∀ k, k ∈ [AnnotationDrainNode; AnnotationDrainStart] →
    anno_lookup (annos v') k = anno_lookup (annos v) k) as E.
  { intros k Hk. rewrite (H k); [by apply Ha|].
    apply owned_keys. left. unfold drainExclusiveKeys. set_solver. }
  unfold drain_tracked. split_all.
  - unfold Node.anno. by rewrite (same_owned_get _ _ _ H); [|solve_key].
  - unfold on_node, Node.anno in *. rewrite !anno_get_lookup in Hn |- *.
    by rewrite E; [|solve_key].
  - unfold parseDrainStart, parseRFC3339Annotation in *. by rewrite E; [|solve_key].
Qed.

Lemma drain_cleared pre (v v' w : DrainableWorkload) r a : no_store pre →
  same_owned (annos v') (annos (foldl store_write v
    (pre ++ [wl_write w r (clearDrainAnnotations a) true]))) →
  drain_ended v'.
Proof.
  intros Hpre H%store_patch; [|done]. eapply no_record_same; [exact H|].
  apply shape_empty, clear_drain_shape.
Qed.

Lemma drain_kept pre (v v' : DrainableWorkload) s r st :
  drain_tracked s v → st ≠ "" → no_store pre →
  same_owned (annos v') (annos (foldl store_write v (pre ++ [state_write v st r true]))) →
  drain_tracked s v'.
Proof.
  intros Hv Hst Hpre H%store_patch; [|done].
  eapply drain_tracked_same; [done|exact H|..].
  - by anno_simpl.
  - intros k Hk. repeat (apply elem_of_cons in Hk as [->|Hk]; [by anno_simpl; rewrite lookup_default|]).
    by apply not_elem_of_nil in Hk.
Qed.

Lemma drain_effect_keeps v v' s tr res : drain_tracked s v →
  drain_effect cfg v node tr (Returned (inr res)) →
  same_owned (annos v') (annos (stored_by tr v)) → drain_ended v' ∨ drain_tracked s v'.
Proof.
  intros Hv Heff H. unfold stored_by in H.
  destruct Heff; match goal with Hw : writes _ = _ |- _ => rewrite Hw in H end.
  all: repeat match goal with Ho : succeeded _ → _ |- _ => specialize (Ho I); subst end.
  all: try match goal with He : eligible _ _ _ |- _ => by destruct (proj1 Hv (start_state _ _ _ He)) end.
  - right. eapply drain_tracked_same; [done|exact H|apply Hv|done].
  - right. by eapply (drain_kept []); [| |apply no_store_nil|exact H].
  - right. eapply drain_tracked_same; [done|eapply (store_patch []); [apply no_store_nil|exact H]|apply Hv|done].
  - right. by eapply (drain_kept []); [| |apply no_store_nil|exact H].
  - by match goal with Hn : ¬ succeeded _ |- _ => destruct (Hn I) end.
  - right. by eapply drain_kept; [| |apply no_store_restore|exact H].
  - right. by eapply (drain_kept []); [| |apply no_store_nil|exact H].
  - left. eapply (drain_cleared []); [apply no_store_nil|exact H].
  - left. match goal with Ha : abort_effect _ _ _ |- _ => inversion Ha; subst end.
    match goal with Ho : ∀ r, Returned _ = Returned r → _ |- _ =>
      specialize (Ho _ eq_refl); cbn in Ho; subst end.
    rewrite app_assoc in H. eapply drain_cleared; [|exact H].
    apply no_store_app; [|apply no_store_restore].
    match goal with Hp : _ ∨ _ |- _ => destruct Hp as [-> | ->] end;
      [apply no_store_nil|apply no_store_restore].
Qed.
Context (Hlimit : is_int64 (ReadinessTimeout cfg) ∧ ReadinessTimeout cfg < maxDuration).

Lemma reconcile_done (v : DrainableWorkload) :
  Node.anno v AnnotationDrainState = DrainStateDone → on_node v node →
  wp (Node.reconcileWorkload cfg v node) (progress_post (λ tr,
    writes tr = [wl_write v (spec_Replicas v) (clearDrainAnnotations (annos v)) true])).
Proof using.
  intros Hs Hn. unfold Node.reconcileWorkload, Node.reconcile_state. rewrite Hs.
  change (Node.isActive DrainStateDone) with false. cbn [bind].
  assert (negb (negb (String.eqb (Node.anno v AnnotationDrainNode) "")
                && negb (String.eqb (Node.anno v AnnotationDrainNode) node)) = true) as ->.
  { destruct Hn as [-> | ->]; [done|]. rewrite String.eqb_refl. by destruct (String.eqb _ ""). }
  apply progress_cleanup.
Qed.

#[export] Instance drain_timed :
  TimedSurge drain_tracked drain_active drain_ended (ReadinessTimeout cfg) drain_pass.
Proof using Hlimit.
  split.
  - intros s t v v' (Hst & Hn & Hs) Ha Ht (tr & res & Hr & Hc & H).
    eapply wp_runs in Hr; [|by eapply timeout_wp].
    destruct (Hr (past_deadline _ _ _ _ Hlimit Ht Hc)) as [|(okh & ok & Hw & Hok)]; [done|].
    unfold stored_by in H. rewrite Hw (Hok I) in H.
    eapply drain_cleared; [apply no_store_restore|exact H].
  - intros s t v v' (Hst & Hn & Hs) Ha (tr & res & Hr & Hc & H).
    assert (Node.anno v AnnotationDrainState = DrainStateDone) as Hd by (by apply inactive_done).
    eapply wp_runs in Hr; [|by apply reconcile_done].
    specialize (Hr res eq_refl). unfold stored_by in H. rewrite Hr in H.
    eapply (drain_cleared []); [apply no_store_nil|exact H].
  - intros s t v v' Hv (tr & res & Hr & Hc & H).
    apply run_effect in Hr as [_ Heff]. by eapply drain_effect_keeps.
Qed.
End drain.

(** ** The restart-surge *)

Section restart.
Context (cfg : Config).

(** A restart-surge that started at [s], on a Rollout without a drain. *)
Definition restart_tracked (s : Time) (r : Rollout) : Prop :=
  restart_state r ≠ "" ∧ drain_state r = "" ∧ parseRestartSurgeStart (annos r) = Some s.

Definition restart_active (r : Rollout) : bool := Node.isActive (restart_state r).

Definition restart_pass (t : Time) (r r' : Rollout) : Prop :=
  ∃ tr res, runs (Restart.reconcileWorkload cfg r) tr (Returned (inr res))
    ∧ Forall (λ now, t ≤ now) (clock_reads tr)
    ∧ same_owned (annos r') (annos (stored_by tr (WRollout r))).

Definition restart_ended (r : Rollout) : Prop := absent restartSurgeFullKeys (annos r).

Lemma restart_tracked_same s r r' a : restart_tracked s r → same_owned (annos r') a →
  anno_get a AnnotationRestartSurgeState ≠ "" →
  (∀ k, k ∈ [AnnotationDrainState; AnnotationRestartSurgeStart] →
    anno_lookup a k = anno_lookup (annos r) k) →
  restart_tracked s r'.
Proof.
  intros (_ & Hd & Hs) H Hst Ha.
  assert (∀ k, k ∈ [AnnotationDrainState; AnnotationRestartSurgeStart] →
    anno_lookup (annos r') k = anno_lookup (annos r) k) as E.
  { intros k Hk. rewrite (H k); [by apply Ha|].
    apply owned_keys. unfold drainExclusiveKeys, restartSurgeExclusiveKeys. set_solver. }
  unfold restart_tracked. split_all.
  - unfold restart_state, Node.anno. by rewrite (same_owned_get _ _ _ H); [|solve_key].
  - unfold drain_state, Node.anno in *. rewrite !anno_get_lookup in Hd |- *.
    by rewrite E; [|solve_key].
  - unfold parseRestartSurgeStart, parseRFC3339Annotation in *. by rewrite E; [|solve_key].
Qed.

Lemma restart_cleared pre (v : DrainableWorkload) (r r' : Rollout) n a : no_store pre →
  same_owned (annos r') (annos (foldl store_write v
    (pre ++ [wl_write r n (clearRestartSurgeAnnotations a) true]))) →
  restart_ended r'.
Proof.
  intros Hpre H%store_patch; [|done]. intros k Hk.
  rewrite (H k); [by anno_simpl|].
  apply owned_keys. right. unfold restartSurgeFullKeys, restartSurgeExclusiveKeys, bookkeepingKeys in *.
  set_solver.
Qed.

Lemma restart_kept pre v (r r' : Rollout) s n st :
  restart_tracked s r → st ≠ "" → no_store pre →
  same_owned (annos r') (annos (foldl store_write v (pre ++ [restart_state_write r st n true]))) →
  restart_tracked s r'.
Proof.
  intros Hr Hst Hpre H%store_patch; [|done].
  eapply restart_tracked_same; [done|exact H|..].
  - by anno_simpl.
  - intros k Hk. repeat (apply elem_of_cons in Hk as [->|Hk]; [by anno_simpl; rewrite lookup_default|]).
    by apply not_elem_of_nil in Hk.
Qed.

Lemma restart_effect_keeps r r' s tr res : restart_tracked s r →
  restart_effect cfg r tr (Returned (inr res)) →
  same_owned (annos r') (annos (stored_by tr (WRollout r))) → restart_ended r' ∨ restart_tracked s r'.
Proof.
  intros Hr Heff H. unfold stored_by in H.
  destruct Heff; match goal with Hw : writes _ = _ |- _ => rewrite Hw in H end.
  all: repeat match goal with Ho : succeeded _ → _ |- _ => specialize (Ho I); subst end.
  all: try match goal with He : restart_eligible _ _ _ |- _ =>
         by destruct (proj1 Hr (re_state _ _ _ He)) end.
  - right. eapply restart_tracked_same; [done|exact H|apply Hr|done].
  - right. eapply restart_tracked_same;
      [done|eapply (store_patch [] r); [apply no_store_nil|exact H]|apply Hr|done].
  - right. by eapply (restart_kept []); [| |apply no_store_nil|exact H].
  - by match goal with Hn : ¬ succeeded _ |- _ => destruct (Hn I) end.
  - right. by eapply restart_kept; [| |apply no_store_restore|exact H].
  - right. by eapply (restart_kept []); [| |apply no_store_nil|exact H].
  - left. eapply (restart_cleared []); [apply no_store_nil|exact H].
  - by match goal with Hn : drain_state _ ≠ _ |- _ => destruct Hn; apply Hr end.
  - left. match goal with Ha : undo_effect _ _ _ _ |- _ => inversion Ha; subst end.
    match goal with Ho : ∀ r, Returned _ = Returned r → _ |- _ =>
      specialize (Ho _ eq_refl); cbn in Ho; subst end.
    rewrite app_assoc in H. eapply restart_cleared; [|exact H].
    apply no_store_app; [|apply no_store_restore].
    match goal with Hp : _ ∨ _ |- _ => destruct Hp as [-> | ->] end;
      [apply no_store_nil|apply no_store_restore].
Qed.

Lemma restart_reconcile_done (r : Rollout) : restart_state r = DrainStateDone → drain_state r = "" →
  wp (Restart.reconcileWorkload cfg r) (progress_post (λ tr,
    writes tr = [wl_write r (spec_Replicas r) (clearRestartSurgeAnnotations (annos r)) true])).
Proof.
  unfold restart_state, drain_state. intros Hs Hd.
  unfold Restart.reconcileWorkload, Restart.reconcile_state. rewrite Hs Hd.
  apply progress_restartCleanup.
Qed.

Context (Hlimit : is_int64 (RestartSurgeTimeout cfg) ∧ RestartSurgeTimeout cfg < maxDuration).

#[export] Instance restart_timed :
  TimedSurge restart_tracked restart_active restart_ended (RestartSurgeTimeout cfg) restart_pass.
Proof using Hlimit.
  split.
  - intros s t r r' (Hst & Hn & Hs) Ha Ht (tr & res & Hr & Hc & H).
    eapply wp_runs in Hr; [|by eapply restart_timeout_wp].
    destruct (Hr (past_deadline _ _ _ _ Hlimit Ht Hc)) as [|(okh & ok & Hw & Hok)]; [done|].
    unfold stored_by in H. rewrite Hw (Hok I) in H.
    eapply restart_cleared; [apply no_store_restore|exact H].
  - intros s t r r' (Hst & Hn & Hs) Ha (tr & res & Hr & Hc & H).
    assert (restart_state r = DrainStateDone) as Hd by (by apply inactive_done).
    eapply wp_runs in Hr; [|by apply restart_reconcile_done].
    specialize (Hr res eq_refl). unfold stored_by in H. rewrite Hr in H.
    eapply (restart_cleared []); [apply no_store_nil|exact H].
  - intros s t r r' Hv (tr & res & Hr & Hc & H).
    apply run_restart in Hr as [_ Heff]. by eapply restart_effect_keeps.
Qed.
End restart.
End stored.

(** C6. Every drain ends.  Take a workload that records a drain of [node] which
    started at [start], and any history of successful reconciles for that node, each
    on the version the previous one left, each at least [gap] after the one before,
    while others change everything but the owned annotations.  Then after at most
    [ReadinessTimeout / gap + 2] reconciles some stored version carries none of the
    owned annotations, whatever the cluster answered: pods that never become ready
    or never leave do not matter. *)
Theorem drain_terminates {L : K8sLib} (cfg : Config) (node : string) (gap : Duration)
    (start t : Time) (v : DrainableWorkload) (l : list (Time * DrainableWorkload))
    (Hgap : 0 < gap) (Hvalid : valid_config cfg)
    (Hlimit : is_int64 (ReadinessTimeout cfg) ∧ ReadinessTimeout cfg < maxDuration)
    (Hv : drain_tracked node start v) (Hstart : start ≤ t)
    (Hl : passes gap (drain_pass cfg node) t v l)
    (Hlen : ReadinessTimeout cfg / gap + 2 ≤ Z.of_nat (length l)) :
  ∃ tv, tv ∈ l ∧ no_record (Annotations (GetObjectMeta tv.2)).
Proof.
  destruct Hvalid as [Hr _].
  apply (deadline_reached (TS := drain_timed cfg node Hlimit) gap _ Hgap start t v l); done || lia.
Qed.

(** C14. Every restart-surge ends.  A restart-surge that started at [start] on a
    Rollout without a drain is over after at most [RestartSurgeTimeout / gap + 2]
    successful reconciles that are at least [gap] apart: some stored version
    carries none of its five annotations. *)
Theorem restart_terminates {L : K8sLib} (cfg : Config) (gap : Duration)
    (start t : Time) (r : Rollout) (l : list (Time * Rollout))
    (Hgap : 0 < gap) (Hpos : 0 ≤ RestartSurgeTimeout cfg)
    (Hlimit : is_int64 (RestartSurgeTimeout cfg) ∧ RestartSurgeTimeout cfg < maxDuration)
    (Hr : restart_tracked start r) (Hstart : start ≤ t)
    (Hl : passes gap (restart_pass cfg) t r l)
    (Hlen : RestartSurgeTimeout cfg / gap + 2 ≤ Z.of_nat (length l)) :
  ∃ tr, tr ∈ l ∧ absent restartSurgeFullKeys (Annotations (GetObjectMeta tr.2)).
Proof.
  by apply (deadline_reached (TS := restart_timed cfg Hlimit) gap _ Hgap start t r l).
Qed.

(** Three passes over a surge whose new pod never becomes ready, ten minutes apart. *)
Definition stuck_w : DrainableWorkload :=
  WDeployment (web_dep (Some 2) (draining_annotations DrainStateScaledUp)).
Definition stuck_run : prog (error + Result) := Node.reconcileWorkload cfg stuck_w "node-1".
Definition stuck_at (n : Z) : cluster :=
  dep_cluster (web_dep (Some 2) (draining_annotations DrainStateScaledUp))
    [web_pod "old" "node-1" true t0] [] (t0 + n * Minute).
Definition stuck_history : list (Time * DrainableWorkload) :=
  [(t0, stuck_w); (t0 + 10 * Minute, stuck_w);
   (t0 + 20 * Minute, stored_by (trace_of stuck_run (stuck_at 20)) stuck_w)].

Lemma stuck_pass n res : outcome_of stuck_run (stuck_at n) = Returned (inr res) →
  clock_reads (trace_of stuck_run (stuck_at n)) = [t0 + n * Minute] →
  drain_pass cfg "node-1" (t0 + n * Minute) stuck_w
    (stored_by (trace_of stuck_run (stuck_at n)) stuck_w).
Proof.
  intros Ho Hc. exists (trace_of stuck_run (stuck_at n)), res.
  split; [rewrite -Ho; apply cluster_runs|]. split; [|reflexivity].
  rewrite Hc. repeat constructor. reflexivity.
Qed.

Lemma drain_terminates_witness :
  ∃ tv, tv ∈ stuck_history ∧ no_record (Annotations (GetObjectMeta tv.2)).
Proof.
  apply (drain_terminates cfg "node-1" (10 * Minute) t0 t0 stuck_w stuck_history).
  - reflexivity.
  - apply Validate_spec. reflexivity.
  - split; [split; [discriminate|reflexivity]|reflexivity].
  - split; [intros H; vm_compute in H; discriminate H|]. split; [right|]; vm_compute; reflexivity.
  - apply Z.le_refl.
  - assert (stored_by (trace_of stuck_run (stuck_at 0)) stuck_w = stuck_w) as E0
      by (unfold stored_by; assert (writes (trace_of stuck_run (stuck_at 0)) = []) as ->
            by (vm_compute; reflexivity); reflexivity).
    assert (stored_by (trace_of stuck_run (stuck_at 10)) stuck_w = stuck_w) as E1
      by (unfold stored_by; assert (writes (trace_of stuck_run (stuck_at 10)) = []) as ->
            by (vm_compute; reflexivity); reflexivity).
    split; [apply Z.le_refl|]. split.
    { rewrite -{2}E0. apply (stuck_pass 0 (mkResult (5 * Second))); vm_compute; reflexivity. }
    split; [apply Z.le_refl|]. split.
    { rewrite -{2}E1. apply (stuck_pass 10 (mkResult (5 * Second))); vm_compute; reflexivity. }
    split; [discriminate|]. split; [|exact I].
    apply (stuck_pass 20 no_requeue); vm_compute; reflexivity.
  - discriminate.
Defined.

(** A restart-surge whose pods never become ready. *)
Definition late_at (n : Z) : cluster := ro_cluster late_r [] [] (t0 + n * Minute).
Definition late_end : Rollout :=
  match stored_by (trace_of late_rp (late_at 20)) (WRollout late_r) with
  | WRollout r => r | WDeployment _ => late_r end.
Definition late_history : list (Time * Rollout) :=
  [(t0, late_r); (t0 + 10 * Minute, late_r); (t0 + 20 * Minute, late_end)].

Lemma late_pass n res r' : outcome_of late_rp (late_at n) = Returned (inr res) →
  clock_reads (trace_of late_rp (late_at n)) = [t0 + n * Minute] →
  stored_by (trace_of late_rp (late_at n)) (WRollout late_r) = WRollout r' →
  restart_pass restart_cfg (t0 + n * Minute) late_r r'.
Proof.
  intros Ho Hc Hs. exists (trace_of late_rp (late_at n)), res.
  split; [rewrite -Ho; apply cluster_runs|]. rewrite Hc Hs. split; [|reflexivity].
  repeat constructor. reflexivity.
Qed.

Lemma stored_by_kind tr r : ∃ r', stored_by tr (WRollout r) = WRollout r'.
Proof.
  unfold stored_by. revert r. induction (writes tr) as [|x ws IH]; intros r; [by exists r|].
  cbn. destruct x as [k ns n p []|]; apply IH.
Qed.

Lemma restart_terminates_witness :
  ∃ tr, tr ∈ late_history ∧ absent restartSurgeFullKeys (Annotations (GetObjectMeta tr.2)).
Proof.
  apply (restart_terminates restart_cfg (10 * Minute) t0 t0 late_r late_history).
  - reflexivity.
  - discriminate.
  - split; [split; [discriminate|reflexivity]|reflexivity].
  - split; [intros H; vm_compute in H; discriminate H|]. split; vm_compute; reflexivity.
  - apply Z.le_refl.
  - split; [apply Z.le_refl|]. split.
    { apply (late_pass 0 (mkResult (5 * Second))); [vm_compute; reflexivity..|].
      unfold stored_by. assert (writes (trace_of late_rp (late_at 0)) = []) as ->
        by (vm_compute; reflexivity). reflexivity. }
    split; [apply Z.le_refl|]. split.
    { apply (late_pass 10 (mkResult (5 * Second))); [vm_compute; reflexivity..|].
      unfold stored_by. assert (writes (trace_of late_rp (late_at 10)) = []) as ->
        by (vm_compute; reflexivity). reflexivity. }
    split; [discriminate|]. split; [|exact I].
    apply (late_pass 20 no_requeue); [vm_compute; reflexivity..|].
    unfold late_end. destruct (stored_by_kind (trace_of late_rp (late_at 20)) late_r) as [r' ->].
    reflexivity.
  - discriminate.
Defined.
