(* ===== verification/CallBounds.v ===== *)
(** * How many calls a reconcile makes

    [at_most n p]: every run of [p] makes at most [n] calls, in any environment.
    It composes ([at_most_bind]), so each handler gets a constant, and a whole pass a
    cost linear in the number of objects its lists returned. *)

From stdpp Require Import pretty.
From S2P Require Import Prelude GoStd GoTime K8s Effects Loops Config State Workload Scaler.
From S2P Require Import RestartDetect NodeController RolloutController NodeSpec NodeSound.
From S2P Require Import Cluster Samples NodeProps RestartSpec RestartSound.

Section calls.
Context {L : K8sLib}.

Fixpoint at_most {A} (n : nat) (p : prog A) {struct p} : Prop :=
  match p with
  | Ret _ | Panic _ => True
  | Do e k => match n with O => False | S n => ∀ r, at_most n (k r) end
  end.

Lemma at_most_runs {A} n (p : prog A) tr o : at_most n p → runs p tr o → (length tr ≤ n)%nat.
Proof.
  revert n tr. induction p as [a|m|R e k IH]; cbn [runs]; intros n tr Hn.
  1, 2: intros [-> _]; cbn; lia.
  destruct n as [|n]; [done|].
  intros [[-> _]|(r & tr' & -> & _ & Hr)]; cbn; [lia|]. apply le_n_S. by eapply IH.
Qed.

Lemma at_most_le {A} n n' (p : prog A) : (n ≤ n')%nat → at_most n p → at_most n' p.
Proof.
  revert n n'. induction p as [a|m|R e k IH]; intros n n' Hle; [done..|].
  destruct n as [|n]; [by intros []|]. destruct n' as [|n']; [lia|]. cbn. intros H r. apply (IH r n); [lia|done].
Qed.

Lemma at_most_bind {A B} n m (p : prog A) (f : A → prog B) :
  at_most n p → (∀ a, at_most m (f a)) → at_most (n + m) (bind p f).
Proof.
  revert n. induction p as [a|msg|R e k IH]; intros n Hp Hf; [|done|].
  - apply (at_most_le m); [lia|]. apply Hf.
  - destruct n as [|n]; [done|]. cbn. intros r. by apply IH.
Qed.

Lemma at_most_each {A S} n (body : A → S → prog S) l s :
  (∀ x s, at_most n (body x s)) → at_most (length l * n) (for_each body l s).
Proof.
  intros Hb. revert s. induction l as [|x l IH]; intros s; [done|].
  cbn [length Nat.mul for_each]. by apply at_most_bind.
Qed.

(** Writing an annotation is not a call. *)
Lemma at_most_annotate {T A} {D : Drainable T} n k v (w : T) (f : T → prog A) :
  (∀ w, at_most n (f w)) → at_most n (bind (Node.annotate k v w) f).
Proof. intros H. unfold Node.annotate, map_assign. destruct (Annotations _); [apply H|done]. Qed.
End calls.

(** Count the calls of a concrete program, branch by branch. *)
Ltac count_step :=
  first
    [ exact I
    | progress cbn [at_most bind bind_ok wrapf wrap_err call deref map_assign negb
                    Node.eventf Patch patchReplicasAndAnnotations
                    FindMatchingPDB FindMatchingHPA FindReadyPodOnOtherNode FindPodOnNode
                    listMatchingPods PatchHPAMinReplicas]
    | match goal with |- ∀ _, _ => intro end
    | apply at_most_annotate
    | match goal with |- at_most _ ?p => split_head p end
    | case_match ].
Ltac count_calls := repeat count_step.

Section handlers.
Context {L : K8sLib} (cfg : Config).

Section workload.
Context {T : Type} {D : Drainable T}.

Lemma restoreHPA_calls m : at_most 1 (Node.restoreHPA m).
Proof. unfold Node.restoreHPA. count_calls. Qed.

Lemma abortWorkload_calls (w : T) : at_most 3 (Node.abortWorkload w).
Proof.
  unfold Node.abortWorkload. apply (at_most_bind 1 2); [apply restoreHPA_calls|]. count_calls.
Qed.

Lemma shouldProcess_calls (w : T) node : at_most 2 (Node.shouldProcess cfg w node).
Proof. unfold Node.shouldProcess. count_calls. Qed.

Lemma handlePending_calls (w : T) node : at_most 6 (Node.handlePending cfg w node).
Proof. unfold Node.handlePending. count_calls. Qed.

Lemma handleScaleUp_calls (w : T) node : at_most 3 (Node.handleScaleUp cfg w node).
Proof.
  unfold Node.handleScaleUp. destruct (getOriginalReplicas _); [apply abortWorkload_calls|].
  count_calls.
Qed.

Lemma waitReady_pods_calls (w : T) node : at_most 2 (Node.waitReady_pods cfg w node).
Proof. unfold Node.waitReady_pods. count_calls. Qed.

Lemma handleWaitReady_calls (w : T) node : at_most 3 (Node.handleWaitReady cfg w node).
Proof.
  pose proof (at_most_le 2 3 _ ltac:(lia) (waitReady_pods_calls w node)) as Hpods.
  unfold Node.handleWaitReady. destruct (String.eqb _ ""); [|done].
  destruct (getOriginalReplicas _); [apply abortWorkload_calls|].
  destruct (_ <=? _)%Z; [|done]. count_calls.
Qed.

Lemma handleWaitEviction_calls (w : T) node : at_most 5 (Node.handleWaitEviction cfg w node).
Proof.
  unfold Node.handleWaitEviction. apply (at_most_bind 1 4); [count_calls|].
  intros [e|[]]; cbn [negb]; [done..|].
  apply (at_most_bind 1 3); [apply (at_most_bind 1 0); [apply restoreHPA_calls|done]|].
  intros [e|[]]; [done|]. destruct (getOriginalReplicas _); [apply abortWorkload_calls|].
  count_calls.
Qed.

Lemma handleScaleDown_calls (w : T) : at_most 3 (Node.handleScaleDown cfg w).
Proof.
  unfold Node.handleScaleDown. destruct (getOriginalReplicas _); [apply abortWorkload_calls|].
  count_calls.
Qed.

Lemma handleCleanup_calls (w : T) : at_most 2 (Node.handleCleanup w).
Proof. unfold Node.handleCleanup. count_calls. Qed.

(** A new drain: the checks of [shouldProcess] end in at most one more call. *)
Lemma start_calls (w : T) node (k : bool → prog (error + Result)) :
  at_most 6 (k true) → at_most 0 (k false) → at_most 7 (bind (Node.shouldProcess cfg w node) k).
Proof.
  intros Ht Hf. pose proof (at_most_le 0 6 _ ltac:(lia) Hf). pose proof (at_most_le 0 5 _ ltac:(lia) Hf).
  pose proof (at_most_le 0 7 _ ltac:(lia) Hf). pose proof (at_most_le 6 7 _ ltac:(lia) Ht).
  unfold Node.shouldProcess. repeat (done || count_step).
Qed.

Lemma reconcile_state_calls (w : T) node s :
  at_most (if String.eqb s "" then 7 else 5) (Node.reconcile_state cfg w node s).
Proof.
  unfold Node.reconcile_state. change DrainStateNone with "".
  destruct (String.eqb s ""); cbn [orb].
  { apply start_calls; [|done]. apply handlePending_calls. }
  cbn [bind]. destruct (negb (negb _)); [done|].
  repeat (destruct (String.eqb _ _)).
  - by eapply at_most_le, handleScaleUp_calls; lia.
  - by eapply at_most_le, handleWaitReady_calls; lia.
  - apply handleWaitEviction_calls.
  - by eapply at_most_le, handleScaleDown_calls; lia.
  - by eapply at_most_le, handleCleanup_calls; lia.
  - by eapply at_most_le, abortWorkload_calls; lia.
Qed.

Lemma reconcileWorkload_calls (w : T) node : at_most 7 (Node.reconcileWorkload cfg w node).
Proof.
  pose proof (reconcile_state_calls w node (Node.anno w AnnotationDrainState)) as Hst.
  unfold Node.reconcileWorkload, Node.isActive. change DrainStateNone with "".
  destruct (String.eqb _ ""); cbn [negb andb]; [done|].
  destruct (if negb _ then _ else _) as [start|]; [|by eapply at_most_le, Hst; lia].
  cbn [bind call at_most]. intros now.
  assert (at_most 3 (Node.abortWorkload w)) by apply abortWorkload_calls.
  destruct (_ <? _)%Z; [|destruct (_ <? _)%Z]; [..|by eapply at_most_le, Hst; lia].
  all: intros []; by eapply at_most_le; [|done]; lia.
Qed.
End workload.

(** ** The restart-surge *)

Lemma abortRestartSurge_calls r : at_most 3 (Restart.abortRestartSurge r).
Proof.
  unfold Restart.abortRestartSurge. rewrite restoreHPA_same.
  apply (at_most_bind 1 2); [apply restoreHPA_calls|]. count_calls.
Qed.

Lemma start_surge_calls r : at_most 6 (Restart.start_surge cfg r).
Proof. unfold Restart.start_surge. count_calls. Qed.

Lemma handleRestartPending_calls r : at_most 8 (Restart.handleRestartPending cfg r).
Proof.
  pose proof (start_surge_calls r). unfold Restart.handleRestartPending.
  repeat (done || count_step).
Qed.

Lemma handleRestartScaleUp_calls r : at_most 3 (Restart.handleRestartScaleUp cfg r).
Proof.
  unfold Restart.handleRestartScaleUp.
  destruct (getOriginalReplicas _); [apply abortRestartSurge_calls|]. count_calls.
Qed.

Lemma handleRestartWaitReady_calls r : at_most 3 (Restart.handleRestartWaitReady cfg r).
Proof.
  assert (at_most 3 (Restart.restartWaitReady_pods cfg r)) as Hpods
    by (unfold Restart.restartWaitReady_pods; count_calls).
  unfold Restart.handleRestartWaitReady. destruct (String.eqb _ ""); [|done].
  destruct (getOriginalReplicas _); [apply abortRestartSurge_calls|].
  destruct (_ <=? _)%Z; [|done]. count_calls.
Qed.

Lemma finish_restart_calls r : at_most 4 (Restart.finish_restart cfg r).
Proof.
  unfold Restart.finish_restart. rewrite restoreHPA_same.
  apply (at_most_bind 1 3); [apply (at_most_bind 1 0); [apply restoreHPA_calls|done]|].
  intros [e|[]]; [done|].
  destruct (getOriginalReplicas _); [apply abortRestartSurge_calls|]. count_calls.
Qed.

Lemma handleRestartWaitForArgo_calls r : at_most 5 (Restart.handleRestartWaitForArgo cfg r).
Proof.
  pose proof (finish_restart_calls r) as Hf. unfold Restart.handleRestartWaitForArgo.
  destruct (Restart.statusCaughtUp r); [by eapply at_most_le, Hf; lia|].
  repeat (done || count_step).
Qed.

Lemma handleRestartScaleDown_calls r : at_most 3 (Restart.handleRestartScaleDown cfg r).
Proof.
  unfold Restart.handleRestartScaleDown.
  destruct (getOriginalReplicas _); [apply abortRestartSurge_calls|]. count_calls.
Qed.

Lemma handleRestartCleanup_calls r : at_most 2 (Restart.handleRestartCleanup r).
Proof. unfold Restart.handleRestartCleanup. count_calls. Qed.

Lemma yieldToDrain_calls r : at_most 2 (Restart.yieldToDrain r).
Proof. unfold Restart.yieldToDrain. count_calls. Qed.

Lemma restart_dispatch_calls r s :
  at_most (if String.eqb s "" then 8 else 5) (Restart.reconcile_state cfg r s).
Proof.
  unfold Restart.reconcile_state. change DrainStateNone with "".
  destruct (negb _).
  { destruct (Node.isActive s); [|by destruct (String.eqb s "")].
    destruct (String.eqb s ""); by eapply at_most_le, yieldToDrain_calls; lia. }
  destruct (String.eqb s ""); [apply handleRestartPending_calls|].
  repeat (destruct (String.eqb _ _)).
  - by eapply at_most_le, handleRestartScaleUp_calls; lia.
  - by eapply at_most_le, handleRestartWaitReady_calls; lia.
  - apply handleRestartWaitForArgo_calls.
  - by eapply at_most_le, handleRestartScaleDown_calls; lia.
  - by eapply at_most_le, handleRestartCleanup_calls; lia.
  - by eapply at_most_le, abortRestartSurge_calls; lia.
Qed.

Lemma restart_reconcile_calls r : at_most 8 (Restart.reconcileWorkload cfg r).
Proof.
  pose proof (restart_dispatch_calls r (Node.anno r AnnotationRestartSurgeState)) as Hst.
  unfold Restart.reconcileWorkload, Node.isActive. change DrainStateNone with "".
  destruct (String.eqb _ ""); cbn [negb andb]; [done|].
  destruct (if negb _ then _ else _) as [start|]; [|by eapply at_most_le, Hst; lia].
  cbn [bind call at_most]. intros now.
  assert (at_most 3 (Restart.abortRestartSurge r)) by apply abortRestartSurge_calls.
  destruct (_ <? _)%Z; [|destruct (_ <? _)%Z]; [..|by eapply at_most_le, Hst; lia].
  all: intros []; by eapply at_most_le; [|done]; lia.
Qed.

Lemma restart_Reconcile_calls ns n : at_most 9 (Restart.Reconcile cfg ns n).
Proof.
  pose proof (restart_reconcile_calls) as Hr. unfold Restart.Reconcile. cbn [bind call at_most].
  intros [e|ro]; [by destruct (IsNotFound e)|apply Hr].
Qed.
End handlers.

(** ** Whole passes *)

(** How many objects the lists a pass works through returned. *)
Definition op_listed {L : K8sLib} {R} (e : apiE R) : R → nat :=
  match e in apiE R return R → nat with
  | ListPodsOnNode _ => λ r, match r with inr l => length l | inl _ => O end
  | ListRollouts _ => λ r, match r with inr l => length l | inl _ => O end
  | ListDeployments _ => λ r, match r with inr l => length l | inl _ => O end
  | _ => λ _, O
  end.
Definition listed {L : K8sLib} (tr : list called) : nat :=
  sum_list ((λ c, match c with Called e r => op_listed e r end) <$> tr).

Lemma listed_app {L : K8sLib} tr1 tr2 : listed (tr1 ++ tr2) = (listed tr1 + listed tr2)%nat.
Proof. unfold listed. by rewrite fmap_app sum_list_with_app. Qed.

Lemma listed_cons {L : K8sLib} {R} (e : apiE R) r tr :
  listed (Called e r :: tr) = (op_listed e r + listed tr)%nat.
Proof. done. Qed.

(** Arithmetic on the lengths of traces. *)
Ltac trace_arith :=
  cbn beta in *; rewrite ?app_nil_r;
  repeat first [rewrite listed_cons | rewrite listed_app | rewrite length_app
               | progress cbn [length app op_listed]];
  cbn [listed fmap list_fmap sum_list]; lia.

Section passes.
Context {L : K8sLib} (cfg : Config).

Lemma wp_at_most {A} n (p : prog A) : at_most n p → wp p (λ tr _, (length tr ≤ n)%nat).
Proof. intros H. apply wp_runs. intros tr o Hr. by eapply at_most_runs. Qed.

Lemma size_insert_le {A} (m : gmap string A) k v : (size (<[k:=v]> m) ≤ S (size m))%nat.
Proof. rewrite map_size_insert. case_match; cbn; lia. Qed.

Lemma size_union_le {A} (m1 m2 : gmap string A) : (size (m1 ∪ m2) ≤ size m1 + size m2)%nat.
Proof.
  induction m1 as [|k x m1 Hk IH] using map_ind; [by rewrite (left_id ∅ (∪) m2)|].
  rewrite -insert_union_l (map_size_insert_None k x m1 Hk).
  pose proof (size_insert_le (m1 ∪ m2) k x). lia.
Qed.

Lemma index_workloads_size ws m : (size (Node.index_workloads ws m) ≤ size m + length ws)%nat.
Proof.
  unfold Node.index_workloads. revert m. induction ws as [|w ws IH]; intros m; cbn; [lia|].
  pose proof (IH (<[Node.key_of w := w]> m)). pose proof (size_insert_le m (Node.key_of w) w). lia.
Qed.

Lemma length_omap_le {A B} (f : A → option B) (l : list A) : (length (omap f l) ≤ length l)%nat.
Proof. induction l as [|x l IH]; cbn; [lia|]. destruct (f x); cbn in *; lia. Qed.

(** At most [n] calls, and at most as many workloads as the lists returned. *)
Definition find_post (n : nat) (tr : list called)
    (o : outcome (error + gmap string DrainableWorkload)) : Prop :=
  (length tr ≤ n)%nat ∧ ∀ ws, o = Returned (inr ws) → (size ws ≤ listed tr)%nat.

Lemma wp_bind_assoc {A B C} (p : prog A) (f : A → prog B) (g : B → prog C) Q :
  wp (bind p (λ x, bind (f x) g)) Q ↔ wp (bind (bind p f) g) Q.
Proof.
  revert Q. induction p as [a|m|R e k IH]; intros Q; cbn; [done..|].
  split; (intros [Hc Hk]; split; [done|]; intros r Hr; by apply IH, Hk).
Qed.

Lemma findWorkloads_cost node : wp (Node.findWorkloadsWithDrainNode node) (find_post 2).
Proof.
  unfold Node.findWorkloadsWithDrainNode. repeat wp_step; (split; [cbn; lia|]); intros ws; try done.
  intros [= <-]. unfold listed. cbn.
  etransitivity; [apply index_workloads_size|]. rewrite length_fmap.
  match goal with |- context [size (Node.index_workloads ?ws ∅)] =>
    pose proof (index_workloads_size ws ∅) as Hs end.
  rewrite map_size_empty length_fmap in Hs. lia.
Qed.

Lemma map_range_cost {A} (m : gmap string A) :
  wp (map_range m) (λ tr o, (length tr ≤ 1)%nat ∧ ∀ es, o = Returned es → (length es ≤ size m)%nat).
Proof.
  unfold map_range. cbn. split; [split; [lia|done]|]. intros ks Hks. split; [lia|].
  intros es [= <-]. etransitivity; [apply length_omap_le|].
  by rewrite Hks length_fmap length_map_to_list.
Qed.

(** Each pod adds at most one workload to the map, and costs at most two reads. *)
Lemma resolve_owner_calls ns refs : at_most 1 (resolve_owner ns refs).
Proof.
  induction refs as [|ref refs IH]; [done|]. cbn [resolve_owner].
  destruct (_ && _); [count_calls|]. destruct (_ && _); [count_calls|done].
Qed.

Lemma collect_calls pod m : at_most 2 (Node.collect_workload pod m).
Proof.
  unfold Node.collect_workload. destruct (Node.skip_pod pod); [done|].
  apply (at_most_bind 2 0).
  - unfold ResolveWorkloadFromPod. destruct (String.eqb _ ""); [done|].
    cbn. intros [e|rs]; [done|]. apply resolve_owner_calls.
  - intros [e|[wl|]]; [done| |done]. by destruct (m !! _).
Qed.

Lemma collect_grows pod m :
  wp (Node.collect_workload pod m) (λ tr o, ∀ m', o = Returned m' → (size m' ≤ S (size m))%nat).
Proof.
  assert (∀ m', Returned m = Returned m' → (size m' ≤ S (size m))%nat) as Hsame
    by (intros m' [= <-]; lia).
  unfold Node.collect_workload. destruct (Node.skip_pod pod); [done|].
  apply wp_bind, wp_runs. intros tr [[e|[wl|]]|msg|] _; cbn [bind_post wp]; try done.
  destruct (m !! _); cbn; [done|]. intros m' [= <-]. apply size_insert_le.
Qed.

Lemma collect_cost pods m :
  wp (for_each Node.collect_workload pods m) (λ tr o, (length tr ≤ 2 * length pods)%nat ∧
    ∀ m', o = Returned m' → (size m' ≤ size m + length pods)%nat).
Proof.
  apply wp_conj.
  - eapply wp_mono; [|apply wp_at_most, at_most_each, collect_calls]. cbn. lia.
  - revert m. induction pods as [|pod pods IH]; intros m; cbn [for_each].
    + intros m' [= <-]. lia.
    + apply wp_bind. eapply wp_mono; [|apply collect_grows].
      intros tr [m1|msg|] Hm1; cbn [bind_post]; [|done..].
      eapply wp_mono; [|apply IH]. intros tr' o Hm' m' Ho.
      specialize (Hm' m' Ho). specialize (Hm1 m1 eq_refl). cbn. lia.
Qed.

Lemma abortWorkloadsForNode_cost node :
  wp (Node.abortWorkloadsForNode node) (λ tr _, (length tr ≤ 3 + 3 * listed tr)%nat).
Proof.
  unfold Node.abortWorkloadsForNode. apply wp_bind. eapply wp_mono; [|apply findWorkloads_cost].
  intros tr [[e|ws]|msg|] [Hn Hs]; cbn [bind_post wp]; [trace_arith| |trace_arith..].
  specialize (Hs ws eq_refl). apply wp_bind. eapply wp_mono; [|apply map_range_cost].
  intros tr1 [es|msg|] [Hn1 Hs1]; cbn [bind_post]; [|trace_arith..].
  specialize (Hs1 es eq_refl). apply wp_bind. eapply wp_mono; [|apply wp_at_most, at_most_each].
  2: { intros x s. apply (at_most_bind 3 0); [apply abortWorkload_calls|]. by intros []. }
  intros tr2 [errs|msg|] Hn2; cbn [bind_post wp]; trace_arith.
Qed.

(** The visits of a pass to the workloads it collected. *)
Lemma visits_cost (ws : gmap string DrainableWorkload) nodeName :
  wp (bind (map_range ws) (λ entries, for_each (λ kw requeueAfter,
        bind (Node.reconcileWorkload cfg kw.2 nodeName) (λ result,
        Ret (match result with
             | inl _ => requeueAfter
             | inr res => Node.min_requeue requeueAfter (RequeueAfter res)
             end))) entries 0%Z))
    (λ tr _, (length tr ≤ 1 + 7 * size ws)%nat).
Proof.
  apply wp_bind. eapply wp_mono; [|apply map_range_cost].
  intros tr [es|msg|] [Hn Hs]; cbn [bind_post]; [|trace_arith..].
  specialize (Hs es eq_refl). eapply wp_mono; [|apply wp_at_most, at_most_each].
  2: { intros x s. apply (at_most_bind 7 0); [apply reconcileWorkload_calls|]. by intros []. }
  intros tr1 o Hn1. cbn in Hn1. trace_arith.
Qed.

Lemma Reconcile_cost name :
  wp (Node.Reconcile cfg name) (λ tr _, (length tr ≤ 5 + 9 * listed tr)%nat).
Proof.
  unfold Node.Reconcile. cbn [bind call wp]. split; [trace_arith|].
  assert (∀ n r, wp (Node.abortWorkloadsForNode n) (λ tr _,
    (length (Called (GetNode name) r :: tr) ≤ 5 + 9 * listed (Called (GetNode name) r :: tr))%nat))
    as Habort.
  { intros n r. eapply wp_mono; [|apply abortWorkloadsForNode_cost]. intros tr o H. trace_arith. }
  intros [e|node] _.
  { destruct (IsNotFound e); [apply Habort|cbn [wp]; trace_arith]. }
  destruct (negb _); [apply Habort|].
  cbn [bind_ok bind wrapf call wp wrap_err]. split; [trace_arith|].
  intros [e|pods] _; cbn [wrap_err bind wp]; [trace_arith|].
  apply wp_bind. eapply wp_mono; [|apply collect_cost].
  intros tr [m|msg|] [Hn Hm]; cbn [bind_post]; [|trace_arith..].
  specialize (Hm m eq_refl). rewrite map_size_empty in Hm.
  apply wp_bind. eapply wp_mono; [|apply findWorkloads_cost].
  intros tr1 [ex|msg|] [Hn1 Hs1]; cbn [bind_post]; [|trace_arith..].
  set (ws := match ex with inl _ => m | inr e => m ∪ e end).
  assert (size ws ≤ length pods + listed tr1)%nat as Hws.
  { subst ws. destruct ex as [e|ex]; [lia|]. specialize (Hs1 ex eq_refl).
    pose proof (size_union_le m ex). lia. }
  clearbody ws. destruct (decide (ws = ∅)); [cbn [wp]; trace_arith|].
  rewrite wp_bind_assoc. apply wp_bind. eapply wp_mono; [|apply visits_cost].
  intros tr2 [d|msg|] Hn2; cbn [bind_post wp]; trace_arith.
Qed.

Lemma RecoverOrphans_cost :
  wp (Node.RecoverOrphans cfg) (λ tr _, (length tr ≤ 3 + 3 * listed tr)%nat).
Proof.
  assert (∀ {T} {D : Drainable T} tainted (l : list T),
    wp (for_each (Node.recover_orphan tainted) l ()) (λ tr _, (length tr ≤ 3 * length l)%nat)) as Hloop.
  { intros T D tainted l. eapply wp_mono; [|apply (wp_at_most (length l * 3)), at_most_each].
    - intros tr o H. cbn in H. lia.
    - intros w u. unfold Node.recover_orphan. destruct (Node.is_orphan tainted w); [|done].
      apply (at_most_bind 3 0); [apply abortWorkload_calls|done]. }
  unfold Node.RecoverOrphans. cbn [bind_ok bind wrapf call wp]. split; [trace_arith|].
  intros [e|nodes] _; cbn [wrap_err bind wp]; [trace_arith|]. split; [trace_arith|].
  intros [e|ros] _; cbn [wrap_err bind wp]; [trace_arith|].
  apply wp_bind. eapply wp_mono; [|apply Hloop].
  intros tr [u|msg|] Hn; cbn [bind_post bind wp]; [|trace_arith..]. split; [trace_arith|].
  intros [e|deps] _; cbn [wrap_err bind wp]; [trace_arith|].
  apply wp_bind. eapply wp_mono; [|apply Hloop].
  intros tr1 [u'|msg|] Hn1; cbn [bind_post bind wp]; trace_arith.
Qed.
End passes.

(** C18. The work of a reconcile is bounded in every environment.  A drain reconcile
    of one workload makes at most 7 calls; a pass over a node at most 5 plus 9 for
    every object its lists returned; a reconcile of a Rollout by the restart-surge
    controller at most 9; the orphan recovery at most 3 plus 3 for every workload
    listed.  In particular every one of them ends after finitely many calls. *)
Theorem calls_bounded {L : K8sLib} (cfg : Config) (tr : list called) :
  (∀ (w : DrainableWorkload) node o, runs (Node.reconcileWorkload cfg w node) tr o → (length tr ≤ 7)%nat)
  ∧ (∀ name o, runs (Node.Reconcile cfg name) tr o → (length tr ≤ 5 + 9 * listed tr)%nat)
  ∧ (∀ ns n o, runs (Restart.Reconcile cfg ns n) tr o → (length tr ≤ 9)%nat)
  ∧ (∀ o, runs (Node.RecoverOrphans cfg) tr o → (length tr ≤ 3 + 3 * listed tr)%nat).
Proof.
  split_all.
  - intros w node o. apply at_most_runs, reconcileWorkload_calls.
  - intros name o Hr. by eapply wp_runs in Hr; [|apply Reconcile_cost].
  - intros ns n o. apply at_most_runs, restart_Reconcile_calls.
  - intros o Hr. by eapply wp_runs in Hr; [|apply RecoverOrphans_cost].
Qed.

(** A surge through an autoscaler makes all seven calls. *)
Definition seven_w : DrainableWorkload := WDeployment sample_w.
Definition seven_p : prog (error + Result) := Node.reconcileWorkload cfg seven_w "node-1".
Definition seven_c : cluster :=
  dep_cluster sample_w [] [web_hpa "Deployment" (Some 1%Z) 3] t0.

Lemma calls_bounded_witness :
  length (trace_of seven_p seven_c) = 7%nat ∧ (length (trace_of seven_p seven_c) ≤ 7)%nat.
Proof.
  split; [vm_compute; reflexivity|].
  destruct (calls_bounded cfg (trace_of seven_p seven_c)) as (H & _).
  apply (H seven_w "node-1" (outcome_of seven_p seven_c)). apply cluster_runs.
Defined.
