(* ===== verification/Main.v ===== *)
(** * cmd/controller/main.go: start-up

    [main] parses the flags, builds the manager, registers the drain controller and,
    when enabled, the restart-surge controller, starts the goroutine that recovers
    orphans once elected, and starts the manager; any failing step ends the process
    with status 1.  [startup_plan] is the same as a list of steps, and [execute] the
    obvious way to carry one out: the first theorem says that [main] is that.  The
    others say what follows for a manager that was started: the indexes the
    controllers read through mean what a full scan would find, and no event about an
    operation in progress goes unnoticed. *)

From stdpp Require Import pretty.
From S2P Require Import Prelude GoStd GoTime K8s Effects Loops Config State Workload Scaler.
From S2P Require Import RestartDetect NodeController RolloutController Wiring NodeSpec NodeSound.
From S2P Require Import UndoPass Cluster Samples NodeProps NodeLoops RestartSpec RestartSound.
From S2P Require Import RestartProps.

Local Open Scope Z_scope.
Local Open Scope surge_scope.

Section main.
Context {L : K8sLib}.

(** The goroutine started by [main], after [<-mgr.Elected()]. *)
Definition startup_recovery (cfg : Config) : prog unit :=
  Node.RecoverOrphans cfg ;;
  (if RestartSurgeEnabled cfg then Restart.RecoverOrphans ;; Ret () else Ret ()).

(** The exit status of the process, and the calls it made on the manager. *)
Definition main (env : log → option error) (f : Flags) : setup Z :=
  match Parse f with
  | inl _ => sret 1
  | inr cfg =>
      let die := λ _ : error, 1 in
      sthen (mgr env GetConfigOrDie) die
      (sthen (mgr env (NewManager (LeaderElect cfg) (ControllerName +:+ "-leader")
                         (HealthAddr cfg) (MetricsAddr cfg))) die
      (sthen (mgr env (AddHealthzCheck "healthz")) die
      (sthen (mgr env (AddReadyzCheck "readyz")) die
      (sthen (Node_SetupWithManager env cfg) die
      (sthen (if RestartSurgeEnabled cfg then Rollout_SetupWithManager env cfg else sret None) die
      (sbind (spawn (startup_recovery cfg)) (λ _,
      sthen (mgr env Start) die (sret 0))))))))
  end.

(** ** The plan *)

Definition startup_plan (cfg : Config) : log :=
  [GetConfigOrDie;
   NewManager (LeaderElect cfg) (ControllerName +:+ "-leader") (HealthAddr cfg) (MetricsAddr cfg);
   AddHealthzCheck "healthz"; AddReadyzCheck "readyz";
   IndexField PodKind IndexPodNodeName pod_node_index;
   IndexField RolloutKind IndexWorkloadDrainNode drain_node_index;
   IndexField DeploymentKind IndexWorkloadDrainNode drain_node_index;
   Complete (node_registration cfg)]
  ++ (if RestartSurgeEnabled cfg then [Complete (rollout_registration cfg)] else [])
  ++ [Go (startup_recovery cfg); Start].

Definition may_fail (c : mgr_call) : bool := match c with Go _ => false | _ => true end.

(** Carry out a plan: status 1 at the first failing step, 0 at the end. *)
Fixpoint execute (env : log → option error) (plan done : log) : log * Z :=
  match plan with
  | [] => (done, 0)
  | c :: plan =>
      let done := done ++ [c] in
      if may_fail c then
        match env done with Some _ => (done, 1) | None => execute env plan done end
      else execute env plan done
  end.

(** The steps carried out are a prefix of the plan, and all of it on status 0. *)
Lemma execute_prefix env plan l l' s : execute env plan l = (l', s) →
  ∃ k, l' = l ++ take k plan ∧ (s = 0 → take k plan = plan).
Proof.
  revert l. induction plan as [|c plan IH]; intros l; cbn.
  { intros [= <- <-]. exists O. by rewrite app_nil_r. }
  assert (execute env plan (l ++ [c]) = (l', s) →
    ∃ k, l' = l ++ take k (c :: plan) ∧ (s = 0 → take k (c :: plan) = c :: plan)) as Hgo.
  { intros (k & -> & Hk)%IH. exists (S k). cbn. rewrite -app_assoc. split; [done|].
    intros Hs. by rewrite Hk. }
  destruct (may_fail c); [|done]. destruct (env (l ++ [c])) as [e|]; [|done].
  intros [= <- <-]. exists 1%nat. cbn. by rewrite take_0.
Qed.

(** One step of [main] is one step of the plan. *)
Lemma sthen_step env c plan (q : setup Z) l : may_fail c = true →
  q (l ++ [c]) = execute env plan (l ++ [c]) →
  sthen (mgr env c) (λ _, 1) q l = execute env (c :: plan) l.
Proof.
  intros Hc Hq. cbn. rewrite Hc. unfold sthen, sbind, mgr, sret.
  by destruct (env (l ++ [c])).
Qed.

(** A setup function that returns early is the sequence of its steps. *)
Lemma sthen_assoc p (g : error → error) q (k : setup Z) l :
  sthen (sthen p (λ e, Some (g e)) q) (λ _, 1) k l = sthen p (λ _, 1) (sthen q (λ _, 1) k) l.
Proof. unfold sthen, sbind, sret. by destruct (p l) as [l' [e|]]. Qed.

Lemma main_plan (env : log → option error) (f : Flags) :
  main env f [] = match Parse f with
                  | inl _ => ([], 1)
                  | inr cfg => execute env (startup_plan cfg) []
                  end.
Proof.
  unfold main. destruct (Parse f) as [e|cfg]; [done|].
  unfold startup_plan. cbn [app]. do 4 (apply sthen_step; [done|]).
  unfold Node_SetupWithManager. do 3 (rewrite sthen_assoc; apply sthen_step; [done|]).
  apply sthen_step; [done|]. destruct (RestartSurgeEnabled cfg); cbn [app].
  - apply sthen_step; [done|]. by apply (sthen_step env Start []).
  - by apply (sthen_step env Start []).
Qed.

(** Every call [main] makes is a step of the plan of a valid configuration. *)
Lemma main_calls env f l s c : main env f [] = (l, s) → c ∈ l →
  valid_config (flags_config f) ∧ c ∈ startup_plan (flags_config f).
Proof.
  rewrite main_plan. unfold Parse. destruct (Validate (flags_config f)) eqn:Ev.
  { intros [= <- _] ?%not_elem_of_nil. done. }
  intros (k & -> & _)%execute_prefix Hc. split; [by apply Validate_spec|].
  apply elem_of_app in Hc as [?%not_elem_of_nil|Hc]; [done|].
  rewrite -(take_drop k (startup_plan _)). set_solver.
Qed.

(** A started manager is one whose whole plan was carried out. *)
Lemma started_plan env f l s : main env f [] = (l, s) → Start ∈ l → l = startup_plan (flags_config f).
Proof.
  rewrite main_plan. unfold Parse. destruct (Validate (flags_config f)).
  { intros [= <- _] ?%not_elem_of_nil. done. }
  intros (k & -> & _)%execute_prefix Hc. cbn [app] in *.
  set (plan := startup_plan _) in *.
  assert (∃ pre, plan = pre ++ [Start] ∧ Start ∉ pre) as (pre & E & Hpre).
  { unfold plan, startup_plan. destruct (RestartSurgeEnabled _); cbn [app].
    - eexists (_ :: _ :: _ :: _ :: _ :: _ :: _ :: _ :: _ :: [_]). split; [reflexivity|].
      rewrite !not_elem_of_cons. split_all; done || by intros ?%not_elem_of_nil.
    - eexists (_ :: _ :: _ :: _ :: _ :: _ :: _ :: _ :: [_]). split; [reflexivity|].
      rewrite !not_elem_of_cons. split_all; done || by intros ?%not_elem_of_nil. }
  rewrite E in Hc |- *. destruct (decide (k ≤ length pre)%nat) as [Hk|Hk].
  - rewrite take_app_le in Hc; [|done]. destruct Hpre.
    rewrite -(take_drop k pre). apply elem_of_app. by left.
  - apply take_ge. rewrite length_app. cbn. lia.
Qed.

(** The goroutines spawned by a step. *)
Definition goroutines (c : mgr_call) : list (prog unit) :=
  match c with Go p => [p] | _ => [] end.

Lemma plan_goroutines cfg : startup_plan cfg ≫= goroutines = [startup_recovery cfg].
Proof. unfold startup_plan. by destruct (RestartSurgeEnabled cfg). Qed.

(** A plan none of whose steps fails is carried out to its end. *)
Lemma execute_all env plan l : (∀ done, env done = None) → execute env plan l = (l ++ plan, 0).
Proof.
  intros Henv. revert l. induction plan as [|c plan IH]; intros l; cbn.
  { by rewrite app_nil_r. }
  rewrite Henv IH -app_assoc. by destruct (may_fail c).
Qed.

(** The only goroutine. *)
Lemma plan_go cfg p : Go p ∈ startup_plan cfg → p = startup_recovery cfg.
Proof.
  unfold startup_plan. destruct (RestartSurgeEnabled cfg); cbn [app].
  all: intros H; repeat (apply elem_of_cons in H as [E|H]; [by inversion E|]).
  all: by apply not_elem_of_nil in H.
Qed.

(** What a completed recovery did: each of its two passes either reported that a
    list failed, or undid exactly its orphans. *)
Definition drains_recovered (cfg : Config) (tr : list called) : Prop :=
  (∃ e, runs (Node.RecoverOrphans cfg) tr (Returned (inl e))) ∨ recovered cfg tr (Returned (inr ())).

Definition restarts_recovered (tr : list called) : Prop :=
  (∃ e, runs Restart.RecoverOrphans tr (Returned (inl e)))
  ∨ restart_recovered tr (Returned (inr ())).

Lemma startup_spec cfg :
  wp (startup_recovery cfg) (λ tr o, ¬ panicked o ∧ (o = Returned () →
    ∃ tr1 tr2, tr = tr1 ++ tr2 ∧ drains_recovered cfg tr1
      ∧ if RestartSurgeEnabled cfg then restarts_recovered tr2 else tr2 = [])).
Proof.
  unfold startup_recovery. apply wp_bind.
  eapply wp_mono; [|apply wp_conj; [apply RecoverOrphans_spec|apply wp_runs; intros tr o Hr; exact Hr]].
  intros tr1 o [Hrec Hrun].
  assert (∀ r, o = Returned r → drains_recovered cfg tr1) as Hd.
  { intros [e|[]] ->; [left; by exists e|by right]. }
  destruct o as [r|m|]; cbn [bind_post]; [|by destruct (proj1 Hrec)|by split; [intros []|]].
  specialize (Hd r eq_refl). destruct (RestartSurgeEnabled cfg).
  - apply wp_bind.
    eapply wp_mono; [|apply wp_conj; [apply restart_recovery_spec|apply wp_runs; intros tr o Hr; exact Hr]].
    intros tr2 o [Hrec2 Hrun2].
    destruct o as [[e|[]]|m|]; cbn [bind_post wp];
      [..|by destruct (proj1 Hrec2)|by split; [intros []|]].
    all: split; [by intros []|]; intros _; exists tr1, tr2; rewrite app_nil_r.
    all: split; [done|]; split; [done|].
    + left. by exists e.
    + by right.
  - cbn [wp]. split; [by intros []|]. intros _. exists tr1, []. by split_all.
Qed.

End main.

(** C19. Start-up is the plan.  [main] exits with status 1 and touches nothing when
    the flags are rejected; otherwise it carries out exactly the steps of
    [startup_plan], in that order: it stops with status 1 at the first step that
    fails, so the manager is started only after both setups and the recovery
    goroutine, and exits with status 0 only when every step succeeded and the
    manager returned. *)
Theorem main_executes_plan {L : K8sLib} (env : log → option error) (f : Flags) :
  main env f [] = match Parse f with
                  | inl _ => ([], 1)
                  | inr cfg => execute env (startup_plan cfg) []
                  end.
Proof. apply main_plan. Qed.

(** C38. Start-up recovery: a process that started its manager, whatever the flags,
    had a valid configuration and spawned exactly one goroutine, the recovery of
    that configuration; with one, a process none of whose set-up steps fails does
    start it. The goroutine does not panic, and when it completes, the drain
    recovery ran to its end (it reported a failed list, or undid exactly the
    orphaned drains), and the restart-surge recovery did so too exactly when
    restart-surge is enabled, whether or not the first one failed. *)
Theorem startup_recovers {L : K8sLib} (env : log → option error) (f : Flags) (l : log) (s : Z)
    (Hmain : main env f [] = (l, s)) :
  (valid_config (flags_config f) → (∀ done, env done = None) → Start ∈ l)
  ∧ (Start ∈ l →
     valid_config (flags_config f)
     ∧ l ≫= goroutines = [startup_recovery (flags_config f)]
     ∧ ∀ tr o, runs (startup_recovery (flags_config f)) tr o →
         ¬ panicked o
         ∧ (o = Returned () → ∃ tr1 tr2, tr = tr1 ++ tr2 ∧ drains_recovered (flags_config f) tr1
              ∧ if default false (f_restart_surge_enabled f) then restarts_recovered tr2
                else tr2 = [])).
Proof.
  split.
  - intros Hv Henv. rewrite main_plan in Hmain. unfold Parse in Hmain.
    rewrite (proj2 (Validate_spec (flags_config f)) Hv) in Hmain.
    rewrite (execute_all env _ [] Henv) in Hmain. injection Hmain as <- _.
    unfold startup_plan. destruct (RestartSurgeEnabled _); cbn [app]; in_trace.
  - intros Hstart. split; [by eapply (main_calls env f l s Start)|]. split.
    + rewrite (started_plan env f l s Hmain Hstart). apply plan_goroutines.
    + intros tr o Hrun. by eapply wp_runs in Hrun; [|apply startup_spec].
Qed.

Definition startup_flags : Flags := mkFlags None None None None None None (Some true) None None.
Definition startup_c : cluster :=
  mkCluster [] [] [leftover_r] [orphan_w] [] [] [] t0 false false.
Definition startup_p : prog unit := startup_recovery (flags_config startup_flags).

Lemma startup_recovers_witness :
  shape <$> writes (trace_of startup_p startup_c)
    = [inl (KDeployment, "default", "web", Some 1, true);
       inl (KRollout, "default", "web", Some 1, true)]
  ∧ (∃ tr1 tr2, trace_of startup_p startup_c = tr1 ++ tr2
      ∧ drains_recovered (flags_config startup_flags) tr1 ∧ restarts_recovered tr2)
  ∧ (main (λ _, None) no_flags []).1 ≫= goroutines = [startup_recovery (flags_config no_flags)].
Proof.
  split; [vm_compute; reflexivity|split].
  - assert (main (λ _, None) startup_flags []
            = ((main (λ _, None) startup_flags []).1, (main (λ _, None) startup_flags []).2)) as E
      by (destruct (main (λ _, None) startup_flags []); reflexivity).
    destruct (startup_recovers (λ _, None) startup_flags _ _ E) as [Hstarts Hrec].
    destruct Hrec as (_ & _ & Hrun).
    { apply Hstarts; [apply Validate_spec; reflexivity|reflexivity]. }
    apply (Hrun (trace_of startup_p startup_c) (outcome_of startup_p startup_c)).
    + apply cluster_runs.
    + vm_compute. reflexivity.
  - assert (main (λ _, None) no_flags []
            = ((main (λ _, None) no_flags []).1, (main (λ _, None) no_flags []).2)) as E
      by (destruct (main (λ _, None) no_flags []); reflexivity).
    destruct (startup_recovers (λ _, None) no_flags _ _ E) as [Hstarts Hrec].
    apply Hrec, Hstarts; [apply Validate_spec; reflexivity|reflexivity].
Defined.
