(* ===== verification/Watches.v ===== *)
(** * What a started manager guarantees the controllers

    For a process that reached [Start]: the indexes the drain controller lists
    through give exactly what a scan of all objects would give ([index_scan]), and
    an event about an operation in progress always leads to a reconcile of it
    ([wakeups]). *)

From stdpp Require Import pretty.
From S2P Require Import Prelude GoStd GoTime K8s Effects Loops Config State Workload Scaler.
From S2P Require Import RestartDetect NodeController RolloutController Wiring NodeSpec NodeSound.
From S2P Require Import UndoPass Cluster Samples NodeProps NodeLoops NodeReconcile NodeVisits.
From S2P Require Import RestartSpec RestartSound RestartProps Main.

Local Open Scope Z_scope.
Local Open Scope surge_scope.

Section indexes.
Context {L : K8sLib}.

(** The value of an index contains [n]. *)
Definition indexed_under (ex : object → prog (list string)) (n : string) (o : object) : Prop :=
  ∃ tr vs, runs (ex o) tr (Returned vs) ∧ n ∈ vs.

(** A cache that answers lists by field through the registered index functions, for
    the stored objects [objs]. *)
Record honours {W : Type} (l : log) (S : server W) (objs : W → list object) : Prop := {
  hon_unchanged : ∀ n w, (serve S (ListRollouts (Some n)) w).2 = w;
  hon_rollouts : ∀ ex n w ros, IndexField RolloutKind IndexWorkloadDrainNode ex ∈ l →
    (serve S (ListRollouts (Some n)) w).1 = inr ros →
    ∀ r, r ∈ ros ↔ ORollout r ∈ objs w ∧ indexed_under ex n (ORollout r);
  hon_deployments : ∀ ex n w deps, IndexField DeploymentKind IndexWorkloadDrainNode ex ∈ l →
    (serve S (ListDeployments (Some n)) w).1 = inr deps →
    ∀ d, d ∈ deps ↔ ODeployment d ∈ objs w ∧ indexed_under ex n (ODeployment d);
  hon_pods : ∀ ex n w pods, IndexField PodKind IndexPodNodeName ex ∈ l →
    (serve S (ListPodsOnNode n) w).1 = inr pods →
    ∀ p, p ∈ pods ↔ OPod p ∈ objs w ∧ indexed_under ex n (OPod p)
}.

(** The workloads a full scan finds for a node. *)
Definition as_workload (o : object) : option DrainableWorkload :=
  match o with
  | ORollout r => Some (WRollout r)
  | ODeployment d => Some (WDeployment d)
  | _ => None
  end.
Definition scan (node : string) (os : list object) : list DrainableWorkload :=
  List.filter (λ v, String.eqb (Node.anno v AnnotationDrainNode) node) (omap as_workload os).

Lemma elem_of_scan node os v :
  v ∈ scan node os ↔ Node.anno v AnnotationDrainNode = node ∧ ∃ o, o ∈ os ∧ as_workload o = Some v.
Proof.
  unfold scan. rewrite list_elem_of_In filter_In -list_elem_of_In list_elem_of_omap String.eqb_eq.
  naive_solver.
Qed.

Lemma drain_index_spec n o : n ≠ "" →
  indexed_under drain_node_index n o
  ↔ anno_get (Annotations (object_meta o)) AnnotationDrainNode = n.
Proof.
  intros Hn. unfold indexed_under, drain_node_index, Node.indexByDrainNodeAnnotation. cbn. split.
  - intros (tr & vs & [-> [= ->]] & Hv). destruct (String.eqb _ ""); [set_solver|].
    by apply list_elem_of_singleton in Hv.
  - intros E. eexists [], _. split; [done|]. rewrite E.
    destruct (String.eqb_spec n ""); [done|]. apply list_elem_of_here.
Qed.

Lemma pod_index_spec n p : n ≠ "" → indexed_under pod_node_index n (OPod p) ↔ pod_NodeName p = n.
Proof.
  intros Hn. unfold indexed_under, pod_node_index, Node.indexPodByNode. cbn. split.
  - intros (tr & vs & [-> [= ->]] & Hv). destruct (String.eqb _ ""); [set_solver|].
    by apply list_elem_of_singleton in Hv.
  - intros E. eexists [], _. split; [done|]. rewrite E.
    destruct (String.eqb_spec n ""); [done|]. apply list_elem_of_here.
Qed.

(** The three index registrations of the plan. *)
Lemma plan_indexes cfg :
  IndexField PodKind IndexPodNodeName pod_node_index ∈ startup_plan cfg
  ∧ IndexField RolloutKind IndexWorkloadDrainNode drain_node_index ∈ startup_plan cfg
  ∧ IndexField DeploymentKind IndexWorkloadDrainNode drain_node_index ∈ startup_plan cfg.
Proof. unfold startup_plan. cbn [app]. split_all; in_trace. Qed.

(** What a run of the lookup against a server returns. *)
Lemma findWorkloads_run {W} (S : server W) node w tr ws w' :
  run S (Node.findWorkloadsWithDrainNode node) w = (tr, Returned (inr ws), w') →
  ∃ ros deps, (serve S (ListRollouts (Some node)) w).1 = inr ros
    ∧ (serve S (ListDeployments (Some node)) (serve S (ListRollouts (Some node)) w).2).1 = inr deps
    ∧ ws = found_workloads ros deps.
Proof.
  unfold Node.findWorkloadsWithDrainNode. cbn.
  destruct (serve S (ListRollouts (Some node)) w) as [[e|ros] w1]; cbn; [by intros [=]|].
  destruct (serve S (ListDeployments (Some node)) w1) as [[e|deps] w2]; cbn; [by intros [=]|].
  intros [= _ <- _]. eauto.
Qed.
End indexes.

(** C20. Listing through an index is scanning.  In a process that started its manager,
    against a cache that answers field lists through the registered index functions,
    [findWorkloadsWithDrainNode] returns under its key every stored workload whose
    drain-node annotation names the node, or another one with the same key, and
    nothing else; and the pods listed for a node are exactly the
    stored pods bound to it. *)
Theorem index_scan {L : K8sLib} {W : Type} (env : log → option error) (f : Flags) (l : log) (s : Z)
    (S : server W) (objs : W → list object) (node : string) (w w' : W) tr
    (ws : gmap string DrainableWorkload)
    (Hmain : main env f [] = (l, s)) (Hstart : Start ∈ l) (Hcache : honours l S objs)
    (Hnode : node ≠ "")
    (Hrun : run S (Node.findWorkloadsWithDrainNode node) w = (tr, Returned (inr ws), w')) :
  (∀ k v, ws !! k = Some v → v ∈ scan node (objs w) ∧ k = Node.key_of v)
  ∧ (∀ v, v ∈ scan node (objs w) → is_Some (ws !! Node.key_of v))
  ∧ (∀ pods p, (serve S (ListPodsOnNode node) w).1 = inr pods →
       p ∈ pods ↔ OPod p ∈ objs w ∧ pod_NodeName p = node).
Proof.
  rewrite (started_plan env f l s Hmain Hstart) in Hcache. destruct Hcache as [Hsame Hros Hdeps Hpods].
  destruct (plan_indexes (flags_config f)) as (Hp & Hr & Hd).
  destruct (findWorkloads_run S node w tr ws w' Hrun) as (ros & deps & Er & Ed & ->).
  rewrite Hsame in Ed. specialize (Hros _ _ _ _ Hr Er). specialize (Hdeps _ _ _ _ Hd Ed).
  setoid_rewrite drain_index_spec in Hros; [|done]. setoid_rewrite drain_index_spec in Hdeps; [|done].
  split_all.
  - intros k v Hv. split; [|by eapply found_own_key]. apply elem_of_scan.
    apply found_elem in Hv as [(x & -> & [Hx Ha]%Hros)|(x & -> & [Hx Ha]%Hdeps)]; (split; [done|]); eauto.
  - intros v (Ha & o & Ho & Hv)%elem_of_scan. apply found_has, elem_of_app.
    destruct o; cbn in Hv; simplify_eq.
    + left. apply list_elem_of_fmap_2, Hros. done.
    + right. apply list_elem_of_fmap_2, Hdeps. done.
  - intros pods p Epods. rewrite (Hpods _ _ _ _ Hp Epods). by rewrite pod_index_spec.
Qed.

(** ** The in-memory server is such a cache *)

Definition cluster_objects {L : K8sLib} (c : cluster) : list object :=
  (ONode <$> c_nodes c) ++ (OPod <$> c_pods c) ++ (ORollout <$> c_rollouts c)
  ++ (ODeployment <$> c_deployments c).

Section cluster.
Context {L : K8sLib}.

Lemma plan_index cfg k field ex : IndexField k field ex ∈ startup_plan cfg →
  ex = match k with PodKind => pod_node_index | _ => drain_node_index end.
Proof.
  unfold startup_plan. destruct (RestartSurgeEnabled cfg); cbn [app].
  all: intros H; repeat (apply elem_of_cons in H as [E|H]; [by inversion E|]).
  all: by apply not_elem_of_nil in H.
Qed.

Lemma indexed_under_ret ex n o vs : ex o = Ret vs →
  indexed_under ex n o ↔ existsb (String.eqb n) vs = true.
Proof.
  intros E. rewrite existsb_true_iff. setoid_rewrite String.eqb_eq.
  unfold indexed_under. rewrite E. cbn. split.
  - intros (tr & vs' & [-> [= ->]] & Hv). eauto.
  - intros (x & Hx & ->). eauto.
Qed.

Lemma elem_of_List_filter {A} (g : A → bool) l x : x ∈ List.filter g l ↔ x ∈ l ∧ g x = true.
Proof. by rewrite list_elem_of_In filter_In -list_elem_of_In. Qed.

Lemma cluster_honours cfg : honours (startup_plan cfg) cluster_server cluster_objects.
Proof.
  split; [done|..]; intros ex n c x Hex%plan_index [= <-] y; subst ex; rewrite elem_of_List_filter.
  all: erewrite indexed_under_ret by reflexivity.
  all: unfold cluster_objects; rewrite !elem_of_app !list_elem_of_fmap; naive_solver.
Qed.
End cluster.

Definition scan_w : Deployment := web_dep (Some 2) (draining_annotations DrainStateScaledUp).
Definition scan_c : cluster := dep_cluster scan_w [] [] t0.
Definition scan_p : prog (error + gmap string DrainableWorkload) :=
  Node.findWorkloadsWithDrainNode "node-1".
Definition scan_ws : gmap string DrainableWorkload :=
  match outcome_of scan_p scan_c with Returned (inr ws) => ws | _ => ∅ end.

Lemma index_scan_witness :
  is_Some (scan_ws !! Node.key_of (WDeployment scan_w)).
Proof.
  destruct (index_scan (λ _, None) no_flags (main (λ _, None) no_flags []).1
              (main (λ _, None) no_flags []).2 cluster_server cluster_objects "node-1" scan_c
              (after scan_p scan_c) (trace_of scan_p scan_c) scan_ws) as (_ & H & _).
  - destruct (main (λ _, None) no_flags []). reflexivity.
  - rewrite main_plan. in_trace.
  - rewrite main_plan. apply (cluster_honours (flags_config no_flags)).
  - discriminate.
  - unfold scan_ws, Node.findWorkloadsWithDrainNode. reflexivity.
  - apply H, elem_of_scan. split; [vm_compute; reflexivity|].
    exists (ODeployment scan_w). split; [|reflexivity].
    unfold cluster_objects. cbn. apply list_elem_of_further, list_elem_of_here.
Defined.

(** ** Wake-ups *)

Section wakeups.
Context {L : K8sLib} {LL : K8sLibLaws L} {CR : ControllerRuntime}.

(** The events that queue a reconcile of a node. *)
Definition node_wakeups (reg : Registration) : Prop :=
  (∀ ev nd, event_object ev = ONode nd →
     delivers reg ev (mkRequest (Namespace (node_meta nd)) (Name (node_meta nd))))
  ∧ (∀ ev pod, OPod pod ∈ event_objects ev → pod_NodeName pod ≠ "" →
       delivers reg ev (mkRequest "" (pod_NodeName pod)))
  ∧ (∀ ev o v, o ∈ event_objects ev → as_workload o = Some v →
       Node.anno v AnnotationDrainNode ≠ "" →
       delivers reg ev (mkRequest "" (Node.anno v AnnotationDrainNode))).

(** An event about a Rollout queues it, or a reconcile would change nothing. *)
Definition rollout_wakeups (cfg : Config) (reg : Registration) : Prop :=
  ∀ ev r, event_object ev = ORollout r →
    delivers reg ev (mkRequest (Namespace (ro_meta r)) (Name (ro_meta r)))
    ∨ ∀ tr o, runs (Restart.reconcileWorkload cfg r) tr o → writes tr = [].

Lemma node_registration_wakes cfg : node_wakeups (node_registration cfg).
Proof.
  unfold node_wakeups. split_all.
  - intros ev nd E. pose proof (delivers_for (node_registration cfg) ev) as H. rewrite E in H.
    by apply H.
  - intros ev pod Hin Hn. eapply (delivers_map _ ev (mkWatch PodKind mapPodToNode) (OPod pod) []).
    + in_trace.
    + done.
    + done.
    + cbn. split; reflexivity.
    + unfold Node.mapPodToNode. destruct (String.eqb_spec (pod_NodeName pod) ""); [done|].
      apply list_elem_of_here.
  - intros ev o v Hin Hv Ha.
    assert (∀ k, mkWatch k mapWorkloadToNode ∈ reg_watches (node_registration cfg) →
      kind_of o = k → anno_get (Annotations (object_meta o)) AnnotationDrainNode
                      = Node.anno v AnnotationDrainNode →
      delivers (node_registration cfg) ev (mkRequest "" (Node.anno v AnnotationDrainNode))) as Hmap.
    { intros k Hk Ho E. eapply (delivers_map _ ev (mkWatch k mapWorkloadToNode) o []);
        [done|done|done|cbn; split; reflexivity|].
      unfold Node.mapWorkloadToNode. rewrite E.
      destruct (String.eqb_spec (Node.anno v AnnotationDrainNode) ""); [done|].
      apply list_elem_of_here. }
    destruct o; cbn in Hv; simplify_eq; [apply (Hmap RolloutKind)|apply (Hmap DeploymentKind)];
      done || in_trace.
Qed.

Lemma rollout_registration_wakes cfg : rollout_wakeups cfg (rollout_registration cfg).
Proof using LL.
  intros ev r E. destruct (Restart.rolloutRelevantPredicate (EnabledAnnotation cfg) r) eqn:Hp.
  - left. pose proof (delivers_for (rollout_registration cfg) ev) as H. rewrite E in H.
    apply H; [done|]. repeat constructor. unfold rollout_predicate. by rewrite E.
  - right. intros tr o. by apply rejected_no_writes.
Qed.

Lemma plan_registrations cfg reg : Complete reg ∈ startup_plan cfg ↔
  reg = node_registration cfg ∨ (RestartSurgeEnabled cfg = true ∧ reg = rollout_registration cfg).
Proof.
  unfold startup_plan. destruct (RestartSurgeEnabled cfg); cbn [app]; split.
  1, 3: intros H; repeat (apply elem_of_cons in H as [E|H]; [inversion E; by auto|]);
    by apply not_elem_of_nil in H.
  all: intros [->|[? ->]]; done || in_trace.
Qed.
End wakeups.

(** C16. No wake-up is lost.  A process that started its manager has registered the
    drain controller, and the restart-surge controller exactly when it is enabled,
    and nothing else.  Then a node event queues that node; an event about a pod, old
    or new version, queues the node it is bound to; an event about a workload, old or
    new version, that records a drain queues the recorded node; and an event about a
    Rollout queues that Rollout for the restart-surge controller, unless a reconcile
    of it would change nothing. *)
Theorem wakeups {L : K8sLib} {LL : K8sLibLaws L} {CR : ControllerRuntime}
    (env : log → option error) (f : Flags) (l : log) (s : Z)
    (Hmain : main env f [] = (l, s)) (Hstart : Start ∈ l) :
  let cfg := flags_config f in
  (∀ reg, Complete reg ∈ l ↔ reg = node_registration cfg
          ∨ (RestartSurgeEnabled cfg = true ∧ reg = rollout_registration cfg))
  ∧ (∀ q, reg_reconcile (node_registration cfg) q = Node.Reconcile cfg (req_Name q))
  ∧ node_wakeups (node_registration cfg)
  ∧ (∀ q, reg_reconcile (rollout_registration cfg) q
          = Restart.Reconcile cfg (req_Namespace q) (req_Name q))
  ∧ rollout_wakeups cfg (rollout_registration cfg).
Proof.
  intros cfg. rewrite (started_plan env f l s Hmain Hstart). split_all; [|done| |done|].
  - intros reg. apply plan_registrations.
  - apply node_registration_wakes.
  - apply rollout_registration_wakes.
Qed.

(** A controller-runtime that delivers exactly what its documentation says. *)
Inductive documented_delivery {L : K8sLib} (reg : Registration) (ev : event) : Request → Prop :=
| deliver_for : kind_of (event_object ev) = reg_for reg →
    Forall (λ pr, pr ev = true) (reg_predicates reg) →
    documented_delivery reg ev (mkRequest (Namespace (object_meta (event_object ev)))
                                          (Name (object_meta (event_object ev))))
| deliver_map w o tr reqs q : w ∈ reg_watches reg → o ∈ event_objects ev →
    kind_of o = watch_kind w → runs (watch_map w o) tr (Returned reqs) → q ∈ reqs →
    documented_delivery reg ev q.

#[export] Instance documented_runtime {L : K8sLib} : ControllerRuntime :=
  {| delivers := documented_delivery; delivers_for := deliver_for; delivers_map := deliver_map |}.

Lemma wakeups_witness :
  documented_delivery (node_registration (flags_config startup_flags))
    (UpdateEvent (ODeployment scan_w) (ODeployment (web_dep (Some 1) enabled)))
    (mkRequest "" "node-1").
Proof.
  destruct (wakeups (LL := match_labels_laws) (λ _, None) startup_flags
              (main (λ _, None) startup_flags []).1 (main (λ _, None) startup_flags []).2)
    as (_ & _ & (_ & _ & H) & _).
  - destruct (main (λ _, None) startup_flags []). reflexivity.
  - rewrite main_plan. in_trace.
  - assert (Node.anno (WDeployment scan_w) AnnotationDrainNode = "node-1") as E
      by (vm_compute; reflexivity).
    rewrite -E. apply (H _ (ODeployment scan_w)).
    + apply list_elem_of_here.
    + reflexivity.
    + rewrite E. discriminate.
Defined.

(** ** No panic *)

Section panics.
Context {L : K8sLib}.

(** No environment makes the program panic. *)
Definition safe {A} (p : prog A) : Prop := ∀ tr msg, ¬ runs p tr (Panicked msg).

Lemma safe_wp {A} (p : prog A) : wp p (λ _ o, ¬ panicked o) → safe p.
Proof. intros H tr msg Hr. eapply wp_runs in Hr; [|exact H]. by apply Hr. Qed.

Lemma restart_Reconcile_safe cfg ns n : safe (Restart.Reconcile cfg ns n).
Proof.
  apply safe_wp. unfold Restart.Reconcile. cbn [bind call wp]. split; [by intros []|].
  intros [e|ro] _; [destruct (IsNotFound e); by intros []|].
  eapply wp_mono; [|apply restart_reconcile_effect]. by intros tr o [Hp _].
Qed.

Lemma mapPodToRollout_safe pod : safe (mapPodToRollout (OPod pod)).
Proof.
  apply safe_wp. unfold mapPodToRollout, Restart.mapPodToRollout. apply wp_bind, wp_bind.
  eapply wp_mono; [|apply ResolveWorkloadFromPod_reads].
  intros tr [r|m|] [_ Hp]; cbn; [by intros []|by destruct (Hp m)|by intros []].
Qed.

Lemma ret_safe {A} (a : A) : safe (Ret a).
Proof. by intros tr msg [_ [=]]. Qed.
End panics.

(** C17. The process does not panic in the code it hands over.  Whatever steps of its
    start-up were carried out: no request, no stored objects and no answers of the
    API server make a registered reconcile function panic; no object of the watched
    or indexed kind makes a mapping or index function panic; and the recovery
    goroutine does not panic. *)
Theorem process_no_panic {L : K8sLib} (env : log → option error) (f : Flags) (l : log) (s : Z)
    (Hmain : main env f [] = (l, s)) :
  (∀ reg q, Complete reg ∈ l → safe (reg_reconcile reg q))
  ∧ (∀ reg w o, Complete reg ∈ l → w ∈ reg_watches reg → kind_of o = watch_kind w →
       safe (watch_map w o))
  ∧ (∀ k field ex o, IndexField k field ex ∈ l → kind_of o = k → safe (ex o))
  ∧ (∀ p, Go p ∈ l → safe p).
Proof.
  pose proof (main_calls env f l s) as Hc. split_all.
  - intros reg q [_ [->|[_ ->]]%plan_registrations]%Hc; [..|done]; cbn.
    + apply safe_wp. eapply wp_mono; [|apply Reconcile_pass_ok]. by intros tr o [Hp _].
    + apply restart_Reconcile_safe.
  - intros reg w o [_ [->|[_ ->]]%plan_registrations]%Hc Hw Ho; [..|done].
    all: repeat (apply elem_of_cons in Hw as [->|Hw]; [destruct o; try done; apply ret_safe
                                                         || apply mapPodToRollout_safe|]).
    all: by apply not_elem_of_nil in Hw.
  - intros k field ex o [_ ->%plan_index]%Hc <-; [|done]. destruct o; apply ret_safe.
  - intros p [_ ->%plan_go]%Hc; [|done]. apply safe_wp.
    eapply wp_mono; [|apply startup_spec]. by intros tr o [Hp _].
Qed.

Lemma process_no_panic_witness :
  safe (Node.Reconcile (flags_config startup_flags) "node-1") ∧ safe startup_p.
Proof.
  destruct (process_no_panic (λ _, None) startup_flags (main (λ _, None) startup_flags []).1
              (main (λ _, None) startup_flags []).2) as (H1 & _ & _ & H2).
  - destruct (main (λ _, None) startup_flags []). reflexivity.
  - split.
    + apply (H1 (node_registration (flags_config startup_flags)) (mkRequest "" "node-1")).
      rewrite main_plan. in_trace.
    + apply H2. rewrite main_plan. in_trace.
Defined.
